(** * Elvish layout widgets: style cache, reactive state and prefetch link

    A shallow embedding of the parts of [elvish.js], [primitives/gil/gil.js],
    [global/touch.js] and the [i-thir] element that carry the invariants of
    the specification: the inline "style cache" of every [render()], the
    sentinel observer of [i-him], the overflow observers of [i-glan-tholl],
    the touch long-press timers and the prefetch scheduler of [i-gil].

    Conventions of the model.

    - JavaScript strings are [string]; a character stands for the UTF-16
      code unit of the same number, so the model covers the strings whose
      code units are below 256.  Numbers produced by [parseInt] are [NaN],
      integer-valued doubles or infinities.
    - An element with behaviour is a record of its fields and of the part of
      the environment that it talks to: registered listeners, pending
      timers, connected observers, the document.  The environment acts
      through an [Event] type and a [step] function; [run] folds [step] over
      a list of events.  Timers, observers and closures are named by
      numbers drawn from a counter.
    - [init] gives an element the attributes that it has when the model
      starts, without running a callback for them.  An element that a page
      builds gets [attributeChangedCallback] for each observed attribute
      before [connectedCallback]; in the model that is a [SetAttribute]
      event before [Attach].
    - A disconnected observer delivers nothing; a cleared timer never fires.
    - [i-gil] has no clock: its pending timers may elapse at any time.  The
      two touch models have a clock in milliseconds, and timers elapse in
      the order in which they are due.

    The first part of the file holds the definitions, the second part the
    properties. *)

From Stdlib Require Import ZArith Ascii DecimalString.
From stdpp Require Import base option list strings gmap.

Local Open Scope Z_scope.
#[local] Set Warnings "-register-all".

(** ** JavaScript string and number primitives *)
Module JS.

Definition code (c : ascii) : N := N_of_ascii c.

Definition between (lo hi : N) (c : ascii) : bool :=
  ((lo <=? code c) && (code c <=? hi))%N.

Definition is_digit (c : ascii) : bool := between 48 57 c.
Definition is_upper (c : ascii) : bool := between 65 90 c.
Definition is_lower (c : ascii) : bool := between 97 122 c.

(** [\w] without the unicode flag: [A-Za-z0-9_]. *)
Definition is_word (c : ascii) : bool :=
  is_digit c || is_upper c || is_lower c || (code c =? 95)%N.

(** The character class [[\w-]]. *)
Definition is_id_char (c : ascii) : bool := is_word c || (code c =? 45)%N.

(** [\s], also the set stripped by [trim] and skipped by [parseInt]:
    TAB, LF, VT, FF, CR, SPACE and NBSP among the code units below 256. *)
Definition is_space (c : ascii) : bool :=
  between 9 13 c || (code c =? 32)%N || (code c =? 160)%N.

Fixpoint filter_chars (p : ascii -> bool) (s : string) : string :=
  match s with
  | EmptyString => EmptyString
  | String c r => if p c then String c (filter_chars p r) else filter_chars p r
  end.

(** [s.replace(/[^\w-]/g, '')] *)
Definition sanitize (s : string) : string := filter_chars is_id_char s.

Fixpoint drop_while (p : ascii -> bool) (s : string) : string :=
  match s with
  | EmptyString => EmptyString
  | String c r => if p c then drop_while p r else s
  end.

Definition trimStart (s : string) : string := drop_while is_space s.
Definition trimEnd (s : string) : string :=
  String.rev (drop_while is_space (String.rev s)).
(** [s.trim()] *)
Definition trim (s : string) : string := trimEnd (trimStart s).

(** [s.includes(c)] for a one-character needle. *)
Fixpoint includes (c : ascii) (s : string) : bool :=
  match s with
  | EmptyString => false
  | String d r => if Ascii.eqb c d then true else includes c r
  end.

(** [s.split(c)] for a one-character separator: the pieces between the
    separators, never an empty array. *)
Fixpoint split_on (sep : ascii) (s : string) : list string :=
  match s with
  | EmptyString => [EmptyString]
  | String c r =>
      if Ascii.eqb c sep then EmptyString :: split_on sep r
      else match split_on sep r with
           | [] => [String c EmptyString]
           | p :: ps => String c p :: ps
           end
  end.

(** [s.split(/\s+/)]: a maximal run of white space is one separator; a
    leading or trailing run leaves an empty first or last piece.
    [in_run] tells that the previous character was white space. *)
Fixpoint split_ws_aux (in_run : bool) (s : string) : list string :=
  match s with
  | EmptyString => [EmptyString]
  | String c r =>
      if is_space c then
        if in_run then split_ws_aux true r
        else EmptyString :: split_ws_aux true r
      else match split_ws_aux false r with
           | [] => [String c EmptyString]
           | p :: ps => String c p :: ps
           end
  end.
Definition split_ws (s : string) : list string := split_ws_aux false s.

(** Whether [needle] occurs in [s] (used to search generated CSS). *)
Fixpoint is_prefix (p s : string) : bool :=
  match p, s with
  | EmptyString, _ => true
  | String a p', String b s' => Ascii.eqb a b && is_prefix p' s'
  | String _ _, EmptyString => false
  end.
Fixpoint contains (needle s : string) : bool :=
  is_prefix needle s ||
  match s with
  | EmptyString => false
  | String _ r => contains needle r
  end.

(** A JavaScript number as far as these widgets produce one: [NaN], an
    integer-valued double, or an infinity.  [Int z] stands for the double
    of value [z]; [parseInt] and the arithmetic below only build it for a
    [z] that is a double, since they round with [to_double]. *)
Inductive Number := NaN | Int (z : Z) | Infinity (negative : bool).

(** The double nearest to an integer, ties to even; an integer beyond the
    largest double gives an infinity. *)
Definition to_double (z : Z) : Number :=
  let a := Z.abs z in
  if a <? 2 ^ 53 then Int z
  else
    let e := Z.log2 a - 52 in
    let q := Z.shiftr a e in
    let r := a - Z.shiftl q e in
    let half := 2 ^ (e - 1) in
    let q := if (half <? r) || ((r =? half) && Z.odd q) then q + 1 else q in
    let m := Z.shiftl q e in
    if 2 ^ 1024 <=? m then Infinity (z <? 0)
    else Int (Z.sgn z * m).

#[global] Instance Number_eq_dec : EqDecision Number.
Proof. solve_decision. Defined.

(** ToBoolean on numbers: [NaN] and [0] are falsy. *)
Definition truthy_num (n : Number) : bool :=
  match n with NaN => false | Int z => negb (z =? 0) | Infinity _ => true end.

(** ToBoolean on a string-or-null attribute value. *)
Definition truthy_str (v : option string) : bool :=
  match v with
  | None | Some EmptyString => false
  | Some _ => true
  end.

(** [v || d] for a string-or-null [v] and a string [d]. *)
Definition or_default (v : option string) (d : string) : string :=
  match v with
  | Some (String c r) => String c r
  | _ => d
  end.

(** ToString on a string-or-null value inside a template literal. *)
Definition str_of_null (v : option string) : string :=
  match v with Some s => s | None => "null" end.

(** ToString on a string-or-undefined value inside a template literal. *)
Definition str_of_undef (v : option string) : string :=
  match v with Some s => s | None => "undefined" end.

(** Value of a digit in a radix up to 36. *)
Definition digit_val (c : ascii) : option Z :=
  if is_digit c then Some (Z.of_N (code c) - 48)
  else if is_lower c then Some (Z.of_N (code c) - 87)
  else if is_upper c then Some (Z.of_N (code c) - 55)
  else None.

(** The longest prefix of radix-[r] digits, accumulated left to right;
    [None] when there is no digit at all. *)
Fixpoint digits (r : Z) (acc : option Z) (s : string) : option Z :=
  match s with
  | EmptyString => acc
  | String c rest =>
      match digit_val c with
      | Some d =>
          if d <? r then digits r (Some (default 0 acc * r + d)) rest
          else acc
      | None => acc
      end
  end.

Definition strip_hex (s : string) : option string :=
  match s with
  | String "0" (String "x" r) | String "0" (String "X" r) => Some r
  | _ => None
  end.

(** [parseInt(s, radix)]; [radix = None] is the one-argument call. *)
Definition parseInt (s : string) (radix : option Z) : Number :=
  let s := trimStart s in
  let '(sign, s) :=
    match s with
    | String "-" r => (-1, r)
    | String "+" r => (1, r)
    | _ => (1, s)
    end in
  let r := default 0 radix in
  if negb (r =? 0) && ((r <? 2) || (36 <? r)) then NaN
  else
    let '(r, s) :=
      if (r =? 0) || (r =? 16) then
        match strip_hex s with
        | Some s' => (16, s')
        | None => (if r =? 0 then 10 else r, s)
        end
      else (r, s) in
    match digits r None s with
    | Some n => to_double (sign * n)
    | None => NaN
    end.

(** [n || d] for a number [n] and an integer default [d]. *)
Definition num_or (n : Number) (d : Z) : Number :=
  if truthy_num n then n else Int d.

(** [n + k] for a number [n] and a small integer [k]. *)
Definition add (n : Number) (k : Z) : Number :=
  match n with
  | Int z => to_double (z + k)
  | _ => n
  end.

Definition decimal (a : Z) : string := NilZero.string_of_int (Z.to_int a).

(** The integer with the fewest significant digits that still reads back
    as the double [a]: multiples of [10 ^ j] are tried from the largest
    [j] down; of two that read back as [a] the nearer one is taken, and
    of two equally near the one with the even digits. *)
Fixpoint shortest (fuel : nat) (j : Z) (a : Z) : Z :=
  match fuel with
  | O => a
  | S fuel =>
      let p := 10 ^ j in
      let lo := a / p * p in
      let hi := lo + p in
      let ok c := match to_double c with Int c' => c' =? a | _ => false end in
      if ok lo && ok hi then
        if a - lo <? hi - a then lo
        else if hi - a <? a - lo then hi
        else if Z.even (lo / p) then lo else hi
      else if ok lo then lo
      else if ok hi then hi
      else shortest fuel (j - 1) a
  end.

Definition drop_zeros (s : string) : string :=
  String.rev (drop_while (fun c => Ascii.eqb c "0") (String.rev s)).

(** ToString of a double [a] from [2 ^ 53] on: the digits of the shortest
    form, followed by zeros up to 21 digits in all; beyond that a point
    after the first digit when there are several, and the exponent. *)
Definition double_text (a : Z) : string :=
  let n := String.length (decimal a) in
  let c := decimal (shortest n (Z.of_nat n - 1) a) in
  if (String.length c <=? 21)%nat then c
  else
    let e := decimal (Z.of_nat (String.length c) - 1) in
    match drop_zeros c with
    | String d EmptyString => String d EmptyString +:+ "e+" +:+ e
    | String d r => String d EmptyString +:+ "." +:+ r +:+ "e+" +:+ e
    | EmptyString => c
    end.

(** ToString on a number; below [2 ^ 53] every integer is a double and
    prints as itself. *)
Definition num_to_string (n : Number) : string :=
  match n with
  | NaN => "NaN"
  | Infinity negative => if negative then "-Infinity" else "Infinity"
  | Int z =>
      if Z.abs z <? 2 ^ 53 then decimal z
      else (if z <? 0 then "-" else "") +:+ double_text (Z.abs z)
  end.

End JS.

(** ** The document and the host element *)
Module Dom.

(** An element of the document as far as the style cache looks at it. *)
Record Element := mkElement {
  tag : string;
  id : string;
  textContent : string
}.

(** [document.head] and the rest of the document, in tree order. *)
Record Document := mkDocument {
  head : list Element;
  body : list Element
}.

Definition all_elements (d : Document) : list Element := head d ++ body d.

(** [document.getElementById(i)]: the first element in tree order whose id
    is [i]; the empty id matches nothing. *)
Definition getElementById (i : string) (d : Document) : option Element :=
  if bool_decide (i = "") then None
  else List.find (fun e => bool_decide (id e = i)) (all_elements d).

(** [document.head.appendChild(e)] *)
Definition head_appendChild (e : Element) (d : Document) : Document :=
  {| head := head d ++ [e]; body := body d |}.

(** The stylesheet entries of a fingerprint: the style elements with that id. *)
Definition style_entries (i : string) (d : Document) : list Element :=
  List.filter (fun e => bool_decide (tag e = "style") && bool_decide (id e = i))
    (all_elements d).

(** The custom element itself: its attributes, its [dataset] and the
    properties of its inline [style]. *)
Record Host := mkHost {
  attrs : gmap string string;
  dataset : gmap string string;
  style : gmap string string
}.

Definition getAttribute (h : Host) (name : string) : option string := attrs h !! name.
Definition hasAttribute (h : Host) (name : string) : bool :=
  bool_decide (is_Some (attrs h !! name)).

(** [h.dataset[k] = v] *)
Definition set_dataset (k v : string) (h : Host) : Host :=
  {| attrs := attrs h; dataset := <[k := v]> (dataset h); style := style h |}.

(** [h.style.setProperty(k, v)]; the empty value removes the property. *)
Definition setProperty (k v : string) (h : Host) : Host :=
  {| attrs := attrs h; dataset := dataset h;
     style := if bool_decide (v = "") then delete k (style h) else <[k := v]> (style h) |}.

(** [h.removeAttribute(k)] *)
Definition removeAttribute (k : string) (h : Host) : Host :=
  {| attrs := delete k (attrs h); dataset := dataset h; style := style h |}.

Definition host_of (l : list (string * string)) : Host :=
  {| attrs := list_to_map l; dataset := ∅; style := ∅ |}.

Definition empty_document : Document := {| head := []; body := [] |}.

Definition nl : string := String (ascii_of_nat 10) "".
Definition dq : string := String (ascii_of_nat 34) "".

(** The selector [[data-i="id"]] of a fingerprint. *)
Definition selector_of (i : string) : string := "[data-i=" +:+ dq +:+ i +:+ dq +:+ "]".

(** The block that every [render()] repeats:
    [if (!document.getElementById(id)) { styleEl = ...; head.appendChild(styleEl) }]. *)
Definition realize (i css : string) (d : Document) : Document :=
  match getElementById i d with
  | Some _ => d
  | None => head_appendChild {| tag := "style"; id := i; textContent := css |} d
  end.

End Dom.
Import Dom.

(** ** [i-hath], the stack layout *)
Module Hath.

Definition space (h : Host) : string :=
  JS.or_default (getAttribute h "space") "var(--s1)".

Definition recursive (h : Host) : bool := hasAttribute h "recursive".

(** [val ? parseInt(val, 10) : null]; [None] is [null]. *)
Definition splitAfter (h : Host) : option JS.Number :=
  let val := getAttribute h "split-after" in
  if JS.truthy_str val then Some (JS.parseInt (default "" val) (Some 10)) else None.

(** ToBoolean([this.splitAfter]) *)
Definition has_split (h : Host) : bool :=
  match splitAfter h with
  | Some n => JS.truthy_num n
  | None => false
  end.

(** [`${this.splitAfter}`], evaluated only where [this.splitAfter] is truthy. *)
Definition split_text (h : Host) : string :=
  match splitAfter h with
  | Some n => JS.num_to_string n
  | None => "null"
  end.

(** The identifier computed at the top of [render()]. *)
Definition fingerprint (h : Host) : string :=
  let recursive := if recursive h then "-recursive" else "" in
  let split := if has_split h then "-split" +:+ split_text h else "" in
  JS.sanitize ("Hath-" +:+ space h +:+ recursive +:+ split).

Definition css (h : Host) : string :=
  let selector := selector_of (fingerprint h) in
  let css :=
    if recursive h
    then selector +:+ " * + * { margin-block-start: " +:+ space h +:+ "; }"
    else selector +:+ " > * + * { margin-block-start: " +:+ space h +:+ "; }" in
  if has_split h
  then css +:+ selector +:+ " > :nth-child(" +:+ split_text h +:+ ") { margin-block-end: auto; }"
  else css.

Definition render (h : Host) (d : Document) : Host * Document :=
  let id := fingerprint h in
  let h := set_dataset "i" id h in
  let h := setProperty "--hath-space" (space h) h in
  (h, realize id (css h) d).

End Hath.

(** ** [i-bau], the box layout *)
Module Bau.

Definition padding (h : Host) : string :=
  JS.or_default (getAttribute h "padding") "var(--s1)".
Definition borderWidth (h : Host) : string :=
  JS.or_default (getAttribute h "border-width") "var(--border-thin)".
Definition invert (h : Host) : bool := hasAttribute h "invert".
Definition borderless (h : Host) : bool := hasAttribute h "borderless".
Definition compact (h : Host) : bool := hasAttribute h "compact".

Definition fingerprint (h : Host) : string :=
  let invertStr := if invert h then "-invert" else "" in
  let borderlessStr := if borderless h then "-borderless" else "" in
  let compactStr := if compact h then "-compact" else "" in
  JS.sanitize ("Bau-" +:+ padding h +:+ "-" +:+ borderWidth h
               +:+ invertStr +:+ borderlessStr +:+ compactStr).

Definition css (h : Host) : string :=
  let selector := selector_of (fingerprint h) in
  let css := selector +:+ " { padding: " +:+ padding h
             +:+ "; border-width: " +:+ borderWidth h +:+ "; }" in
  let css := if borderless h then css +:+ selector +:+ " { border-width: 0; }" else css in
  if compact h then css +:+ selector +:+ " { padding: 0; }" else css.

Definition render (h : Host) (d : Document) : Host * Document :=
  let h := setProperty "--bau-padding" (padding h) h in
  let h := setProperty "--bau-border-width" (borderWidth h) h in
  let id := fingerprint h in
  let h := set_dataset "i" id h in
  (h, realize id (css h) d).

End Bau.

(** ** [i-gant-thala], the frame layout *)
Module GantThala.

Definition ratio (h : Host) : string :=
  JS.or_default (getAttribute h "ratio") "16:9".

(** [this.ratio.split(':').map(v => v.trim())] *)
Definition parts (h : Host) : list string :=
  JS.trim <$> JS.split_on ":" (ratio h).

(** [const [n, d] = ...]: a missing position is [undefined], here [None]. *)
Definition n (h : Host) : option string := parts h !! 0%nat.
Definition d (h : Host) : option string := parts h !! 1%nat.

Definition fingerprint (h : Host) : string :=
  JS.sanitize ("GantThala-" +:+ JS.str_of_undef (n h) +:+ "-" +:+ JS.str_of_undef (d h)).

Definition css (h : Host) : string :=
  let selector := selector_of (fingerprint h) in
  nl +:+ "        " +:+ selector +:+ " {" +:+ nl
     +:+ "          gant-thala-ratio: " +:+ JS.str_of_undef (n h)
     +:+ " / " +:+ JS.str_of_undef (d h) +:+ ";" +:+ nl
     +:+ "        }" +:+ nl +:+ "      ".

Definition render (h : Host) (doc : Document) : Host * Document :=
  let h := setProperty "--gant-thala-n" (JS.str_of_undef (n h)) h in
  let h := setProperty "--gant-thala-d" (JS.str_of_undef (d h)) h in
  let id := fingerprint h in
  let h := set_dataset "i" id h in
  (h, realize id (css h) doc).

End GantThala.

(** ** [i-gwistindor], the switcher layout *)
Module Gwistindor.

Definition threshold (h : Host) : string :=
  JS.or_default (getAttribute h "threshold") "var(--measure)".
Definition space (h : Host) : string :=
  JS.or_default (getAttribute h "space") "var(--s1)".

(** [parseInt(this.getAttribute('limit'), 10) || 4]; a missing attribute is
    [null], which [parseInt] reads as the string [null]. *)
Definition limit (h : Host) : JS.Number :=
  JS.num_or (JS.parseInt (JS.str_of_null (getAttribute h "limit")) (Some 10)) 4.

Definition fingerprint (h : Host) : string :=
  JS.sanitize ("Gwistindor-" +:+ threshold h +:+ "-" +:+ space h +:+ "-"
               +:+ JS.num_to_string (limit h)).

Definition css (h : Host) : string :=
  let selector := selector_of (fingerprint h) in
  let limitPlusOne := JS.num_to_string (JS.add (limit h) 1) in
  nl +:+ "        " +:+ selector +:+ " {" +:+ nl
     +:+ "          gap: " +:+ space h +:+ ";" +:+ nl
     +:+ "        }" +:+ nl
     +:+ "        " +:+ selector +:+ " > * {" +:+ nl
     +:+ "          flex-basis: calc((" +:+ threshold h +:+ " - 100%) * 999);" +:+ nl
     +:+ "        }" +:+ nl
     +:+ "        " +:+ selector +:+ " > :nth-last-child(n+" +:+ limitPlusOne +:+ ")," +:+ nl
     +:+ "        " +:+ selector +:+ " > :nth-last-child(n+" +:+ limitPlusOne +:+ ") ~ * {" +:+ nl
     +:+ "          flex-basis: 100%;" +:+ nl
     +:+ "        }" +:+ nl +:+ "      ".

Definition render (h : Host) (doc : Document) : Host * Document :=
  let h := setProperty "--gwistindor-threshold" (threshold h) h in
  let h := setProperty "--gwistindor-space" (space h) h in
  let id := fingerprint h in
  let h := set_dataset "i" id h in
  (h, realize id (css h) doc).

End Gwistindor.

(** ** [i-glan-tholl], the reel layout with overflow detection *)
Module GlanTholl.

Definition itemWidth (h : Host) : string :=
  JS.or_default (getAttribute h "item-width") "auto".
Definition space (h : Host) : string :=
  JS.or_default (getAttribute h "space") "var(--s1)".
Definition height (h : Host) : string :=
  JS.or_default (getAttribute h "height") "auto".
Definition noBar (h : Host) : bool := hasAttribute h "no-bar".

Definition fingerprint (h : Host) : string :=
  let noBarStr := if noBar h then "-noBar" else "" in
  JS.sanitize ("GlanTholl-" +:+ itemWidth h +:+ "-" +:+ space h +:+ "-" +:+ height h +:+ noBarStr).

Definition css (h : Host) : string :=
  let selector := selector_of (fingerprint h) in
  nl +:+ "        " +:+ selector +:+ " {" +:+ nl
     +:+ "          block-size: " +:+ height h +:+ ";" +:+ nl
     +:+ "        }" +:+ nl
     +:+ "        " +:+ selector +:+ " > * {" +:+ nl
     +:+ "          flex: 0 0 " +:+ itemWidth h +:+ ";" +:+ nl
     +:+ "        }" +:+ nl
     +:+ "        " +:+ selector +:+ " > * + * {" +:+ nl
     +:+ "          margin-inline-start: " +:+ space h +:+ ";" +:+ nl
     +:+ "        }" +:+ nl +:+ "      ".

Definition render_style (h : Host) (doc : Document) : Host * Document :=
  let h := setProperty "--glan-tholl-item-width" (itemWidth h) h in
  let h := setProperty "--glan-tholl-space" (space h) h in
  let h := setProperty "--glan-tholl-height" (height h) h in
  let id := fingerprint h in
  let h := set_dataset "i" id h in
  (h, realize id (css h) doc).

(** The element, its two observer fields and the environment around it.
    An observer is named by a number; [observing] is the environment's set
    of observers that are connected to a target, the only ones whose
    callback the environment runs. *)
Record State := mkState {
  host : Host;
  classList : gset string;
  resizeObserver : option nat;
  mutationObserver : option nat;
  (* environment *)
  has_ResizeObserver : bool;      (* 'ResizeObserver' in window *)
  has_MutationObserver : bool;    (* 'MutationObserver' in window *)
  scrollWidth : Z;
  clientWidth : Z;
  observing : gset nat;
  next_observer : nat;
  doc : Document
}.

Definition init (h : Host) (ro mo : bool) (sw cw : Z) (d : Document) : State :=
  {| host := h; classList := ∅; resizeObserver := None; mutationObserver := None;
     has_ResizeObserver := ro; has_MutationObserver := mo;
     scrollWidth := sw; clientWidth := cw;
     observing := ∅; next_observer := 1; doc := d |}.

Definition render (s : State) : State :=
  let '(h, d) := render_style (host s) (doc s) in
  {| host := h; classList := classList s;
     resizeObserver := resizeObserver s; mutationObserver := mutationObserver s;
     has_ResizeObserver := has_ResizeObserver s;
     has_MutationObserver := has_MutationObserver s;
     scrollWidth := scrollWidth s; clientWidth := clientWidth s;
     observing := observing s; next_observer := next_observer s; doc := d |}.

(** [this.classList.toggle('overflowing', this.scrollWidth > this.clientWidth)] *)
Definition toggleOverflowClass (s : State) : State :=
  {| host := host s;
     classList := if clientWidth s <? scrollWidth s
                  then classList s ∪ {["overflowing"]}
                  else classList s ∖ {["overflowing"]};
     resizeObserver := resizeObserver s; mutationObserver := mutationObserver s;
     has_ResizeObserver := has_ResizeObserver s;
     has_MutationObserver := has_MutationObserver s;
     scrollWidth := scrollWidth s; clientWidth := clientWidth s;
     observing := observing s; next_observer := next_observer s; doc := doc s |}.

Definition new_resize_observer (s : State) : State :=
  let o := next_observer s in
  {| host := host s; classList := classList s;
     resizeObserver := Some o; mutationObserver := mutationObserver s;
     has_ResizeObserver := has_ResizeObserver s;
     has_MutationObserver := has_MutationObserver s;
     scrollWidth := scrollWidth s; clientWidth := clientWidth s;
     observing := observing s ∪ {[o]}; next_observer := S o; doc := doc s |}.

Definition new_mutation_observer (s : State) : State :=
  let o := next_observer s in
  {| host := host s; classList := classList s;
     resizeObserver := resizeObserver s; mutationObserver := Some o;
     has_ResizeObserver := has_ResizeObserver s;
     has_MutationObserver := has_MutationObserver s;
     scrollWidth := scrollWidth s; clientWidth := clientWidth s;
     observing := observing s ∪ {[o]}; next_observer := S o; doc := doc s |}.

Definition setupObservers (s : State) : State :=
  let s := if has_ResizeObserver s then new_resize_observer s else s in
  let s := if has_MutationObserver s then new_mutation_observer s else s in
  toggleOverflowClass s.

Definition connectedCallback (s : State) : State := setupObservers (render s).

Definition disconnect (o : option nat) (s : State) : State :=
  match o with
  | Some n =>
      {| host := host s; classList := classList s;
         resizeObserver := resizeObserver s; mutationObserver := mutationObserver s;
         has_ResizeObserver := has_ResizeObserver s;
         has_MutationObserver := has_MutationObserver s;
         scrollWidth := scrollWidth s; clientWidth := clientWidth s;
         observing := observing s ∖ {[n]}; next_observer := next_observer s;
         doc := doc s |}
  | None => s
  end.

Definition disconnectedCallback (s : State) : State :=
  let s := disconnect (resizeObserver s) s in
  disconnect (mutationObserver s) s.

Definition set_layout (sw cw : Z) (s : State) : State :=
  {| host := host s; classList := classList s;
     resizeObserver := resizeObserver s; mutationObserver := mutationObserver s;
     has_ResizeObserver := has_ResizeObserver s;
     has_MutationObserver := has_MutationObserver s;
     scrollWidth := sw; clientWidth := cw;
     observing := observing s; next_observer := next_observer s; doc := doc s |}.

Definition set_attribute (k : string) (v : option string) (s : State) : State :=
  let h := host s in
  {| host := {| attrs := match v with Some x => <[k := x]> (attrs h) | None => delete k (attrs h) end;
                dataset := dataset h; style := style h |};
     classList := classList s;
     resizeObserver := resizeObserver s; mutationObserver := mutationObserver s;
     has_ResizeObserver := has_ResizeObserver s;
     has_MutationObserver := has_MutationObserver s;
     scrollWidth := scrollWidth s; clientWidth := clientWidth s;
     observing := observing s; next_observer := next_observer s; doc := doc s |}.

(** What the environment can do to the element. *)
Inductive Event :=
| Attach                                   (* connectedCallback *)
| Detach                                   (* disconnectedCallback *)
| SetAttribute (k : string) (v : option string)  (* then attributeChangedCallback *)
| Layout (sw cw : Z)                       (* content or container extent changes *)
| Notify (o : nat).                        (* observer [o] delivers its records *)

Definition step (s : State) (e : Event) : State :=
  match e with
  | Attach => connectedCallback s
  | Detach => disconnectedCallback s
  | SetAttribute k v => render (set_attribute k v s)
  | Layout sw cw => set_layout sw cw s
  | Notify o => if bool_decide (o ∈ observing s) then toggleOverflowClass s else s
  end.

Definition run (s : State) (es : list Event) : State := foldl step s es.

Definition isOverflowing (s : State) : bool :=
  bool_decide ("overflowing" ∈ classList s).

End GlanTholl.

(** ** [i-him], the sticky layout with stuck detection *)
Module Him.

Definition to (h : Host) : string := JS.or_default (getAttribute h "to") "top".
Definition offset (h : Host) : string := JS.or_default (getAttribute h "offset") "0".
Definition sentinel (h : Host) : bool := hasAttribute h "sentinel".

Definition fingerprint (h : Host) : string :=
  JS.sanitize ("Him-" +:+ to h +:+ "-" +:+ offset h).

Definition css (h : Host) : string :=
  let selector := selector_of (fingerprint h) in
  if bool_decide (to h = "bottom") then
    selector +:+ " { inset-block-start: auto; inset-block-end: " +:+ offset h +:+ "; }"
  else if bool_decide (to h = "left") then
    selector +:+ " { inset-block-start: auto; inset-inline-start: " +:+ offset h +:+ "; }"
  else if bool_decide (to h = "right") then
    selector +:+ " { inset-block-start: auto; inset-inline-end: " +:+ offset h +:+ "; }"
  else
    selector +:+ " { inset-block-start: " +:+ offset h +:+ "; }".

(** The first half of [render()]: custom property, fingerprint, style cache. *)
Definition render_style (h : Host) (doc : Document) : Host * Document :=
  let h := setProperty "--him-offset" (offset h) h in
  let id := fingerprint h in
  let h := set_dataset "i" id h in
  (h, realize id (css h) doc).

(** Where [insertAdjacentElement] put a sentinel. *)
Inductive Where := BeforeBegin | AfterEnd.

(** A notification seen by a listener of the element. *)
Inductive Fired :=
| StuckChange (stuck : bool).      (* CustomEvent 'stuck-change', detail.stuck *)

(** The element and the environment around it.  Sentinel nodes and
    observers are named by numbers.  [parent] tells whether the element has
    a parent node; [sentinels] are the sentinel nodes that sit next to the
    element in that parent; [observing] maps each connected observer to its
    target; [frames] counts the callbacks [() => this.setupSentinel()]
    waiting for the next animation frame. *)
Record State := mkState {
  host : Host;
  observer : option nat;           (* this.observer *)
  sentinelEl : option nat;         (* this.sentinelEl *)
  (* environment *)
  has_IntersectionObserver : bool; (* 'IntersectionObserver' in window *)
  sentinels : gmap nat Where;
  observing : gmap nat nat;
  frames : nat;
  next_id : nat;
  events : list Fired;             (* oldest first *)
  doc : Document;
  parent : bool                    (* this.parentNode !== null *)
}.

Definition init (h : Host) (io : bool) (d : Document) : State :=
  {| host := h; observer := None; sentinelEl := None;
     has_IntersectionObserver := io;
     sentinels := ∅; observing := ∅; frames := 0; next_id := 1;
     events := []; doc := d; parent := false |}.

Definition with_host (h : Host) (s : State) : State :=
  mkState h (observer s) (sentinelEl s) (has_IntersectionObserver s)
          (sentinels s) (observing s) (frames s) (next_id s) (events s) (doc s) (parent s).
Definition with_doc (d : Document) (s : State) : State :=
  mkState (host s) (observer s) (sentinelEl s) (has_IntersectionObserver s)
          (sentinels s) (observing s) (frames s) (next_id s) (events s) d (parent s).
Definition with_observer (o : option nat) (obs : gmap nat nat) (s : State) : State :=
  mkState (host s) o (sentinelEl s) (has_IntersectionObserver s)
          (sentinels s) obs (frames s) (next_id s) (events s) (doc s) (parent s).
Definition with_sentinel (e : option nat) (ss : gmap nat Where) (s : State) : State :=
  mkState (host s) (observer s) e (has_IntersectionObserver s)
          ss (observing s) (frames s) (next_id s) (events s) (doc s) (parent s).
Definition with_frames (n : nat) (s : State) : State :=
  mkState (host s) (observer s) (sentinelEl s) (has_IntersectionObserver s)
          (sentinels s) (observing s) n (next_id s) (events s) (doc s) (parent s).
Definition with_next (n : nat) (s : State) : State :=
  mkState (host s) (observer s) (sentinelEl s) (has_IntersectionObserver s)
          (sentinels s) (observing s) (frames s) n (events s) (doc s) (parent s).
Definition with_events (l : list Fired) (s : State) : State :=
  mkState (host s) (observer s) (sentinelEl s) (has_IntersectionObserver s)
          (sentinels s) (observing s) (frames s) (next_id s) l (doc s) (parent s).
Definition with_parent (p : bool) (s : State) : State :=
  mkState (host s) (observer s) (sentinelEl s) (has_IntersectionObserver s)
          (sentinels s) (observing s) (frames s) (next_id s) (events s) (doc s) p.

(** [this.observer.disconnect()] and [this.sentinelEl.remove()], each where
    the field is set; both fields are nulled. *)
Definition cleanupSentinel (s : State) : State :=
  let s := match observer s with
           | Some o => with_observer None (delete o (observing s)) s
           | None => s
           end in
  match sentinelEl s with
  | Some e => with_sentinel None (delete e (sentinels s)) s
  | None => s
  end.

(** The callback given to [new IntersectionObserver]: one notification per
    entry; an entry is its [isIntersecting] flag. *)
Definition on_entry (s : State) (isIntersecting : bool) : State :=
  let isStuck := negb isIntersecting in
  let s := with_host (set_dataset "stuck" (if isStuck then "true" else "false") (host s)) s in
  with_events (events s ++ [StuckChange isStuck]) s.

Definition observer_callback (entries : list bool) (s : State) : State :=
  foldl on_entry s entries.

(** [this.insertAdjacentElement(where, sentinel)]: next to the element in
    its parent; without a parent nothing is inserted. *)
Definition insertAdjacentElement (w : Where) (e : nat) (s : State) : gmap nat Where :=
  if parent s then <[e := w]> (sentinels s) else sentinels s.

Definition setupSentinel (s : State) : State :=
  let s := cleanupSentinel s in
  if negb (sentinel (host s)) || negb (has_IntersectionObserver s) then s
  else
    let e := next_id s in
    let s := with_next (S e) s in
    let w := if bool_decide (to (host s) = "bottom") then AfterEnd else BeforeBegin in
    let s := with_sentinel (Some e) (insertAdjacentElement w e s) s in
    let o := next_id s in
    let s := with_next (S o) s in
    with_observer (Some o) (<[o := e]> (observing s)) s.

Definition render (s : State) : State :=
  let '(h, d) := render_style (host s) (doc s) in
  let s := with_doc d (with_host h s) in
  if sentinel (host s) then with_frames (S (frames s)) s
  else cleanupSentinel s.

Definition connectedCallback (s : State) : State := render s.
Definition disconnectedCallback (s : State) : State := cleanupSentinel s.

Definition set_attribute (k : string) (v : option string) (s : State) : State :=
  let h := host s in
  with_host {| attrs := match v with Some x => <[k := x]> (attrs h) | None => delete k (attrs h) end;
               dataset := dataset h; style := style h |} s.

(** What the environment can do to the element.  [Attach] puts it into the
    document, under a parent.  It leaves the document either because it is
    removed from its parent ([Detach]) or because an ancestor is removed, so
    that it keeps its parent ([DetachAbove]).  Each is followed by the
    callback of the element. *)
Inductive Event :=
| Attach
| Detach
| SetAttribute (k : string) (v : option string)
| Frame                                    (* the next animation frame *)
| Intersect (o : nat) (entries : list bool)   (* observer [o] delivers entries *)
| DetachAbove.

Definition step (s : State) (e : Event) : State :=
  match e with
  | Attach => connectedCallback (with_parent true s)
  | Detach => disconnectedCallback (with_parent false s)
  | SetAttribute k v => render (set_attribute k v s)
  | Frame => Nat.iter (frames s) setupSentinel (with_frames 0 s)
  | Intersect o entries =>
      if bool_decide (is_Some (observing s !! o)) then observer_callback entries s else s
  | DetachAbove => disconnectedCallback s
  end.

Definition run (s : State) (es : list Event) : State := foldl step s es.

Definition stuck_of (f : Fired) : bool := match f with StuckChange b => b end.

(** The data attribute [data-stuck] as a style reads it. *)
Definition data_stuck (s : State) : option string := dataset (host s) !! "stuck".

End Him.

(** ** The widgets with a style cache, taken together *)
Inductive Widget := hath | bau | gant_thala | gwistindor | glan_tholl | him.

Definition fingerprint (w : Widget) : Host -> string :=
  match w with
  | hath => Hath.fingerprint
  | bau => Bau.fingerprint
  | gant_thala => GantThala.fingerprint
  | gwistindor => Gwistindor.fingerprint
  | glan_tholl => GlanTholl.fingerprint
  | him => Him.fingerprint
  end.

(** The style-cache part of each widget's [render()].  For five of the six
    this is all of [render()].  For [him] it is the first half only: the
    second half, which asks for an animation frame or removes the sentinel,
    acts on the state of the element and is in [Him.render]. *)
Definition render (w : Widget) : Host -> Document -> Host * Document :=
  match w with
  | hath => Hath.render
  | bau => Bau.render
  | gant_thala => GantThala.render
  | gwistindor => Gwistindor.render
  | glan_tholl => GlanTholl.render_style
  | him => Him.render_style
  end.

(** Several instances rendered one after the other on one document. *)
Definition render_all (ws : list (Widget * Host)) (d : Document) : Document :=
  foldl (fun d wh => (render wh.1 wh.2 d).2) d ws.

(** A resolved option value: string, boolean or number-or-null. *)
Inductive Value :=
| VStr (s : string)
| VBool (b : bool)
| VNum (n : option JS.Number).

(** The resolved configuration of an instance: every option that its
    [render()] reads, by name, after defaults. *)
Definition config (w : Widget) (h : Host) : list (string * Value) :=
  match w with
  | hath => [("space", VStr (Hath.space h)); ("recursive", VBool (Hath.recursive h));
             ("splitAfter", VNum (Hath.splitAfter h))]
  | bau => [("padding", VStr (Bau.padding h)); ("borderWidth", VStr (Bau.borderWidth h));
            ("invert", VBool (Bau.invert h)); ("borderless", VBool (Bau.borderless h));
            ("compact", VBool (Bau.compact h))]
  | gant_thala => [("ratio", VStr (GantThala.ratio h))]
  | gwistindor => [("threshold", VStr (Gwistindor.threshold h)); ("space", VStr (Gwistindor.space h));
                   ("limit", VNum (Some (Gwistindor.limit h)))]
  | glan_tholl => [("itemWidth", VStr (GlanTholl.itemWidth h)); ("space", VStr (GlanTholl.space h));
                   ("height", VStr (GlanTholl.height h)); ("noBar", VBool (GlanTholl.noBar h))]
  | him => [("to", VStr (Him.to h)); ("offset", VStr (Him.offset h))]
  end.

(** The stylesheet text that an instance would generate. *)
Definition css (w : Widget) : Host -> string :=
  match w with
  | hath => Hath.css
  | bau => Bau.css
  | gant_thala => GantThala.css
  | gwistindor => Gwistindor.css
  | glan_tholl => GlanTholl.css
  | him => Him.css
  end.

(** ** [i-gil], the prefetch link *)
Module Gil.

(** *** The light DOM of the element *)

Inductive Node :=
| Text (s : string)
| Elem (tag : string) (eattrs : gmap string string) (children : list Node).

(** Whether an anchor is in the subtree of a node, the node included. *)
Fixpoint has_anchor (n : Node) : bool :=
  match n with
  | Text _ => false
  | Elem t _ cs => bool_decide (t = "a") || existsb has_anchor cs
  end.

(** Whether [this.querySelector('a')], the getter [anchor], finds a node. *)
Definition anchor (children : list Node) : bool := existsb has_anchor children.

(** Changes the attributes of the first anchor in tree order, the node that
    [this.anchor] returns; [None] when there is no anchor. *)
Fixpoint map_anchor (f : gmap string string -> gmap string string) (n : Node) : option Node :=
  match n with
  | Text _ => None
  | Elem t a cs =>
      if bool_decide (t = "a") then Some (Elem t (f a) cs)
      else
        Elem t a <$>
          (fix go (l : list Node) : option (list Node) :=
             match l with
             | [] => None
             | c :: r =>
                 match map_anchor f c with
                 | Some c' => Some (c' :: r)
                 | None => cons c <$> go r
                 end
             end) cs
  end.

Fixpoint map_first_anchor (f : gmap string string -> gmap string string)
    (l : list Node) : option (list Node) :=
  match l with
  | [] => None
  | c :: r =>
      match map_anchor f c with
      | Some c' => Some (c' :: r)
      | None => cons c <$> map_first_anchor f r
      end
  end.

(** [this.anchor.setAttribute(k, v)], nothing without an anchor. *)
Definition set_anchor_attr (k v : string) (l : list Node) : list Node :=
  default l (map_first_anchor (insert k v) l).

(** An anchor that has an anchor below it. *)
Fixpoint nested_anchor (n : Node) : bool :=
  match n with
  | Text _ => false
  | Elem t _ cs =>
      (bool_decide (t = "a") && existsb has_anchor cs) || existsb nested_anchor cs
  end.

(** The tree without its attributes: what restructuring would change. *)
Inductive Shape :=
| SText (s : string)
| SElem (tag : string) (children : list Shape).

Fixpoint shape (n : Node) : Shape :=
  match n with
  | Text s => SText s
  | Elem t _ cs => SElem t (shape <$> cs)
  end.

(** The same questions asked of a shape. *)
Fixpoint s_has_anchor (n : Shape) : bool :=
  match n with
  | SText _ => false
  | SElem t cs => bool_decide (t = "a") || existsb s_has_anchor cs
  end.

Fixpoint s_nested_anchor (n : Shape) : bool :=
  match n with
  | SText _ => false
  | SElem t cs =>
      (bool_decide (t = "a") && existsb s_has_anchor cs) || existsb s_nested_anchor cs
  end.

(** Induction on nodes with the hypothesis for every child. *)
Section NodeInduction.
Variable P : Node -> Prop.
Hypothesis P_text : forall s, P (Text s).
Hypothesis P_elem : forall t a cs, Forall P cs -> P (Elem t a cs).

Fixpoint Node_induction (n : Node) : P n :=
  match n with
  | Text s => P_text s
  | Elem t a cs =>
      P_elem t a cs
        ((fix go (l : list Node) : Forall P l :=
            match l with
            | [] => @List.Forall_nil _ P
            | c :: r => @List.Forall_cons _ P c r (Node_induction c) (go r)
            end) cs)
  end.
End NodeInduction.

(** *** The prefetch attribute *)

Record Resource := mkResource {
  rtype : string;
  rvalue : option string      (* [None] is [null], the shorthand *)
}.

(** [parsePrefetch()] on the value of the [prefetch] attribute. *)
Definition parsePrefetch (prefetch_attr : option string) : list Resource :=
  let prefetch := JS.or_default prefetch_attr "html" in
  flat_map
    (fun part =>
       if JS.includes ":" part then
         match JS.split_on ":" part with
         | type :: items :: _ =>
             (fun item => mkResource type (Some (JS.trim item))) <$> JS.split_on "," items
         | _ => []
         end
       else [mkResource part None])
    (JS.split_ws prefetch).

(** [value || href] *)
Definition value_or_href (r : Resource) (href : option string) : option string :=
  if JS.truthy_str (rvalue r) then rvalue r else href.

(** The resource key of a pair, the text after the colon in the set entry. *)
Definition resource_key (r : Resource) (href : option string) : string :=
  JS.str_of_null (value_or_href r href).

(** [`${type}:${value || href}`] *)
Definition key (r : Resource) (href : option string) : string :=
  rtype r +:+ ":" +:+ resource_key r href.

(** *** The element, the event loop and the page *)

Record Link := mkLink {
  rel : string;
  lhref : string;
  las : string;
  crossOrigin : option string
}.

(** The closures that [setupHoverPrefetch] creates; [gen] numbers the call
    that created them. *)
Inductive Callback :=
| OnEnter (gen : nat) (delay : JS.Number)
| OnLeave (gen : nat)
| OnTouch (gen : nat).

Record Listener := mkListener {
  ev : string;
  cb : Callback;
  capture : bool
}.

(** A [doPrefetch] invocation suspended at an [await]: the [href] it read
    and the resources it still has to visit. *)
Record Suspended := mkSuspended {
  t_href : option string;
  t_rest : list Resource
}.

(** A call of [prefetchHTML], [prefetchCSS], ...: the underlying fetch
    attempt for the pair [(c_type, c_key)], with the argument passed. *)
Record Call := mkCall {
  c_type : string;
  c_key : string;
  c_arg : option string
}.

(** A callback owned by the instance that the environment ran. *)
Inductive Fired :=
| FListener (e : string) (c : Callback)
| FTimer (id : nat)
| FIdle
| FObserver (o : nat).

#[global] Instance Callback_eq_dec : EqDecision Callback.
Proof. solve_decision. Defined.
#[global] Instance Listener_eq_dec : EqDecision Listener.
Proof. solve_decision. Defined.

Record State := mkState {
  attrs : gmap string string;  (* host attributes *)
  children : list Node;  (* light DOM of the host *)
  prefetched : list string;  (* this.prefetched, a Set in insertion order *)
  hoverTimer : option nat;  (* this.hoverTimer *)
  observer : option nat;  (* this.observer *)
  _cleanup : option (Callback * Callback);  (* this._cleanup, by the onEnter and onLeave it captured *)
  listeners : list Listener;  (* listeners registered on the host, in order *)
  timers : list nat;  (* pending setTimeout ids; every callback is doPrefetch *)
  idle : nat;  (* pending requestIdleCallback callbacks, each doPrefetch *)
  observing : gset nat;  (* connected IntersectionObservers *)
  suspended : list Suspended;  (* doPrefetch invocations suspended at an await *)
  next_id : nat;  (* next timer, observer or closure number *)
  has_requestIdleCallback : bool;  (* 'requestIdleCallback' in window *)
  selector_ok : string -> bool;  (* whether the selector built around a URL parses *)
  ElvishIcons : option (list string -> bool);  (* window.ElvishIcons; whether preload throws *)
  links : list Link;  (* link elements of the document *)
  images : list string;  (* sources given to new Image() *)
  preloaded : list (list string);  (* icon lists given to ElvishIcons.preload *)
  warnings : list string;  (* console.warn, oldest first *)
  dispatched : list (list string);  (* 'prefetched' events, detail.resources *)
  calls : list Call;  (* calls of a prefetch method, oldest first *)
  fired : list Fired  (* callbacks of the instance that ran, oldest first *)
}.

Definition set_attrs (x : gmap string string) (s : State) : State :=
  mkState x (children s) (prefetched s) (hoverTimer s) (observer s) (_cleanup s)
    (listeners s) (timers s) (idle s) (observing s) (suspended s) (next_id s)
    (has_requestIdleCallback s) (selector_ok s) (ElvishIcons s) (links s) (images s)
    (preloaded s) (warnings s) (dispatched s) (calls s) (fired s).
Definition set_children (x : list Node) (s : State) : State :=
  mkState (attrs s) x (prefetched s) (hoverTimer s) (observer s) (_cleanup s)
    (listeners s) (timers s) (idle s) (observing s) (suspended s) (next_id s)
    (has_requestIdleCallback s) (selector_ok s) (ElvishIcons s) (links s) (images s)
    (preloaded s) (warnings s) (dispatched s) (calls s) (fired s).
Definition set_prefetched (x : list string) (s : State) : State :=
  mkState (attrs s) (children s) x (hoverTimer s) (observer s) (_cleanup s)
    (listeners s) (timers s) (idle s) (observing s) (suspended s) (next_id s)
    (has_requestIdleCallback s) (selector_ok s) (ElvishIcons s) (links s) (images s)
    (preloaded s) (warnings s) (dispatched s) (calls s) (fired s).
Definition set_hoverTimer (x : option nat) (s : State) : State :=
  mkState (attrs s) (children s) (prefetched s) x (observer s) (_cleanup s)
    (listeners s) (timers s) (idle s) (observing s) (suspended s) (next_id s)
    (has_requestIdleCallback s) (selector_ok s) (ElvishIcons s) (links s) (images s)
    (preloaded s) (warnings s) (dispatched s) (calls s) (fired s).
Definition set_observer (x : option nat) (s : State) : State :=
  mkState (attrs s) (children s) (prefetched s) (hoverTimer s) x (_cleanup s)
    (listeners s) (timers s) (idle s) (observing s) (suspended s) (next_id s)
    (has_requestIdleCallback s) (selector_ok s) (ElvishIcons s) (links s) (images s)
    (preloaded s) (warnings s) (dispatched s) (calls s) (fired s).
Definition set__cleanup (x : option (Callback * Callback)) (s : State) : State :=
  mkState (attrs s) (children s) (prefetched s) (hoverTimer s) (observer s) x
    (listeners s) (timers s) (idle s) (observing s) (suspended s) (next_id s)
    (has_requestIdleCallback s) (selector_ok s) (ElvishIcons s) (links s) (images s)
    (preloaded s) (warnings s) (dispatched s) (calls s) (fired s).
Definition set_listeners (x : list Listener) (s : State) : State :=
  mkState (attrs s) (children s) (prefetched s) (hoverTimer s) (observer s) (_cleanup s)
    x (timers s) (idle s) (observing s) (suspended s) (next_id s)
    (has_requestIdleCallback s) (selector_ok s) (ElvishIcons s) (links s) (images s)
    (preloaded s) (warnings s) (dispatched s) (calls s) (fired s).
Definition set_timers (x : list nat) (s : State) : State :=
  mkState (attrs s) (children s) (prefetched s) (hoverTimer s) (observer s) (_cleanup s)
    (listeners s) x (idle s) (observing s) (suspended s) (next_id s)
    (has_requestIdleCallback s) (selector_ok s) (ElvishIcons s) (links s) (images s)
    (preloaded s) (warnings s) (dispatched s) (calls s) (fired s).
Definition set_idle (x : nat) (s : State) : State :=
  mkState (attrs s) (children s) (prefetched s) (hoverTimer s) (observer s) (_cleanup s)
    (listeners s) (timers s) x (observing s) (suspended s) (next_id s)
    (has_requestIdleCallback s) (selector_ok s) (ElvishIcons s) (links s) (images s)
    (preloaded s) (warnings s) (dispatched s) (calls s) (fired s).
Definition set_observing (x : gset nat) (s : State) : State :=
  mkState (attrs s) (children s) (prefetched s) (hoverTimer s) (observer s) (_cleanup s)
    (listeners s) (timers s) (idle s) x (suspended s) (next_id s)
    (has_requestIdleCallback s) (selector_ok s) (ElvishIcons s) (links s) (images s)
    (preloaded s) (warnings s) (dispatched s) (calls s) (fired s).
Definition set_suspended (x : list Suspended) (s : State) : State :=
  mkState (attrs s) (children s) (prefetched s) (hoverTimer s) (observer s) (_cleanup s)
    (listeners s) (timers s) (idle s) (observing s) x (next_id s)
    (has_requestIdleCallback s) (selector_ok s) (ElvishIcons s) (links s) (images s)
    (preloaded s) (warnings s) (dispatched s) (calls s) (fired s).
Definition set_next_id (x : nat) (s : State) : State :=
  mkState (attrs s) (children s) (prefetched s) (hoverTimer s) (observer s) (_cleanup s)
    (listeners s) (timers s) (idle s) (observing s) (suspended s) x
    (has_requestIdleCallback s) (selector_ok s) (ElvishIcons s) (links s) (images s)
    (preloaded s) (warnings s) (dispatched s) (calls s) (fired s).
Definition set_links (x : list Link) (s : State) : State :=
  mkState (attrs s) (children s) (prefetched s) (hoverTimer s) (observer s) (_cleanup s)
    (listeners s) (timers s) (idle s) (observing s) (suspended s) (next_id s)
    (has_requestIdleCallback s) (selector_ok s) (ElvishIcons s) x (images s)
    (preloaded s) (warnings s) (dispatched s) (calls s) (fired s).
Definition set_images (x : list string) (s : State) : State :=
  mkState (attrs s) (children s) (prefetched s) (hoverTimer s) (observer s) (_cleanup s)
    (listeners s) (timers s) (idle s) (observing s) (suspended s) (next_id s)
    (has_requestIdleCallback s) (selector_ok s) (ElvishIcons s) (links s) x
    (preloaded s) (warnings s) (dispatched s) (calls s) (fired s).
Definition set_preloaded (x : list (list string)) (s : State) : State :=
  mkState (attrs s) (children s) (prefetched s) (hoverTimer s) (observer s) (_cleanup s)
    (listeners s) (timers s) (idle s) (observing s) (suspended s) (next_id s)
    (has_requestIdleCallback s) (selector_ok s) (ElvishIcons s) (links s) (images s) x
    (warnings s) (dispatched s) (calls s) (fired s).
Definition set_warnings (x : list string) (s : State) : State :=
  mkState (attrs s) (children s) (prefetched s) (hoverTimer s) (observer s) (_cleanup s)
    (listeners s) (timers s) (idle s) (observing s) (suspended s) (next_id s)
    (has_requestIdleCallback s) (selector_ok s) (ElvishIcons s) (links s) (images s)
    (preloaded s) x (dispatched s) (calls s) (fired s).
Definition set_dispatched (x : list (list string)) (s : State) : State :=
  mkState (attrs s) (children s) (prefetched s) (hoverTimer s) (observer s) (_cleanup s)
    (listeners s) (timers s) (idle s) (observing s) (suspended s) (next_id s)
    (has_requestIdleCallback s) (selector_ok s) (ElvishIcons s) (links s) (images s)
    (preloaded s) (warnings s) x (calls s) (fired s).
Definition set_calls (x : list Call) (s : State) : State :=
  mkState (attrs s) (children s) (prefetched s) (hoverTimer s) (observer s) (_cleanup s)
    (listeners s) (timers s) (idle s) (observing s) (suspended s) (next_id s)
    (has_requestIdleCallback s) (selector_ok s) (ElvishIcons s) (links s) (images s)
    (preloaded s) (warnings s) (dispatched s) x (fired s).
Definition set_fired (x : list Fired) (s : State) : State :=
  mkState (attrs s) (children s) (prefetched s) (hoverTimer s) (observer s) (_cleanup s)
    (listeners s) (timers s) (idle s) (observing s) (suspended s) (next_id s)
    (has_requestIdleCallback s) (selector_ok s) (ElvishIcons s) (links s) (images s)
    (preloaded s) (warnings s) (dispatched s) (calls s) x.

Definition getAttribute (s : State) (k : string) : option string := attrs s !! k.
Definition hasAttribute (s : State) (k : string) : bool := bool_decide (is_Some (attrs s !! k)).

(** A fresh number for a timer, an observer or a set of closures. *)
Definition fresh (s : State) : nat * State := (next_id s, set_next_id (S (next_id s)) s).

(** *** The prefetch methods; the boolean tells whether the method threw *)

Definition add_link (l : Link) (s : State) : State := set_links (links s ++ [l]) s.

(** [document.querySelector(`link[rel="prefetch"][href="${url}"]`)] *)
Definition has_prefetch_link (u : string) (s : State) : bool :=
  existsb (fun l => bool_decide (rel l = "prefetch") && bool_decide (lhref l = u)) (links s).

(** [document.querySelector(`link[href="${url}"]`)] *)
Definition has_link (u : string) (s : State) : bool :=
  existsb (fun l => bool_decide (lhref l = u)) (links s).

Definition prefetchHTML (url : option string) (s : State) : State * bool :=
  let u := JS.str_of_null url in
  if negb (selector_ok s u) then (s, true)
  else if has_prefetch_link u s then (s, false)
  else (add_link (mkLink "prefetch" u "document" None) s, false).

Definition prefetchCSS (url : option string) (s : State) : State * bool :=
  let u := JS.str_of_null url in
  if negb (selector_ok s u) then (s, true)
  else if has_link u s then (s, false)
  else (add_link (mkLink "prefetch" u "style" None) s, false).

Definition prefetchJS (url : option string) (s : State) : State * bool :=
  let u := JS.str_of_null url in
  if negb (selector_ok s u) then (s, true)
  else if has_prefetch_link u s then (s, false)
  else (add_link (mkLink "prefetch" u "script" None) s, false).

(** [names.split(',')] throws a TypeError when [names] is [null]. *)
Definition prefetchIcons (names : option string) (s : State) : State * bool :=
  match ElvishIcons s with
  | None => (s, false)
  | Some preload_throws =>
      match names with
      | None => (s, true)
      | Some n =>
          let icons := JS.trim <$> JS.split_on "," n in
          if preload_throws icons then (s, true)
          else (set_preloaded (preloaded s ++ [icons]) s, false)
      end
  end.

Definition prefetchJSON (url : option string) (s : State) : State * bool :=
  (add_link (mkLink "prefetch" (JS.str_of_null url) "fetch" (Some "anonymous")) s, false).

Definition prefetchImage (url : option string) (s : State) : State * bool :=
  (set_images (images s ++ [JS.str_of_null url]) s, false).

Definition log_call (r : Resource) (href arg : option string) (s : State) : State :=
  set_calls (calls s ++ [mkCall (rtype r) (resource_key r href) arg]) s.

(** The [switch (type)] inside the [try]: the state after the call, whether
    it threw, and whether the case has an [await]. *)
Definition attempt (r : Resource) (href : option string) (s : State) : State * bool * bool :=
  let t := rtype r in
  if bool_decide (t = "html") then
    (prefetchHTML (value_or_href r href) (log_call r href (value_or_href r href) s), true)
  else if bool_decide (t = "css") then
    (prefetchCSS (rvalue r) (log_call r href (rvalue r) s), true)
  else if bool_decide (t = "js") then
    (prefetchJS (rvalue r) (log_call r href (rvalue r) s), true)
  else if bool_decide (t = "icons") then
    (prefetchIcons (rvalue r) (log_call r href (rvalue r) s), false)
  else if bool_decide (t = "json") then
    (prefetchJSON (rvalue r) (log_call r href (rvalue r) s), true)
  else if bool_decide (t = "image") then
    (prefetchImage (rvalue r) (log_call r href (rvalue r) s), true)
  else (s, false, false).

(** [console.warn(`[i-gil] Failed to prefetch ${type}:${value || href}`, err)] *)
Definition warn_failed (k : string) (s : State) : State :=
  set_warnings (warnings s ++ ["[i-gil] Failed to prefetch " +:+ k]) s.

(** One turn of the [for] loop of [doPrefetch]; the boolean tells whether
    the turn stopped at an [await].  The check, the [add] and the call run
    without interruption; the warning of a rejected [await] is logged with
    the call. *)
Definition iteration (r : Resource) (href : option string) (s : State) : State * bool :=
  let k := key r href in
  if bool_decide (k ∈ prefetched s) then (s, false)
  else
    let s := set_prefetched (prefetched s ++ [k]) s in
    let '(s, thrown, awaited) := attempt r href s in
    let s := if thrown then warn_failed k s else s in
    (s, awaited).

(** [this.dispatchEvent(new CustomEvent('prefetched', ...))] *)
Definition dispatch_prefetched (s : State) : State :=
  set_dispatched (dispatched s ++ [prefetched s]) s.

(** The loop from some resource on, up to the next [await] or to the end. *)
Fixpoint run_loop (href : option string) (rs : list Resource) (s : State) : State :=
  match rs with
  | [] => dispatch_prefetched s
  | r :: rest =>
      let '(s, awaited) := iteration r href s in
      if awaited then set_suspended (suspended s ++ [mkSuspended href rest]) s
      else run_loop href rest s
  end.

Definition doPrefetch (s : State) : State :=
  run_loop (getAttribute s "href") (parsePrefetch (getAttribute s "prefetch")) s.

(** The [i]-th suspended invocation goes on after its [await]. *)
Definition resume (i : nat) (s : State) : State :=
  match suspended s !! i with
  | Some t => run_loop (t_href t) (t_rest t) (set_suspended (delete i (suspended s)) s)
  | None => s
  end.

(** All suspended invocations run to their end, the oldest first; [n]
    bounds the number of resumptions. *)
Fixpoint settle (n : nat) (s : State) : State :=
  match n with
  | O => s
  | S n' => match suspended s with
            | [] => s
            | _ :: _ => settle n' (resume 0 s)
            end
  end.

(** *** Triggers and life cycle *)

Definition addEventListener (e : string) (c : Callback) (cap : bool) (s : State) : State :=
  let l := mkListener e c cap in
  if bool_decide (l ∈ listeners s) then s else set_listeners (listeners s ++ [l]) s.

Definition removeEventListener (e : string) (c : Callback) (cap : bool) (s : State) : State :=
  set_listeners (List.filter (fun l => negb (bool_decide (l = mkListener e c cap))) (listeners s)) s.

(** [setTimeout(() => this.doPrefetch(), delay)]; the model keeps the
    pending timer, not its delay. *)
Definition setTimeout (s : State) : nat * State :=
  let '(id, s) := fresh s in (id, set_timers (timers s ++ [id]) s).

Definition clearTimeout (id : nat) (s : State) : State :=
  set_timers (List.filter (fun t => negb (Nat.eqb t id)) (timers s)) s.

Definition disconnect (o : nat) (s : State) : State :=
  set_observing (observing s ∖ {[o]}) s.

Definition setupHoverPrefetch (s : State) : State :=
  let delay := JS.num_or (JS.parseInt (JS.str_of_null (getAttribute s "prefetch-delay")) None) 65 in
  let '(g, s) := fresh s in
  let s := addEventListener "mouseenter" (OnEnter g delay) false s in
  let s := addEventListener "mouseleave" (OnLeave g) false s in
  let s := addEventListener "focus" (OnEnter g delay) true s in
  let s := addEventListener "blur" (OnLeave g) true s in
  let s := addEventListener "touchstart" (OnTouch g) false s in
  set__cleanup (Some (OnEnter g delay, OnLeave g)) s.

(** The body of the closure stored in [this._cleanup]. *)
Definition run_cleanup (c : Callback * Callback) (s : State) : State :=
  let '(onEnter, onLeave) := c in
  let s := removeEventListener "mouseenter" onEnter false s in
  let s := removeEventListener "mouseleave" onLeave false s in
  let s := removeEventListener "focus" onEnter true s in
  removeEventListener "blur" onLeave true s.

(** [new IntersectionObserver(...)] and [observe(this)]; the method does not
    test for IntersectionObserver, and the model takes it as present. *)
Definition setupVisiblePrefetch (s : State) : State :=
  let '(o, s) := fresh s in
  set_observing (observing s ∪ {[o]}) (set_observer (Some o) s).

Definition setupIdlePrefetch (s : State) : State :=
  if has_requestIdleCallback s then set_idle (S (idle s)) s
  else (setTimeout s).2.

Definition setupPrefetch (s : State) : State :=
  let trigger := JS.or_default (getAttribute s "prefetch-on") "hover" in
  if bool_decide (trigger = "hover") then setupHoverPrefetch s
  else if bool_decide (trigger = "visible") then setupVisiblePrefetch s
  else if bool_decide (trigger = "idle") then setupIdlePrefetch s
  else if bool_decide (trigger = "immediate") then doPrefetch s
  else s.

Definition cleanup (s : State) : State :=
  let s := match hoverTimer s with Some id => clearTimeout id s | None => s end in
  let s := match observer s with Some o => disconnect o s | None => s end in
  match _cleanup s with Some c => run_cleanup c s | None => s end.

(** The attribute copies of [syncAttributes]. *)
Definition syncAttributes (s : State) : State :=
  if negb (anchor (children s)) then s
  else
    let copy (c : list Node) (a : string) :=
      match getAttribute s a with
      | Some v => set_anchor_attr a v c
      | None => c
      end in
    let c := foldl copy (children s) ["target"; "rel"; "download"; "hreflang"; "type"] in
    let c := match getAttribute s "link-class" with
             | Some v => set_anchor_attr "class" v c
             | None => c
             end in
    set_children c s.

(** The first block of [connectedCallback]: the inner anchor is created
    when [this.anchor] finds none.  Moving the children through [innerHTML]
    is taken as moving the nodes. *)
Definition wrap_children (s : State) : State :=
  if anchor (children s) then s
  else
    let href := JS.or_default (getAttribute s "href") "#" in
    set_children [Elem "a" {[ "href" := href ]} (children s)] s.

Definition connectedCallback (s : State) : State :=
  setupPrefetch (syncAttributes (wrap_children s)).

Definition disconnectedCallback (s : State) : State := cleanup s.

Definition observedAttributes : list string :=
  ["href"; "prefetch"; "prefetch-on"; "prefetch-delay"].

Definition attributeChangedCallback (name : string) (newVal : option string) (s : State) : State :=
  let s := if bool_decide (name = "href") && anchor (children s)
           then set_children (set_anchor_attr "href" (JS.str_of_null newVal) (children s)) s
           else s in
  if bool_decide (name = "prefetch-on") then setupPrefetch (cleanup s) else s.

Definition set_attribute (k : string) (v : option string) (s : State) : State :=
  let s := set_attrs (match v with Some x => <[k := x]> (attrs s) | None => delete k (attrs s) end) s in
  if bool_decide (k ∈ observedAttributes) then attributeChangedCallback k v s else s.

Definition run_callback (e : string) (c : Callback) (s : State) : State :=
  let s := set_fired (fired s ++ [FListener e c]) s in
  match c with
  | OnEnter _ _ => let '(id, s) := setTimeout s in set_hoverTimer (Some id) s
  | OnLeave _ =>
      match hoverTimer s with
      | Some id => set_hoverTimer None (clearTimeout id s)
      | None => s
      end
  | OnTouch _ => doPrefetch s
  end.

(** An event of type [e] reaches the host: the listeners registered for it
    when the dispatch starts run in order of registration. *)
Definition dispatch (e : string) (s : State) : State :=
  foldl (fun s l => if bool_decide (ev l = e) && bool_decide (l ∈ listeners s)
                    then run_callback e (cb l) s else s)
        s (listeners s).

(** The callback of the observer of [setupVisiblePrefetch]. *)
Definition on_entry (s : State) (isIntersecting : bool) : State :=
  if isIntersecting then
    let s := doPrefetch s in
    match observer s with Some o => disconnect o s | None => s end
  else s.

(** What the environment can do to the element. *)
Inductive Event :=
| Attach
| Detach
| SetAttribute (k : string) (v : option string)
| Dispatch (e : string)
| Timeout (id : nat)
| Idle
| Intersect (o : nat) (entries : list bool)
| Resume (i : nat).

Definition step (s : State) (e : Event) : State :=
  match e with
  | Attach => connectedCallback s
  | Detach => disconnectedCallback s
  | SetAttribute k v => set_attribute k v s
  | Dispatch e => dispatch e s
  | Timeout id =>
      if bool_decide (id ∈ timers s)
      then doPrefetch (set_fired (fired s ++ [FTimer id]) (clearTimeout id s))
      else s
  | Idle =>
      match idle s with
      | S n => doPrefetch (set_fired (fired s ++ [FIdle]) (set_idle n s))
      | O => s
      end
  | Intersect o entries =>
      if bool_decide (o ∈ observing s)
      then foldl on_entry (set_fired (fired s ++ [FObserver o]) s) entries
      else s
  | Resume i => resume i s
  end.

Definition run (s : State) (es : list Event) : State := foldl step s es.

(** A new element: the constructor has run, nothing is scheduled. *)
Definition init (a : list (string * string)) (c : list Node)
    (ric : bool) (sel : string -> bool) (icons : option (list string -> bool))
    (page_links : list Link) : State :=
  {| attrs := list_to_map a; children := c; prefetched := [];
     hoverTimer := None; observer := None; _cleanup := None;
     listeners := []; timers := []; idle := 0; observing := ∅; suspended := [];
     next_id := 1; has_requestIdleCallback := ric; selector_ok := sel;
     ElvishIcons := icons; links := page_links; images := []; preloaded := [];
     warnings := []; dispatched := []; calls := []; fired := [] |}.

(** The pairs [(type, key)] for which a prefetch method was called. *)
Definition attempted (s : State) : list (string * string) :=
  (fun c => (c_type c, c_key c)) <$> calls s.

(** *** The call log and its invariant *)

(** The set entry that stands for the pair of a call. *)
Definition call_key (c : Call) : string := c_type c +:+ ":" +:+ c_key c.

(** The argument that the [switch] passes for a resource. *)
Definition call_arg (r : Resource) (href : option string) : option string :=
  if bool_decide (rtype r = "html") then value_or_href r href else rvalue r.

(** The types that the [switch] of [doPrefetch] knows. *)
Definition known_type (t : string) : bool :=
  bool_decide (t ∈ ["html"; "css"; "js"; "icons"; "json"; "image"]).

(** The [for] loop of one invocation read without its suspensions: every
    turn in order, then the event. *)
Fixpoint run_to_end (href : option string) (rs : list Resource) (s : State) : State :=
  match rs with
  | [] => dispatch_prefetched s
  | r :: rest => run_to_end href rest (iteration r href s).1
  end.

(** Every call is for an entry of the set, and no entry has two calls. *)
Definition dedup_inv (s : State) : Prop :=
  NoDup (call_key <$> calls s) /\ forall c, c ∈ calls s -> call_key c ∈ prefetched s.

(** From [s] to [s'] the set and the call log are extended, and the new
    calls are for entries that [s] did not have. *)
Definition extends (s s' : State) : Prop :=
  prefetched s `prefix_of` prefetched s' /\
  exists new, calls s' = calls s ++ new /\ forall c, c ∈ new -> call_key c ∉ prefetched s.

(** Whether the call made for [r] by a loop turn that starts in [s] throws. *)
Definition throws (r : Resource) (href : option string) (s : State) : bool :=
  (attempt r href (set_prefetched (prefetched s ++ [key r href]) s)).1.2.

(** An operation that keeps the invariant and only extends. *)
Definition preserving (f : State -> State) : Prop :=
  forall s, dedup_inv s -> dedup_inv (f s) /\ extends s (f s).

(** *** Frame conditions, for the proofs *)

(** A projection of the state that the scheduling fields do not reach. *)
Class Sched {A : Type} (p : State -> A) : Prop := {
  sf_listeners : forall x s, p (set_listeners x s) = p s;
  sf_timers : forall x s, p (set_timers x s) = p s;
  sf_idle : forall x s, p (set_idle x s) = p s;
  sf_observing : forall x s, p (set_observing x s) = p s;
  sf_next_id : forall x s, p (set_next_id x s) = p s;
  sf_hoverTimer : forall x s, p (set_hoverTimer x s) = p s;
  sf_observer : forall x s, p (set_observer x s) = p s;
  sf__cleanup : forall x s, p (set__cleanup x s) = p s;
  sf_fired : forall x s, p (set_fired x s) = p s
}.

(** A projection of the state that the page and the suspended invocations do not reach. *)
Class Page {A : Type} (p : State -> A) : Prop := {
  pf_links : forall x s, p (set_links x s) = p s;
  pf_images : forall x s, p (set_images x s) = p s;
  pf_preloaded : forall x s, p (set_preloaded x s) = p s;
  pf_warnings : forall x s, p (set_warnings x s) = p s;
  pf_dispatched : forall x s, p (set_dispatched x s) = p s;
  pf_suspended : forall x s, p (set_suspended x s) = p s
}.

(** A projection that the fetching code does not reach at all. *)
Class Fetch {A : Type} (p : State -> A) : Prop := {
  ff_page :: Page p;
  ff_prefetched : forall x s, p (set_prefetched x s) = p s;
  ff_calls : forall x s, p (set_calls x s) = p s
}.

Ltac sched :=
  repeat first
    [ rewrite sf_listeners | rewrite sf_timers | rewrite sf_idle | rewrite sf_observing
    | rewrite sf_next_id | rewrite sf_hoverTimer | rewrite sf_observer
    | rewrite sf__cleanup | rewrite sf_fired ].

Ltac page :=
  repeat first
    [ rewrite pf_links | rewrite pf_images | rewrite pf_preloaded | rewrite pf_warnings
    | rewrite pf_dispatched | rewrite pf_suspended ].

Ltac fetch :=
  repeat first [ rewrite ff_prefetched | rewrite ff_calls | progress page ].

End Gil.

(** ** Invariants of the degraded modes *)

(** [i-him] where the environment has no IntersectionObserver: nothing is
    observed, nothing was notified, and [data-stuck] is as it was. *)
Definition him_degraded (stuck0 : option string) (s : Him.State) : Prop :=
  Him.has_IntersectionObserver s = false /\
  Him.observer s = None /\ Him.sentinelEl s = None /\
  Him.observing s = ∅ /\ Him.sentinels s = ∅ /\
  Him.events s = [] /\ Him.data_stuck s = stuck0.

(** [i-glan-tholl] where the environment has neither ResizeObserver nor
    MutationObserver: no observer exists. *)
Definition glan_tholl_degraded (s : GlanTholl.State) : Prop :=
  GlanTholl.has_ResizeObserver s = false /\
  GlanTholl.has_MutationObserver s = false /\
  GlanTholl.resizeObserver s = None /\ GlanTholl.mutationObserver s = None /\
  GlanTholl.observing s = ∅.

(** ** Timers with a clock *)
Module Clock.
Section Timers.
Context {C : Type}.

(** A pending [setTimeout]: its id, the time at which it is due and its
    callback. *)
Record Timer := mkTimer {
  tid : nat;
  due : Z;
  tcb : C
}.

(** The timer to run next among those due by [t]: the earliest, and among
    equally early ones the one created first. *)
Definition earliest (t : Z) (l : list Timer) : option Timer :=
  foldl (fun best tm =>
           if due tm <=? t then
             match best with
             | Some b => if due tm <? due b then Some tm else Some b
             | None => Some tm
             end
           else best)
        None l.

(** [clearTimeout(id)] *)
Definition remove (id : nat) (l : list Timer) : list Timer :=
  List.filter (fun tm => negb (Nat.eqb (tid tm) id)) l.

End Timers.
Arguments Timer : clear implicits.
End Clock.

(** ** [global/touch.js], the delegated long-press listeners *)
Module Touch.

Definition LONG_PRESS_DURATION : Z := 300.
Definition TOUCH_ACTIVE_DURATION : Z := 600.

(** The two timer callbacks: [() => activateTouch(target)] and
    [() => deactivateTouch(target)]. *)
Inductive Callback :=
| Activate (el : nat)
| Deactivate (el : nat).

(** The custom events dispatched on an element. *)
Inductive Fired :=
| TouchActive (el : nat) (effect : string)     (* thir:touch-active *)
| TouchInactive (el : nat).                    (* thir:touch-inactive *)

(** Elements are named by numbers. *)
Record State := mkState {
  touchTimers : gmap nat nat;        (* WeakMap element -> timer id *)
  activeElements : gset nat;         (* WeakSet *)
  touch_active : gset nat;           (* elements with the class touch-active *)
  (* environment *)
  touch_attr : gmap nat string;      (* the [touch] attribute of each element *)
  hover_attr : gmap nat string;      (* the [hover] attribute of each element *)
  now : Z;
  pending : list (Clock.Timer Callback);
  next_id : nat;
  events : list Fired                (* oldest first *)
}.

Definition init (touch hover : gmap nat string) : State :=
  {| touchTimers := ∅; activeElements := ∅; touch_active := ∅;
     touch_attr := touch; hover_attr := hover;
     now := 0; pending := []; next_id := 1; events := [] |}.

Definition set_touchTimers (x : gmap nat nat) (s : State) : State :=
  mkState x (activeElements s) (touch_active s) (touch_attr s) (hover_attr s)
          (now s) (pending s) (next_id s) (events s).
Definition set_active (a c : gset nat) (s : State) : State :=
  mkState (touchTimers s) a c (touch_attr s) (hover_attr s)
          (now s) (pending s) (next_id s) (events s).
Definition set_now (t : Z) (s : State) : State :=
  mkState (touchTimers s) (activeElements s) (touch_active s) (touch_attr s) (hover_attr s)
          t (pending s) (next_id s) (events s).
Definition set_pending (p : list (Clock.Timer Callback)) (s : State) : State :=
  mkState (touchTimers s) (activeElements s) (touch_active s) (touch_attr s) (hover_attr s)
          (now s) p (next_id s) (events s).
Definition set_next_id (n : nat) (s : State) : State :=
  mkState (touchTimers s) (activeElements s) (touch_active s) (touch_attr s) (hover_attr s)
          (now s) (pending s) n (events s).
Definition set_events (e : list Fired) (s : State) : State :=
  mkState (touchTimers s) (activeElements s) (touch_active s) (touch_attr s) (hover_attr s)
          (now s) (pending s) (next_id s) e.

(** [setTimeout(cb, delay)] *)
Definition setTimeout (cb : Callback) (delay : Z) (s : State) : nat * State :=
  let id := next_id s in
  (id, set_next_id (S id)
         (set_pending (pending s ++ [Clock.mkTimer id (now s + delay) cb]) s)).

Definition clearTimeout (id : nat) (s : State) : State :=
  set_pending (Clock.remove id (pending s)) s.

Definition clearTouchTimer (el : nat) (s : State) : State :=
  match touchTimers s !! el with
  | Some timer => set_touchTimers (delete el (touchTimers s)) (clearTimeout timer s)
  | None => s
  end.

Definition getTouchEffect (el : nat) (s : State) : string :=
  let touchAttr := touch_attr s !! el in
  if JS.truthy_str touchAttr && negb (bool_decide (touchAttr = Some "true"))
  then default "" touchAttr
  else JS.or_default (hover_attr s !! el) "default".

Definition activateTouch (el : nat) (s : State) : State :=
  let s := set_active (activeElements s ∪ {[el]}) (touch_active s ∪ {[el]}) s in
  set_events (events s ++ [TouchActive el (getTouchEffect el s)]) s.

Definition deactivateTouch (el : nat) (s : State) : State :=
  let s := set_active (activeElements s ∖ {[el]}) (touch_active s ∖ {[el]}) s in
  set_events (events s ++ [TouchInactive el]) s.

(** The handlers take the result of [event.target.closest('i-thir[touch]')]. *)
Definition handleTouchStart (target : option nat) (s : State) : State :=
  match target with
  | None => s
  | Some el =>
      let s := clearTouchTimer el s in
      let '(timer, s) := setTimeout (Activate el) LONG_PRESS_DURATION s in
      set_touchTimers (<[el := timer]> (touchTimers s)) s
  end.

Definition handleTouchEnd (target : option nat) (s : State) : State :=
  match target with
  | None => s
  | Some el =>
      let s := clearTouchTimer el s in
      if bool_decide (el ∈ activeElements s)
      then (setTimeout (Deactivate el) TOUCH_ACTIVE_DURATION s).2
      else s
  end.

Definition handleTouchCancel (target : option nat) (s : State) : State :=
  match target with
  | None => s
  | Some el => deactivateTouch el (clearTouchTimer el s)
  end.

Definition run_callback (cb : Callback) (s : State) : State :=
  match cb with
  | Activate el => activateTouch el s
  | Deactivate el => deactivateTouch el s
  end.

(** A timer elapses: it leaves the pending timers and its callback runs at
    the time it was due. *)
Definition fire (tm : Clock.Timer Callback) (s : State) : State :=
  run_callback (Clock.tcb tm)
    (set_now (Z.max (now s) (Clock.due tm)) (clearTimeout (Clock.tid tm) s)).

(** The timers due by [t] elapse in order; [fuel] bounds their number. *)
Fixpoint fire_due (fuel : nat) (t : Z) (s : State) : State :=
  match fuel with
  | O => s
  | S n =>
      match Clock.earliest t (pending s) with
      | Some tm => fire_due n t (fire tm s)
      | None => s
      end
  end.

(** [dt] milliseconds pass. *)
Definition advance (dt : Z) (s : State) : State :=
  let t := now s + Z.max 0 dt in
  set_now t (fire_due (length (pending s)) t s).

Inductive Event :=
| TouchStart (target : option nat)
| TouchEnd (target : option nat)
| TouchCancel (target : option nat)
| Advance (dt : Z).

Definition step (s : State) (e : Event) : State :=
  match e with
  | TouchStart t => handleTouchStart t s
  | TouchEnd t => handleTouchEnd t s
  | TouchCancel t => handleTouchCancel t s
  | Advance dt => advance dt s
  end.

Definition run (s : State) (es : list Event) : State := foldl step s es.

#[global] Instance TouchCallback_eq_dec : EqDecision Callback.
Proof. solve_decision. Defined.

(** The pending press-confirmation timers of an element. *)
Definition press_timers (el : nat) (s : State) : list (Clock.Timer Callback) :=
  List.filter (fun tm => bool_decide (Clock.tcb tm = Activate el)) (pending s).

(** The pending grace timers of an element. *)
Definition grace_timers (el : nat) (s : State) : list (Clock.Timer Callback) :=
  List.filter (fun tm => bool_decide (Clock.tcb tm = Deactivate el)) (pending s).

(** The pending timers of an element, of both kinds. *)
Definition live_timers (el : nat) (s : State) : list (Clock.Timer Callback) :=
  List.filter (fun tm => bool_decide (Clock.tcb tm = Activate el)
                         || bool_decide (Clock.tcb tm = Deactivate el)) (pending s).

End Touch.

(** What holds of the timers of [touch.js] at any time: timer ids are
    distinct and below the next id; a pending press-confirmation timer of an
    element is the one that [touchTimers] records for it; a pending timer
    that [touchTimers] records for an element is its press-confirmation
    timer; and the recorded ids are below the next id. *)
Definition touch_inv (s : Touch.State) : Prop :=
  NoDup (Clock.tid <$> Touch.pending s) /\
  (forall tm, tm ∈ Touch.pending s -> (Clock.tid tm < Touch.next_id s)%nat) /\
  (forall tm el, tm ∈ Touch.pending s -> Clock.tcb tm = Touch.Activate el ->
                 Touch.touchTimers s !! el = Some (Clock.tid tm)) /\
  (forall tm el, tm ∈ Touch.pending s -> Touch.touchTimers s !! el = Some (Clock.tid tm) ->
                 Clock.tcb tm = Touch.Activate el) /\
  (forall el t, Touch.touchTimers s !! el = Some t -> (t < Touch.next_id s)%nat).

(** ** [i-thir], the per-element long-press listeners *)
Module Thir.

Inductive Callback :=
| Activate        (* () => this._activateTouch() *)
| Deactivate.     (* () => this._deactivateTouch() *)

Inductive Fired :=
| TouchActive (effect : string)     (* thir:touch-active *)
| TouchInactive.                    (* thir:touch-inactive *)

(** A listener on the element: the event type and the call of
    [_initTouchSupport] that bound its handler. *)
Record Listener := mkListener {
  ev : string;
  gen : nat
}.

Record State := mkState {
  touch : option string;             (* the [touch] attribute *)
  hover : option string;             (* the [hover] attribute *)
  _touchTimer : option nat;          (* this._touchTimer *)
  _touchActive : bool;                (* this._touchActive *)
  class_active : bool;               (* classList has touch-active *)
  _onTouchStart : option nat;        (* this._onTouchStart and its two siblings, by the call that bound them *)
  (* environment *)
  listeners : list Listener;
  now : Z;
  pending : list (Clock.Timer Callback);
  next_id : nat;
  events : list Fired
}.

Definition init (touch hover : option string) : State :=
  {| touch := touch; hover := hover; _touchTimer := None; _touchActive := false;
     class_active := false; _onTouchStart := None; listeners := [];
     now := 0; pending := []; next_id := 1; events := [] |}.

Definition set_attrs (t h : option string) (s : State) : State :=
  mkState t h (_touchTimer s) (_touchActive s) (class_active s) (_onTouchStart s)
          (listeners s) (now s) (pending s) (next_id s) (events s).
Definition set_touchTimer (x : option nat) (s : State) : State :=
  mkState (touch s) (hover s) x (_touchActive s) (class_active s) (_onTouchStart s)
          (listeners s) (now s) (pending s) (next_id s) (events s).
Definition set_active (a c : bool) (s : State) : State :=
  mkState (touch s) (hover s) (_touchTimer s) a c (_onTouchStart s)
          (listeners s) (now s) (pending s) (next_id s) (events s).
Definition set_bound (b : option nat) (l : list Listener) (s : State) : State :=
  mkState (touch s) (hover s) (_touchTimer s) (_touchActive s) (class_active s) b
          l (now s) (pending s) (next_id s) (events s).
Definition set_now (t : Z) (s : State) : State :=
  mkState (touch s) (hover s) (_touchTimer s) (_touchActive s) (class_active s) (_onTouchStart s)
          (listeners s) t (pending s) (next_id s) (events s).
Definition set_pending (p : list (Clock.Timer Callback)) (s : State) : State :=
  mkState (touch s) (hover s) (_touchTimer s) (_touchActive s) (class_active s) (_onTouchStart s)
          (listeners s) (now s) p (next_id s) (events s).
Definition set_next_id (n : nat) (s : State) : State :=
  mkState (touch s) (hover s) (_touchTimer s) (_touchActive s) (class_active s) (_onTouchStart s)
          (listeners s) (now s) (pending s) n (events s).
Definition set_events (e : list Fired) (s : State) : State :=
  mkState (touch s) (hover s) (_touchTimer s) (_touchActive s) (class_active s) (_onTouchStart s)
          (listeners s) (now s) (pending s) (next_id s) e.

Definition setTimeout (cb : Callback) (delay : Z) (s : State) : nat * State :=
  let id := next_id s in
  (id, set_next_id (S id)
         (set_pending (pending s ++ [Clock.mkTimer id (now s + delay) cb]) s)).

Definition clearTimeout (id : nat) (s : State) : State :=
  set_pending (Clock.remove id (pending s)) s.

Definition _clearTouchTimer (s : State) : State :=
  match _touchTimer s with
  | Some t => set_touchTimer None (clearTimeout t s)
  | None => s
  end.

Definition _initTouchSupport (s : State) : State :=
  let g := next_id s in
  let s := set_next_id (S g) s in
  set_bound (Some g)
    (listeners s ++ [mkListener "touchstart" g; mkListener "touchend" g;
                     mkListener "touchcancel" g]) s.

Definition _cleanupTouchSupport (s : State) : State :=
  let s := match _onTouchStart s with
           | Some g =>
               set_bound (_onTouchStart s)
                 (List.filter (fun l => negb (Nat.eqb (gen l) g)) (listeners s)) s
           | None => s
           end in
  _clearTouchTimer s.

Definition _getTouchEffect (s : State) : string :=
  let touchAttr := touch s in
  if JS.truthy_str touchAttr && negb (bool_decide (touchAttr = Some "true"))
  then default "" touchAttr
  else JS.or_default (hover s) "default".

Definition _activateTouch (s : State) : State :=
  let s := set_active true true s in
  set_events (events s ++ [TouchActive (_getTouchEffect s)]) s.

Definition _deactivateTouch (s : State) : State :=
  let s := set_active false false s in
  set_events (events s ++ [TouchInactive]) s.

Definition _handleTouchStart (s : State) : State :=
  let s := _clearTouchTimer s in
  let '(t, s) := setTimeout Activate 300 s in
  set_touchTimer (Some t) s.

Definition _handleTouchEnd (s : State) : State :=
  let s := _clearTouchTimer s in
  if _touchActive s then (setTimeout Deactivate 600 s).2 else s.

Definition _handleTouchCancel (s : State) : State :=
  _deactivateTouch (_clearTouchTimer s).

Definition connectedCallback (s : State) : State :=
  if bool_decide (is_Some (touch s)) then _initTouchSupport s else s.

Definition disconnectedCallback (s : State) : State := _cleanupTouchSupport s.

(** [attributeChangedCallback('touch', _, newVal)] after the attribute changed. *)
Definition set_touch (newVal : option string) (s : State) : State :=
  let s := set_attrs newVal (hover s) s in
  match newVal with
  | Some _ => _initTouchSupport s
  | None => _cleanupTouchSupport s
  end.

Definition handler (e : string) (s : State) : State :=
  if bool_decide (e = "touchstart") then _handleTouchStart s
  else if bool_decide (e = "touchend") then _handleTouchEnd s
  else if bool_decide (e = "touchcancel") then _handleTouchCancel s
  else s.

(** An event of type [e] reaches the element: every listener registered
    for it runs its handler. *)
Definition dispatch (e : string) (s : State) : State :=
  foldl (fun s l => if bool_decide (ev l = e) then handler e s else s) s (listeners s).

Definition run_callback (cb : Callback) (s : State) : State :=
  match cb with
  | Activate => _activateTouch s
  | Deactivate => _deactivateTouch s
  end.

Definition fire (tm : Clock.Timer Callback) (s : State) : State :=
  run_callback (Clock.tcb tm)
    (set_now (Z.max (now s) (Clock.due tm)) (clearTimeout (Clock.tid tm) s)).

Fixpoint fire_due (fuel : nat) (t : Z) (s : State) : State :=
  match fuel with
  | O => s
  | S n =>
      match Clock.earliest t (pending s) with
      | Some tm => fire_due n t (fire tm s)
      | None => s
      end
  end.

Definition advance (dt : Z) (s : State) : State :=
  let t := now s + Z.max 0 dt in
  set_now t (fire_due (length (pending s)) t s).

Inductive Event :=
| Attach
| Detach
| SetTouch (v : option string)
| Touch (e : string)
| Advance (dt : Z).

Definition step (s : State) (e : Event) : State :=
  match e with
  | Attach => connectedCallback s
  | Detach => disconnectedCallback s
  | SetTouch v => set_touch v s
  | Touch e => dispatch e s
  | Advance dt => advance dt s
  end.

Definition run (s : State) (es : list Event) : State := foldl step s es.

#[global] Instance ThirCallback_eq_dec : EqDecision Callback.
Proof. solve_decision. Defined.

Definition press_timers (s : State) : list (Clock.Timer Callback) :=
  List.filter (fun tm => bool_decide (Clock.tcb tm = Activate)) (pending s).

Definition grace_timers (s : State) : list (Clock.Timer Callback) :=
  List.filter (fun tm => bool_decide (Clock.tcb tm = Deactivate)) (pending s).

End Thir.

(** The same invariant for the timers of an [i-thir] element. *)
Definition thir_inv (s : Thir.State) : Prop :=
  NoDup (Clock.tid <$> Thir.pending s) /\
  (forall tm, tm ∈ Thir.pending s -> (Clock.tid tm < Thir.next_id s)%nat) /\
  (forall tm, tm ∈ Thir.pending s -> Clock.tcb tm = Thir.Activate ->
              Thir._touchTimer s = Some (Clock.tid tm)) /\
  (forall tm, tm ∈ Thir.pending s -> Thir._touchTimer s = Some (Clock.tid tm) ->
              Clock.tcb tm = Thir.Activate) /\
  (forall t, Thir._touchTimer s = Some t -> (t < Thir.next_id s)%nat).

(** For [i-him] at any time: the only connected observer is the one in
    [this.observer], and the only sentinel next to the element is the one
    in [this.sentinelEl]. *)
Definition him_owned (s : Him.State) : Prop :=
  (forall o, is_Some (Him.observing s !! o) -> Him.observer s = Some o) /\
  (forall e, is_Some (Him.sentinels s !! e) -> Him.sentinelEl s = Some e).

(** ** Concrete elements used in the examples *)

Definition about_link : Gil.State :=
  Gil.init [("href", "/about")] [Gil.Text "About Us"] true (fun _ => true) None [].

(** A link that asks for its icons by the shorthand, on a page where the
    icon loader is present. *)
Definition icons_link : Gil.State :=
  Gil.init [("href", "/a"); ("prefetch", "icons html")] [Gil.Text "A"]
    true (fun _ => true) (Some (fun _ => false)) [].

(** A sticky element with stuck detection, in an environment that has
    IntersectionObserver. *)
Definition sticky : Him.State :=
  Him.init (host_of [("sentinel", "")]) true empty_document.

(** One element, number 1, with [hover="lift"] and a bare [touch]. *)
Definition touch_page : Touch.State :=
  Touch.init {[ 1%nat := "" ]} {[ 1%nat := "lift" ]}.

(** An [i-thir] element with [hover="lift"] and a bare [touch]. *)
Definition thir_el : Thir.State := Thir.init (Some "") (Some "lift").

(** A prefetch link with the idle trigger. *)
Definition idle_link : Gil.State :=
  Gil.init [("href", "/a"); ("prefetch-on", "idle")] [Gil.Text "A"]
    true (fun _ => true) None [].

(** *** Elements as a page builds them

    An element that is written with an observed attribute gets
    [attributeChangedCallback] for it before [connectedCallback]; the
    following elements are built that way, up to the point of being
    attached. *)

(** [<i-him sentinel>] *)
Definition sticky_markup : Him.State :=
  Him.run (Him.init (host_of []) true empty_document)
    [Him.SetAttribute "sentinel" (Some "")].


(** [<i-gil href="/a" prefetch-on="visible">A</i-gil>] *)
Definition visible_markup : Gil.State :=
  Gil.run (Gil.init [] [Gil.Text "A"] true (fun _ => true) None [])
    [Gil.SetAttribute "href" (Some "/a"); Gil.SetAttribute "prefetch-on" (Some "visible")].


(** ** The other layouts with a style cache *)

(** *** [i-gonath], the masonry layout *)
Module Gonath.

(** [parseInt(this.getAttribute('columns'), 10) || 3] *)
Definition columns (h : Host) : JS.Number :=
  JS.num_or (JS.parseInt (JS.str_of_null (getAttribute h "columns")) (Some 10)) 3.
Definition space (h : Host) : string :=
  JS.or_default (getAttribute h "space") "var(--s1)".

Definition fingerprint (h : Host) : string :=
  JS.sanitize ("Gonath-" +:+ JS.num_to_string (columns h) +:+ "-" +:+ space h).

Definition css (h : Host) : string :=
  let selector := selector_of (fingerprint h) in
  let css :=
    nl +:+ "        " +:+ selector +:+ " {" +:+ nl
    +:+ "          column-count: " +:+ JS.num_to_string (columns h) +:+ ";" +:+ nl
    +:+ "          column-gap: " +:+ space h +:+ ";" +:+ nl
    +:+ "        }" +:+ nl
    +:+ "        " +:+ selector +:+ " > * {" +:+ nl
    +:+ "          margin-block-end: " +:+ space h +:+ ";" +:+ nl
    +:+ "        }" +:+ nl
    +:+ "      " in
  css +:+
    nl +:+ "        @supports (grid-template-rows: masonry) {" +:+ nl
    +:+ "          " +:+ selector +:+ " {" +:+ nl
    +:+ "            display: grid;" +:+ nl
    +:+ "            column-count: unset;" +:+ nl
    +:+ "            grid-template-columns: repeat(" +:+ JS.num_to_string (columns h) +:+ ", 1fr);" +:+ nl
    +:+ "            grid-template-rows: masonry;" +:+ nl
    +:+ "            gap: " +:+ space h +:+ ";" +:+ nl
    +:+ "          }" +:+ nl
    +:+ "          " +:+ selector +:+ " > * {" +:+ nl
    +:+ "            margin-block-end: 0;" +:+ nl
    +:+ "          }" +:+ nl
    +:+ "        }" +:+ nl
    +:+ "      ".

Definition render (h : Host) (doc : Document) : Host * Document :=
  let h := setProperty "--gonath-columns" (JS.num_to_string (columns h)) h in
  let h := setProperty "--gonath-space" (space h) h in
  let id := fingerprint h in
  let h := set_dataset "i" id h in
  (h, realize id (css h) doc).

End Gonath.

(** *** [i-enedh], the center layout *)
Module Enedh.

Definition max (h : Host) : string :=
  JS.or_default (getAttribute h "max") "var(--measure)".
Definition gutters (h : Host) : string :=
  JS.or_default (getAttribute h "gutters") "0".
Definition intrinsic (h : Host) : bool := hasAttribute h "intrinsic".
Definition andText (h : Host) : bool := hasAttribute h "and-text".

Definition fingerprint (h : Host) : string :=
  let intrinsicStr := if intrinsic h then "-intrinsic" else "" in
  let textStr := if andText h then "-andText" else "" in
  JS.sanitize ("Enedh-" +:+ max h +:+ "-" +:+ gutters h +:+ intrinsicStr +:+ textStr).

Definition css (h : Host) : string :=
  let selector := selector_of (fingerprint h) in
  let css := selector +:+ " { max-inline-size: " +:+ max h +:+ "; padding-inline: " +:+ gutters h +:+ "; }" in
  let css :=
    if intrinsic h
    then css +:+ selector +:+ " { display: flex; flex-direction: column; align-items: center; }"
    else css in
  if andText h then css +:+ selector +:+ " { text-align: center; }" else css.

Definition render (h : Host) (doc : Document) : Host * Document :=
  let h := setProperty "--enedh-max" (max h) h in
  let h := setProperty "--enedh-gutters" (gutters h) h in
  let id := fingerprint h in
  let h := set_dataset "i" id h in
  (h, realize id (css h) doc).

End Enedh.

(** *** [i-tiniath], the cluster layout *)
Module Tiniath.

Definition space (h : Host) : string :=
  JS.or_default (getAttribute h "space") "var(--s1)".
Definition justify (h : Host) : string :=
  JS.or_default (getAttribute h "justify") "flex-start".
Definition align (h : Host) : string :=
  JS.or_default (getAttribute h "align") "center".

Definition fingerprint (h : Host) : string :=
  JS.sanitize ("Tiniath-" +:+ space h +:+ "-" +:+ justify h +:+ "-" +:+ align h).

Definition css (h : Host) : string :=
  let selector := selector_of (fingerprint h) in
  nl +:+ "        " +:+ selector +:+ " {" +:+ nl
  +:+ "          gap: " +:+ space h +:+ ";" +:+ nl
  +:+ "          justify-content: " +:+ justify h +:+ ";" +:+ nl
  +:+ "          align-items: " +:+ align h +:+ ";" +:+ nl
  +:+ "        }" +:+ nl
  +:+ "      ".

Definition render (h : Host) (doc : Document) : Host * Document :=
  let h := setProperty "--tiniath-space" (space h) h in
  let h := setProperty "--tiniath-justify" (justify h) h in
  let h := setProperty "--tiniath-align" (align h) h in
  let id := fingerprint h in
  let h := set_dataset "i" id h in
  (h, realize id (css h) doc).

End Tiniath.

(** *** [i-glan-veleg], the sidebar layout *)
Module GlanVeleg.

Definition side (h : Host) : string :=
  JS.or_default (getAttribute h "side") "left".
Definition sideWidth (h : Host) : string :=
  JS.or_default (getAttribute h "side-width") "20rem".
Definition contentMin (h : Host) : string :=
  JS.or_default (getAttribute h "content-min") "50%".
Definition space (h : Host) : string :=
  JS.or_default (getAttribute h "space") "var(--s1)".
Definition noStretch (h : Host) : bool := hasAttribute h "no-stretch".

Definition fingerprint (h : Host) : string :=
  let sideStr := if bool_decide (side h = "right") then "-right" else "-left" in
  let stretchStr := if noStretch h then "-noStretch" else "" in
  JS.sanitize ("GlanVeleg-" +:+ sideWidth h +:+ "-" +:+ contentMin h +:+ "-" +:+ space h
               +:+ sideStr +:+ stretchStr).

Definition css (h : Host) : string :=
  let selector := selector_of (fingerprint h) in
  let css := selector +:+ " { gap: " +:+ space h +:+ "; }" in
  let css :=
    if bool_decide (side h = "right") then
      css +:+
        nl +:+ "          " +:+ selector +:+ " > :first-child {" +:+ nl
        +:+ "            flex-basis: 0;" +:+ nl
        +:+ "            flex-grow: 999;" +:+ nl
        +:+ "            min-inline-size: " +:+ contentMin h +:+ ";" +:+ nl
        +:+ "          }" +:+ nl
        +:+ "          " +:+ selector +:+ " > :last-child {" +:+ nl
        +:+ "            flex-basis: " +:+ sideWidth h +:+ ";" +:+ nl
        +:+ "            flex-grow: 1;" +:+ nl
        +:+ "          }" +:+ nl
        +:+ "        "
    else
      css +:+
        nl +:+ "          " +:+ selector +:+ " > :first-child {" +:+ nl
        +:+ "            flex-basis: " +:+ sideWidth h +:+ ";" +:+ nl
        +:+ "          }" +:+ nl
        +:+ "          " +:+ selector +:+ " > :last-child {" +:+ nl
        +:+ "            flex-basis: 0;" +:+ nl
        +:+ "            flex-grow: 999;" +:+ nl
        +:+ "            min-inline-size: " +:+ contentMin h +:+ ";" +:+ nl
        +:+ "          }" +:+ nl
        +:+ "        " in
  if noStretch h then css +:+ selector +:+ " { align-items: flex-start; }" else css.

Definition render (h : Host) (doc : Document) : Host * Document :=
  let h := setProperty "--glan-veleg-width" (sideWidth h) h in
  let h := setProperty "--glan-veleg-content-min" (contentMin h) h in
  let h := setProperty "--glan-veleg-space" (space h) h in
  let id := fingerprint h in
  let h := set_dataset "i" id h in
  (h, realize id (css h) doc).

End GlanVeleg.

(** *** [i-esgal], the cover layout *)
Module Esgal.

Definition centered (h : Host) : string :=
  JS.or_default (getAttribute h "centered") "h1".
Definition space (h : Host) : string :=
  JS.or_default (getAttribute h "space") "var(--s1)".
Definition minHeight (h : Host) : string :=
  JS.or_default (getAttribute h "min-height") "100vh".
Definition noPad (h : Host) : bool := hasAttribute h "no-pad".

Definition fingerprint (h : Host) : string :=
  let noPadStr := if noPad h then "-noPad" else "" in
  JS.sanitize ("Esgal-" +:+ centered h +:+ "-" +:+ minHeight h +:+ "-" +:+ space h +:+ noPadStr).

Definition css (h : Host) : string :=
  let selector := selector_of (fingerprint h) in
  let padding := if noPad h then "0" else space h in
  nl +:+ "        " +:+ selector +:+ " {" +:+ nl
  +:+ "          min-block-size: " +:+ minHeight h +:+ ";" +:+ nl
  +:+ "          padding: " +:+ padding +:+ ";" +:+ nl
  +:+ "        }" +:+ nl
  +:+ "        " +:+ selector +:+ " > * {" +:+ nl
  +:+ "          margin-block: " +:+ space h +:+ ";" +:+ nl
  +:+ "        }" +:+ nl
  +:+ "        " +:+ selector +:+ " > :first-child:not(" +:+ centered h +:+ ") {" +:+ nl
  +:+ "          margin-block-start: 0;" +:+ nl
  +:+ "        }" +:+ nl
  +:+ "        " +:+ selector +:+ " > :last-child:not(" +:+ centered h +:+ ") {" +:+ nl
  +:+ "          margin-block-end: 0;" +:+ nl
  +:+ "        }" +:+ nl
  +:+ "        " +:+ selector +:+ " > " +:+ centered h +:+ " {" +:+ nl
  +:+ "          margin-block: auto;" +:+ nl
  +:+ "        }" +:+ nl
  +:+ "      ".

Definition render (h : Host) (doc : Document) : Host * Document :=
  let h := setProperty "--esgal-min-height" (minHeight h) h in
  let h := setProperty "--esgal-space" (space h) h in
  let id := fingerprint h in
  let h := set_dataset "i" id h in
  (h, realize id (css h) doc).

End Esgal.

(** *** [i-vircantie], the grid layout *)
Module Vircantie.

Definition min (h : Host) : string :=
  JS.or_default (getAttribute h "min") "250px".
Definition space (h : Host) : string :=
  JS.or_default (getAttribute h "space") "var(--s1)".

Definition fingerprint (h : Host) : string :=
  JS.sanitize ("Vircantie-" +:+ min h +:+ "-" +:+ space h).

Definition css (h : Host) : string :=
  let selector := selector_of (fingerprint h) in
  nl +:+ "        " +:+ selector +:+ " {" +:+ nl
  +:+ "          gap: " +:+ space h +:+ ";" +:+ nl
  +:+ "        }" +:+ nl
  +:+ "        @supports (width: min(" +:+ min h +:+ ", 100%)) {" +:+ nl
  +:+ "          " +:+ selector +:+ " {" +:+ nl
  +:+ "            vircantie-template-columns: repeat(auto-fit, minmax(min(" +:+ min h +:+ ", 100%), 1fr));" +:+ nl
  +:+ "          }" +:+ nl
  +:+ "        }" +:+ nl
  +:+ "      ".

Definition render (h : Host) (doc : Document) : Host * Document :=
  let h := setProperty "--vircantie-min" (min h) h in
  let h := setProperty "--vircantie-space" (space h) h in
  let id := fingerprint h in
  let h := set_dataset "i" id h in
  (h, realize id (css h) doc).

End Vircantie.

(** *** [i-fano], the imposter layout *)
Module Fano.

Definition fixed (h : Host) : bool := hasAttribute h "fixed".
Definition contain (h : Host) : bool := hasAttribute h "contain".
Definition margin (h : Host) : string :=
  JS.or_default (getAttribute h "margin") "0px".

Definition fingerprint (h : Host) : string :=
  let fixedStr := if fixed h then "-fixed" else "" in
  let containStr := if contain h then "-contain" else "" in
  JS.sanitize ("Fano-" +:+ margin h +:+ fixedStr +:+ containStr).

Definition css (h : Host) : string :=
  let selector := selector_of (fingerprint h) in
  let css := "" in
  let css := if fixed h then css +:+ selector +:+ " { position: fixed; }" else css in
  if contain h then
    css +:+
      nl +:+ "          " +:+ selector +:+ " {" +:+ nl
      +:+ "            overflow: auto;" +:+ nl
      +:+ "            max-inline-size: calc(100% - (" +:+ margin h +:+ " * 2));" +:+ nl
      +:+ "            max-block-size: calc(100% - (" +:+ margin h +:+ " * 2));" +:+ nl
      +:+ "          }" +:+ nl
      +:+ "        "
  else css.

Definition render (h : Host) (doc : Document) : Host * Document :=
  let h := setProperty "--fano-margin" (margin h) h in
  let id := fingerprint h in
  let h := set_dataset "i" id h in
  (h, realize id (css h) doc).

End Fano.

(** *** [i-miriant], the placed grid: the style cache of its [render()] *)
Module Miriant.

(** [parseInt(this.getAttribute('columns'), 10) || 12] *)
Definition columns (h : Host) : JS.Number :=
  JS.num_or (JS.parseInt (JS.str_of_null (getAttribute h "columns")) (Some 10)) 12.
Definition space (h : Host) : string :=
  JS.or_default (getAttribute h "space") "var(--s1)".
Definition rowHeight (h : Host) : string :=
  JS.or_default (getAttribute h "row-height") "minmax(0, auto)".
Definition dense (h : Host) : bool := hasAttribute h "dense".

Definition fingerprint (h : Host) : string :=
  let denseStr := if dense h then "-dense" else "" in
  JS.sanitize ("Miriant-" +:+ JS.num_to_string (columns h) +:+ "-" +:+ space h
               +:+ "-" +:+ rowHeight h +:+ denseStr).

Definition css (h : Host) : string :=
  let selector := selector_of (fingerprint h) in
  let css :=
    nl +:+ "        " +:+ selector +:+ " {" +:+ nl
    +:+ "          grid-template-columns: repeat(" +:+ JS.num_to_string (columns h) +:+ ", 1fr);" +:+ nl
    +:+ "          gap: " +:+ space h +:+ ";" +:+ nl
    +:+ "          grid-auto-rows: " +:+ rowHeight h +:+ ";" +:+ nl
    +:+ "        }" +:+ nl
    +:+ "      " in
  if dense h then css +:+ selector +:+ " { grid-auto-flow: dense; }" else css.

(** [this.style.containerType = 'inline-size'] is the property
    [container-type]. *)
Definition render_style (h : Host) (doc : Document) : Host * Document :=
  let h := setProperty "--miriant-columns" (JS.num_to_string (columns h)) h in
  let h := setProperty "--miriant-space" (space h) h in
  let h := setProperty "--miriant-row-height" (rowHeight h) h in
  let id := fingerprint h in
  let h := set_dataset "i" id h in
  let h := setProperty "container-type" "inline-size" h in
  (h, realize id (css h) doc).

(** A child of the grid as far as [styleChildren] looks at it. *)
Record Child := mkChild {
  colStart : option string;        (* child.dataset.colStart *)
  rowStart : option string;        (* child.dataset.rowStart *)
  gridColumnStart : string;        (* child.style.gridColumnStart *)
  gridRowStart : string            (* child.style.gridRowStart *)
}.

(** The element, its observer field and the environment.  [parse_line]
    is the environment's style parser for [grid-column-start] and
    [grid-row-start]: it gives the stored form of a value it accepts, and
    assigning a value that it rejects leaves the property as it is. *)
Record State := mkState {
  host : Host;
  children : list Child;
  mutationObserver : option nat;
  (* environment *)
  has_MutationObserver : bool;     (* 'MutationObserver' in window *)
  parse_line : string -> option string;
  observing : gset nat;
  next_observer : nat;
  doc : Document
}.

Definition init (h : Host) (cs : list Child) (mo : bool) (parse : string -> option string)
    (d : Document) : State :=
  {| host := h; children := cs; mutationObserver := None;
     has_MutationObserver := mo; parse_line := parse;
     observing := ∅; next_observer := 1; doc := d |}.

Definition set_children (cs : list Child) (s : State) : State :=
  mkState (host s) cs (mutationObserver s) (has_MutationObserver s) (parse_line s)
          (observing s) (next_observer s) (doc s).
Definition set_host (h : Host) (d : Document) (s : State) : State :=
  mkState h (children s) (mutationObserver s) (has_MutationObserver s) (parse_line s)
          (observing s) (next_observer s) d.
Definition set_observer (o : option nat) (obs : gset nat) (n : nat) (s : State) : State :=
  mkState (host s) (children s) o (has_MutationObserver s) (parse_line s)
          obs n (doc s).

(** The body of the [forEach] of [styleChildren]. *)
Definition assign_line (parse : string -> option string) (v old : string) : string :=
  default old (parse v).

Definition style_child (parse : string -> option string) (c : Child) : Child :=
  let c :=
    match colStart c with
    | Some v => if JS.truthy_str (Some v)
                then mkChild (colStart c) (rowStart c)
                             (assign_line parse v (gridColumnStart c)) (gridRowStart c)
                else c
    | None => c
    end in
  match rowStart c with
  | Some v => if JS.truthy_str (Some v)
              then mkChild (colStart c) (rowStart c) (gridColumnStart c)
                           (assign_line parse v (gridRowStart c))
              else c
  | None => c
  end.

Definition styleChildren (s : State) : State :=
  set_children (style_child (parse_line s) <$> children s) s.

Definition setupChildObserver (s : State) : State :=
  if negb (has_MutationObserver s) then s
  else
    let o := next_observer s in
    styleChildren (set_observer (Some o) (observing s ∪ {[o]}) (S o) s).

Definition render (s : State) : State :=
  let '(h, d) := render_style (host s) (doc s) in set_host h d s.

Definition connectedCallback (s : State) : State := setupChildObserver (render s).

Definition disconnectedCallback (s : State) : State :=
  match mutationObserver s with
  | Some o => set_observer (mutationObserver s) (observing s ∖ {[o]}) (next_observer s) s
  | None => s
  end.

Definition set_attribute (k : string) (v : option string) (s : State) : State :=
  let h := host s in
  set_host {| attrs := match v with Some x => <[k := x]> (attrs h) | None => delete k (attrs h) end;
              dataset := dataset h; style := style h |} (doc s) s.

(** What the environment can do: attach and detach the element, change an
    attribute, change the children (their list, their data attributes or
    their styles), and let observer [o] deliver a number of child-list
    records. *)
Inductive Event :=
| Attach
| Detach
| SetAttribute (k : string) (v : option string)
| SetChildren (cs : list Child)
| Notify (o : nat) (records : nat).

Definition step (s : State) (e : Event) : State :=
  match e with
  | Attach => connectedCallback s
  | Detach => disconnectedCallback s
  | SetAttribute k v => render (set_attribute k v s)
  | SetChildren cs => set_children cs s
  | Notify o records =>
      if bool_decide (o ∈ observing s) then Nat.iter records styleChildren s else s
  end.

Definition run (s : State) (es : list Event) : State := foldl step s es.

(** The children as the environment alone left them. *)
Definition env_children (cs : list Child) (es : list Event) : list Child :=
  foldl (fun cs e => match e with SetChildren cs' => cs' | _ => cs end) cs es.

(** A child whose placement attributes are applied. *)
Definition placed (parse : string -> option string) (c : Child) : Prop :=
  (forall v w, colStart c = Some v -> v <> "" -> parse v = Some w -> gridColumnStart c = w) /\
  (forall v w, rowStart c = Some v -> v <> "" -> parse v = Some w -> gridRowStart c = w).

(** The placement attributes of a child, which the element only reads. *)
Definition placement (c : Child) : option string * option string :=
  (colStart c, rowStart c).

End Miriant.

(** *** All layouts with a style cache *)
Inductive Layout :=
| of_widget (w : Widget)
| gonath | enedh | tiniath | glan_veleg | esgal | vircantie | fano | miriant.

Module Layouts.

Definition fingerprint (l : Layout) : Host -> string :=
  match l with
  | of_widget w => fingerprint w
  | gonath => Gonath.fingerprint
  | enedh => Enedh.fingerprint
  | tiniath => Tiniath.fingerprint
  | glan_veleg => GlanVeleg.fingerprint
  | esgal => Esgal.fingerprint
  | vircantie => Vircantie.fingerprint
  | fano => Fano.fingerprint
  | miriant => Miriant.fingerprint
  end.

Definition css (l : Layout) : Host -> string :=
  match l with
  | of_widget w => css w
  | gonath => Gonath.css
  | enedh => Enedh.css
  | tiniath => Tiniath.css
  | glan_veleg => GlanVeleg.css
  | esgal => Esgal.css
  | vircantie => Vircantie.css
  | fano => Fano.css
  | miriant => Miriant.css
  end.

(** What [render()] does to the element's styles and to the style cache;
    for every layout but the sticky one that is all that [render()] does
    (see [Him.render]). *)
Definition render (l : Layout) : Host -> Document -> Host * Document :=
  match l with
  | of_widget w => render w
  | gonath => Gonath.render
  | enedh => Enedh.render
  | tiniath => Tiniath.render
  | glan_veleg => GlanVeleg.render
  | esgal => Esgal.render
  | vircantie => Vircantie.render
  | fano => Fano.render
  | miriant => Miriant.render_style
  end.

(** Several instances rendered one after the other on one document. *)
Definition render_all (ls : list (Layout * Host)) (d : Document) : Document :=
  foldl (fun d lh => (render lh.1 lh.2 d).2) d ls.

End Layouts.

Module Chars.
(** Whether every character of a string is in a class. *)
Fixpoint all_chars (p : ascii -> bool) (s : string) : bool :=
  match s with
  | EmptyString => true
  | String c r => p c && all_chars p r
  end.
End Chars.

(** The custom properties that the [render()] of a layout writes on its
    element, in the order of the calls of [setProperty]. *)
Definition properties (l : Layout) (h : Host) : list (string * string) :=
  match l with
  | of_widget hath => [("--hath-space", Hath.space h)]
  | of_widget bau => [("--bau-padding", Bau.padding h); ("--bau-border-width", Bau.borderWidth h)]
  | of_widget gant_thala => [("--gant-thala-n", JS.str_of_undef (GantThala.n h));
                             ("--gant-thala-d", JS.str_of_undef (GantThala.d h))]
  | of_widget gwistindor => [("--gwistindor-threshold", Gwistindor.threshold h);
                             ("--gwistindor-space", Gwistindor.space h)]
  | of_widget glan_tholl => [("--glan-tholl-item-width", GlanTholl.itemWidth h);
                             ("--glan-tholl-space", GlanTholl.space h);
                             ("--glan-tholl-height", GlanTholl.height h)]
  | of_widget him => [("--him-offset", Him.offset h)]
  | gonath => [("--gonath-columns", JS.num_to_string (Gonath.columns h));
               ("--gonath-space", Gonath.space h)]
  | enedh => [("--enedh-max", Enedh.max h); ("--enedh-gutters", Enedh.gutters h)]
  | tiniath => [("--tiniath-space", Tiniath.space h); ("--tiniath-justify", Tiniath.justify h);
                ("--tiniath-align", Tiniath.align h)]
  | glan_veleg => [("--glan-veleg-width", GlanVeleg.sideWidth h);
                   ("--glan-veleg-content-min", GlanVeleg.contentMin h);
                   ("--glan-veleg-space", GlanVeleg.space h)]
  | esgal => [("--esgal-min-height", Esgal.minHeight h); ("--esgal-space", Esgal.space h)]
  | vircantie => [("--vircantie-min", Vircantie.min h); ("--vircantie-space", Vircantie.space h)]
  | fano => [("--fano-margin", Fano.margin h)]
  | miriant => [("--miriant-columns", JS.num_to_string (Miriant.columns h));
                ("--miriant-space", Miriant.space h);
                ("--miriant-row-height", Miriant.rowHeight h);
                ("container-type", "inline-size")]
  end.

(** [style.setProperty] on the properties alone. *)
Definition set_prop (m : gmap string string) (kv : string * string) : gmap string string :=
  style (setProperty kv.1 kv.2 (mkHost ∅ ∅ m)).

(** ** The exported functions of [global/touch.js] *)
Module TouchApi.

(** The delay that [setTimeout] uses for a [duration] argument: the default
    of the parameter when it is [undefined], and no less than zero. *)
Definition delay (duration : option Z) : Z :=
  Z.max 0 (default Touch.TOUCH_ACTIVE_DURATION duration).

(** [triggerTouch(element, duration = TOUCH_ACTIVE_DURATION)] *)
Definition triggerTouch (el : nat) (duration : option Z) (s : Touch.State) : Touch.State :=
  (Touch.setTimeout (Touch.Deactivate el) (delay duration) (Touch.activateTouch el s)).2.

(** What a page can do: the delegated listeners see a touch event, time
    passes, or a script calls [ElvishTouch.activate], [deactivate] or
    [trigger]. *)
Inductive Event :=
| Dom (e : Touch.Event)
| CallActivate (el : nat)
| CallDeactivate (el : nat)
| CallTrigger (el : nat) (duration : option Z).

Definition step (s : Touch.State) (e : Event) : Touch.State :=
  match e with
  | Dom e => Touch.step s e
  | CallActivate el => Touch.activateTouch el s
  | CallDeactivate el => Touch.deactivateTouch el s
  | CallTrigger el duration => triggerTouch el duration s
  end.

Definition run (s : Touch.State) (es : list Event) : Touch.State := foldl step s es.

(** The number of [thir:touch-active] events dispatched on an element. *)
Definition activations (el : nat) (s : Touch.State) : nat :=
  length (List.filter (fun f => match f with
                                | Touch.TouchActive e _ => Nat.eqb e el
                                | Touch.TouchInactive _ => false
                                end) (Touch.events s)).

End TouchApi.

(** The three listeners that one call of [_initTouchSupport] registers. *)
Definition thir_bound (g : nat) : list Thir.Listener :=
  [Thir.mkListener "touchstart" g; Thir.mkListener "touchend" g;
   Thir.mkListener "touchcancel" g].

(** For [i-thir] at any time: the listeners were registered three at a
    time, by calls that are numbered below the next number, and a
    press-confirmation timer is recorded only while a listener is
    registered. *)
Definition thir_bound_inv (s : Thir.State) : Prop :=
  (exists gs, Thir.listeners s = flat_map thir_bound gs /\
              forall g, g ∈ gs -> (g < Thir.next_id s)%nat) /\
  (Thir.listeners s = [] -> Thir._touchTimer s = None) /\
  Thir.class_active s = Thir._touchActive s.

(** The number of [thir:touch-active] events that the element dispatched. *)
Definition thir_activations (s : Thir.State) : nat :=
  length (List.filter (fun f => match f with
                                | Thir.TouchActive _ => true
                                | Thir.TouchInactive => false
                                end) (Thir.events s)).

(** A string without white space. *)
Definition no_space (s : string) : bool :=
  Chars.all_chars (fun c => negb (JS.is_space c)) s.

(** The values of [prefetch-on] that the [switch] of [setupPrefetch] knows;
    an empty value reads as [hover]. *)
Definition known_trigger (v : string) : bool :=
  bool_decide (v ∈ [""; "hover"; "visible"; "idle"; "immediate"]).

(** An event that leaves the [prefetch-on] attribute as it is. *)
Definition keeps_trigger (e : Gil.Event) : bool :=
  match e with
  | Gil.SetAttribute k _ => negb (bool_decide (k = "prefetch-on"))
  | _ => true
  end.

(** Nothing of the element is scheduled and nothing was fetched. *)
Definition gil_inert (v : string) (s : Gil.State) : Prop :=
  Gil.attrs s !! "prefetch-on" = Some v /\
  Gil.listeners s = [] /\ Gil.timers s = [] /\ Gil.idle s = 0%nat /\
  Gil.observing s = ∅ /\ Gil.suspended s = [] /\
  Gil.hoverTimer s = None /\ Gil.observer s = None /\ Gil._cleanup s = None /\
  Gil.calls s = [] /\ Gil.prefetched s = [] /\ Gil.links s = [] /\ Gil.dispatched s = [].

(** The attributes of the first anchor in tree order below a node, the node
    included: the element that [querySelector('a')] finds. *)
Fixpoint anchor_of (n : Gil.Node) : option (gmap string string) :=
  match n with
  | Gil.Text _ => None
  | Gil.Elem t a cs =>
      if bool_decide (t = "a") then Some a
      else
        (fix go (l : list Gil.Node) : option (gmap string string) :=
           match l with
           | [] => None
           | c :: r =>
               match anchor_of c with
               | Some x => Some x
               | None => go r
               end
           end) cs
  end.

(** The attributes of [this.anchor]. *)
Fixpoint anchor_attrs (l : list Gil.Node) : option (gmap string string) :=
  match l with
  | [] => None
  | c :: r =>
      match anchor_of c with
      | Some x => Some x
      | None => anchor_attrs r
      end
  end.

(** The attributes that [syncAttributes] copies under their own name. *)
Definition synced : list string := ["target"; "rel"; "download"; "hreflang"; "type"].

(** For [i-him] at any time: a connected observer watches the sentinel of
    the element; a sentinel sits next to the element only while the element
    has a parent; and observer and sentinel come and go together. *)
Definition him_paired (s : Him.State) : Prop :=
  (forall o e, Him.observing s !! o = Some e -> Him.sentinelEl s = Some e) /\
  (forall e, is_Some (Him.sentinels s !! e) -> Him.parent s = true) /\
  (Him.observer s = None <-> Him.sentinelEl s = None).

(** Whether attach and detach alternate in a sequence of events of
    [i-glan-tholl], from an element that is connected or not; the result
    tells whether the element is connected in the end. *)
Fixpoint glan_tholl_lifecycle (connected : bool) (es : list GlanTholl.Event) : option bool :=
  match es with
  | [] => Some connected
  | GlanTholl.Attach :: r => if connected then None else glan_tholl_lifecycle true r
  | GlanTholl.Detach :: r => if connected then glan_tholl_lifecycle false r else None
  | _ :: r => glan_tholl_lifecycle connected r
  end.

(** The observers that the fields of [i-glan-tholl] hold. *)
Definition glan_tholl_held (s : GlanTholl.State) : gset nat :=
  list_to_set (option_list (GlanTholl.resizeObserver s)
               ++ option_list (GlanTholl.mutationObserver s)).

(** For [i-glan-tholl] with a regular life cycle: a field holds an observer
    only if the environment has the observer type; while the element is
    connected, the connected observers are those that its fields hold, one
    for each observer type that the environment has; while it is not,
    there is none. *)
Definition glan_tholl_regular (connected : bool) (s : GlanTholl.State) : Prop :=
  (GlanTholl.has_ResizeObserver s = false -> GlanTholl.resizeObserver s = None) /\
  (GlanTholl.has_MutationObserver s = false -> GlanTholl.mutationObserver s = None) /\
  if connected then
    GlanTholl.observing s = glan_tholl_held s /\
    (GlanTholl.has_ResizeObserver s = true -> is_Some (GlanTholl.resizeObserver s)) /\
    (GlanTholl.has_MutationObserver s = true -> is_Some (GlanTholl.mutationObserver s))
  else GlanTholl.observing s = ∅.

From Stdlib Require DecimalPos.

(** ** Property setters *)

(** [el.setAttribute(k, v)] on the host, before any callback. *)
Definition setAttribute (k v : string) (h : Host) : Host :=
  {| attrs := <[k := v]> (attrs h); dataset := dataset h; style := style h |}.

(** The value of a decimal numeral read digit by digit, most significant
    first, onto an accumulator. *)
Fixpoint horner (acc : Z) (u : Decimal.uint) : Z :=
  match u with
  | Decimal.Nil => acc
  | Decimal.D0 l => horner (acc * 10 + 0) l
  | Decimal.D1 l => horner (acc * 10 + 1) l
  | Decimal.D2 l => horner (acc * 10 + 2) l
  | Decimal.D3 l => horner (acc * 10 + 3) l
  | Decimal.D4 l => horner (acc * 10 + 4) l
  | Decimal.D5 l => horner (acc * 10 + 5) l
  | Decimal.D6 l => horner (acc * 10 + 6) l
  | Decimal.D7 l => horner (acc * 10 + 7) l
  | Decimal.D8 l => horner (acc * 10 + 8) l
  | Decimal.D9 l => horner (acc * 10 + 9) l
  end.

Module HathSet.

(** [set splitAfter(val)] for a number [val]; setting or removing an
    observed attribute runs [attributeChangedCallback], which renders.
    Removing an attribute that is not there runs no callback. *)
Definition splitAfter (val : JS.Number) (h : Host) (d : Document) : Host * Document :=
  if JS.truthy_num val then
    Hath.render (setAttribute "split-after" (JS.num_to_string val) h) d
  else if hasAttribute h "split-after" then
    Hath.render (removeAttribute "split-after" h) d
  else (h, d).

(** [set recursive(val)] *)
Definition recursive (val : bool) (h : Host) (d : Document) : Host * Document :=
  if val then Hath.render (setAttribute "recursive" "" h) d
  else if hasAttribute h "recursive" then Hath.render (removeAttribute "recursive" h) d
  else (h, d).

(** [set space(val)] for a string [val] *)
Definition space (val : string) (h : Host) (d : Document) : Host * Document :=
  Hath.render (setAttribute "space" val h) d.

End HathSet.

Module GwistindorSet.

(** [set limit(val)] for a number [val] *)
Definition limit (val : JS.Number) (h : Host) (d : Document) : Host * Document :=
  Gwistindor.render (setAttribute "limit" (JS.num_to_string val) h) d.

End GwistindorSet.

(** ** [i-thann], the icon layout *)
Module Thann.

(** The two getters have no default: [null] without the attribute. *)
Definition space (h : Host) : option string := getAttribute h "space".
Definition label (h : Host) : option string := getAttribute h "label".

(** [`Thann-${this.space}`], evaluated where [this.space] is truthy. *)
Definition fingerprint (h : Host) : string :=
  JS.sanitize ("Thann-" +:+ JS.str_of_null (space h)).

Definition css (h : Host) : string :=
  let selector := selector_of (fingerprint h) in
  nl +:+ "          " +:+ selector +:+ " {" +:+ nl
     +:+ "            gap: " +:+ JS.str_of_null (space h) +:+ ";" +:+ nl
     +:+ "          }" +:+ nl +:+ "        ".

(** [render()]; [role] and [aria-label] are not observed attributes, so
    writing them runs no callback. *)
Definition render (h : Host) (doc : Document) : Host * Document :=
  let h :=
    if JS.truthy_str (label h)
    then setAttribute "aria-label" (JS.str_of_null (label h)) (setAttribute "role" "img" h)
    else removeAttribute "aria-label" (removeAttribute "role" h) in
  if JS.truthy_str (space h) then
    let h := setProperty "--thann-space" (JS.str_of_null (space h)) h in
    let id := fingerprint h in
    let h := set_dataset "i" id h in
    (h, realize id (css h) doc)
  else (h, doc).

(** [attributeChangedCallback] after an observed attribute was set or removed. *)
Definition set_attribute (k : string) (v : option string) (h : Host) (doc : Document)
    : Host * Document :=
  let h := match v with
           | Some x => setAttribute k x h
           | None => removeAttribute k h
           end in
  if bool_decide (k ∈ ["space"; "label"]) then render h doc else (h, doc).

End Thann.



(** ** View transitions ([transition] of the transitions helper) *)

Module Transitions.

(** A value given as [options.duration].  [transition] converts it to a
    boolean, in its tests, and to a string, in a template literal; a value
    that is not a number of the model, such as [0.5], is given by these two
    conversions. *)
Inductive Value :=
| Num (n : JS.Number)
| Other (truthy : bool) (text : string).

Definition to_boolean (v : Value) : bool :=
  match v with Num n => JS.truthy_num n | Other b _ => b end.
Definition to_string (v : Value) : string :=
  match v with Num n => JS.num_to_string n | Other _ t => t end.

Record Options := mkOptions {
  duration : option Value;         (* options.duration *)
  easing : option string;          (* options.easing *)
  types : option (list string)     (* options.types *)
}.

(** What [startViewTransition] is given; an update callback is known by
    a number. *)
Inductive TransitionOptions :=
| callback (update : nat)
| with_types (update : nat) (types : list string).

Definition update_of (t : TransitionOptions) : nat :=
  match t with callback u | with_types u _ => u end.

(** A view transition whose [finished] promise is not settled, with what
    the handler attached by [transition] closed over. *)
Record ViewTransition := mkViewTransition {
  vt_id : nat;
  transitionOptions : TransitionOptions;
  options : Options;
  originalDuration : string;
  originalEasing : string
}.

Record State := mkState {
  root : Host;                          (* document.documentElement *)
  transitions : list ViewTransition;
  called : list nat;                    (* update callbacks run so far *)
  supportsViewTransitions : bool;
  next_transition : nat
}.

Definition init (r : Host) (supports : bool) : State :=
  {| root := r; transitions := []; called := [];
     supportsViewTransitions := supports; next_transition := 0 |}.

(** [h.style.getPropertyValue(k)] *)
Definition getPropertyValue (h : Host) (k : string) : string :=
  default "" (style h !! k).

Definition duration_given (o : Options) : bool :=
  match duration o with Some v => to_boolean v | None => false end.
(** [`${options.duration}`] *)
Definition duration_text (o : Options) : string :=
  match duration o with Some v => to_string v | None => "undefined" end.
Definition easing_given (o : Options) : bool := JS.truthy_str (easing o).

Definition transition (updateCallback : nat) (o : Options) (s : State) : State :=
  if negb (supportsViewTransitions s) then
    mkState (root s) (transitions s) (called s ++ [updateCallback])
            (supportsViewTransitions s) (next_transition s)
  else
    let r := root s in
    let originalDuration := getPropertyValue r "--transition-duration" in
    let originalEasing := getPropertyValue r "--transition-ease" in
    let r :=
      if duration_given o
      then setProperty "--transition-duration" (duration_text o +:+ "ms") r
      else r in
    let r :=
      if easing_given o
      then setProperty "--transition-ease" (default "" (easing o)) r
      else r in
    let transitionOptions :=
      match types o with
      | Some ts => with_types updateCallback ts
      | None => callback updateCallback
      end in
    let vt := mkViewTransition (next_transition s) transitionOptions o
                               originalDuration originalEasing in
    mkState r (transitions s ++ [vt]) (called s)
            (supportsViewTransitions s) (S (next_transition s)).

(** The handler of [viewTransition.finished]. *)
Definition restore (vt : ViewTransition) (r : Host) : Host :=
  let r :=
    if duration_given (options vt)
    then setProperty "--transition-duration"
           (JS.or_default (Some (originalDuration vt)) "") r
    else r in
  if easing_given (options vt)
  then setProperty "--transition-ease" (JS.or_default (Some (originalEasing vt)) "") r
  else r.

Definition find_transition (i : nat) (s : State) : option ViewTransition :=
  List.find (fun vt => Nat.eqb (vt_id vt) i) (transitions s).
Definition settle (i : nat) (r : Host) (s : State) : State :=
  mkState r (List.filter (fun vt => negb (Nat.eqb (vt_id vt) i)) (transitions s))
          (called s) (supportsViewTransitions s) (next_transition s).

(** A call of [transition], and what the browser does with a view
    transition: run its update callback, fulfil its [finished] promise, or
    reject it. *)
Inductive Event :=
| Call (updateCallback : nat) (o : Options)
| Update (i : nat)
| Finished (i : nat)
| Rejected (i : nat).

Definition step (s : State) (e : Event) : State :=
  match e with
  | Call cb o => transition cb o s
  | Update i =>
      match find_transition i s with
      | Some vt =>
          mkState (root s) (transitions s)
                  (called s ++ [update_of (transitionOptions vt)])
                  (supportsViewTransitions s) (next_transition s)
      | None => s
      end
  | Finished i =>
      match find_transition i s with
      | Some vt => settle i (restore vt (root s)) s
      | None => s
      end
  | Rejected i => settle i (root s) s
  end.

Definition run (s : State) (es : list Event) : State := foldl step s es.

Definition is_update (e : Event) : bool :=
  match e with Update _ => true | _ => false end.

(** The update callbacks of the calls of [transition], in order. *)
Definition callbacks (es : list Event) : list nat :=
  omap (fun e => match e with Call cb _ => Some cb | _ => None end) es.

End Transitions.


(** * Properties *)

(** ** Sanity checks of the primitives on concrete inputs *)
Example sanitize_space : JS.sanitize "Hath-var(--s1)-recursive" = "Hath-var--s1-recursive".
Proof. reflexivity. Qed.
Example parseInt_3px : JS.parseInt " 3px" (Some 10) = JS.Int 3.
Proof. reflexivity. Qed.
Example parseInt_abc : JS.parseInt "abc" (Some 10) = JS.NaN.
Proof. reflexivity. Qed.
Example parseInt_hex : JS.parseInt "0x1f" None = JS.Int 31.
Proof. reflexivity. Qed.
Example parseInt_hex10 : JS.parseInt "0x1f" (Some 10) = JS.Int 0.
Proof. reflexivity. Qed.
Example parseInt_neg : JS.num_to_string (JS.parseInt "-42.5" (Some 10)) = "-42".
Proof. reflexivity. Qed.
Example split_colon : JS.split_on ":" "16:9" = ["16"; "9"].
Proof. reflexivity. Qed.
Example split_colon1 : JS.split_on ":" "4" = ["4"].
Proof. reflexivity. Qed.
Example split_ws_ex : JS.split_ws " html  css:a.css " = [""; "html"; "css:a.css"; ""].
Proof. reflexivity. Qed.
Example trim_ex : JS.trim "  a b  " = "a b".
Proof. reflexivity. Qed.
Example hath_fp : Hath.fingerprint (host_of [("space", "1.5rem"); ("recursive", ""); ("split-after", "3")])
  = "Hath-15rem-recursive-split3".
Proof. vm_compute. reflexivity. Qed.
Example hath_css : Hath.css (host_of [("split-after", "2")])
  = "[data-i=" +:+ dq +:+ "Hath-var--s1-split2" +:+ dq +:+ "] > * + * { margin-block-start: var(--s1); }"
    +:+ "[data-i=" +:+ dq +:+ "Hath-var--s1-split2" +:+ dq +:+ "] > :nth-child(2) { margin-block-end: auto; }".
Proof. vm_compute. reflexivity. Qed.
Example gant_fp : GantThala.fingerprint (host_of [("ratio", "4 : 3")]) = "GantThala-4-3".
Proof. vm_compute. reflexivity. Qed.

(** Long digit strings: [parseInt] rounds to the nearest double, and
    ToString prints the shortest digits that read back as that double. *)
Example parseInt_rounds :
  JS.parseInt "9007199254740993" (Some 10) = JS.Int 9007199254740992.
Proof. vm_compute. reflexivity. Qed.
Example num_to_string_padded :
  JS.num_to_string (JS.parseInt "18446744073709551616" (Some 10)) = "18446744073709552000".
Proof. vm_compute. reflexivity. Qed.
Example num_to_string_exponent :
  JS.num_to_string (JS.parseInt "1000000000000000000000" (Some 10)) = "1e+21" /\
  JS.num_to_string (JS.parseInt "1180591620717411303424" (Some 10)) = "1.1805916207174113e+21".
Proof. vm_compute. split; reflexivity. Qed.
Example parseInt_infinity :
  JS.parseInt
    ("100000000000000000000000000000000000000000000000000000000000000000000000000000000" +:+
     "00000000000000000000000000000000000000000000000000000000000000000000000000000000" +:+
     "00000000000000000000000000000000000000000000000000000000000000000000000000000000" +:+
     "000000000000000000000000000000000000000000000000000000000000000000000") (Some 10)
  = JS.Infinity false.
Proof. vm_compute. reflexivity. Qed.

(** ** The style cache *)
Section StyleCache.

Lemma find_app_some {A} (p : A -> bool) (l1 l2 : list A) x :
  List.find p l1 = Some x -> List.find p (l1 ++ l2) = Some x.
Proof.
  induction l1 as [|a l1 IH]; simpl; [discriminate|].
  destruct (p a); auto.
Qed.

Lemma find_app_none {A} (p : A -> bool) (l1 l2 : list A) :
  List.find p l1 = None -> List.find p (l1 ++ l2) = List.find p l2.
Proof.
  induction l1 as [|a l1 IH]; simpl; [reflexivity|].
  destruct (p a); [discriminate | auto].
Qed.

Lemma find_none_filter {A} (p q : A -> bool) (l : list A) :
  List.find p l = None -> (forall x, q x = true -> p x = true) -> List.filter q l = [].
Proof.
  intros Hf Hq. induction l as [|a l IH]; simpl in *; [reflexivity|].
  destruct (p a) eqn:Hp; [discriminate|].
  destruct (q a) eqn:Hqa; [apply Hq in Hqa; congruence | auto].
Qed.

Lemma find_app_none_inv {A} (p : A -> bool) (l1 l2 : list A) :
  List.find p (l1 ++ l2) = None -> List.find p l1 = None /\ List.find p l2 = None.
Proof.
  induction l1 as [|a l1 IH]; simpl; [auto|].
  destruct (p a); [discriminate | auto].
Qed.

Lemma realize_present i css d :
  is_Some (getElementById i d) -> realize i css d = d.
Proof. intros [e He]. unfold realize. by rewrite He. Qed.

Lemma realize_absent i css d :
  getElementById i d = None ->
  realize i css d = head_appendChild (mkElement "style" i css) d.
Proof. intros He. unfold realize. by rewrite He. Qed.

Lemma getElementById_realize i css d :
  i <> "" -> is_Some (getElementById i (realize i css d)).
Proof.
  intros Hi. unfold realize.
  destruct (getElementById i d) as [e|] eqn:He; [by rewrite He|].
  unfold getElementById in *. rewrite bool_decide_false in * by done.
  unfold all_elements, head_appendChild in *; simpl.
  apply find_app_none_inv in He as [Hh Hb].
  rewrite <- app_assoc, find_app_none by done. simpl.
  rewrite bool_decide_true by done. eauto.
Qed.

(** Realizing any fingerprint keeps an existing entry findable. *)
Lemma getElementById_realize_mono i j css d :
  is_Some (getElementById i d) -> is_Some (getElementById i (realize j css d)).
Proof.
  intros Hs. unfold realize.
  destruct (getElementById j d) as [e|] eqn:He; [done|].
  destruct (decide (i = j)) as [->|Hne].
  { rewrite He in Hs. by apply is_Some_None in Hs. }
  clear He. unfold getElementById in *.
  destruct (bool_decide (i = "")); [by apply is_Some_None in Hs|].
  unfold all_elements, head_appendChild in *; simpl.
  destruct (List.find (fun e => bool_decide (id e = i)) (head d)) as [x|] eqn:Hh.
  - rewrite <- !app_assoc. erewrite find_app_some; eauto.
  - rewrite find_app_none in Hs by done.
    rewrite <- app_assoc, find_app_none by done. simpl.
    rewrite bool_decide_false by congruence. done.
Qed.

Lemma style_entries_realize_new i css d :
  i <> "" -> getElementById i d = None ->
  style_entries i (realize i css d) = [mkElement "style" i css].
Proof.
  intros Hi He. rewrite realize_absent by done.
  unfold getElementById in He. rewrite bool_decide_false in He by done.
  unfold style_entries, all_elements, head_appendChild in *; simpl.
  apply find_app_none_inv in He as [Hh Hb].
  assert (Hq : forall x : Element,
    bool_decide (tag x = "style") && bool_decide (id x = i) = true ->
    bool_decide (id x = i) = true) by (intros x Hx; apply andb_prop in Hx; tauto).
  rewrite <- app_assoc, !List.filter_app.
  rewrite (find_none_filter _ _ _ Hh Hq), (find_none_filter _ _ _ Hb Hq).
  simpl. rewrite !bool_decide_true by done. reflexivity.
Qed.

Lemma style_entries_realize_other i j css d :
  i <> j -> style_entries i (realize j css d) = style_entries i d.
Proof.
  intros Hne. unfold realize. destruct (getElementById j d); [done|].
  unfold style_entries, all_elements, head_appendChild; simpl.
  rewrite <- app_assoc, !List.filter_app. simpl.
  rewrite (bool_decide_false (j = i)) by congruence.
  reflexivity.
Qed.

Lemma fingerprint_nonempty w h : fingerprint w h <> "".
Proof. destruct w; discriminate. Qed.

(** [render()] reads attributes only, and does not change them. *)
Lemma render_attrs w h d : attrs (render w h d).1 = attrs h.
Proof. destruct w; reflexivity. Qed.

Lemma render_doc w h d : (render w h d).2 = realize (fingerprint w h) (css w (render w h d).1) d.
Proof. destruct w; reflexivity. Qed.

Lemma fingerprint_attrs w h1 h2 : attrs h1 = attrs h2 -> fingerprint w h1 = fingerprint w h2.
Proof.
  destruct h1 as [a1 d1 s1], h2 as [a2 d2 s2]; simpl; intros ->.
  destruct w; reflexivity.
Qed.

(** The fingerprint is a function of the resolved configuration. *)
Lemma fingerprint_config w h1 h2 : config w h1 = config w h2 -> fingerprint w h1 = fingerprint w h2.
Proof.
  destruct w; simpl; intros E; simplify_eq;
    unfold Hath.fingerprint, Hath.has_split, Hath.split_text, Bau.fingerprint,
      GantThala.fingerprint, GantThala.n, GantThala.d, GantThala.parts,
      Gwistindor.fingerprint, GlanTholl.fingerprint, Him.fingerprint;
    repeat match goal with E : _ h1 = _ h2 |- _ => rewrite E; clear E end;
    reflexivity.
Qed.

Lemma render_all_cons w h ws d :
  render_all ((w, h) :: ws) d = render_all ws (render w h d).2.
Proof. reflexivity. Qed.

(** [render()] tags the instance with its fingerprint. *)
Lemma render_dataset w h d : dataset (render w h d).1 !! "i" = Some (fingerprint w h).
Proof. destruct w; simpl; apply lookup_insert_eq. Qed.

Lemma render_present w h d :
  is_Some (getElementById (fingerprint w h) d) -> (render w h d).2 = d.
Proof. intros Hs. rewrite render_doc. by apply realize_present. Qed.

(** Once a fingerprint has an entry, no later render of any widget adds
    or removes an entry of that fingerprint. *)
Lemma render_all_present F ws d :
  is_Some (getElementById F d) ->
  is_Some (getElementById F (render_all ws d)) /\
  style_entries F (render_all ws d) = style_entries F d.
Proof.
  revert d. induction ws as [|[w h] ws IH]; intros d Hs; [done|].
  unfold render_all in *. simpl. rewrite render_doc.
  destruct (IH (realize (fingerprint w h) (css w (render w h d).1) d)) as [H1 H2].
  { by apply getElementById_realize_mono. }
  split; [done|]. rewrite H2.
  destruct (decide (F = fingerprint w h)) as [->|Hne].
  - by rewrite realize_present.
  - by apply style_entries_realize_other.
Qed.

End StyleCache.

(** C1. The style cache is idempotent: (1) when an element with the
    fingerprint's id is already in the document, [render()] leaves the
    document as it is; (2) a second render with the same fingerprint, by the
    same instance or by another one, inserts nothing after the first;
    (3) any number of instances of a widget with identical resolved
    configuration, rendered on a document that has no element with their
    fingerprint's id, leave exactly one style element with that id, and every
    one of them is tagged with that id. *)
Theorem style_cache_idempotent :
  (forall w h d,
      is_Some (getElementById (fingerprint w h) d) -> (render w h d).2 = d) /\
  (forall w h1 h2 d,
      fingerprint w h1 = fingerprint w h2 ->
      (render w h2 (render w h1 d).2).2 = (render w h1 d).2) /\
  (forall w h hs d,
      (forall h', h' ∈ hs -> config w h' = config w h) ->
      getElementById (fingerprint w h) d = None ->
      (exists text,
        style_entries (fingerprint w h) (render_all (pair w <$> (h :: hs)) d)
        = [mkElement "style" (fingerprint w h) text]) /\
      (forall h' d', h' ∈ h :: hs ->
        dataset (render w h' d').1 !! "i" = Some (fingerprint w h))).
Proof.
  split; [exact render_present|]. split.
  - intros w h1 h2 d E. apply render_present. rewrite <- E, render_doc.
    apply getElementById_realize, fingerprint_nonempty.
  - intros w h hs d Hcfg Hnone. split.
    + exists (css w (render w h d).1).
      rewrite fmap_cons, render_all_cons, render_doc.
      destruct (render_all_present (fingerprint w h) (pair w <$> hs)
                  (realize (fingerprint w h) (css w (render w h d).1) d)) as [_ ->].
      * apply getElementById_realize, fingerprint_nonempty.
      * apply style_entries_realize_new; [apply fingerprint_nonempty | done].
    + intros h' d' Hin.
      assert (fingerprint w h' = fingerprint w h) as <-.
      { apply elem_of_cons in Hin as [->|Hin]; [done|].
        by apply fingerprint_config, Hcfg. }
      apply render_dataset.
Qed.

(** The scenario of two stack layouts with [space="1rem"] on different
    elements: after both attach, one stylesheet tagged [Hath-1rem]. *)
Lemma style_cache_idempotent_witness :
  let a := host_of [("space", "1rem")] in
  let b := host_of [("space", "1rem"); ("class", "other")] in
  let d1 := (render hath a empty_document).2 in
  (is_Some (getElementById (fingerprint hath b) d1) /\ (render hath b d1).2 = d1) /\
  (fingerprint hath a = fingerprint hath b /\
   (render hath b (render hath a empty_document).2).2 = (render hath a empty_document).2) /\
  ((forall h', h' ∈ [b] -> config hath h' = config hath a) /\
   getElementById (fingerprint hath a) empty_document = None /\
   exists text,
     style_entries "Hath-1rem" (render_all [(hath, a); (hath, b)] empty_document)
     = [mkElement "style" "Hath-1rem" text]).
Proof.
  intros a b d1.
  destruct style_cache_idempotent as (H1 & H2 & H3).
  assert (Hs : is_Some (getElementById (fingerprint hath b) d1))
    by (eexists; vm_compute; reflexivity).
  assert (Hc : forall h', h' ∈ [b] -> config hath h' = config hath a).
  { intros h' Hin. apply list_elem_of_singleton in Hin. subst h'.
    vm_compute. reflexivity. }
  split; [|split].
  - split; [exact Hs | exact (H1 hath b d1 Hs)].
  - split; [vm_compute; reflexivity | apply H2; vm_compute; reflexivity].
  - split; [exact Hc|]. split; [vm_compute; reflexivity|].
    destruct (H3 hath a [b] empty_document Hc) as [Hone _]; [vm_compute; reflexivity|].
    exact Hone.
Defined.

(** ** Fingerprints and sanitization *)

(** C2. Two stack layouts whose [space] differs ([1.5rem] and [15rem]) have
    different resolved configurations and different stylesheet texts, but the
    same fingerprint [Hath-15rem]: stripping the dot makes them collide.
    After both render, the only stylesheet of that fingerprint carries the
    first one's margin, and the second instance is tagged with it.  The box
    layout collides in the same way when a hyphen moves between [padding]
    and [border-width]. *)
Theorem fingerprint_collision :
  let a := host_of [("space", "1.5rem")] in
  let b := host_of [("space", "15rem")] in
  let p := host_of [("padding", "a-b"); ("border-width", "c")] in
  let q := host_of [("padding", "a"); ("border-width", "b-c")] in
  (config hath a <> config hath b /\
   css hath a <> css hath b /\
   fingerprint hath a = fingerprint hath b /\
   style_entries (fingerprint hath b) (render_all [(hath, a); (hath, b)] empty_document)
     = [mkElement "style" "Hath-15rem" (css hath a)] /\
   dataset (render hath b (render hath a empty_document).2).1 !! "i" = Some "Hath-15rem") /\
  (config bau p <> config bau q /\
   css bau p <> css bau q /\
   fingerprint bau p = fingerprint bau q).
Proof.
  intros a b p q. repeat split; try (vm_compute; reflexivity);
    intros E; vm_compute in E; discriminate E.
Qed.

(** ** Numeric options *)
Section NumericOptions.









End NumericOptions.




(** A value that does parse is not checked further.  Digits beyond what a
    double holds reach the stylesheet rounded, in exponent form or as
    [Infinity]; and a limit of [2 ^ 53] gives a "limit plus one" that is the
    limit itself. *)
Example numeric_option_long_digits :
  let h := host_of [("split-after", "1000000000000000000000")] in
  let i := host_of [("split-after",
       "100000000000000000000000000000000000000000000000000000000000000000000000000000000" +:+
        "00000000000000000000000000000000000000000000000000000000000000000000000000000000" +:+
        "00000000000000000000000000000000000000000000000000000000000000000000000000000000" +:+
        "000000000000000000000000000000000000000000000000000000000000000000000")] in
  let g := host_of [("limit", "9007199254740992")] in
  (Hath.has_split h = true /\ Hath.split_text h = "1e+21" /\
   JS.contains ":nth-child(1e+21)" (Hath.css h) = true) /\
  (Hath.has_split i = true /\ Hath.split_text i = "Infinity" /\
   Hath.fingerprint i = "Hath-var--s1-splitInfinity") /\
  JS.contains ":nth-last-child(n+9007199254740992)" (Gwistindor.css g) = true.
Proof. vm_compute. repeat split; reflexivity. Qed.

(** ** The prefetch link *)
Example parsePrefetch_doc :
  Gil.parsePrefetch (Some "html css:dashboard.css js:dashboard.js icons:chart,graph")
  = [Gil.mkResource "html" None; Gil.mkResource "css" (Some "dashboard.css");
     Gil.mkResource "js" (Some "dashboard.js");
     Gil.mkResource "icons" (Some "chart"); Gil.mkResource "icons" (Some "graph")].
Proof. vm_compute. reflexivity. Qed.
Example parsePrefetch_default : Gil.parsePrefetch None = [Gil.mkResource "html" None].
Proof. vm_compute. reflexivity. Qed.
Example parsePrefetch_url :
  Gil.parsePrefetch (Some "css:https://x.test/a.css") = [Gil.mkResource "css" (Some "https")].
Proof. vm_compute. reflexivity. Qed.
Example key_html : Gil.key (Gil.mkResource "html" None) (Some "/about") = "html:/about".
Proof. vm_compute. reflexivity. Qed.

(** Hover trigger: the pointer leaves before the timer fires, nothing is fetched. *)
Example gil_hover_cancelled :
  Gil.calls (Gil.run about_link
    [Gil.Attach; Gil.Dispatch "mouseenter"; Gil.Dispatch "mouseleave"; Gil.Timeout 2]) = [].
Proof. vm_compute. reflexivity. Qed.

(** Hover trigger: the timer fires, the target is fetched once. *)
Example gil_hover_fires :
  let s := Gil.run about_link
    [Gil.Attach; Gil.Dispatch "mouseenter"; Gil.Timeout 2; Gil.Resume 0;
     Gil.Dispatch "mouseenter"; Gil.Timeout 3] in
  Gil.calls s = [Gil.mkCall "html" "/about" (Some "/about")] /\
  Gil.links s = [Gil.mkLink "prefetch" "/about" "document" None] /\
  Gil.dispatched s = [["html:/about"]; ["html:/about"]] /\
  Gil.children s = [Gil.Elem "a" {[ "href" := "/about" ]} [Gil.Text "About Us"]].
Proof. vm_compute. repeat split; reflexivity. Qed.

(** *** The inner anchor *)
Section Anchor.
Import Gil.

Lemma has_anchor_shape n : has_anchor n = s_has_anchor (shape n).
Proof.
  induction n as [s|t a cs IH] using Node_induction; simpl; [reflexivity|].
  f_equal. induction IH as [|c r Hc _ IHr]; simpl; [reflexivity|].
  by rewrite Hc, IHr.
Qed.

Lemma anchor_shape c : anchor c = existsb s_has_anchor (shape <$> c).
Proof.
  unfold anchor. induction c as [|n c IH]; simpl; [reflexivity|].
  by rewrite has_anchor_shape, IH.
Qed.

Lemma nested_anchor_shape n : nested_anchor n = s_nested_anchor (shape n).
Proof.
  induction n as [s|t a cs IH] using Node_induction; simpl; [reflexivity|].
  f_equal.
  - f_equal. apply (anchor_shape cs).
  - induction IH as [|c r Hc _ IHr]; simpl; [reflexivity|].
    by rewrite Hc, IHr.
Qed.

Lemma nested_shape c :
  existsb nested_anchor c = existsb s_nested_anchor (shape <$> c).
Proof.
  induction c as [|n c IH]; simpl; [reflexivity|].
  by rewrite nested_anchor_shape, IH.
Qed.

(** Changing the attributes of the first anchor keeps the shape. *)
Lemma map_anchor_shape f n n' : map_anchor f n = Some n' -> shape n' = shape n.
Proof.
  revert n'. induction n as [s|t a cs IH] using Node_induction; simpl; intros n' H;
    [discriminate|].
  case_bool_decide; [by simplify_eq|].
  match type of H with _ <$> ?g cs = _ => destruct (g cs) as [cs'|] eqn:Hg end;
    [|discriminate].
  simpl in H. simplify_eq. simpl. f_equal.
  clear H0. revert cs' Hg.
  induction IH as [|c r Hc _ IHr]; intros cs' Hg; [discriminate|].
  destruct (map_anchor f c) as [c'|] eqn:Hm.
  - simplify_eq. simpl. f_equal. by apply Hc.
  - match type of Hg with _ <$> ?g = _ => destruct g as [r'|] eqn:Hr end;
      [|discriminate].
    simpl in Hg. simplify_eq. simpl. f_equal. by apply IHr.
Qed.

Lemma map_first_anchor_shape f l l' :
  map_first_anchor f l = Some l' -> shape <$> l' = shape <$> l.
Proof.
  revert l'. induction l as [|c r IH]; simpl; intros l' H; [discriminate|].
  destruct (map_anchor f c) as [c'|] eqn:Hm.
  - simplify_eq. simpl. f_equal. by eapply map_anchor_shape.
  - destruct (map_first_anchor f r) as [r'|]; [|discriminate].
    simpl in H. simplify_eq. simpl. f_equal. by apply IH.
Qed.

Lemma set_anchor_attr_shape k v l : shape <$> set_anchor_attr k v l = shape <$> l.
Proof.
  unfold set_anchor_attr.
  destruct (map_first_anchor _ l) as [l'|] eqn:H; [|reflexivity].
  simpl. by eapply map_first_anchor_shape.
Qed.

End Anchor.

(** *** What the scheduling code and the fetching code leave alone *)
Module GilFrame.
Import Gil.

Section Scheduling.
Context {A : Type} (p : State -> A) `{!Sched p}.

Lemma p_setTimeout s : p (setTimeout s).2 = p s.
Proof. unfold setTimeout, fresh; simpl. by sched. Qed.

Lemma p_clearTimeout id s : p (clearTimeout id s) = p s.
Proof. unfold clearTimeout. by sched. Qed.

Lemma p_addEventListener e c cap s : p (addEventListener e c cap s) = p s.
Proof. unfold addEventListener. case_bool_decide; [done | by sched]. Qed.

Lemma p_removeEventListener e c cap s : p (removeEventListener e c cap s) = p s.
Proof. unfold removeEventListener. by sched. Qed.

Lemma p_disconnect o s : p (disconnect o s) = p s.
Proof. unfold disconnect. by sched. Qed.

Lemma p_setupHoverPrefetch s : p (setupHoverPrefetch s) = p s.
Proof.
  unfold setupHoverPrefetch, fresh; simpl.
  sched. rewrite !p_addEventListener. by sched.
Qed.

Lemma p_run_cleanup c s : p (run_cleanup c s) = p s.
Proof. destruct c as [a b]. unfold run_cleanup. by rewrite !p_removeEventListener. Qed.

Lemma p_setupVisiblePrefetch s : p (setupVisiblePrefetch s) = p s.
Proof. unfold setupVisiblePrefetch, fresh; simpl. by sched. Qed.

Lemma p_setupIdlePrefetch s : p (setupIdlePrefetch s) = p s.
Proof.
  unfold setupIdlePrefetch. destruct (has_requestIdleCallback s);
    [by sched | apply p_setTimeout].
Qed.

Lemma p_cleanup s : p (cleanup s) = p s.
Proof.
  unfold cleanup.
  destruct (_cleanup _); [rewrite p_run_cleanup|];
    (destruct (observer _); [rewrite p_disconnect|]);
    (destruct (hoverTimer s); [by rewrite p_clearTimeout | done]).
Qed.

End Scheduling.

Section PageEffects.
Context {A : Type} (p : State -> A) `{!Page p}.

Lemma p_prefetch_methods url s :
  p (prefetchHTML url s).1 = p s /\ p (prefetchCSS url s).1 = p s /\
  p (prefetchJS url s).1 = p s /\ p (prefetchIcons url s).1 = p s /\
  p (prefetchJSON url s).1 = p s /\ p (prefetchImage url s).1 = p s.
Proof.
  unfold prefetchHTML, prefetchCSS, prefetchJS, prefetchIcons, prefetchJSON,
    prefetchImage, add_link.
  repeat split; repeat case_match; simpl; by page.
Qed.

Lemma p_warn_failed k s : p (warn_failed k s) = p s.
Proof. unfold warn_failed. by page. Qed.

Lemma p_dispatch_prefetched s : p (dispatch_prefetched s) = p s.
Proof. unfold dispatch_prefetched. by page. Qed.

End PageEffects.

Section Fetching.
Context {A : Type} (p : State -> A) `{!Sched p, !Fetch p}.

Lemma p_attempt r href s : p (attempt r href s).1.1 = p s.
Proof.
  unfold attempt, prefetchHTML, prefetchCSS, prefetchJS, prefetchIcons, prefetchJSON,
    prefetchImage, add_link, log_call.
  repeat case_match; simpl; by fetch.
Qed.

Lemma p_iteration r href s : p (iteration r href s).1 = p s.
Proof.
  unfold iteration. case_bool_decide; [done|].
  destruct (attempt r href _) as [[s' thrown] awaited] eqn:Ha.
  assert (Hs : p s' = p s).
  { change s' with (s', thrown, awaited).1.1. rewrite <- Ha, p_attempt. by fetch. }
  destruct thrown; simpl; [unfold warn_failed; by fetch | done].
Qed.

Lemma p_run_loop href rs s : p (run_loop href rs s) = p s.
Proof.
  revert s. induction rs as [|r rs IH]; intros s; simpl.
  - unfold dispatch_prefetched. by fetch.
  - destruct (iteration r href s) as [s' awaited] eqn:Hi.
    assert (Hs : p s' = p s) by (change s' with (s', awaited).1; by rewrite <- Hi, p_iteration).
    destruct awaited; [by fetch | by rewrite IH].
Qed.

Lemma p_doPrefetch s : p (doPrefetch s) = p s.
Proof. apply p_run_loop. Qed.

Lemma p_resume i s : p (resume i s) = p s.
Proof. unfold resume. destruct (suspended s !! i); [rewrite p_run_loop; by fetch | done]. Qed.

Lemma p_setupPrefetch s : p (setupPrefetch s) = p s.
Proof.
  unfold setupPrefetch. repeat case_bool_decide;
    auto using p_setupHoverPrefetch, p_setupVisiblePrefetch, p_setupIdlePrefetch, p_doPrefetch.
Qed.

Lemma p_run_callback e c s : p (run_callback e c s) = p s.
Proof.
  unfold run_callback. destruct c.
  - unfold setTimeout, fresh; simpl. by sched.
  - simpl. destruct (hoverTimer s); sched; [rewrite p_clearTimeout|]; by sched.
  - rewrite p_doPrefetch. by sched.
Qed.

Lemma p_dispatch e s : p (dispatch e s) = p s.
Proof.
  unfold dispatch. generalize (listeners s). intros ls. revert s.
  induction ls as [|l ls IH]; intros s; simpl; [done|].
  rewrite IH. destruct (_ && _); [apply p_run_callback | done].
Qed.

Lemma p_on_entries entries s : p (foldl on_entry s entries) = p s.
Proof.
  revert s. induction entries as [|b bs IH]; intros s; simpl; [done|].
  rewrite IH. unfold on_entry. destruct b; [|done].
  destruct (observer _); [rewrite p_disconnect by done|]; apply p_doPrefetch.
Qed.

End Fetching.

#[global] Instance children_sched : Sched children.
Proof. split; reflexivity. Qed.
#[global] Instance children_fetch : Fetch children.
Proof. split; [split|..]; reflexivity. Qed.
#[global] Instance attrs_sched : Sched attrs.
Proof. split; reflexivity. Qed.
#[global] Instance attrs_fetch : Fetch attrs.
Proof. split; [split|..]; reflexivity. Qed.
#[global] Instance prefetched_sched : Sched prefetched.
Proof. split; reflexivity. Qed.
#[global] Instance calls_sched : Sched calls.
Proof. split; reflexivity. Qed.
#[global] Instance warnings_sched : Sched warnings.
Proof. split; reflexivity. Qed.
#[global] Instance prefetched_page : Page prefetched.
Proof. split; reflexivity. Qed.
#[global] Instance calls_page : Page calls.
Proof. split; reflexivity. Qed.

End GilFrame.

Section AnchorLifecycle.
Import Gil GilFrame.

Lemma syncAttributes_shape s : shape <$> children (syncAttributes s) = shape <$> children s.
Proof.
  unfold syncAttributes. destruct (negb _); [done|]. simpl.
  repeat case_match; rewrite ?set_anchor_attr_shape; reflexivity.
Qed.

Lemma attributeChangedCallback_shape k v s :
  shape <$> children (attributeChangedCallback k v s) = shape <$> children s.
Proof.
  unfold attributeChangedCallback.
  case_bool_decide; [rewrite (p_setupPrefetch children), (p_cleanup children)|];
    (destruct (_ && _); [simpl; apply set_anchor_attr_shape | done]).
Qed.

Lemma wrap_children_cases s :
  children (wrap_children s) =
  if anchor (children s) then children s
  else [Elem "a" {[ "href" := JS.or_default (getAttribute s "href") "#" ]} (children s)].
Proof. unfold wrap_children. by destruct (anchor (children s)). Qed.

(** A step of the element keeps the shape of its content, or wraps content
    that has no anchor into one anchor. *)
Lemma step_shape s e :
  shape <$> children (step s e) = shape <$> children s \/
  (anchor (children s) = false /\
   shape <$> children (step s e) = [SElem "a" (shape <$> children s)]).
Proof.
  destruct e; simpl.
  - unfold connectedCallback.
    rewrite (p_setupPrefetch children), syncAttributes_shape, wrap_children_cases.
    destruct (anchor (children s)); [by left | by right].
  - left. unfold disconnectedCallback. by rewrite (p_cleanup children).
  - left. unfold set_attribute. case_bool_decide; [|done].
    by rewrite attributeChangedCallback_shape.
  - left. by rewrite (p_dispatch children).
  - left. case_bool_decide; [|done].
    by rewrite (p_doPrefetch children).
  - left. destruct (idle s); [done|]. by rewrite (p_doPrefetch children).
  - left. case_bool_decide; [|done]. by rewrite (p_on_entries children).
  - left. by rewrite (p_resume children).
Qed.

Lemma run_snoc s es e : run s (es ++ [e]) = step (run s es) e.
Proof. unfold run. by rewrite foldl_app. Qed.

Lemma run_shape s es :
  shape <$> children (run s es) = shape <$> children s \/
  (anchor (children s) = false /\
   shape <$> children (run s es) = [SElem "a" (shape <$> children s)]).
Proof.
  induction es as [|e es IH] using rev_ind; [by left|].
  rewrite run_snoc.
  destruct (step_shape (run s es) e) as [Hs|[Hn Hs]]; rewrite Hs.
  - exact IH.
  - destruct IH as [IH|[Ha IH]].
    + right. rewrite anchor_shape in Hn. rewrite IH in Hn |- *.
      by rewrite anchor_shape.
    + rewrite anchor_shape, IH in Hn. simpl in Hn. discriminate.
Qed.

End AnchorLifecycle.

Section AnchorCreation.

Lemma set_anchor_attr_first k v m cs :
  Gil.set_anchor_attr k v [Gil.Elem "a" m cs] = [Gil.Elem "a" (<[k := v]> m) cs].
Proof. reflexivity. Qed.

(** Copying attributes to an anchor that is the only child keeps it the
    only child, with the same content, and leaves alone the attributes that
    are not copied. *)
Lemma copy_to_first (host : gmap string string) names m cs :
  exists m',
    foldl (fun c a => match host !! a with
                      | Some v => Gil.set_anchor_attr a v c
                      | None => c
                      end) [Gil.Elem "a" m cs] names = [Gil.Elem "a" m' cs] /\
    forall k, k ∉ names -> m' !! k = m !! k.
Proof.
  induction names as [|a names IH] using rev_ind.
  { by exists m. }
  destruct IH as (m1 & E & Hk). rewrite foldl_app. cbn [foldl]. rewrite E.
  destruct (host !! a) as [v|].
  - rewrite set_anchor_attr_first. eexists. split; [reflexivity|].
    intros k Hn. rewrite not_elem_of_app, list_elem_of_singleton in Hn.
    destruct Hn as [Hn Hne]. rewrite lookup_insert_ne by done. by apply Hk.
  - exists m1. split; [done|]. intros k Hn. rewrite not_elem_of_app in Hn.
    apply Hk, Hn.
Qed.

Lemma connectedCallback_creates s :
  Gil.anchor (Gil.children s) = false ->
  exists m,
    Gil.children (Gil.connectedCallback s) = [Gil.Elem "a" m (Gil.children s)] /\
    m !! "href" = Some (JS.or_default (Gil.getAttribute s "href") "#").
Proof.
  intros Ha. unfold Gil.connectedCallback.
  rewrite (GilFrame.p_setupPrefetch Gil.children).
  unfold Gil.wrap_children. rewrite Ha.
  set (href := JS.or_default _ _). set (cs := Gil.children s).
  unfold Gil.syncAttributes.
  replace (Gil.anchor (Gil.children (Gil.set_children _ s))) with true
    by (unfold Gil.anchor; simpl; by rewrite ?bool_decide_true).
  cbn [negb]. cbn [Gil.children Gil.set_children].
  destruct (copy_to_first (Gil.attrs s) ["target"; "rel"; "download"; "hreflang"; "type"]
              {[ "href" := href ]} cs) as (m1 & E & Hk).
  unfold Gil.getAttribute. cbn [Gil.attrs Gil.set_children].
  rewrite E.
  assert (H1 : m1 !! "href" = Some href).
  { rewrite Hk; [apply lookup_singleton_eq|].
    rewrite !not_elem_of_cons. repeat split; try done. apply not_elem_of_nil. }
  destruct (Gil.attrs s !! "link-class") as [v|].
  - rewrite set_anchor_attr_first. eexists. split; [reflexivity|].
    by rewrite lookup_insert_ne.
  - by exists m1.
Qed.

End AnchorCreation.

(** C10. [connectedCallback] creates the inner anchor, as the only child,
    around the current children and with the element's [href] (or [#]), when
    [this.anchor] finds no anchor below the element; when it finds one,
    [connectedCallback] leaves the shape of the content as it is.  Once the
    element has been attached, no later event, another attach included,
    changes the shape of its content; content without nested anchors never
    gets nested anchors; and content that already holds an anchor is never
    wrapped: a change of [href] is then written to that anchor. *)
Theorem inner_anchor_created_once :
  (forall s,
      Gil.anchor (Gil.children s) = false ->
      exists m,
        Gil.children (Gil.connectedCallback s) = [Gil.Elem "a" m (Gil.children s)] /\
        m !! "href" = Some (JS.or_default (Gil.getAttribute s "href") "#")) /\
  (forall s,
      Gil.anchor (Gil.children s) = true ->
      Gil.shape <$> Gil.children (Gil.connectedCallback s) = Gil.shape <$> Gil.children s) /\
  (forall s es,
      Gil.shape <$> Gil.children (Gil.run (Gil.connectedCallback s) es)
      = Gil.shape <$> Gil.children (Gil.connectedCallback s)) /\
  (forall s es,
      existsb Gil.nested_anchor (Gil.children s) = false ->
      existsb Gil.nested_anchor (Gil.children (Gil.run s es)) = false) /\
  (forall s es,
      Gil.anchor (Gil.children s) = true ->
      Gil.shape <$> Gil.children (Gil.run s es) = Gil.shape <$> Gil.children s) /\
  (forall s v,
      Gil.anchor (Gil.children s) = true ->
      Gil.children (Gil.step s (Gil.SetAttribute "href" v))
      = Gil.set_anchor_attr "href" (JS.str_of_null v) (Gil.children s)).
Proof.
  assert (Huser : forall s es, Gil.anchor (Gil.children s) = true ->
    Gil.shape <$> Gil.children (Gil.run s es) = Gil.shape <$> Gil.children s).
  { intros s es Ha. destruct (run_shape s es) as [H|[Hn _]]; [done | congruence]. }
  split; [exact connectedCallback_creates|].
  split; [|split; [|split; [|split; [exact Huser|]]]].
  - intros s Ha. apply (Huser s [Gil.Attach] Ha).
  - intros s es. apply Huser.
    unfold Gil.connectedCallback.
    rewrite anchor_shape, (GilFrame.p_setupPrefetch Gil.children), syncAttributes_shape,
      <- anchor_shape, wrap_children_cases.
    destruct (Gil.anchor (Gil.children s)) eqn:Ha; [done|].
    unfold Gil.anchor. simpl. by rewrite ?bool_decide_true.
  - intros s es Hn. rewrite nested_shape in Hn |- *.
    destruct (run_shape s es) as [->|[Ha ->]]; [done|].
    rewrite anchor_shape in Ha. simpl. rewrite ?bool_decide_true by done. simpl.
    by rewrite Ha, Hn.
  - intros s v Ha. cbn [Gil.step]. unfold Gil.set_attribute.
    rewrite bool_decide_true
      by (unfold Gil.observedAttributes; rewrite !elem_of_cons; by left).
    unfold Gil.attributeChangedCallback.
    rewrite (bool_decide_true ("href" = "href")) by done.
    rewrite (bool_decide_false ("href" = "prefetch-on")) by done.
    cbn [Gil.children Gil.set_attrs]. by rewrite Ha.
Qed.

Lemma inner_anchor_created_once_witness :
  let plain := about_link in
  let user := Gil.run
                (Gil.init [] [Gil.Elem "span" ∅ [Gil.Elem "a" {[ "href" := "/x" ]} [Gil.Text "x"]]]
                   true (fun _ => true) None [])
                [Gil.SetAttribute "href" (Some "/about")] in
  let cycle := [Gil.Attach; Gil.Detach; Gil.Attach; Gil.Detach; Gil.Attach] in
  (Gil.anchor (Gil.children plain) = false /\
   exists m, Gil.children (Gil.connectedCallback plain)
             = [Gil.Elem "a" m [Gil.Text "About Us"]] /\
             m !! "href" = Some "/about") /\
  (existsb Gil.nested_anchor (Gil.children plain) = false /\
   existsb Gil.nested_anchor (Gil.children (Gil.run plain cycle)) = false) /\
  (Gil.anchor (Gil.children user) = true /\
   Gil.shape <$> Gil.children (Gil.run user cycle) = Gil.shape <$> Gil.children user).
Proof.
  intros plain user cycle.
  destruct inner_anchor_created_once as (H1 & _ & _ & H3 & H4 & _).
  split; [|split]; (split; [vm_compute; reflexivity|]).
  - apply (H1 plain). vm_compute; reflexivity.
  - apply H3. vm_compute; reflexivity.
  - apply H4. vm_compute; reflexivity.
Defined.

(** The elements of the examples that are given with their attributes are
    the elements that a page builds: setting their observed attributes one
    by one, with [attributeChangedCallback] after each, gives the same
    state. *)
Example about_link_as_built :
  Gil.run (Gil.init [] [Gil.Text "About Us"] true (fun _ => true) None [])
    [Gil.SetAttribute "href" (Some "/about")]
  = about_link.
Proof. reflexivity. Qed.

(** Content that holds an anchor: the [href] of the host is written to the
    author's anchor when the host's attribute is set. *)
Example author_anchor_href :
  Gil.children
    (Gil.run
       (Gil.init [] [Gil.Elem "span" ∅ [Gil.Elem "a" {[ "href" := "/x" ]} [Gil.Text "x"]]]
          true (fun _ => true) None [])
       [Gil.SetAttribute "href" (Some "/about")])
  = [Gil.Elem "span" ∅ [Gil.Elem "a" {[ "href" := "/about" ]} [Gil.Text "x"]]].
Proof. vm_compute. reflexivity. Qed.

(** *** The set of requested pairs *)
Section Dedup.
Import Gil GilFrame.

Lemma iteration_unfold r href s :
  iteration r href s =
  if bool_decide (key r href ∈ prefetched s) then (s, false)
  else
    let a := attempt r href (set_prefetched (prefetched s ++ [key r href]) s) in
    (if a.1.2 then warn_failed (key r href) a.1.1 else a.1.1, a.2).
Proof.
  unfold iteration. case_bool_decide; [done|].
  by destruct (attempt _ _ _) as [[s1 thrown] awaited].
Qed.

Lemma attempt_prefetched r href s : prefetched (attempt r href s).1.1 = prefetched s.
Proof.
  destruct (p_prefetch_methods prefetched (value_or_href r href)
              (log_call r href (value_or_href r href) s)) as (H1 & _).
  destruct (p_prefetch_methods prefetched (rvalue r)
              (log_call r href (rvalue r) s)) as (_ & H2 & H3 & H4 & H5 & H6).
  unfold attempt. repeat case_bool_decide; simpl;
    first [by rewrite H1 | by rewrite H2 | by rewrite H3 | by rewrite H4
          | by rewrite H5 | by rewrite H6 | done].
Qed.

Lemma known_type_false t :
  t <> "html" -> t <> "css" -> t <> "js" -> t <> "icons" -> t <> "json" -> t <> "image" ->
  known_type t = false.
Proof.
  intros. unfold known_type. apply bool_decide_false.
  rewrite !elem_of_cons, elem_of_nil. tauto.
Qed.

Lemma attempt_calls r href s :
  calls (attempt r href s).1.1 =
  calls s ++ (if known_type (rtype r)
              then [mkCall (rtype r) (resource_key r href) (call_arg r href)] else []).
Proof.
  destruct (p_prefetch_methods calls (value_or_href r href)
              (log_call r href (value_or_href r href) s)) as (H1 & _).
  destruct (p_prefetch_methods calls (rvalue r)
              (log_call r href (rvalue r) s)) as (_ & H2 & H3 & H4 & H5 & H6).
  unfold attempt, call_arg.
  repeat case_bool_decide; simpl;
    try (rewrite known_type_false by done; by rewrite app_nil_r);
    rewrite ?H1, ?H2, ?H3, ?H4, ?H5, ?H6; unfold log_call; simpl;
    match goal with E : rtype r = _ |- _ => rewrite !E end; reflexivity.
Qed.

Lemma iteration_prefetched r href s :
  prefetched (iteration r href s).1 =
  if bool_decide (key r href ∈ prefetched s) then prefetched s
  else prefetched s ++ [key r href].
Proof.
  rewrite iteration_unfold. case_bool_decide; [done|]. simpl.
  destruct (_.1.2); rewrite ?(p_warn_failed prefetched), attempt_prefetched; done.
Qed.

Lemma iteration_calls r href s :
  calls (iteration r href s).1 =
  if bool_decide (key r href ∈ prefetched s) then calls s
  else calls s ++ (if known_type (rtype r)
                   then [mkCall (rtype r) (resource_key r href) (call_arg r href)] else []).
Proof.
  rewrite iteration_unfold. case_bool_decide; [done|]. simpl.
  destruct (_.1.2); rewrite ?(p_warn_failed calls), attempt_calls; done.
Qed.

Lemma extends_refl s : extends s s.
Proof. split; [done|]. exists []. split; [by rewrite app_nil_r | by intros c H%elem_of_nil]. Qed.

Lemma extends_eq s s' :
  prefetched s' = prefetched s -> calls s' = calls s -> extends s s'.
Proof.
  intros Hp Hc. split; [by rewrite Hp|]. exists [].
  split; [by rewrite app_nil_r | by intros c H%elem_of_nil].
Qed.

Lemma extends_trans s1 s2 s3 : extends s1 s2 -> extends s2 s3 -> extends s1 s3.
Proof.
  intros [Hp1 (n1 & Hc1 & Hn1)] [Hp2 (n2 & Hc2 & Hn2)]. split; [by etrans|].
  exists (n1 ++ n2). split; [by rewrite Hc2, Hc1, app_assoc|].
  intros c [H|H]%elem_of_app; [by apply Hn1|].
  intros Hin. apply (Hn2 c H). destruct Hp1 as [k ->]. apply elem_of_app. by left.
Qed.

Lemma iteration_extends r href s :
  dedup_inv s -> dedup_inv (iteration r href s).1 /\ extends s (iteration r href s).1.
Proof.
  intros [Hnd Hin]. unfold dedup_inv, extends.
  rewrite iteration_prefetched, iteration_calls.
  case_bool_decide as Hk.
  { split; [done|]. split; [done|]. exists []. rewrite app_nil_r.
    split; [done | by intros c H%elem_of_nil]. }
  destruct (known_type (rtype r)).
  - split; [split|split].
    + rewrite fmap_app. simpl. apply NoDup_app. split; [done|].
      split; [|apply NoDup_singleton].
      intros k Hk1 Hk2%list_elem_of_singleton. subst k.
      apply list_elem_of_fmap in Hk1 as (c & Hc & Hc'). apply Hk.
      assert (key r href = call_key c) as -> by exact Hc. by apply Hin.
    + intros c [Hc|Hc%list_elem_of_singleton]%elem_of_app; apply elem_of_app.
      * left. by apply Hin.
      * right. subst c. by apply list_elem_of_singleton.
    + by apply prefix_app_r.
    + eexists. split; [done|]. intros c ->%list_elem_of_singleton. exact Hk.
  - rewrite app_nil_r. split; [split|split].
    + done.
    + intros c Hc. apply elem_of_app. left. by apply Hin.
    + by apply prefix_app_r.
    + exists []. rewrite app_nil_r. split; [done | by intros c H%elem_of_nil].
Qed.

Lemma preserving_frame f :
  (forall s, prefetched (f s) = prefetched s) -> (forall s, calls (f s) = calls s) ->
  preserving f.
Proof.
  intros Hp Hc s [Hnd Hin]. split; [|by apply extends_eq].
  split; rewrite Hc; [done|]. intros c H. rewrite Hp. by apply Hin.
Qed.

Lemma preserving_comp f g : preserving f -> preserving g -> preserving (fun s => g (f s)).
Proof.
  intros Hf Hg s Hs. destruct (Hf s Hs) as [H1 E1]. destruct (Hg (f s) H1) as [H2 E2].
  split; [done | by eapply extends_trans].
Qed.

Lemma preserving_id : preserving (fun s => s).
Proof. intros s Hs. split; [done | apply extends_refl]. Qed.

Lemma preserving_if (b : State -> bool) f g :
  preserving f -> preserving g -> preserving (fun s => if b s then f s else g s).
Proof. intros Hf Hg s Hs. destruct (b s); auto. Qed.

Lemma preserving_iteration r href : preserving (fun s => (iteration r href s).1).
Proof. intros s Hs. by apply iteration_extends. Qed.

Lemma preserving_run_loop href rs : preserving (run_loop href rs).
Proof.
  induction rs as [|r rs IH]; simpl.
  - apply preserving_frame; intros s; apply p_dispatch_prefetched; apply _.
  - intros s Hs. destruct (iteration_extends r href s Hs) as [H1 E1].
    destruct (iteration r href s) as [s1 awaited]; simpl in *.
    destruct awaited.
    + split; [|eapply extends_trans; [exact E1|by apply extends_eq]].
      destruct H1 as [Hnd Hin]. by split.
    + destruct (IH s1 H1) as [H2 E2]. split; [done | by eapply extends_trans].
Qed.

Lemma preserving_run_to_end href rs : preserving (run_to_end href rs).
Proof.
  induction rs as [|r rs IH]; simpl.
  - apply preserving_frame; intros s; apply p_dispatch_prefetched; apply _.
  - apply (preserving_comp _ _ (preserving_iteration r href) IH).
Qed.

Lemma preserving_doPrefetch : preserving doPrefetch.
Proof. intros s. apply preserving_run_loop. Qed.

Lemma preserving_resume i : preserving (resume i).
Proof.
  intros s Hs. unfold resume. destruct (suspended s !! i) as [t|];
    [|split; [done | apply extends_refl]].
  apply (preserving_comp (set_suspended _) _); [|apply preserving_run_loop|done].
  by apply preserving_frame.
Qed.

Lemma preserving_setupPrefetch : preserving setupPrefetch.
Proof.
  intros s Hs. unfold setupPrefetch.
  repeat case_bool_decide; try (by apply preserving_doPrefetch);
    try (split; [done | apply extends_refl]);
    apply preserving_frame; try done; intros s';
    first [apply p_setupHoverPrefetch | apply p_setupVisiblePrefetch
          | apply p_setupIdlePrefetch]; apply _.
Qed.

Lemma preserving_cleanup : preserving cleanup.
Proof. apply preserving_frame; intros s; apply p_cleanup; apply _. Qed.

Lemma preserving_run_callback e c : preserving (run_callback e c).
Proof.
  destruct c.
  - by apply preserving_frame.
  - apply preserving_frame; intros s; simpl; by destruct (hoverTimer s).
  - apply (preserving_comp
             (fun s => set_fired (fired s ++ [FListener e (OnTouch gen)]) s) doPrefetch);
      [by apply preserving_frame | apply preserving_doPrefetch].
Qed.

Lemma preserving_foldl {B} (f : State -> B -> State) (l : list B) :
  (forall b, preserving (fun s => f s b)) -> preserving (fun s => foldl f s l).
Proof.
  intros Hf. induction l as [|b l IH]; simpl; [apply preserving_id|].
  apply (preserving_comp (fun s => f s b) (fun s => foldl f s l)); auto.
Qed.

Lemma preserving_dispatch e : preserving (dispatch e).
Proof.
  intros s. unfold dispatch. generalize (listeners s); intros ls. revert s.
  apply (preserving_foldl _ ls). intros l.
  apply (preserving_if _ _ _ (preserving_run_callback e (cb l)) preserving_id).
Qed.

Lemma preserving_on_entry b : preserving (fun s => on_entry s b).
Proof.
  unfold on_entry. destruct b; [|apply preserving_id].
  apply (preserving_comp doPrefetch
           (fun s => match observer s with Some o => disconnect o s | None => s end)
           preserving_doPrefetch).
  apply preserving_frame; intros s; by destruct (observer s).
Qed.

Lemma preserving_attributeChanged k v : preserving (attributeChangedCallback k v).
Proof.
  intros s Hs. unfold attributeChangedCallback.
  set (s1 := if _ && _ then _ else s).
  assert (H1 : dedup_inv s1 /\ extends s s1).
  { subst s1. destruct (_ && _); [|split; [done | apply extends_refl]].
    split; [exact Hs | by apply extends_eq]. }
  destruct H1 as [H1 E1]. case_bool_decide; [|done].
  destruct (preserving_comp _ _ preserving_cleanup preserving_setupPrefetch s1 H1)
    as [H2 E2].
  split; [done | by eapply extends_trans].
Qed.

Lemma preserving_step e : preserving (fun s => step s e).
Proof.
  destruct e as [| |k v|ev|tid| |o entries|i]; simpl.
  - unfold connectedCallback.
    apply (preserving_comp (fun s => syncAttributes (wrap_children s)) _);
      [|apply preserving_setupPrefetch].
    apply preserving_frame; intros s; unfold syncAttributes, wrap_children;
      repeat case_match; reflexivity.
  - apply preserving_cleanup.
  - intros s Hs. unfold set_attribute.
    set (s0 := set_attrs _ s).
    assert (H0 : dedup_inv s0 /\ extends s s0) by (split; [exact Hs | by apply extends_eq]).
    destruct H0 as [H0 E0]. case_bool_decide; [|done].
    destruct (preserving_attributeChanged k v s0 H0) as [H1 E1].
    split; [exact H1 | exact (extends_trans _ _ _ E0 E1)].
  - apply preserving_dispatch.
  - apply (preserving_if (fun s => bool_decide (tid ∈ timers s))
             (fun s => doPrefetch (set_fired (fired s ++ [FTimer tid]) (clearTimeout tid s)))
             (fun s => s)); [|apply preserving_id].
    apply (preserving_comp
             (fun s => set_fired (fired s ++ [FTimer tid]) (clearTimeout tid s)) doPrefetch);
      [by apply preserving_frame | apply preserving_doPrefetch].
  - intros s Hs. destruct (idle s) as [|n]; [split; [done | apply extends_refl]|].
    apply (preserving_comp
             (fun s => set_fired (fired s ++ [FIdle]) (set_idle n s)) doPrefetch);
      [by apply preserving_frame | apply preserving_doPrefetch | done].
  - apply (preserving_if (fun s => bool_decide (o ∈ observing s))
             (fun s => foldl on_entry (set_fired (fired s ++ [FObserver o]) s) entries)
             (fun s => s)); [|apply preserving_id].
    apply (preserving_comp
             (fun s => set_fired (fired s ++ [FObserver o]) s)
             (fun s => foldl on_entry s entries));
      [by apply preserving_frame|].
    apply preserving_foldl, preserving_on_entry.
  - apply preserving_resume.
Qed.

Lemma preserving_run es : preserving (fun s => run s es).
Proof. apply preserving_foldl, preserving_step. Qed.

Lemma dedup_inv_init a c ric sel icons page_links :
  dedup_inv (init a c ric sel icons page_links).
Proof. split; simpl; [apply NoDup_nil_2 | by intros x H%elem_of_nil]. Qed.

End Dedup.

(** C5. Over the life of an [i-gil] element, from its construction and
    through any sequence of attaches, detaches, attribute changes, DOM
    events, timers, idle callbacks, observer notifications and resumptions
    of suspended [doPrefetch] invocations in any order: the set [prefetched]
    only grows (every later set has the earlier one as a prefix), and no
    pair [(type, key)] has more than one call of a prefetch method. *)
Theorem prefetch_dedup a c ric sel icons page_links es :
  let s0 := Gil.init a c ric sel icons page_links in
  (forall es', Gil.prefetched (Gil.run s0 es) `prefix_of` Gil.prefetched (Gil.run s0 (es ++ es'))) /\
  NoDup (Gil.attempted (Gil.run s0 es)).
Proof.
  intros s0.
  destruct (preserving_run es s0 (dedup_inv_init a c ric sel icons page_links))
    as [[Hnd Hin] _].
  split.
  - intros es'. unfold Gil.run. rewrite foldl_app.
    destruct (preserving_run es' (Gil.run s0 es)) as [_ [Hp _]]; [by split|].
    exact Hp.
  - unfold Gil.attempted. eapply (NoDup_fmap_1 (fun p => p.1 +:+ ":" +:+ p.2)).
    rewrite <- list_fmap_compose. exact Hnd.
Qed.

(** Two attaches leave two touch listeners; one touch starts two
    invocations that interleave at their awaits, and each pair is still
    fetched once. *)
Example gil_interleaved_once :
  let s0 := Gil.init [("href", "/d"); ("prefetch", "html css:d.css")] []
              true (fun _ => true) None [] in
  let s := Gil.run s0 [Gil.Attach; Gil.Detach; Gil.Attach; Gil.Dispatch "touchstart"] in
  length (Gil.suspended s) = 2%nat /\
  Gil.attempted (Gil.settle 4 s) = [("html", "/d"); ("css", "d.css")] /\
  Gil.suspended (Gil.settle 4 s) = [].
Proof. vm_compute. repeat split; reflexivity. Qed.

(** *** Failing attempts and the rest of the batch *)
Section Batch.
Import Gil GilFrame.

Lemma split_on_no_sep sep s :
  Forall (fun p => JS.includes sep p = false) (JS.split_on sep s).
Proof.
  induction s as [|c s IH]; simpl; [by repeat constructor|].
  destruct (Ascii.eqb c sep) eqn:E.
  - by constructor.
  - destruct (JS.split_on sep s) as [|p ps].
    + constructor; [|constructor]. simpl. by rewrite Ascii.eqb_sym, E.
    + inversion IH as [|? ? Hp Hps]; subst. constructor; [|done].
      simpl. rewrite Ascii.eqb_sym, E. exact Hp.
Qed.

Lemma parsePrefetch_colon_free attr :
  Forall (fun r => JS.includes ":" (rtype r) = false) (parsePrefetch attr).
Proof.
  unfold parsePrefetch. generalize (JS.split_ws (JS.or_default attr "html")).
  intros parts. induction parts as [|part parts IH]; simpl; [constructor|].
  apply Forall_app. split; [|exact IH].
  destruct (JS.includes ":" part) eqn:E; [|by repeat constructor].
  pose proof (split_on_no_sep ":" part) as Hs.
  destruct (JS.split_on ":" part) as [|t [|items rest]]; [constructor..|].
  inversion Hs as [|? ? Ht _]; subst.
  apply Forall_fmap, Forall_forall. by intros item _.
Qed.

(** A type without a colon and a key can be read back from the set entry. *)
Lemma key_inj t1 t2 k1 k2 :
  JS.includes ":" t1 = false -> JS.includes ":" t2 = false ->
  t1 +:+ ":" +:+ k1 = t2 +:+ ":" +:+ k2 -> t1 = t2 /\ k1 = k2.
Proof.
  revert t2. induction t1 as [|c t1 IH]; intros [|d t2] H1 H2 E.
  - by simplify_eq.
  - injection E as <- _. by vm_compute in H2.
  - injection E as -> _. by vm_compute in H1.
  - injection E as -> E. cbn [JS.includes] in H1, H2.
    destruct (Ascii.eqb ":" d); [discriminate|].
    by destruct (IH t2 H1 H2 E) as [-> ->].
Qed.

Lemma calls_run_to_end href rs s : calls s `prefix_of` calls (run_to_end href rs s).
Proof.
  revert s. induction rs as [|r rs IH]; intros s; simpl.
  - done.
  - etrans; [|apply IH]. rewrite iteration_calls.
    case_bool_decide; [done | apply prefix_app_r; done].
Qed.

Lemma prefetched_run_to_end href rs s :
  prefetched s `prefix_of` prefetched (run_to_end href rs s).
Proof.
  revert s. induction rs as [|r rs IH]; intros s; simpl.
  - done.
  - etrans; [|apply IH]. rewrite iteration_prefetched.
    case_bool_decide; [done | apply prefix_app_r; done].
Qed.

(** Every resource of the batch is visited. *)
Lemma run_to_end_visits href rs s r :
  r ∈ rs -> key r href ∈ prefetched (run_to_end href rs s).
Proof.
  revert s. induction rs as [|r0 rs IH]; intros s Hin; [by apply elem_of_nil in Hin|].
  simpl. apply elem_of_cons in Hin as [->|Hin]; [|by apply IH].
  destruct (prefetched_run_to_end href rs (iteration r0 href s).1) as [k ->].
  apply elem_of_app. left. rewrite iteration_prefetched.
  case_bool_decide; [done|]. apply elem_of_app. right. by apply list_elem_of_singleton.
Qed.

(** Every resource of a known type that was not in the set before the
    batch has its call made by the batch. *)
Lemma run_to_end_calls href rs s r :
  Forall (fun r => JS.includes ":" (rtype r) = false) rs ->
  r ∈ rs -> known_type (rtype r) = true -> key r href ∉ prefetched s ->
  (rtype r, resource_key r href) ∈ attempted (run_to_end href rs s).
Proof.
  revert s. induction rs as [|r0 rs IH]; intros s Hfree Hin Hknown Hnew;
    [by apply elem_of_nil in Hin|].
  inversion Hfree as [|? ? Hf0 Hfrs]; subst. simpl.
  destruct (decide (key r href = key r0 href)) as [Ek|Nk].
  - assert (Hfr : JS.includes ":" (rtype r) = false).
    { apply elem_of_cons in Hin as [->|Hin]; [done|].
      by eapply (proj1 (Forall_forall _ _) Hfrs). }
    destruct (key_inj _ _ _ _ Hfr Hf0 Ek) as [Et Er].
    destruct (calls_run_to_end href rs (iteration r0 href s).1) as [k Hk].
    unfold attempted. rewrite Hk, fmap_app. apply elem_of_app. left.
    rewrite iteration_calls, bool_decide_false by (by rewrite <- Ek).
    rewrite <- Et, Hknown, fmap_app. apply elem_of_app. right.
    simpl. rewrite Er. by apply list_elem_of_singleton.
  - apply elem_of_cons in Hin as [->|Hin]; [done|].
    apply IH; try done. rewrite iteration_prefetched.
    case_bool_decide; [done|].
    intros [Hx|Hx%list_elem_of_singleton]%elem_of_app; done.
Qed.

Lemma run_to_end_suspended href rs s : suspended (run_to_end href rs s) = suspended s.
Proof.
  revert s. induction rs as [|r rs IH]; intros s; simpl; [done|].
  rewrite IH. rewrite iteration_unfold. case_bool_decide; [done|]. simpl.
  destruct (_.1.2); unfold warn_failed; simpl;
    change (suspended (attempt r href ?x).1.1) with (suspended (attempt r href x).1.1);
    unfold attempt, prefetchHTML, prefetchCSS, prefetchJS, prefetchIcons, prefetchJSON,
      prefetchImage; repeat case_match; reflexivity.
Qed.

Lemma settle_done n s : suspended s = [] -> settle n s = s.
Proof. intros H. destruct n; simpl; [done | by rewrite H]. Qed.

Lemma settle_S n s :
  settle (S n) s = match suspended s with [] => s | _ :: _ => settle n (resume 0 s) end.
Proof. reflexivity. Qed.

Lemma settle_succ n s : suspended (settle n s) = [] -> settle (S n) s = settle n s.
Proof.
  revert s. induction n as [|n IH]; intros s H.
  - simpl in *. by rewrite H.
  - change (settle (S (S n)) s) with
      (match suspended s with [] => s | _ :: _ => settle (S n) (resume 0 s) end).
    change (settle (S n) s) with
      (match suspended s with [] => s | _ :: _ => settle n (resume 0 s) end) in *.
    destruct (suspended s); [done | by apply IH].
Qed.

Lemma set_suspended_id s : set_suspended (suspended s) s = s.
Proof. by destruct s. Qed.

Lemma set_suspended_twice x y s : set_suspended x (set_suspended y s) = set_suspended x s.
Proof. by destruct s. Qed.

Lemma iteration_suspended r href s : suspended (iteration r href s).1 = suspended s.
Proof. exact (run_to_end_suspended href [r] s). Qed.

(** With no other invocation suspended, resuming an invocation until it
    ends gives what the loop read without suspensions gives. *)
Lemma settle_run_loop href rs s :
  suspended s = [] -> settle (length rs) (run_loop href rs s) = run_to_end href rs s.
Proof.
  revert s. induction rs as [|r rs IH]; intros s Ht; [reflexivity|].
  pose proof (iteration_suspended r href s) as Hit. rewrite Ht in Hit.
  cbn -[settle]. destruct (iteration r href s) as [s1 awaited]. cbn -[settle] in *.
  destruct awaited.
  - rewrite settle_S. cbn -[settle]. rewrite Hit. cbn -[settle].
    unfold resume. cbn -[settle]. rewrite set_suspended_twice.
    assert (set_suspended [] s1 = s1) as -> by (rewrite <- Hit; apply set_suspended_id).
    by apply IH.
  - rewrite settle_succ; [by apply IH|].
    rewrite IH by done. by rewrite run_to_end_suspended.
Qed.

End Batch.

Section Failure.
Import Gil GilFrame.

Ltac attempt_cases :=
  unfold attempt, prefetchHTML, prefetchCSS, prefetchJS, prefetchIcons, prefetchJSON,
    prefetchImage, add_link, log_call; repeat case_match; reflexivity.

Lemma attempt_warnings r href s : warnings (attempt r href s).1.1 = warnings s.
Proof. attempt_cases. Qed.

Lemma attempt_dispatched r href s : dispatched (attempt r href s).1.1 = dispatched s.
Proof. attempt_cases. Qed.

Lemma iteration_dispatched r href s : dispatched (iteration r href s).1 = dispatched s.
Proof.
  rewrite iteration_unfold. case_bool_decide; [done|]. simpl.
  destruct (_.1.2); unfold warn_failed; simpl; by rewrite attempt_dispatched.
Qed.

Lemma run_to_end_dispatched href rs s :
  dispatched (run_to_end href rs s)
  = dispatched s ++ [prefetched (run_to_end href rs s)].
Proof.
  revert s. induction rs as [|r rs IH]; intros s; simpl; [done|].
  by rewrite IH, iteration_dispatched.
Qed.

Lemma iteration_thrown r href s :
  key r href ∉ prefetched s -> throws r href s = true ->
  warnings (iteration r href s).1
  = warnings s ++ ["[i-gil] Failed to prefetch " +:+ key r href] /\
  key r href ∈ prefetched (iteration r href s).1.
Proof.
  intros Hk Ht. split.
  - rewrite iteration_unfold, bool_decide_false by done. simpl.
    unfold throws in Ht. rewrite Ht. unfold warn_failed. simpl.
    by rewrite attempt_warnings.
  - rewrite iteration_prefetched, bool_decide_false by done.
    apply elem_of_app. right. by apply list_elem_of_singleton.
Qed.

(** Once an entry is in the set, no later event adds a call for it. *)
Lemma no_second_call s es c :
  dedup_inv s -> call_key c ∈ prefetched s -> c ∈ calls (run s es) -> c ∈ calls s.
Proof.
  intros Hs Hk Hc.
  destruct (preserving_run es s Hs) as [_ [_ (new & Hnew & Hfresh)]].
  rewrite Hnew in Hc. apply elem_of_app in Hc as [Hc|Hc]; [done|].
  by destruct (Hfresh c Hc).
Qed.

End Failure.

(** C4, as the code has it.  (1) When the call made for a pair throws, the
    error is caught and one warning naming the pair is logged; the pair
    stays in [prefetched], where [doPrefetch] put it before the call, and no
    later event ever makes another call for it.  (2) Whatever calls throw, a
    [doPrefetch] that runs with no other invocation suspended comes to its
    end: it visits every resource of the batch, makes the call for every
    resource of a known type that was not in the set before, and dispatches
    the [prefetched] event. *)
Theorem prefetch_failure_handling :
  (forall a c ric sel icons page_links es0 r href,
      let s := Gil.run (Gil.init a c ric sel icons page_links) es0 in
      Gil.key r href ∉ Gil.prefetched s ->
      Gil.throws r href s = true ->
      let s' := (Gil.iteration r href s).1 in
      Gil.warnings s' = Gil.warnings s ++ ["[i-gil] Failed to prefetch " +:+ Gil.key r href] /\
      Gil.key r href ∈ Gil.prefetched s' /\
      (forall es c, c ∈ Gil.calls (Gil.run s' es) -> Gil.call_key c = Gil.key r href ->
                    c ∈ Gil.calls s')) /\
  (forall s,
      let href := Gil.getAttribute s "href" in
      let rs := Gil.parsePrefetch (Gil.getAttribute s "prefetch") in
      Gil.suspended s = [] ->
      let s' := Gil.settle (length rs) (Gil.doPrefetch s) in
      s' = Gil.run_to_end href rs s /\
      Gil.dispatched s' = Gil.dispatched s ++ [Gil.prefetched s'] /\
      (forall r, r ∈ rs -> Gil.key r href ∈ Gil.prefetched s') /\
      (forall r, r ∈ rs -> Gil.known_type (Gil.rtype r) = true ->
                 Gil.key r href ∉ Gil.prefetched s ->
                 (Gil.rtype r, Gil.resource_key r href) ∈ Gil.attempted s')).
Proof.
  split.
  - intros a c ric sel icons page_links es0 r href s Hk Ht s'.
    destruct (iteration_thrown r href s Hk Ht) as [Hw Hp].
    split; [exact Hw|]. split; [exact Hp|].
    intros es x Hx Hkey.
    assert (Hs : Gil.dedup_inv s)
      by (apply (preserving_run es0), dedup_inv_init).
    apply (no_second_call s' es x); [by apply iteration_extends | by rewrite Hkey | done].
  - intros s href rs Ht s'.
    assert (Hs' : s' = Gil.run_to_end href rs s) by (by apply settle_run_loop).
    split; [exact Hs'|]. rewrite Hs'.
    split; [apply run_to_end_dispatched|].
    split; [intros r Hr; by apply run_to_end_visits|].
    intros r Hr Hknown Hnew.
    apply run_to_end_calls; [apply parsePrefetch_colon_free | done..].
Qed.

Lemma prefetch_failure_handling_witness :
  let s := Gil.run icons_link [Gil.Attach] in
  let r := Gil.mkResource "icons" None in
  let href := Some "/a" in
  ((Gil.key r href ∉ Gil.prefetched s) /\
   Gil.throws r href s = true /\
   Gil.warnings (Gil.iteration r href s).1 = ["[i-gil] Failed to prefetch icons:/a"] /\
   Gil.key r href ∈ Gil.prefetched (Gil.iteration r href s).1) /\
  (Gil.suspended s = [] /\
   Gil.prefetched (Gil.settle 2 (Gil.doPrefetch s)) = ["icons:/a"; "html:/a"] /\
   ("html", "/a") ∈ Gil.attempted (Gil.settle 2 (Gil.doPrefetch s))).
Proof.
  intros s r href.
  destruct prefetch_failure_handling as [H1 H2].
  assert (Hp : Gil.prefetched s = []) by (vm_compute; reflexivity).
  assert (Hk : Gil.key r href ∉ Gil.prefetched s) by (rewrite Hp; apply not_elem_of_nil).
  assert (Ht : Gil.throws r href s = true) by (vm_compute; reflexivity).
  assert (Hn : Gil.suspended s = []) by (vm_compute; reflexivity).
  split.
  - split; [exact Hk|]. split; [exact Ht|].
    destruct (H1 [("href", "/a"); ("prefetch", "icons html")] [Gil.Text "A"]
                true (fun _ => true) (Some (fun _ => false)) [] [Gil.Attach] r href Hk Ht)
      as (Hw & Hin & _).
    split; [exact Hw | exact Hin].
  - split; [exact Hn|].
    destruct (H2 s Hn) as (_ & _ & _ & Hcalls).
    split; [vm_compute; reflexivity|].
    apply (Hcalls (Gil.mkResource "html" None)).
    + vm_compute. apply list_elem_of_In. simpl. tauto.
    + vm_compute; reflexivity.
    + rewrite Hp. apply not_elem_of_nil.
Defined.

(** C4 fails as stated where it says that a failed pair is not recorded and
    is retried.  The shorthand [icons] passes [null] to [prefetchIcons],
    whose [names.split] throws: the warning is logged and [html] is still
    fetched, but [icons:/a] is in [prefetched], and a second trigger makes
    no call and logs nothing. *)
Lemma prefetch_failure_counterexample :
  let s1 := Gil.settle 2 (Gil.run icons_link [Gil.Attach; Gil.Dispatch "touchstart"]) in
  let s2 := Gil.settle 2 (Gil.run s1 [Gil.Dispatch "touchstart"]) in
  Gil.warnings s1 = ["[i-gil] Failed to prefetch icons:/a"] /\
  Gil.prefetched s1 = ["icons:/a"; "html:/a"] /\
  Gil.calls s1 = [Gil.mkCall "icons" "/a" None; Gil.mkCall "html" "/a" (Some "/a")] /\
  Gil.calls s2 = Gil.calls s1 /\
  Gil.warnings s2 = Gil.warnings s1 /\
  Gil.dispatched s2 = [["icons:/a"; "html:/a"]; ["icons:/a"; "html:/a"]].
Proof. vm_compute. repeat split; reflexivity. Qed.

(** ** Missing platform capabilities *)
Section Degraded.

Lemma him_render_style_stuck h d :
  dataset (Him.render_style h d).1 !! "stuck" = dataset h !! "stuck".
Proof. unfold Him.render_style; simpl. by rewrite lookup_insert_ne. Qed.

Lemma him_cleanup_idle s :
  Him.observer s = None -> Him.sentinelEl s = None -> Him.cleanupSentinel s = s.
Proof. intros Ho He. unfold Him.cleanupSentinel. by rewrite Ho, He. Qed.

Lemma him_setup_degraded v s : him_degraded v s -> Him.setupSentinel s = s.
Proof.
  intros (Hio & Ho & He & _). unfold Him.setupSentinel.
  rewrite him_cleanup_idle by done. rewrite Hio. simpl. by rewrite orb_true_r.
Qed.

Lemma him_render_degraded v s : him_degraded v s -> him_degraded v (Him.render s).
Proof.
  intros (Hio & Ho & He & Hob & Hss & Hev & Hst). unfold Him.render.
  pose proof (him_render_style_stuck (Him.host s) (Him.doc s)) as Hd.
  destruct (Him.render_style (Him.host s) (Him.doc s)) as [h d]; simpl in *.
  unfold Him.data_stuck in Hst.
  destruct (Him.sentinel h); [|rewrite him_cleanup_idle by done];
    repeat split; simpl; try done; unfold Him.data_stuck; simpl; congruence.
Qed.

Lemma him_step_degraded v s e : him_degraded v s -> him_degraded v (Him.step s e).
Proof.
  intros H. destruct e as [| |k x| |o entries|]; simpl;
    [| | | | |destruct H as (Hio & Ho & He & ?); unfold Him.disconnectedCallback;
              by rewrite him_cleanup_idle].
  - by apply him_render_degraded.
  - destruct H as (Hio & Ho & He & ?). unfold Him.disconnectedCallback.
    by rewrite him_cleanup_idle.
  - apply him_render_degraded. destruct H as (H1 & H2 & H3 & H4 & H5 & H6 & H7).
    repeat split; try done; exact H7.
  - assert (H0 : him_degraded v (Him.with_frames 0 s)).
    { destruct H as (H1 & H2 & H3 & H4 & H5 & H6 & H7).
      repeat split; try done; exact H7. }
    generalize (Him.frames s). intros n. induction n as [|n IH]; simpl; [done|].
    by rewrite (him_setup_degraded v).
  - pose proof H as (_ & _ & _ & Hob & _). rewrite Hob, lookup_empty.
    rewrite bool_decide_false by (by intros [? ?]). exact H.
Qed.

Lemma him_run_degraded h d es :
  him_degraded (dataset h !! "stuck") (Him.run (Him.init h false d) es).
Proof.
  induction es as [|e es IH] using rev_ind.
  - by repeat split.
  - unfold Him.run in *. rewrite foldl_app. simpl. by apply him_step_degraded.
Qed.

Lemma glan_tholl_render_fields s :
  let s' := GlanTholl.render s in
  GlanTholl.has_ResizeObserver s' = GlanTholl.has_ResizeObserver s /\
  GlanTholl.has_MutationObserver s' = GlanTholl.has_MutationObserver s /\
  GlanTholl.resizeObserver s' = GlanTholl.resizeObserver s /\
  GlanTholl.mutationObserver s' = GlanTholl.mutationObserver s /\
  GlanTholl.observing s' = GlanTholl.observing s /\
  GlanTholl.classList s' = GlanTholl.classList s /\
  GlanTholl.clientWidth s' = GlanTholl.clientWidth s /\
  GlanTholl.scrollWidth s' = GlanTholl.scrollWidth s.
Proof.
  unfold GlanTholl.render.
  destruct (GlanTholl.render_style (GlanTholl.host s) (GlanTholl.doc s)); simpl.
  by repeat split.
Qed.

Lemma glan_tholl_render_degraded s :
  glan_tholl_degraded s -> glan_tholl_degraded (GlanTholl.render s).
Proof.
  intros (Hr & Hm & Hro & Hmo & Hob).
  destruct (glan_tholl_render_fields s) as (E1 & E2 & E3 & E4 & E5 & _).
  unfold glan_tholl_degraded. by rewrite E1, E2, E3, E4, E5.
Qed.

Lemma glan_tholl_step_degraded s e :
  glan_tholl_degraded s -> glan_tholl_degraded (GlanTholl.step s e).
Proof.
  intros H. destruct e as [| |k x|sw cw|o]; simpl.
  - apply glan_tholl_render_degraded in H. destruct H as (Hr & Hm & Hro & Hmo & Hob).
    unfold GlanTholl.connectedCallback, GlanTholl.setupObservers.
    rewrite Hr, Hm. by repeat split.
  - destruct H as (Hr & Hm & Hro & Hmo & Hob).
    unfold GlanTholl.disconnectedCallback. rewrite Hro. simpl. rewrite Hmo. simpl.
    by repeat split.
  - apply glan_tholl_render_degraded. destruct H as (Hr & Hm & Hro & Hmo & Hob).
    by repeat split.
  - destruct H as (Hr & Hm & Hro & Hmo & Hob). by repeat split.
  - pose proof H as (_ & _ & _ & _ & Hob).
    rewrite Hob. by rewrite bool_decide_false by set_solver.
Qed.

Lemma glan_tholl_run_degraded h sw cw d es :
  glan_tholl_degraded (GlanTholl.run (GlanTholl.init h false false sw cw d) es).
Proof.
  induction es as [|e es IH] using rev_ind.
  - by repeat split.
  - unfold GlanTholl.run in *. rewrite foldl_app. simpl.
    by apply glan_tholl_step_degraded.
Qed.

(** Without observers only an attach touches the class. *)
Lemma glan_tholl_class_kept s e :
  glan_tholl_degraded s -> e <> GlanTholl.Attach ->
  GlanTholl.classList (GlanTholl.step s e) = GlanTholl.classList s.
Proof.
  intros (Hr & Hm & Hro & Hmo & Hob) He.
  destruct e as [| |k x|sw cw|o]; cbn [GlanTholl.step].
  - done.
  - unfold GlanTholl.disconnectedCallback. rewrite Hro. simpl. by rewrite Hmo.
  - by destruct (glan_tholl_render_fields (GlanTholl.set_attribute k x s))
      as (_ & _ & _ & _ & _ & -> & _).
  - done.
  - rewrite Hob. by rewrite bool_decide_false by set_solver.
Qed.

Lemma glan_tholl_initial_check s :
  GlanTholl.isOverflowing (GlanTholl.connectedCallback s)
  = bool_decide (GlanTholl.clientWidth s < GlanTholl.scrollWidth s).
Proof.
  unfold GlanTholl.connectedCallback, GlanTholl.setupObservers.
  set (s1 := GlanTholl.render s).
  assert (Hw : GlanTholl.clientWidth s1 = GlanTholl.clientWidth s /\
               GlanTholl.scrollWidth s1 = GlanTholl.scrollWidth s).
  { subst s1. by destruct (glan_tholl_render_fields s) as (_ & _ & _ & _ & _ & _ & -> & ->). }
  destruct Hw as [Hc Hs]. clearbody s1.
  set (s2 := if GlanTholl.has_ResizeObserver s1 then _ else s1).
  assert (Hw : GlanTholl.clientWidth s2 = GlanTholl.clientWidth s /\
               GlanTholl.scrollWidth s2 = GlanTholl.scrollWidth s).
  { subst s2. by destruct (GlanTholl.has_ResizeObserver s1). }
  clear Hc Hs. destruct Hw as [Hc Hs]. clearbody s2.
  set (s3 := if GlanTholl.has_MutationObserver s2 then _ else s2).
  assert (Hw : GlanTholl.clientWidth s3 = GlanTholl.clientWidth s /\
               GlanTholl.scrollWidth s3 = GlanTholl.scrollWidth s).
  { subst s3. by destruct (GlanTholl.has_MutationObserver s2). }
  clear Hc Hs. destruct Hw as [Hc Hs]. clearbody s3.
  unfold GlanTholl.isOverflowing, GlanTholl.toggleOverflowClass. simpl.
  rewrite Hc, Hs.
  destruct (Z.ltb_spec (GlanTholl.clientWidth s) (GlanTholl.scrollWidth s)) as [Hlt|Hge].
  - rewrite !bool_decide_true; [done | lia | set_solver].
  - rewrite !bool_decide_false; [done | lia |].
    rewrite elem_of_difference, elem_of_singleton. tauto.
Qed.

End Degraded.

(** C9, as the code has it.  (1) Without IntersectionObserver a sticky
    element never gets a sentinel or an observer, emits no stuck
    notification and leaves [data-stuck] as it was, through any events:
    it is never classified as stuck, and nothing fails.  (2) Without
    ResizeObserver and MutationObserver the reel creates no observer and
    nothing fails; (3) the initial check of [setupObservers] still
    classifies the reel at every attach, as overflowing exactly when its
    content is wider than the reel; and (4) without observers no other event
    changes that classification. *)
Theorem capability_degradation :
  (forall h d es,
      let s := Him.run (Him.init h false d) es in
      Him.events s = [] /\ Him.data_stuck s = dataset h !! "stuck" /\
      Him.observer s = None /\ Him.sentinelEl s = None /\ Him.observing s = ∅) /\
  (forall h sw cw d es,
      let s := GlanTholl.run (GlanTholl.init h false false sw cw d) es in
      GlanTholl.resizeObserver s = None /\ GlanTholl.mutationObserver s = None /\
      GlanTholl.observing s = ∅) /\
  (forall s,
      GlanTholl.isOverflowing (GlanTholl.connectedCallback s)
      = bool_decide (GlanTholl.clientWidth s < GlanTholl.scrollWidth s)) /\
  (forall h sw cw d es es',
      Forall (fun e => e <> GlanTholl.Attach) es' ->
      let s := GlanTholl.run (GlanTholl.init h false false sw cw d) es in
      GlanTholl.isOverflowing (GlanTholl.run s es') = GlanTholl.isOverflowing s).
Proof.
  split; [|split; [|split]].
  - intros h d es s.
    destruct (him_run_degraded h d es) as (_ & Ho & He & Hob & _ & Hev & Hst).
    by repeat split.
  - intros h sw cw d es s.
    destruct (glan_tholl_run_degraded h sw cw d es) as (_ & _ & Hro & Hmo & Hob).
    by repeat split.
  - exact glan_tholl_initial_check.
  - intros h sw cw d es es' Hes' s.
    pose proof (glan_tholl_run_degraded h sw cw d es) as Hs. fold s in Hs.
    clearbody s. unfold GlanTholl.isOverflowing.
    assert (Hc : glan_tholl_degraded (GlanTholl.run s es') /\
                 GlanTholl.classList (GlanTholl.run s es') = GlanTholl.classList s).
    { induction es' as [|e es' IH] using rev_ind; [done|].
      apply Forall_app in Hes' as [Hes' He]. rewrite Forall_singleton in He.
      destruct (IH Hes') as [Hd Hcl].
      unfold GlanTholl.run in *. rewrite foldl_app. simpl. split.
      - by apply glan_tholl_step_degraded.
      - by rewrite (glan_tholl_class_kept _ e Hd He). }
    destruct Hc as [_ ->]. reflexivity.
Qed.

Lemma capability_degradation_witness :
  let reel := GlanTholl.init (host_of [("item-width", "300px")]) false false 500 300
                empty_document in
  let later := [GlanTholl.Layout 200 300; GlanTholl.Notify 1; GlanTholl.Detach] in
  Forall (fun e => e <> GlanTholl.Attach) later /\
  GlanTholl.isOverflowing (GlanTholl.run (GlanTholl.run reel [GlanTholl.Attach]) later)
  = GlanTholl.isOverflowing (GlanTholl.run reel [GlanTholl.Attach]).
Proof.
  intros reel later.
  destruct capability_degradation as (_ & _ & _ & H4).
  assert (Hl : Forall (fun e => e <> GlanTholl.Attach) later)
    by (repeat constructor; discriminate).
  split; [exact Hl|].
  exact (H4 (host_of [("item-width", "300px")]) 500 300 empty_document
            [GlanTholl.Attach] later Hl).
Defined.

(** C9 fails as stated for the reel: with neither observer available, a reel
    whose content (500) is wider than the reel (300) is classified as
    overflowing at attach, and stays so after its content shrinks. *)
Lemma capability_degradation_counterexample :
  let reel := GlanTholl.init (host_of [("item-width", "300px")]) false false 500 300
                empty_document in
  GlanTholl.isOverflowing (GlanTholl.run reel [GlanTholl.Attach]) = true /\
  GlanTholl.isOverflowing
    (GlanTholl.run reel [GlanTholl.Attach; GlanTholl.Layout 200 300; GlanTholl.Notify 1])
  = true.
Proof. vm_compute. split; reflexivity. Qed.

(** ** Stuck detection *)
Section Stuck.

Lemma him_callback_events entries s :
  Him.events (Him.observer_callback entries s)
  = Him.events s ++ ((fun v => Him.StuckChange (negb v)) <$> entries) /\
  Him.observing (Him.observer_callback entries s) = Him.observing s /\
  Him.data_stuck (Him.observer_callback entries s)
  = match last entries with
    | Some v => Some (if negb v then "true" else "false")
    | None => Him.data_stuck s
    end.
Proof.
  unfold Him.observer_callback. revert s.
  induction entries as [|v vs IH]; intros s; simpl.
  - by rewrite app_nil_r.
  - destruct (IH (Him.on_entry s v)) as (He & Ho & Hd).
    rewrite He, Ho, Hd. simpl. rewrite <- app_assoc. simpl.
    repeat split. destruct vs as [|w ws]; simpl.
    + unfold Him.data_stuck. simpl. by rewrite lookup_insert_eq.
    + destruct (last (w :: ws)) eqn:El; [done|].
      by apply last_None in El.
Qed.

Lemma him_deliveries s o batches :
  is_Some (Him.observing s !! o) ->
  Him.events (Him.run s (Him.Intersect o <$> batches))
  = Him.events s ++ ((fun v => Him.StuckChange (negb v)) <$> concat batches) /\
  Him.observing (Him.run s (Him.Intersect o <$> batches)) = Him.observing s.
Proof.
  revert s. induction batches as [|b bs IH]; intros s Hs.
  - simpl. by rewrite app_nil_r.
  - change (Him.run s (Him.Intersect o <$> b :: bs))
      with (Him.run (Him.step s (Him.Intersect o b)) (Him.Intersect o <$> bs)).
    assert (Hstep : Him.step s (Him.Intersect o b) = Him.observer_callback b s)
      by (simpl; by rewrite bool_decide_true).
    rewrite Hstep.
    destruct (him_callback_events b s) as (He & Ho & _).
    destruct (IH (Him.observer_callback b s)) as [He' Ho']; [by rewrite Ho|].
    rewrite He', Ho', He, Ho. simpl. by rewrite fmap_app, app_assoc.
Qed.

End Stuck.

(** C7, as the code has it.  The observer callback emits one [stuck-change]
    notification per delivered entry, in order, each carrying the negation
    of that entry's [isIntersecting]; [data-stuck] holds the last one.  So
    the notifications of one observer are the negated visibilities that it
    delivers, and two consecutive ones differ exactly where the two
    deliveries differ. *)
Theorem stuck_notifications s o batches :
  is_Some (Him.observing s !! o) ->
  let s' := Him.run s (Him.Intersect o <$> batches) in
  Him.stuck_of <$> Him.events s'
  = (Him.stuck_of <$> Him.events s) ++ (negb <$> concat batches) /\
  (forall i v w,
      concat batches !! i = Some v -> concat batches !! S i = Some w ->
      exists a b,
        (Him.stuck_of <$> Him.events s') !! (length (Him.events s) + i)%nat = Some a /\
        (Him.stuck_of <$> Him.events s') !! (length (Him.events s) + S i)%nat = Some b /\
        a = negb v /\ b = negb w /\ (a = b <-> v = w)).
Proof.
  intros Hs s'. destruct (him_deliveries s o batches Hs) as [He _].
  assert (Hm : Him.stuck_of <$> Him.events s'
               = (Him.stuck_of <$> Him.events s) ++ (negb <$> concat batches)).
  { subst s'. rewrite He, fmap_app. f_equal. rewrite <- list_fmap_compose.
    by apply list_fmap_ext. }
  split; [exact Hm|].
  intros i v w Hv Hw. exists (negb v), (negb w). rewrite Hm.
  rewrite !lookup_app_r by (rewrite length_fmap; lia).
  rewrite !length_fmap.
  replace (length (Him.events s) + i - length (Him.events s))%nat with i by lia.
  replace (length (Him.events s) + S i - length (Him.events s))%nat with (S i) by lia.
  rewrite !list_lookup_fmap, Hv, Hw. simpl.
  repeat split; try done; destruct v, w; simpl; congruence.
Qed.

Lemma stuck_notifications_witness :
  let s := Him.run sticky [Him.Attach; Him.Frame] in
  is_Some (Him.observing s !! 2%nat) /\
  Him.stuck_of <$> Him.events (Him.run s (Him.Intersect 2 <$> [[false]; [true]; [false]]))
  = [true; false; true].
Proof.
  intros s.
  assert (Hs : is_Some (Him.observing s !! 2%nat)) by (eexists; vm_compute; reflexivity).
  split; [exact Hs|].
  destruct (stuck_notifications s 2%nat [[false]; [true]; [false]] Hs) as [H _].
  exact H.
Defined.

(** C7 fails as stated.  With the sentinel not visible, then visible, then
    not visible again, the notifications are [true; false; true] and not
    [true; false]; if only the two changes are delivered (to visible, then to
    not visible) they are [false; true]; and when an attribute change lets [render()] rebuild
    sentinel and observer, the new observer announces the unchanged state
    again, so two consecutive notifications carry the same boolean. *)
Lemma stuck_notifications_counterexample :
  Him.stuck_of <$> Him.events (Him.run sticky
    [Him.Attach; Him.Frame; Him.Intersect 2 [false]; Him.Intersect 2 [true];
     Him.Intersect 2 [false]]) = [true; false; true] /\
  Him.stuck_of <$> Him.events (Him.run sticky
    [Him.Attach; Him.Frame; Him.Intersect 2 [true]; Him.Intersect 2 [false]])
  = [false; true] /\
  Him.stuck_of <$> Him.events (Him.run sticky
    [Him.Attach; Him.Frame; Him.Intersect 2 [false];
     Him.SetAttribute "offset" (Some "1rem"); Him.Frame; Him.Intersect 4 [false]])
  = [true; true].
Proof. vm_compute. repeat split; reflexivity. Qed.

(** ** Touch long-press *)

(** Released before the confirmation delay: no activation. *)
Example touch_short_tap :
  Touch.events (Touch.run touch_page
    [Touch.TouchStart (Some 1%nat); Touch.Advance 200; Touch.TouchEnd (Some 1%nat);
     Touch.Advance 1000]) = [].
Proof. vm_compute. reflexivity. Qed.

(** Held past the delay, then released: activation, and deactivation after
    the grace period. *)
Example touch_long_press :
  let s := Touch.run touch_page
    [Touch.TouchStart (Some 1%nat); Touch.Advance 300; Touch.TouchEnd (Some 1%nat)] in
  Touch.events s = [Touch.TouchActive 1 "lift"] /\
  Touch.events (Touch.run s [Touch.Advance 599]) = [Touch.TouchActive 1 "lift"] /\
  Touch.events (Touch.run s [Touch.Advance 600])
  = [Touch.TouchActive 1 "lift"; Touch.TouchInactive 1].
Proof. vm_compute. repeat split; reflexivity. Qed.


Section TouchTimers.
Import Touch.

Lemma elem_of_remove {C} id (l : list (Clock.Timer C)) tm :
  tm ∈ Clock.remove id l <-> tm ∈ l /\ Clock.tid tm <> id.
Proof.
  unfold Clock.remove. rewrite !list_elem_of_In, List.filter_In, negb_true_iff.
  by rewrite Nat.eqb_neq.
Qed.

Lemma filter_sublist {A} (p : A -> bool) (l : list A) : List.filter p l `sublist_of` l.
Proof.
  induction l as [|x l IH]; simpl; [done|].
  destruct (p x); [by apply sublist_skip | by apply sublist_cons].
Qed.

Lemma filter_none {A} (p : A -> bool) (l : list A) :
  (forall x, x ∈ l -> p x = false) -> List.filter p l = [].
Proof.
  induction l as [|x l IH]; intros H; simpl; [done|].
  rewrite (H x) by (by left). apply IH. intros y Hy. apply H. by right.
Qed.

Lemma filter_filter_same {A} (p q : A -> bool) (l : list A) :
  (forall x, x ∈ l -> q x = false -> p x = false) ->
  List.filter p (List.filter q l) = List.filter p l.
Proof.
  induction l as [|x l IH]; intros H; simpl; [done|].
  assert (IH' : List.filter p (List.filter q l) = List.filter p l)
    by (apply IH; intros y Hy; apply H; by right).
  destruct (q x) eqn:Hq; simpl; [by rewrite IH'|].
  by rewrite (H x (list_elem_of_here _ _) Hq).
Qed.

(** Fewer pending timers with the same records keep the invariant. *)
Lemma touch_inv_shrink s s' :
  pending s' `sublist_of` pending s -> touchTimers s' = touchTimers s ->
  next_id s' = next_id s -> touch_inv s -> touch_inv s'.
Proof.
  intros Hsub Ht Hn (Hnd & Hlt & Hpr & Hrec & Hid).
  unfold touch_inv. rewrite Ht, Hn. repeat split.
  - eapply sublist_NoDup; [exact Hnd | by apply fmap_sublist].
  - intros tm Hin. apply Hlt. by eapply elem_of_sublist.
  - intros tm el Hin. apply Hpr. by eapply elem_of_sublist.
  - intros tm el Hin. apply Hrec. by eapply elem_of_sublist.
  - exact Hid.
Qed.

Lemma clearTouchTimer_inv el s :
  touch_inv s ->
  touch_inv (clearTouchTimer el s) /\
  touchTimers (clearTouchTimer el s) !! el = None /\
  (forall el', grace_timers el' (clearTouchTimer el s) = grace_timers el' s).
Proof.
  intros Hinv. pose proof Hinv as (Hnd & Hlt & Hpr & Hrec & Hid).
  unfold clearTouchTimer.
  destruct (touchTimers s !! el) as [t|] eqn:Ht; [|done].
  assert (Hsub : Clock.remove t (pending s) `sublist_of` pending s)
    by apply filter_sublist.
  split; [|split].
  - repeat split; simpl.
    + eapply sublist_NoDup; [exact Hnd | by apply fmap_sublist].
    + intros tm Hin. apply Hlt. by eapply elem_of_sublist.
    + intros tm el' Hin Hcb. apply elem_of_remove in Hin as [Hin Hne].
      destruct (decide (el' = el)) as [->|Hel].
      * specialize (Hpr tm el Hin Hcb). congruence.
      * rewrite lookup_delete_ne by done. by apply Hpr.
    + intros tm el' Hin Hl. apply elem_of_remove in Hin as [Hin Hne].
      destruct (decide (el' = el)) as [->|Hel].
      * by rewrite lookup_delete_eq in Hl.
      * rewrite lookup_delete_ne in Hl by done. by apply Hrec.
    + intros el' t' Hl. destruct (decide (el' = el)) as [->|Hel].
      * by rewrite lookup_delete_eq in Hl.
      * rewrite lookup_delete_ne in Hl by done. by eapply Hid.
  - simpl. apply lookup_delete_eq.
  - intros el'. unfold grace_timers, Clock.remove. simpl.
    apply filter_filter_same. intros tm Hin Hq.
    apply negb_false_iff, Nat.eqb_eq in Hq.
    rewrite (Hrec tm el Hin) by (by rewrite Hq). by apply bool_decide_false.
Qed.

Lemma clearTouchTimer_fields el s :
  next_id (clearTouchTimer el s) = next_id s /\
  now (clearTouchTimer el s) = now s /\
  activeElements (clearTouchTimer el s) = activeElements s /\
  events (clearTouchTimer el s) = events s.
Proof. unfold clearTouchTimer. by destruct (touchTimers s !! el). Qed.

Lemma handleTouchStart_inv el s :
  touch_inv s ->
  touch_inv (handleTouchStart (Some el) s) /\
  press_timers el (handleTouchStart (Some el) s)
  = [Clock.mkTimer (next_id s) (now s + LONG_PRESS_DURATION) (Activate el)] /\
  (forall el', grace_timers el' (handleTouchStart (Some el) s) = grace_timers el' s).
Proof.
  intros Hinv. destruct (clearTouchTimer_inv el s Hinv) as (H1 & Hnone & Hg).
  destruct (clearTouchTimer_fields el s) as (Hn & Hnow & _).
  unfold handleTouchStart, setTimeout. simpl.
  set (s1 := clearTouchTimer el s) in *.
  destruct H1 as (Hnd & Hlt & Hpr & Hrec & Hid).
  split; [|split].
  - repeat split; simpl.
    + rewrite fmap_app. apply NoDup_app. split; [done|]. split; [|apply NoDup_singleton].
      intros x Hx ->%list_elem_of_singleton.
      apply list_elem_of_fmap in Hx as (tm & Htm & Hin). specialize (Hlt tm Hin). simpl in *. lia.
    + intros tm [Hin| ->%list_elem_of_singleton]%elem_of_app; simpl; [|lia].
      specialize (Hlt tm Hin). lia.
    + intros tm el' [Hin| ->%list_elem_of_singleton]%elem_of_app Hcb.
      * destruct (decide (el' = el)) as [->|Hel].
        -- specialize (Hpr tm el Hin Hcb). congruence.
        -- rewrite lookup_insert_ne by done. by apply Hpr.
      * simpl in Hcb. simplify_eq. apply lookup_insert_eq.
    + intros tm el' [Hin| ->%list_elem_of_singleton]%elem_of_app Hl.
      * destruct (decide (el' = el)) as [->|Hel].
        -- rewrite lookup_insert_eq in Hl. simplify_eq.
           specialize (Hlt tm Hin). lia.
        -- rewrite lookup_insert_ne in Hl by done. by apply Hrec.
      * simpl in *. destruct (decide (el' = el)) as [->|Hel]; [done|].
        rewrite lookup_insert_ne in Hl by done. specialize (Hid el' _ Hl). lia.
    + intros el' t' Hl. destruct (decide (el' = el)) as [->|Hel].
      * rewrite lookup_insert_eq in Hl. simplify_eq. lia.
      * rewrite lookup_insert_ne in Hl by done. specialize (Hid el' _ Hl). lia.
  - unfold press_timers. simpl. rewrite List.filter_app. simpl.
    rewrite (bool_decide_true (Activate el = Activate el)) by done.
    rewrite filter_none; [by rewrite Hn, Hnow|].
    intros tm Hin. apply bool_decide_false. intros Hcb.
    specialize (Hpr tm el Hin Hcb). congruence.
  - intros el'. rewrite <- Hg. unfold grace_timers. simpl.
    rewrite List.filter_app. simpl.
    by rewrite app_nil_r.
Qed.

Lemma handleTouchEnd_inv el s : touch_inv s -> touch_inv (handleTouchEnd (Some el) s).
Proof.
  intros Hinv. destruct (clearTouchTimer_inv el s Hinv) as (H1 & _ & _).
  unfold handleTouchEnd. set (s1 := clearTouchTimer el s) in *.
  case_bool_decide; [|done].
  destruct H1 as (Hnd & Hlt & Hpr & Hrec & Hid).
  unfold setTimeout. repeat split; simpl.
  - rewrite fmap_app. apply NoDup_app. split; [done|]. split; [|apply NoDup_singleton].
    intros x Hx ->%list_elem_of_singleton.
    apply list_elem_of_fmap in Hx as (tm & Htm & Hin). specialize (Hlt tm Hin). simpl in *. lia.
  - intros tm [Hin| ->%list_elem_of_singleton]%elem_of_app; simpl; [|lia].
    specialize (Hlt tm Hin). lia.
  - intros tm el' [Hin| ->%list_elem_of_singleton]%elem_of_app Hcb; [by apply Hpr|].
    discriminate Hcb.
  - intros tm el' [Hin| ->%list_elem_of_singleton]%elem_of_app Hl; [by apply Hrec|].
    simpl in Hl. specialize (Hid el' _ Hl). lia.
  - intros el' t' Hl. specialize (Hid el' _ Hl). lia.
Qed.

Lemma handleTouchCancel_inv el s : touch_inv s -> touch_inv (handleTouchCancel (Some el) s).
Proof.
  intros Hinv. destruct (clearTouchTimer_inv el s Hinv) as (H1 & _ & _).
  unfold handleTouchCancel. by apply (touch_inv_shrink (clearTouchTimer el s)).
Qed.

Lemma fire_inv tm s : touch_inv s -> touch_inv (fire tm s).
Proof.
  apply touch_inv_shrink; unfold fire; destruct (Clock.tcb tm); simpl;
    try done; apply filter_sublist.
Qed.

Lemma fire_due_inv fuel t s : touch_inv s -> touch_inv (fire_due fuel t s).
Proof.
  revert s. induction fuel as [|n IH]; intros s Hs; simpl; [done|].
  destruct (Clock.earliest t (pending s)); [|done]. by apply IH, fire_inv.
Qed.

Lemma touch_step_inv s e : touch_inv s -> touch_inv (step s e).
Proof.
  intros Hs. destruct e as [[el|]|[el|]|[el|]|dt]; simpl; try done.
  - by apply handleTouchStart_inv.
  - by apply handleTouchEnd_inv.
  - by apply handleTouchCancel_inv.
  - unfold advance.
    apply (touch_inv_shrink (fire_due (length (pending s)) (now s + Z.max 0 dt) s));
      [done..|by apply fire_due_inv].
Qed.

Lemma touch_run_inv touch hover es : touch_inv (run (init touch hover) es).
Proof.
  induction es as [|e es IH] using rev_ind.
  - repeat split; simpl; try (by intros tm H%elem_of_nil); try (by intros tm el H%elem_of_nil).
    + apply NoDup_nil_2.
    + intros el t H. by rewrite lookup_empty in H.
  - unfold run in *. rewrite foldl_app. simpl. by apply touch_step_inv.
Qed.

Lemma length_le_1 {A B} `{EqDecision B} (f : A -> B) (l : list A) c :
  NoDup (f <$> l) -> (forall x, x ∈ l -> f x = c) -> (length l <= 1)%nat.
Proof.
  intros Hnd Hc. destruct l as [|x [|y l]]; simpl; [lia..|].
  exfalso. simpl in Hnd. apply NoDup_cons in Hnd as [Hx _]. apply Hx.
  rewrite (Hc x) by (by left). rewrite <- (Hc y) by (right; by left). by left.
Qed.

(** At most one press-confirmation timer of an element is pending. *)
Lemma press_timers_le_1 el s : touch_inv s -> (length (press_timers el s) <= 1)%nat.
Proof.
  intros (Hnd & _ & Hpr & _ & _).
  destruct (touchTimers s !! el) as [t|] eqn:Ht.
  - apply (length_le_1 Clock.tid _ t).
    + eapply sublist_NoDup; [exact Hnd | apply fmap_sublist, filter_sublist].
    + intros tm Hin. unfold press_timers in Hin.
      apply list_elem_of_In, List.filter_In in Hin as [Hin Hcb].
      apply list_elem_of_In in Hin. apply bool_decide_eq_true in Hcb.
      specialize (Hpr tm el Hin Hcb). congruence.
  - unfold press_timers. rewrite filter_none; [simpl; lia|].
    intros tm Hin. apply bool_decide_false. intros Hcb.
    specialize (Hpr tm el Hin Hcb). congruence.
Qed.

End TouchTimers.

Example thir_long_press :
  let s := Thir.run thir_el
    [Thir.Attach; Thir.Touch "touchstart"; Thir.Advance 300; Thir.Touch "touchend"] in
  Thir.events s = [Thir.TouchActive "lift"] /\
  Thir.events (Thir.run s [Thir.Advance 600]) = [Thir.TouchActive "lift"; Thir.TouchInactive].
Proof. vm_compute. split; reflexivity. Qed.

Section ThirTimers.
Import Thir.

Lemma thir_inv_shrink s s' :
  pending s' `sublist_of` pending s -> _touchTimer s' = _touchTimer s ->
  (next_id s <= next_id s')%nat -> thir_inv s -> thir_inv s'.
Proof.
  intros Hsub Ht Hn (Hnd & Hlt & Hpr & Hrec & Hid).
  unfold thir_inv. rewrite Ht. repeat split.
  - eapply sublist_NoDup; [exact Hnd | by apply fmap_sublist].
  - intros tm Hin. eapply Nat.lt_le_trans; [|exact Hn].
    apply Hlt. by eapply elem_of_sublist.
  - intros tm Hin. apply Hpr. by eapply elem_of_sublist.
  - intros tm Hin. apply Hrec. by eapply elem_of_sublist.
  - intros t Hl. eapply Nat.lt_le_trans; [|exact Hn]. by apply Hid.
Qed.

Lemma thir_clear_inv s :
  thir_inv s ->
  thir_inv (_clearTouchTimer s) /\ _touchTimer (_clearTouchTimer s) = None /\
  grace_timers (_clearTouchTimer s) = grace_timers s /\
  next_id (_clearTouchTimer s) = next_id s /\ now (_clearTouchTimer s) = now s.
Proof.
  intros Hinv. pose proof Hinv as (Hnd & Hlt & Hpr & Hrec & Hid).
  unfold _clearTouchTimer. destruct (_touchTimer s) as [t|] eqn:Ht; [|done].
  split; [|split; [done|split; [|done]]].
  - repeat split; simpl; try done.
    + eapply sublist_NoDup; [exact Hnd | apply fmap_sublist, filter_sublist].
    + intros tm [Hin _]%elem_of_remove. by apply Hlt.
    + intros tm [Hin Hne]%elem_of_remove Hcb. specialize (Hpr tm Hin Hcb). congruence.
  - unfold grace_timers, Clock.remove. simpl.
    apply filter_filter_same. intros tm Hin Hq.
    apply negb_false_iff, Nat.eqb_eq in Hq.
    rewrite (Hrec tm Hin) by (by rewrite Hq). by apply bool_decide_false.
Qed.

Lemma thir_start_inv s :
  thir_inv s ->
  thir_inv (_handleTouchStart s) /\
  press_timers (_handleTouchStart s) = [Clock.mkTimer (next_id s) (now s + 300) Activate] /\
  grace_timers (_handleTouchStart s) = grace_timers s.
Proof.
  intros Hinv. destruct (thir_clear_inv s Hinv) as (H1 & Hnone & Hg & Hn & Hnow).
  unfold _handleTouchStart, setTimeout. simpl.
  set (s1 := _clearTouchTimer s) in *.
  destruct H1 as (Hnd & Hlt & Hpr & Hrec & Hid).
  split; [|split].
  - repeat split; simpl.
    + rewrite fmap_app. apply NoDup_app. split; [done|]. split; [|apply NoDup_singleton].
      intros x Hx ->%list_elem_of_singleton.
      apply list_elem_of_fmap in Hx as (tm & Htm & Hin). specialize (Hlt tm Hin). simpl in *. lia.
    + intros tm [Hin| ->%list_elem_of_singleton]%elem_of_app; simpl; [|lia].
      specialize (Hlt tm Hin). lia.
    + intros tm [Hin| ->%list_elem_of_singleton]%elem_of_app Hcb; [|done].
      specialize (Hpr tm Hin Hcb). congruence.
    + intros tm [Hin| ->%list_elem_of_singleton]%elem_of_app Hl; [|done].
      simplify_eq. specialize (Hlt tm Hin). lia.
    + intros t Hl. simplify_eq. lia.
  - unfold press_timers. simpl. rewrite List.filter_app. simpl.
    rewrite filter_none; [by rewrite Hn, Hnow|].
    intros tm Hin. apply bool_decide_false. intros Hcb.
    specialize (Hpr tm Hin Hcb). congruence.
  - rewrite <- Hg. unfold grace_timers. simpl. rewrite List.filter_app. simpl.
    by rewrite app_nil_r.
Qed.

Lemma thir_end_inv s : thir_inv s -> thir_inv (_handleTouchEnd s).
Proof.
  intros Hinv. destruct (thir_clear_inv s Hinv) as (H1 & Hnone & _).
  unfold _handleTouchEnd. set (s1 := _clearTouchTimer s) in *.
  destruct (_touchActive s1); [|done].
  destruct H1 as (Hnd & Hlt & Hpr & Hrec & Hid).
  unfold setTimeout. repeat split; simpl.
  - rewrite fmap_app. apply NoDup_app. split; [done|]. split; [|apply NoDup_singleton].
    intros x Hx ->%list_elem_of_singleton.
    apply list_elem_of_fmap in Hx as (tm & Htm & Hin). specialize (Hlt tm Hin). simpl in *. lia.
  - intros tm [Hin| ->%list_elem_of_singleton]%elem_of_app; simpl; [|lia].
    specialize (Hlt tm Hin). lia.
  - intros tm [Hin| ->%list_elem_of_singleton]%elem_of_app Hcb; [by apply Hpr|].
    discriminate Hcb.
  - intros tm [Hin| ->%list_elem_of_singleton]%elem_of_app Hl; [by apply Hrec|].
    congruence.
  - intros t Hl. congruence.
Qed.

Lemma thir_handler_inv e s : thir_inv s -> thir_inv (handler e s).
Proof.
  intros Hs. unfold handler. repeat case_bool_decide; try done.
  - by apply thir_start_inv.
  - by apply thir_end_inv.
  - destruct (thir_clear_inv s Hs) as (Hc & _).
    unfold _handleTouchCancel. by apply (thir_inv_shrink (_clearTouchTimer s)).
Qed.

Lemma thir_fire_due_inv fuel t s : thir_inv s -> thir_inv (fire_due fuel t s).
Proof.
  revert s. induction fuel as [|n IH]; intros s Hs; simpl; [done|].
  destruct (Clock.earliest t (pending s)) as [tm|]; [|done]. apply IH.
  revert Hs. apply thir_inv_shrink; unfold fire; destruct (Clock.tcb tm); simpl;
    try done; apply filter_sublist.
Qed.

Lemma thir_cleanup_inv s : thir_inv s -> thir_inv (_cleanupTouchSupport s).
Proof.
  intros Hs. unfold _cleanupTouchSupport.
  apply thir_clear_inv. revert Hs. apply thir_inv_shrink; by destruct (_onTouchStart s).
Qed.

Lemma thir_init_inv s : thir_inv s -> thir_inv (_initTouchSupport s).
Proof. apply thir_inv_shrink; simpl; try done. lia. Qed.

Lemma thir_step_inv s e : thir_inv s -> thir_inv (step s e).
Proof.
  intros Hs. destruct e as [| |v|e|dt]; simpl.
  - unfold connectedCallback. case_bool_decide; [by apply thir_init_inv | done].
  - by apply thir_cleanup_inv.
  - unfold set_touch. destruct v; [apply thir_init_inv | apply thir_cleanup_inv];
      revert Hs; by apply thir_inv_shrink.
  - unfold dispatch. generalize (listeners s). intros ls. revert s Hs.
    induction ls as [|l ls IH]; intros s Hs; simpl; [done|].
    apply IH. case_bool_decide; [by apply thir_handler_inv | done].
  - unfold advance.
    apply (thir_inv_shrink (fire_due (length (pending s)) (now s + Z.max 0 dt) s));
      [done..|by apply thir_fire_due_inv].
Qed.

Lemma thir_run_inv touch hover es : thir_inv (run (init touch hover) es).
Proof.
  induction es as [|e es IH] using rev_ind.
  - repeat split; simpl; try (by intros tm H%elem_of_nil); try done.
    apply NoDup_nil_2.
  - unfold run in *. rewrite foldl_app. simpl. by apply thir_step_inv.
Qed.

Lemma thir_press_timers_le_1 s : thir_inv s -> (length (press_timers s) <= 1)%nat.
Proof.
  intros (Hnd & _ & Hpr & _ & _).
  destruct (_touchTimer s) as [t|] eqn:Ht.
  - apply (length_le_1 Clock.tid _ t).
    + eapply sublist_NoDup; [exact Hnd | apply fmap_sublist, filter_sublist].
    + intros tm Hin. unfold press_timers in Hin.
      apply list_elem_of_In, List.filter_In in Hin as [Hin Hcb].
      apply list_elem_of_In in Hin. apply bool_decide_eq_true in Hcb.
      specialize (Hpr tm Hin Hcb). congruence.
  - unfold press_timers. rewrite filter_none; [simpl; lia|].
    intros tm Hin. apply bool_decide_false. intros Hcb.
    specialize (Hpr tm Hin Hcb). congruence.
Qed.

End ThirTimers.

(** C6, as the code has it.  In both implementations, at any time and for
    every element: at most one press-confirmation timer is pending; a
    touch-start clears the pending press-confirmation timer of its element
    and leaves exactly the new one, due 300 ms later; and a touch-start
    leaves every pending grace timer where it is. *)
Theorem touch_press_timer :
  (forall touch hover es el,
      let s := Touch.run (Touch.init touch hover) es in
      (length (Touch.press_timers el s) <= 1)%nat /\
      Touch.press_timers el (Touch.handleTouchStart (Some el) s)
      = [Clock.mkTimer (Touch.next_id s) (Touch.now s + Touch.LONG_PRESS_DURATION)
           (Touch.Activate el)] /\
      (forall el', Touch.grace_timers el' (Touch.handleTouchStart (Some el) s)
                   = Touch.grace_timers el' s)) /\
  (forall touch hover es,
      let s := Thir.run (Thir.init touch hover) es in
      (length (Thir.press_timers s) <= 1)%nat /\
      Thir.press_timers (Thir._handleTouchStart s)
      = [Clock.mkTimer (Thir.next_id s) (Thir.now s + 300) Thir.Activate] /\
      Thir.grace_timers (Thir._handleTouchStart s) = Thir.grace_timers s).
Proof.
  split.
  - intros touch hover es el s.
    pose proof (touch_run_inv touch hover es) as Hinv. fold s in Hinv.
    destruct (handleTouchStart_inv el s Hinv) as (_ & Hp & Hg).
    split; [by apply press_timers_le_1|]. by split.
  - intros touch hover es s.
    pose proof (thir_run_inv touch hover es) as Hinv. fold s in Hinv.
    destruct (thir_start_inv s Hinv) as (_ & Hp & Hg).
    split; [by apply thir_press_timers_le_1|]. by split.
Qed.

(** C6 fails as stated.  A long press is released at 300 ms and a second
    touch starts at 400 ms: the grace timer (due at 900) and the new
    press-confirmation timer (due at 700) are both pending; the touch-start
    did not cancel the pending deactivation, which fires at 900 ms while the
    second press is held.  Both implementations do the same. *)
Lemma touch_press_timer_counterexample :
  let s := Touch.run touch_page
    [Touch.TouchStart (Some 1%nat); Touch.Advance 300; Touch.TouchEnd (Some 1%nat);
     Touch.Advance 100; Touch.TouchStart (Some 1%nat)] in
  let t := Thir.run thir_el
    [Thir.Attach; Thir.Touch "touchstart"; Thir.Advance 300; Thir.Touch "touchend";
     Thir.Advance 100; Thir.Touch "touchstart"] in
  (Touch.live_timers 1 s
   = [Clock.mkTimer 2 900 (Touch.Deactivate 1); Clock.mkTimer 3 700 (Touch.Activate 1)] /\
   Touch.events (Touch.run s [Touch.Advance 500])
   = [Touch.TouchActive 1 "lift"; Touch.TouchActive 1 "lift"; Touch.TouchInactive 1] /\
   Touch.activeElements (Touch.run s [Touch.Advance 500]) = ∅) /\
  (Thir.pending t
   = [Clock.mkTimer 3 900 Thir.Deactivate; Clock.mkTimer 4 700 Thir.Activate] /\
   Thir.events (Thir.run t [Thir.Advance 500])
   = [Thir.TouchActive "lift"; Thir.TouchActive "lift"; Thir.TouchInactive] /\
   Thir._touchActive (Thir.run t [Thir.Advance 500]) = false).
Proof. vm_compute. repeat split; reflexivity. Qed.

(** ** Teardown *)
Section Teardown.

Lemma him_cleanup_owned s :
  him_owned s ->
  Him.observer (Him.cleanupSentinel s) = None /\
  Him.sentinelEl (Him.cleanupSentinel s) = None /\
  Him.observing (Him.cleanupSentinel s) = ∅ /\
  Him.sentinels (Him.cleanupSentinel s) = ∅.
Proof.
  intros [Hob Hse]. unfold Him.cleanupSentinel.
  assert (Ho : forall m : gmap nat nat, (forall o, m !! o = None) -> m = ∅)
    by (intros m H; apply map_eq; intros o; by rewrite H, lookup_empty).
  assert (Hs : forall m : gmap nat Him.Where, (forall o, m !! o = None) -> m = ∅)
    by (intros m H; apply map_eq; intros o; by rewrite H, lookup_empty).
  destruct (Him.observer s) as [o|] eqn:Eo; destruct (Him.sentinelEl s) as [e|] eqn:Ee;
    simpl; rewrite ?Eo, ?Ee; simpl; repeat split; try done;
    first [apply Ho | apply Hs]; intros x;
    try (destruct (decide (x = o)) as [->|Hne];
         [by rewrite lookup_delete_eq | rewrite lookup_delete_ne by done]);
    try (destruct (decide (x = e)) as [->|Hne'];
         [by rewrite lookup_delete_eq | rewrite lookup_delete_ne by done]);
    apply eq_None_not_Some; intros Hx;
    first [apply Hob in Hx | apply Hse in Hx]; congruence.
Qed.

Lemma him_owned_eq s s' :
  Him.observer s' = Him.observer s -> Him.sentinelEl s' = Him.sentinelEl s ->
  Him.observing s' = Him.observing s -> Him.sentinels s' = Him.sentinels s ->
  him_owned s -> him_owned s'.
Proof. intros E1 E2 E3 E4 H. unfold him_owned. by rewrite E1, E2, E3, E4. Qed.

Lemma him_cleanup_keeps_owned s : him_owned s -> him_owned (Him.cleanupSentinel s).
Proof.
  intros H. destruct (him_cleanup_owned s H) as (E1 & E2 & E3 & E4).
  split; intros x [y Hy]; rewrite ?E3, ?E4, lookup_empty in Hy; discriminate.
Qed.

Lemma him_setup_owned s : him_owned s -> him_owned (Him.setupSentinel s).
Proof.
  intros H. unfold Him.setupSentinel.
  destruct (him_cleanup_owned s H) as (E1 & E2 & E3 & E4).
  pose proof (him_cleanup_keeps_owned s H) as Hc.
  destruct (_ || _); [done|]. unfold Him.insertAdjacentElement.
  split; simpl; rewrite ?E3, ?E4; intros x [y Hy].
  - apply lookup_insert_Some in Hy as [[-> _]|[_ Hy]]; [done|].
    by rewrite lookup_empty in Hy.
  - destruct (Him.parent _); [|by rewrite lookup_empty in Hy].
    apply lookup_insert_Some in Hy as [[-> _]|[_ Hy]]; [done|].
    by rewrite lookup_empty in Hy.
Qed.

Lemma him_callback_owned entries s :
  him_owned s -> him_owned (Him.observer_callback entries s).
Proof.
  unfold Him.observer_callback. revert s.
  induction entries as [|b bs IH]; intros s Hs; simpl; [done|].
  apply IH. revert Hs. by apply him_owned_eq.
Qed.

Lemma him_render_owned s : him_owned s -> him_owned (Him.render s).
Proof.
  intros H. unfold Him.render.
  destruct (Him.render_style (Him.host s) (Him.doc s)) as [h d].
  destruct (Him.sentinel _).
  - revert H. by apply him_owned_eq.
  - apply him_cleanup_keeps_owned. revert H. by apply him_owned_eq.
Qed.

Lemma him_step_owned s e : him_owned s -> him_owned (Him.step s e).
Proof.
  intros H. destruct e as [| |k v| |o entries|]; simpl;
    [| | | | |by apply him_cleanup_keeps_owned].
  - apply him_render_owned. revert H. by apply him_owned_eq.
  - apply him_cleanup_keeps_owned. revert H. by apply him_owned_eq.
  - apply him_render_owned. revert H. by apply him_owned_eq.
  - assert (H0 : him_owned (Him.with_frames 0 s)) by (revert H; by apply him_owned_eq).
    generalize (Him.frames s). intros n. induction n as [|n IH]; simpl; [done|].
    by apply him_setup_owned.
  - case_bool_decide; [by apply him_callback_owned | done].
Qed.

Lemma him_run_owned h io d es : him_owned (Him.run (Him.init h io d) es).
Proof.
  induction es as [|e es IH] using rev_ind.
  - split; intros x [y Hy]; simpl in Hy; by rewrite lookup_empty in Hy.
  - unfold Him.run in *. rewrite foldl_app. simpl. by apply him_step_owned.
Qed.

End Teardown.

Section GilTeardown.
Import Gil.



End GilTeardown.




(** The [touchstart] listener of the hover set-up is not among the
    listeners that [_cleanup] removes: a touch after the detach prefetches. *)
Example gil_touchstart_after_detach :
  let s := Gil.run about_link [Gil.Attach; Gil.Detach] in
  Gil.listeners s = [Gil.mkListener "touchstart" (Gil.OnTouch 1) false] /\
  Gil.calls (Gil.run s [Gil.Dispatch "touchstart"])
  = [Gil.mkCall "html" "/about" (Some "/about")].
Proof. vm_compute. split; reflexivity. Qed.

Section Fingerprints.
Import Chars.

Lemma filter_chars_all p s : all_chars p (JS.filter_chars p s) = true.
Proof.
  induction s as [|c r IH]; [done|]. simpl.
  destruct (p c) eqn:E; [simpl; by rewrite E|done].
Qed.

Lemma all_chars_includes p c s : all_chars p s = true -> p c = false -> JS.includes c s = false.
Proof.
  intros Ha Hc. induction s as [|d r IH]; [done|]. simpl in *.
  apply andb_true_iff in Ha as [Hd Hr].
  destruct (Ascii.eqb_spec c d) as [->|_]; [congruence|by apply IH].
Qed.

Lemma fingerprint_sanitized l h : exists s, Layouts.fingerprint l h = JS.sanitize s.
Proof. destruct l as [[]| | | | | | | |]; eexists; reflexivity. Qed.

Lemma sanitize_cons c r :
  JS.is_id_char c = true -> JS.sanitize (String c r) = String c (JS.sanitize r).
Proof. intros E. unfold JS.sanitize. simpl. by rewrite E. Qed.

Lemma layout_fingerprint_nonempty l h : Layouts.fingerprint l h <> "".
Proof. destruct l as [[]| | | | | | | |]; discriminate. Qed.

End Fingerprints.

(** The identifier of a stylesheet is made of letters, digits, [_] and [-]
    only, whatever the attribute values are; so neither the double quote
    nor the closing bracket can end the selector [[data-i="id"]] early. *)
Theorem fingerprint_charset l h :
  Chars.all_chars JS.is_id_char (Layouts.fingerprint l h) = true /\
  JS.includes (ascii_of_nat 34) (Layouts.fingerprint l h) = false /\
  JS.includes "]" (Layouts.fingerprint l h) = false.
Proof.
  destruct (fingerprint_sanitized l h) as [s ->].
  assert (H : Chars.all_chars JS.is_id_char (JS.sanitize s) = true)
    by apply filter_chars_all.
  split; [done|]. split; by apply (all_chars_includes JS.is_id_char).
Qed.

(** Two layouts of different kinds never share a stylesheet identifier:
    the identifier starts with the layout's own name, which sanitizing
    keeps, and no name is the beginning of another. *)
Theorem fingerprints_apart l1 l2 h1 h2 :
  l1 <> l2 -> Layouts.fingerprint l1 h1 <> Layouts.fingerprint l2 h2.
Proof.
  intros Hne E.
  destruct l1 as [[]| | | | | | | |], l2 as [[]| | | | | | | |]; try done; simpl in E;
    unfold Hath.fingerprint, Bau.fingerprint, GantThala.fingerprint,
      Gwistindor.fingerprint, GlanTholl.fingerprint, Him.fingerprint,
      Gonath.fingerprint, Enedh.fingerprint, Tiniath.fingerprint, GlanVeleg.fingerprint,
      Esgal.fingerprint, Vircantie.fingerprint, Fano.fingerprint, Miriant.fingerprint in E;
    simpl String.app in E;
    rewrite !sanitize_cons in E by reflexivity; congruence.
Qed.

Lemma fingerprints_apart_witness :
  of_widget glan_tholl <> glan_veleg /\
  Layouts.fingerprint (of_widget glan_tholl) (host_of [("space", "1rem")])
  <> Layouts.fingerprint glan_veleg (host_of [("space", "1rem")]).
Proof.
  split; [discriminate|]. apply fingerprints_apart. discriminate.
Defined.

Section CacheGrowth.

Lemma realize_body i css d : body (realize i css d) = body d.
Proof. unfold realize. by destruct (getElementById i d). Qed.

Lemma getElementById_realize_back i j css d :
  getElementById j (realize i css d) = None -> getElementById j d = None.
Proof.
  intros Hn. destruct (getElementById j d) eqn:E; [|done].
  destruct (getElementById_realize_mono j i css d) as [x Hx]; [by eexists|congruence].
Qed.

Lemma layout_render_attrs l h d : attrs (Layouts.render l h d).1 = attrs h.
Proof. destruct l as [[]| | | | | | | |]; reflexivity. Qed.

Lemma layout_render_doc l h d :
  (Layouts.render l h d).2
  = realize (Layouts.fingerprint l h) (Layouts.css l (Layouts.render l h d).1) d.
Proof. destruct l as [[]| | | | | | | |]; reflexivity. Qed.

Lemma layout_fingerprint_attrs l h1 h2 :
  attrs h1 = attrs h2 -> Layouts.fingerprint l h1 = Layouts.fingerprint l h2.
Proof.
  destruct h1 as [a1 d1 s1], h2 as [a2 d2 s2]; simpl; intros ->.
  destruct l as [[]| | | | | | | |]; reflexivity.
Qed.

Lemma layout_render_all_cons l h ls d :
  Layouts.render_all ((l, h) :: ls) d = Layouts.render_all ls (Layouts.render l h d).2.
Proof. reflexivity. Qed.

End CacheGrowth.

(** Rendering only ever adds to the style cache: the elements that the head
    had stay where they were, and what is appended are style elements, each
    named by the fingerprint of one of the rendered instances, with
    identifiers that are distinct from one another and that no element of
    the document had before.  When none of the instances is a sticky
    layout, whose [render()] also removes its sentinel, the body of the
    document is left alone. *)
Theorem style_cache_only_grows ls d :
  (Forall (fun lh => lh.1 <> of_widget him) ls ->
   body (Layouts.render_all ls d) = body d) /\
  exists new,
    head (Layouts.render_all ls d) = head d ++ new /\
    NoDup (id <$> new) /\
    forall e, e ∈ new ->
      tag e = "style" /\ getElementById (id e) d = None /\
      exists l h, (l, h) ∈ ls /\ id e = Layouts.fingerprint l h.
Proof.
  enough (body (Layouts.render_all ls d) = body d /\
    exists new,
      head (Layouts.render_all ls d) = head d ++ new /\
      NoDup (id <$> new) /\
      forall e, e ∈ new ->
        tag e = "style" /\ getElementById (id e) d = None /\
        exists l h, (l, h) ∈ ls /\ id e = Layouts.fingerprint l h) as [Hb Hn]
    by (split; [by intros _|exact Hn]).
  revert d. induction ls as [|[l h] ls IH]; intros d.
  { split; [done|]. exists []. rewrite app_nil_r. split; [done|].
    split; [apply NoDup_nil_2|]. by intros e He%elem_of_nil. }
  rewrite layout_render_all_cons, layout_render_doc.
  set (d1 := realize (Layouts.fingerprint l h) (Layouts.css l (Layouts.render l h d).1) d).
  destruct (IH d1) as (Hb & new & Hh & Hnd & Hnew). split.
  { rewrite Hb. apply realize_body. }
  assert (Hin : is_Some (getElementById (Layouts.fingerprint l h) d1))
    by apply getElementById_realize, layout_fingerprint_nonempty.
  unfold realize in d1. destruct (getElementById (Layouts.fingerprint l h) d) as [x0|] eqn:E.
  - exists new. split; [done|]. split; [done|].
    intros e He. destruct (Hnew e He) as (Ht & Hn & l' & h' & Hl & Hi).
    repeat split; [done|done|]. exists l', h'. split; [by right|done].
  - set (e0 := {| tag := "style"; id := Layouts.fingerprint l h;
                  textContent := Layouts.css l (Layouts.render l h d).1 |}) in *.
    exists (e0 :: new). split.
    { rewrite Hh. simpl. by rewrite <- app_assoc. }
    split.
    { rewrite fmap_cons. constructor; [|done].
      intros Hi. apply list_elem_of_fmap in Hi as (e & Hi & He).
      destruct (Hnew e He) as (_ & Hn & _). simpl in Hi. rewrite <- Hi in Hn.
      destruct Hin as [x Hx]. congruence. }
    intros e He. apply elem_of_cons in He as [->|He].
    + repeat split; [done|]. exists l, h. split; [by left|done].
    + destruct (Hnew e He) as (Ht & Hn & l' & h' & Hl & Hi).
      split; [done|]. split.
      * apply (getElementById_realize_back (Layouts.fingerprint l h) _
                 (Layouts.css l (Layouts.render l h d).1)).
        unfold realize. by rewrite E.
      * exists l', h'. split; [by right|done].
Qed.

Section RenderTwice.

Lemma host_eq h1 h2 :
  attrs h1 = attrs h2 -> dataset h1 = dataset h2 -> style h1 = style h2 -> h1 = h2.
Proof. destruct h1, h2; simpl; congruence. Qed.

Lemma lookup_set_prop m kv j :
  set_prop m kv !! j =
  if decide (j = kv.1) then (if bool_decide (kv.2 = "") then None else Some kv.2) else m !! j.
Proof.
  unfold set_prop, setProperty; simpl. destruct (decide (j = kv.1)) as [->|Hne].
  - destruct (bool_decide (kv.2 = "")); [apply lookup_delete_eq|apply lookup_insert_eq].
  - destruct (bool_decide (kv.2 = "")); [by apply lookup_delete_ne|by apply lookup_insert_ne].
Qed.

(** A property that the list writes has the value of its last entry,
    whatever it was before. *)
Lemma set_props_written ps m m' j :
  j ∈ ps.*1 -> foldl set_prop m ps !! j = foldl set_prop m' ps !! j.
Proof.
  induction ps as [|kv ps IH] using rev_ind; [by intros H%elem_of_nil|].
  rewrite fmap_app, elem_of_app, !foldl_app. simpl. rewrite !lookup_set_prop.
  intros [Hj|Hj%list_elem_of_singleton]; destruct (decide _); try done. by apply IH.
Qed.

Lemma set_props_other ps m j : j ∉ ps.*1 -> foldl set_prop m ps !! j = m !! j.
Proof.
  induction ps as [|kv ps IH] using rev_ind; [done|].
  rewrite fmap_app, elem_of_app, !foldl_app. simpl. rewrite !lookup_set_prop.
  intros Hj. destruct (decide _) as [->|_].
  - exfalso. apply Hj. right. by left.
  - apply IH. tauto.
Qed.

Lemma set_props_twice ps m : foldl set_prop (foldl set_prop m ps) ps = foldl set_prop m ps.
Proof.
  apply map_eq. intros j. destruct (decide (j ∈ ps.*1)) as [Hj|Hj].
  - by apply set_props_written.
  - by apply set_props_other.
Qed.

Lemma layout_render_style l h d :
  style (Layouts.render l h d).1 = foldl set_prop (style h) (properties l h).
Proof. destruct l as [[]| | | | | | | |]; reflexivity. Qed.

Lemma properties_attrs l h1 h2 : attrs h1 = attrs h2 -> properties l h1 = properties l h2.
Proof.
  destruct h1 as [a1 d1 s1], h2 as [a2 d2 s2]; simpl; intros ->.
  destruct l as [[]| | | | | | | |]; reflexivity.
Qed.

Lemma layout_render_dataset_eq l h d :
  dataset (Layouts.render l h d).1 = <["i" := Layouts.fingerprint l h]> (dataset h).
Proof. destruct l as [[]| | | | | | | |]; reflexivity. Qed.

Lemma layout_render_host_again l h d d' :
  (Layouts.render l (Layouts.render l h d).1 d').1 = (Layouts.render l h d).1.
Proof.
  apply host_eq.
  - by rewrite !layout_render_attrs.
  - rewrite !layout_render_dataset_eq.
    rewrite (layout_fingerprint_attrs l (Layouts.render l h d).1 h) by apply layout_render_attrs.
    apply insert_insert_eq.
  - rewrite !layout_render_style.
    rewrite (properties_attrs l (Layouts.render l h d).1 h) by apply layout_render_attrs.
    apply set_props_twice.
Qed.

Lemma layout_render_again l h d :
  Layouts.render l (Layouts.render l h d).1 (Layouts.render l h d).2 = Layouts.render l h d.
Proof.
  apply injective_projections.
  - apply layout_render_host_again.
  - rewrite layout_render_doc. apply realize_present.
    rewrite (layout_fingerprint_attrs l (Layouts.render l h d).1 h) by apply layout_render_attrs.
    rewrite layout_render_doc. apply getElementById_realize, layout_fingerprint_nonempty.
Qed.

Lemma him_cleanup_twice s :
  Him.cleanupSentinel (Him.cleanupSentinel s) = Him.cleanupSentinel s.
Proof.
  unfold Him.cleanupSentinel.
  destruct (Him.observer s) eqn:Eo, (Him.sentinelEl s) eqn:Ee; simpl;
    rewrite ?Eo, ?Ee; simpl; rewrite ?Eo, ?Ee; try done.
Qed.

Lemma him_cleanup_host s : Him.host (Him.cleanupSentinel s) = Him.host s.
Proof.
  unfold Him.cleanupSentinel.
  destruct (Him.observer s); simpl; by destruct (Him.sentinelEl s).
Qed.

Lemma him_cleanup_doc s : Him.doc (Him.cleanupSentinel s) = Him.doc s.
Proof.
  unfold Him.cleanupSentinel.
  destruct (Him.observer s); simpl; by destruct (Him.sentinelEl s).
Qed.

Lemma him_with_same h d t :
  Him.host t = h -> Him.doc t = d -> Him.with_doc d (Him.with_host h t) = t.
Proof. intros <- <-. by destruct t. Qed.

Lemma him_render_host s :
  Him.host (Him.render s) = (Him.render_style (Him.host s) (Him.doc s)).1 /\
  Him.doc (Him.render s) = (Him.render_style (Him.host s) (Him.doc s)).2.
Proof.
  unfold Him.render. destruct (Him.render_style _ _) as [h d]. cbn [fst snd].
  cbn [Him.host Him.with_doc Him.with_host].
  destruct (Him.sentinel h); [by split|]. by rewrite him_cleanup_host, him_cleanup_doc.
Qed.

Lemma him_render_style_sentinel h d :
  Him.sentinel (Him.render_style h d).1 = Him.sentinel h.
Proof. reflexivity. Qed.

End RenderTwice.

(** Rendering an instance again, with no attribute changed in between,
    changes neither the element nor the document: the custom properties
    and [data-i] are written with the values that they have, and the
    stylesheet is found in the cache.  This is so for every layout whose
    [render()] only writes styles.  The sticky layout is the exception:
    its [render()] goes on to its sentinel, and with the [sentinel]
    attribute every call asks for one more animation frame; without the
    attribute its [render()] is idempotent too. *)
Theorem render_idempotent :
  (forall l h d,
      l <> of_widget him ->
      Layouts.render l (Layouts.render l h d).1 (Layouts.render l h d).2
      = Layouts.render l h d) /\
  (forall s,
      Him.sentinel (Him.host s) = true ->
      Him.frames (Him.render (Him.render s)) = S (Him.frames (Him.render s))) /\
  (forall s,
      Him.sentinel (Him.host s) = false ->
      Him.render (Him.render s) = Him.render s).
Proof.
  split; [|split].
  - intros l h d _. apply layout_render_again.
  - intros s Hs. destruct (him_render_host s) as [Eh Ed].
    unfold Him.render at 1.
    destruct (Him.render_style (Him.host (Him.render s)) (Him.doc (Him.render s)))
      as [h d] eqn:E.
    assert (Hsh : Him.sentinel h = true).
    { change h with (h, d).1. rewrite <- E, him_render_style_sentinel, Eh.
      by rewrite him_render_style_sentinel. }
    cbn [Him.host Him.with_doc Him.with_host]. by rewrite Hsh.
  - intros s Hs.
    pose proof (layout_render_again (of_widget him) (Him.host s) (Him.doc s)) as Ha.
    change (Layouts.render (of_widget him)) with Him.render_style in Ha.
    pose proof (him_render_style_sentinel (Him.host s) (Him.doc s)) as Hsh.
    destruct (Him.render_style (Him.host s) (Him.doc s)) as [h d] eqn:E.
    cbn [fst snd] in *. rewrite Hs in Hsh.
    assert (E1 : Him.render s = Him.cleanupSentinel (Him.with_doc d (Him.with_host h s))).
    { unfold Him.render. rewrite E. cbn [Him.host Him.with_doc Him.with_host].
      by rewrite Hsh. }
    rewrite E1. set (s0 := Him.with_doc d (Him.with_host h s)).
    unfold Him.render. rewrite him_cleanup_host, him_cleanup_doc.
    change (Him.host s0) with h. change (Him.doc s0) with d. rewrite Ha.
    cbn [Him.host Him.with_doc Him.with_host]. rewrite Hsh.
    rewrite (him_with_same h d (Him.cleanupSentinel s0))
      by (by rewrite ?him_cleanup_host, ?him_cleanup_doc).
    apply him_cleanup_twice.
Qed.

Section ClockFacts.
Context {C : Type}.
Implicit Types (l : list (Clock.Timer C)) (tm : Clock.Timer C).

Lemma earliest_acc t l best :
  match foldl (fun best tm =>
           if Clock.due tm <=? t then
             match best with
             | Some b => if Clock.due tm <? Clock.due b then Some tm else Some b
             | None => Some tm
             end
           else best) best l with
  | Some r => (best = Some r \/ (r ∈ l /\ Clock.due r <= t))
  | None => best = None /\ forall tm, tm ∈ l -> t < Clock.due tm
  end.
Proof.
  revert best. induction l as [|x l IH]; intros best; simpl.
  - destruct best; [by left|]. split; [done|]. by intros tm H%elem_of_nil.
  - match goal with |- context [foldl ?f ?b l] => specialize (IH b) end.
    match type of IH with context [foldl ?f ?b l] => destruct (foldl f b l) as [r|] end.
    + destruct IH as [E|[Hin Hd]]; [|right; split; [by right|done]].
      destruct (Z.leb_spec (Clock.due x) t) as [Hx|Hx]; [|by left].
      destruct best as [b|].
      * destruct (Clock.due x <? Clock.due b); simplify_eq; [right; split; [by left|done]|by left].
      * simplify_eq. right. split; [by left|done].
    + destruct IH as [E Hall].
      destruct (Z.leb_spec (Clock.due x) t) as [Hx|Hx].
      * destruct best as [b|]; [destruct (Clock.due x <? Clock.due b)|]; discriminate.
      * split; [done|]. intros tm [->|Hin]%elem_of_cons; [done|by apply Hall].
Qed.

Lemma earliest_some t l tm :
  Clock.earliest t l = Some tm -> tm ∈ l /\ Clock.due tm <= t.
Proof.
  unfold Clock.earliest. intros E. pose proof (earliest_acc t l None) as H.
  rewrite E in H. by destruct H as [?|?].
Qed.

Lemma earliest_none t l tm :
  Clock.earliest t l = None -> tm ∈ l -> t < Clock.due tm.
Proof.
  unfold Clock.earliest. intros E. pose proof (earliest_acc t l None) as H.
  rewrite E in H. destruct H as [_ H]. apply H.
Qed.

Lemma remove_length l tm :
  tm ∈ l -> (length (Clock.remove (Clock.tid tm) l) < length l)%nat.
Proof.
  unfold Clock.remove. induction l as [|x l IH]; [by intros H%elem_of_nil|].
  intros [->|Hin]%elem_of_cons; simpl.
  - rewrite Nat.eqb_refl. simpl.
    pose proof (List.filter_length_le (fun tm0 => negb (Clock.tid tm0 =? Clock.tid x)%nat) l). lia.
  - specialize (IH Hin). destruct (negb _); simpl; lia.
Qed.

End ClockFacts.

Section TouchFacts.
Import Touch.

Lemma fire_pending tm s : pending (fire tm s) = Clock.remove (Clock.tid tm) (pending s).
Proof. unfold fire. by destruct (Clock.tcb tm). Qed.

(** Induction on the timers that elapse by [t]. *)
Lemma fire_due_ind (P : State -> Prop) t :
  (forall s tm, touch_inv s -> P s -> tm ∈ pending s -> Clock.due tm <= t -> P (fire tm s)) ->
  forall fuel s, touch_inv s -> P s -> P (fire_due fuel t s).
Proof.
  intros Hstep fuel. induction fuel as [|n IH]; intros s Hinv Hs; simpl; [done|].
  destruct (Clock.earliest t (pending s)) as [tm|] eqn:E; [|done].
  apply earliest_some in E as [Hin Hd].
  apply IH; [by apply fire_inv|by apply Hstep].
Qed.

(** With fuel for every pending timer, no timer due by [t] is left. *)
Lemma fire_due_complete fuel t s tm :
  (length (pending s) <= fuel)%nat ->
  tm ∈ pending (fire_due fuel t s) -> t < Clock.due tm.
Proof.
  revert s. induction fuel as [|n IH]; intros s Hlen; simpl.
  - destruct (pending s); [by intros H%elem_of_nil|simpl in Hlen; lia].
  - destruct (Clock.earliest t (pending s)) as [tm'|] eqn:E.
    + apply earliest_some in E as [Hin Hd]. apply IH.
      rewrite fire_pending. pose proof (remove_length _ _ Hin). lia.
    + by apply earliest_none.
Qed.

Lemma advance_fields dt s :
  let s' := fire_due (length (pending s)) (now s + Z.max 0 dt) s in
  pending (advance dt s) = pending s' /\ events (advance dt s) = events s' /\
  activeElements (advance dt s) = activeElements s' /\
  touch_active (advance dt s) = touch_active s' /\
  touchTimers (advance dt s) = touchTimers s'.
Proof. done. Qed.

Lemma api_step_inv s e : touch_inv s -> touch_inv (TouchApi.step s e).
Proof.
  intros Hs. destruct e as [e|el|el|el d]; simpl.
  - by apply touch_step_inv.
  - by apply (touch_inv_shrink s).
  - by apply (touch_inv_shrink s).
  - destruct Hs as (Hnd & Hlt & Hpr & Hrec & Hid).
    unfold TouchApi.triggerTouch, setTimeout. repeat split; simpl.
    + rewrite fmap_app. apply NoDup_app. split; [done|]. split; [|apply NoDup_singleton].
      intros x Hx ->%list_elem_of_singleton.
      apply list_elem_of_fmap in Hx as (tm & Htm & Hin). specialize (Hlt tm Hin). simpl in *. lia.
    + intros tm [Hin| ->%list_elem_of_singleton]%elem_of_app; simpl; [|lia].
      specialize (Hlt tm Hin). lia.
    + intros tm el' [Hin| ->%list_elem_of_singleton]%elem_of_app Hcb; [by apply Hpr|].
      discriminate Hcb.
    + intros tm el' [Hin| ->%list_elem_of_singleton]%elem_of_app Hl; [by apply Hrec|].
      simpl in Hl. specialize (Hid el' _ Hl). lia.
    + intros el' t' Hl. specialize (Hid el' _ Hl). lia.
Qed.

Lemma api_run_inv touch hover es : touch_inv (TouchApi.run (init touch hover) es).
Proof.
  induction es as [|e es IH] using rev_ind.
  - apply (touch_run_inv touch hover []).
  - unfold TouchApi.run in *. rewrite foldl_app. simpl. by apply api_step_inv.
Qed.

End TouchFacts.

Section TouchActivation.
Import Touch.

Lemma activations_snoc el s f :
  TouchApi.activations el (set_events (events s ++ [f]) s)
  = (TouchApi.activations el s
     + match f with TouchActive e _ => if Nat.eqb e el then 1 else 0 | TouchInactive _ => 0 end)%nat.
Proof.
  unfold TouchApi.activations. simpl. rewrite List.filter_app, length_app. simpl.
  destruct f as [e eff|e]; [destruct (Nat.eqb e el)|]; reflexivity.
Qed.

Lemma fire_activations el tm s :
  Clock.tcb tm <> Activate el -> TouchApi.activations el (fire tm s) = TouchApi.activations el s.
Proof.
  intros Hne. unfold fire, run_callback, activateTouch, deactivateTouch.
  destruct (Clock.tcb tm) as [e|e]; rewrite activations_snoc.
  - destruct (Nat.eqb_spec e el) as [->|_]; [done|]. unfold TouchApi.activations. simpl. lia.
  - unfold TouchApi.activations. simpl. lia.
Qed.

Lemma fire_active el tm s :
  Clock.tcb tm <> Activate el -> Clock.tcb tm <> Deactivate el ->
  (el ∈ activeElements (fire tm s) <-> el ∈ activeElements s).
Proof.
  intros H1 H2. unfold fire, run_callback, activateTouch, deactivateTouch.
  destruct (Clock.tcb tm) as [e|e]; simpl.
  - rewrite elem_of_union, elem_of_singleton. split; [intros [?| ->]; [done|congruence]|tauto].
  - rewrite elem_of_difference, elem_of_singleton. split; [tauto|]. intros H. split; [done|].
    intros ->. congruence.
Qed.

(** While no press-confirmation timer of an element is due, time passes
    without a [thir:touch-active] on it. *)
Lemma advance_no_press el dt s :
  touch_inv s ->
  (forall tm, tm ∈ pending s -> Clock.tcb tm = Activate el -> now s + Z.max 0 dt < Clock.due tm) ->
  TouchApi.activations el (advance dt s) = TouchApi.activations el s /\
  (forall tm, tm ∈ pending (advance dt s) -> tm ∈ pending s).
Proof.
  intros Hinv Hlate. destruct (advance_fields dt s) as (Ep & Ee & _). 
  unfold TouchApi.activations. rewrite Ep, Ee.
  set (t := now s + Z.max 0 dt) in *.
  apply (fire_due_ind
    (fun s' => TouchApi.activations el s' = TouchApi.activations el s /\
               forall tm, tm ∈ pending s' -> tm ∈ pending s) t); [|done|done].
  intros s' tm _ [Ha Hsub] Hin Hd. split.
  - rewrite fire_activations; [done|]. intros Hcb.
    specialize (Hlate tm (Hsub tm Hin) Hcb). lia.
  - intros tm'. rewrite fire_pending. intros [H _]%elem_of_remove. by apply Hsub.
Qed.

Lemma press_timers_spec el s tm :
  tm ∈ press_timers el s <-> tm ∈ pending s /\ Clock.tcb tm = Activate el.
Proof.
  unfold press_timers. rewrite !list_elem_of_In, List.filter_In.
  by rewrite bool_decide_eq_true.
Qed.

Lemma grace_timers_spec el s tm :
  tm ∈ grace_timers el s <-> tm ∈ pending s /\ Clock.tcb tm = Deactivate el.
Proof.
  unfold grace_timers. rewrite !list_elem_of_In, List.filter_In.
  by rewrite bool_decide_eq_true.
Qed.

Lemma clearTouchTimer_press el s :
  touch_inv s -> press_timers el (clearTouchTimer el s) = [].
Proof.
  intros Hinv. destruct (clearTouchTimer_inv el s Hinv) as ((_ & _ & Hpr & _) & Hnone & _).
  apply filter_none. intros tm Hin. apply bool_decide_false. intros Hcb.
  specialize (Hpr tm el Hin Hcb). congruence.
Qed.

Lemma handleTouchEnd_press el s :
  touch_inv s ->
  press_timers el (handleTouchEnd (Some el) s) = [] /\
  events (handleTouchEnd (Some el) s) = events s.
Proof.
  intros Hinv. pose proof (clearTouchTimer_press el s Hinv) as Hp.
  destruct (clearTouchTimer_fields el s) as (_ & _ & _ & He).
  unfold handleTouchEnd. case_bool_decide; [|done].
  split; [|done]. unfold press_timers, setTimeout in *. simpl.
  rewrite List.filter_app, Hp. reflexivity.
Qed.

Lemma handleTouchCancel_press el s :
  touch_inv s -> press_timers el (handleTouchCancel (Some el) s) = [].
Proof. intros Hinv. by apply clearTouchTimer_press. Qed.

End TouchActivation.

(** A touch that is released before the long-press threshold never
    activates the effect, however long one waits afterwards: no
    [thir:touch-active] is dispatched on the element. *)
Theorem short_tap_never_activates touch hover es el dt1 dt2 :
  dt1 < Touch.LONG_PRESS_DURATION ->
  let s := TouchApi.run (Touch.init touch hover) es in
  TouchApi.activations el
    (Touch.run s [Touch.TouchStart (Some el); Touch.Advance dt1;
                  Touch.TouchEnd (Some el); Touch.Advance dt2])
  = TouchApi.activations el s.
Proof.
  intros Hdt s. pose proof (api_run_inv touch hover es) as Hinv. fold s in Hinv.
  unfold Touch.run. cbn [foldl Touch.step].
  destruct (handleTouchStart_inv el s Hinv) as (H1 & Hp & _).
  set (s1 := Touch.handleTouchStart (Some el) s) in *.
  assert (Hnow : Touch.now s1 = Touch.now s /\ Touch.events s1 = Touch.events s).
  { destruct (clearTouchTimer_fields el s) as (_ & Hn & _ & He).
    subst s1. unfold Touch.handleTouchStart, Touch.setTimeout. simpl. done. }
  destruct Hnow as [Hnow Hev].
  destruct (advance_no_press el dt1 s1 H1) as [Ha1 _].
  { intros tm Hin Hcb.
    assert (Htm : tm ∈ Touch.press_timers el s1) by (by apply press_timers_spec).
    rewrite Hp in Htm. apply list_elem_of_singleton in Htm. subst tm. cbn [Clock.due].
    rewrite Hnow. unfold Touch.LONG_PRESS_DURATION in *. lia. }
  set (s2 := Touch.advance dt1 s1) in *.
  assert (H2 : touch_inv s2) by apply (touch_step_inv s1 (Touch.Advance dt1) H1).
  destruct (handleTouchEnd_press el s2 H2) as [Hp3 He3].
  pose proof (handleTouchEnd_inv el s2 H2) as H3.
  set (s3 := Touch.handleTouchEnd (Some el) s2) in *.
  destruct (advance_no_press el dt2 s3 H3) as [Ha4 _].
  { intros tm Hin Hcb.
    assert (Htm : tm ∈ Touch.press_timers el s3) by (by apply press_timers_spec).
    rewrite Hp3 in Htm. by apply elem_of_nil in Htm. }
  rewrite Ha4. unfold TouchApi.activations at 1. rewrite He3.
  fold (TouchApi.activations el s2). rewrite Ha1.
  unfold TouchApi.activations. by rewrite Hev.
Qed.

Lemma short_tap_never_activates_witness :
  299 < Touch.LONG_PRESS_DURATION /\
  TouchApi.activations 1
    (Touch.run touch_page [Touch.TouchStart (Some 1%nat); Touch.Advance 299;
                           Touch.TouchEnd (Some 1%nat); Touch.Advance 5000])
  = TouchApi.activations 1 touch_page.
Proof.
  split; [reflexivity|].
  apply (short_tap_never_activates {[ 1%nat := "" ]} {[ 1%nat := "lift" ]} [] 1%nat 299 5000).
  reflexivity.
Defined.

Section TouchLiveness.
Import Touch.

Lemma advance_complete dt s tm :
  tm ∈ pending (advance dt s) -> now s + Z.max 0 dt < Clock.due tm.
Proof.
  destruct (advance_fields dt s) as (-> & _). by apply fire_due_complete.
Qed.

Lemma touch_inv_tid s tm tm' :
  touch_inv s -> tm ∈ pending s -> tm' ∈ pending s -> Clock.tid tm = Clock.tid tm' -> tm = tm'.
Proof.
  intros (Hnd & _) H1 H2 E.
  apply list_elem_of_lookup in H1 as [i Hi]. apply list_elem_of_lookup in H2 as [j Hj].
  assert (i = j) as ->; [|congruence].
  eapply NoDup_lookup; [exact Hnd|..]; rewrite list_lookup_fmap.
  - by rewrite Hi.
  - rewrite Hj. simpl. by rewrite E.
Qed.

(** The course of a press-confirmation timer [tm0] of an element that has
    no grace timer: either it is pending and is the only one of the
    element, or it has elapsed, the element is active, and one more
    [thir:touch-active] was dispatched. *)
Lemma advance_press el dt s tm0 a :
  touch_inv s ->
  (forall tm, tm ∈ pending s -> Clock.tcb tm <> Deactivate el) ->
  tm0 ∈ pending s -> Clock.tcb tm0 = Activate el ->
  (forall tm, tm ∈ pending s -> Clock.tcb tm = Activate el -> tm = tm0) ->
  TouchApi.activations el s = a ->
  Clock.due tm0 <= now s + Z.max 0 dt ->
  el ∈ activeElements (advance dt s) /\ TouchApi.activations el (advance dt s) = S a.
Proof.
  intros Hinv Hng Hin0 Hcb0 Honly Ha Hdue.
  destruct (advance_fields dt s) as (Ep & Ee & Ea & _).
  pose proof (advance_complete dt s tm0) as Hc. rewrite Ep in Hc.
  unfold TouchApi.activations. rewrite Ee, Ea.
  set (t := now s + Z.max 0 dt) in *.
  cut ((forall tm, tm ∈ pending (fire_due (length (pending s)) t s) -> Clock.tcb tm <> Deactivate el) /\
       ((tm0 ∈ pending (fire_due (length (pending s)) t s) /\
         (forall tm, tm ∈ pending (fire_due (length (pending s)) t s) ->
                     Clock.tcb tm = Activate el -> tm = tm0) /\
         TouchApi.activations el (fire_due (length (pending s)) t s) = a) \/
        ((forall tm, tm ∈ pending (fire_due (length (pending s)) t s) -> Clock.tcb tm <> Activate el) /\
         TouchApi.activations el (fire_due (length (pending s)) t s) = S a /\
         el ∈ activeElements (fire_due (length (pending s)) t s)))).
  { intros (_ & [(Hin & _)|(_ & H1 & H2)]); [specialize (Hc Hin); lia|done]. }
  apply (fire_due_ind
    (fun s' => (forall tm, tm ∈ pending s' -> Clock.tcb tm <> Deactivate el) /\
       ((tm0 ∈ pending s' /\
         (forall tm, tm ∈ pending s' -> Clock.tcb tm = Activate el -> tm = tm0) /\
         TouchApi.activations el s' = a) \/
        ((forall tm, tm ∈ pending s' -> Clock.tcb tm <> Activate el) /\
         TouchApi.activations el s' = S a /\ el ∈ activeElements s'))) t);
    [|done|by split; [|left]].
  intros s' tm Hinv' (Hng' & Hcase) Hin Hd.
  assert (Hrem : forall x, x ∈ pending (fire tm s') -> x ∈ pending s' /\ Clock.tid x <> Clock.tid tm).
  { intros x. rewrite fire_pending. by apply elem_of_remove. }
  split; [intros x Hx; apply Hng'; by apply Hrem|].
  destruct Hcase as [(Hin0' & Honly' & Ha')|(Hnone & Ha' & Hact)].
  - destruct (decide (Clock.tid tm = Clock.tid tm0)) as [E|Hne].
    + apply (touch_inv_tid s' tm tm0 Hinv' Hin Hin0') in E. subst tm.
      right. split; [|split].
      * intros x Hx Hcb. destruct (Hrem x Hx) as [Hx' Hid].
        apply Hid. by rewrite (Honly' x Hx' Hcb).
      * unfold fire, run_callback. rewrite Hcb0. unfold activateTouch.
        rewrite activations_snoc, Nat.eqb_refl. unfold TouchApi.activations in *. simpl. lia.
      * unfold fire, run_callback. rewrite Hcb0. simpl.
        rewrite elem_of_union, elem_of_singleton. by right.
    + left. split; [|split].
      * rewrite fire_pending. apply elem_of_remove. split; [done|]. congruence.
      * intros x Hx. apply Honly'. by apply Hrem.
      * rewrite fire_activations; [done|]. intros Hcb. apply Hne.
        by rewrite (Honly' tm Hin Hcb).
  - right. split; [|split].
    + intros x Hx. apply Hnone. by apply Hrem.
    + rewrite fire_activations; [done|]. by apply Hnone.
    + apply fire_active; [by apply Hnone|by apply Hng'|done].
Qed.

End TouchLiveness.

(** A touch that is held for the long-press threshold activates the
    effect: when no grace timer of the element is pending at the touch
    start, the element is active once 300 ms have passed, and exactly one
    [thir:touch-active] was dispatched on it. *)
Theorem long_press_activates touch hover es el dt :
  let s := TouchApi.run (Touch.init touch hover) es in
  Touch.LONG_PRESS_DURATION <= dt -> Touch.grace_timers el s = [] ->
  let s' := Touch.run s [Touch.TouchStart (Some el); Touch.Advance dt] in
  el ∈ Touch.activeElements s' /\
  TouchApi.activations el s' = S (TouchApi.activations el s).
Proof.
  intros s Hdt Hg s'. pose proof (api_run_inv touch hover es) as Hinv. fold s in Hinv.
  subst s'. unfold Touch.run. cbn [foldl Touch.step].
  destruct (handleTouchStart_inv el s Hinv) as (H1 & Hp & Hg1).
  set (s1 := Touch.handleTouchStart (Some el) s) in *.
  assert (Hnow : Touch.now s1 = Touch.now s /\ Touch.events s1 = Touch.events s).
  { destruct (clearTouchTimer_fields el s) as (_ & Hn & _ & He).
    subst s1. unfold Touch.handleTouchStart, Touch.setTimeout. simpl. done. }
  destruct Hnow as [Hnow Hev].
  set (tm0 := Clock.mkTimer (Touch.next_id s)
                (Touch.now s + Touch.LONG_PRESS_DURATION) (Touch.Activate el)) in *.
  assert (Hin0 : tm0 ∈ Touch.pending s1 /\ Clock.tcb tm0 = Touch.Activate el).
  { apply press_timers_spec. rewrite Hp. by left. }
  apply (advance_press el dt s1 tm0); try tauto.
  - intros tm Hin Hcb.
    assert (Htm : tm ∈ Touch.grace_timers el s1) by (by apply grace_timers_spec).
    rewrite Hg1, Hg in Htm. by apply elem_of_nil in Htm.
  - intros tm Hin Hcb.
    assert (Htm : tm ∈ Touch.press_timers el s1) by (by apply press_timers_spec).
    rewrite Hp in Htm. by apply list_elem_of_singleton in Htm.
  - unfold TouchApi.activations. by rewrite Hev.
  - subst tm0. cbn [Clock.due]. rewrite Hnow. lia.
Qed.

Lemma long_press_activates_witness :
  Touch.LONG_PRESS_DURATION <= 300 /\ Touch.grace_timers 1 touch_page = [] /\
  1%nat ∈ Touch.activeElements
    (Touch.run touch_page [Touch.TouchStart (Some 1%nat); Touch.Advance 300]).
Proof.
  split; [reflexivity|]. split; [reflexivity|].
  apply (long_press_activates {[ 1%nat := "" ]} {[ 1%nat := "lift" ]} [] 1%nat 300);
    reflexivity.
Defined.

Section TouchTrigger.
Import Touch.

(** Once no press-confirmation timer of an element is pending, a grace
    timer of the element that is due leaves the element inactive. *)
Lemma advance_grace el dt s :
  touch_inv s ->
  (forall tm, tm ∈ pending s -> Clock.tcb tm <> Activate el) ->
  (el ∉ activeElements s \/
   exists tm, tm ∈ pending s /\ Clock.tcb tm = Deactivate el /\
              Clock.due tm <= now s + Z.max 0 dt) ->
  (el ∉ activeElements (advance dt s)) /\
  TouchApi.activations el (advance dt s) = TouchApi.activations el s.
Proof.
  intros Hinv Hnp Hcase.
  split; [|by apply advance_no_press; [|intros tm Hin Hcb; by destruct (Hnp tm Hin)]].
  destruct (advance_fields dt s) as (Ep & _ & Ea & _).
  pose proof (fun tm => advance_complete dt s tm) as Hc. rewrite Ep in Hc.
  rewrite Ea. set (t := now s + Z.max 0 dt) in *.
  cut ((forall tm, tm ∈ pending (fire_due (length (pending s)) t s) -> Clock.tcb tm <> Activate el) /\
       (el ∉ activeElements (fire_due (length (pending s)) t s) \/
        exists tm, tm ∈ pending (fire_due (length (pending s)) t s) /\
                   Clock.tcb tm = Deactivate el /\ Clock.due tm <= t)).
  { intros (_ & [H|(tm & Hin & _ & Hd)]); [done|]. specialize (Hc tm Hin). lia. }
  apply (fire_due_ind
    (fun s' => (forall tm, tm ∈ pending s' -> Clock.tcb tm <> Activate el) /\
               (el ∉ activeElements s' \/
                exists tm, tm ∈ pending s' /\ Clock.tcb tm = Deactivate el /\
                           Clock.due tm <= t)) t); [|done|done].
  intros s' tm Hinv' (Hnp' & Hcase') Hin Hd.
  assert (Hrem : forall x, x ∈ pending (fire tm s') <-> x ∈ pending s' /\ Clock.tid x <> Clock.tid tm).
  { intros x. rewrite fire_pending. by apply elem_of_remove. }
  split; [intros x Hx; apply Hnp'; by apply Hrem|].
  destruct (decide (Clock.tcb tm = Deactivate el)) as [Hcb|Hcb].
  { left. unfold fire, run_callback. rewrite Hcb. simpl.
    rewrite elem_of_difference, elem_of_singleton. tauto. }
  destruct Hcase' as [Hna|(w & Hw & Hwcb & Hwd)].
  - left. rewrite fire_active; [done|by apply Hnp'|done].
  - right. exists w. split; [|done]. apply Hrem. split; [done|].
    intros E. apply (touch_inv_tid s' w tm Hinv' Hw Hin) in E. congruence.
Qed.

Lemma class_tracks_set_step s e :
  touch_inv s -> touch_active s = activeElements s ->
  touch_active (TouchApi.step s e) = activeElements (TouchApi.step s e).
Proof.
  intros Hinv Heq. destruct e as [[[el|]|[el|]|[el|]|dt]|el|el|el d]; simpl; try done.
  - unfold handleTouchStart, clearTouchTimer. by destruct (touchTimers s !! el).
  - unfold handleTouchEnd, clearTouchTimer.
    destruct (touchTimers s !! el); simpl; case_bool_decide; done.
  - unfold handleTouchCancel, clearTouchTimer.
    destruct (touchTimers s !! el); simpl; by rewrite Heq.
  - apply (fire_due_ind (fun s' => touch_active s' = activeElements s')); [|done|done].
    intros s' tm _ E _ _. unfold fire. destruct (Clock.tcb tm); simpl; by rewrite E.
  - by rewrite Heq.
  - by rewrite Heq.
  - by rewrite Heq.
Qed.

End TouchTrigger.

(** The class [touch-active] and the set of active elements never part:
    whatever touch events, timers and calls of the exported functions
    occurred, an element has the class exactly when it is in the set. *)
Theorem touch_class_tracks_set touch hover es :
  Touch.touch_active (TouchApi.run (Touch.init touch hover) es)
  = Touch.activeElements (TouchApi.run (Touch.init touch hover) es).
Proof.
  induction es as [|e es IH] using rev_ind; [done|].
  unfold TouchApi.run in *. rewrite foldl_app. simpl.
  apply class_tracks_set_step; [apply api_run_inv|done].
Qed.

(** [triggerTouch] ends: when no press-confirmation timer of the element is
    pending at the call, then once the duration has passed the element is
    inactive again, and the call dispatched exactly one
    [thir:touch-active] on it. *)
Theorem trigger_touch_ends touch hover es el duration dt :
  let s := TouchApi.run (Touch.init touch hover) es in
  Touch.press_timers el s = [] -> TouchApi.delay duration <= dt ->
  let s' := Touch.advance dt (TouchApi.triggerTouch el duration s) in
  (el ∉ Touch.activeElements s') /\
  TouchApi.activations el s' = S (TouchApi.activations el s).
Proof.
  intros s Hp Hdt s'. pose proof (api_run_inv touch hover es) as Hinv. fold s in Hinv.
  pose proof (api_step_inv s (TouchApi.CallTrigger el duration) Hinv) as H1.
  cbn [TouchApi.step] in H1. subst s'.
  set (s1 := TouchApi.triggerTouch el duration s) in *.
  assert (Ha : TouchApi.activations el s1 = S (TouchApi.activations el s)).
  { subst s1. unfold TouchApi.triggerTouch, Touch.setTimeout, Touch.activateTouch.
    unfold TouchApi.activations. simpl. rewrite List.filter_app, length_app. simpl.
    rewrite Nat.eqb_refl. simpl. lia. }
  rewrite <- Ha. apply advance_grace; [done|..].
  - subst s1. unfold TouchApi.triggerTouch, Touch.setTimeout. simpl.
    intros tm [Hin| ->%list_elem_of_singleton]%elem_of_app Hcb; [|done].
    assert (Htm : tm ∈ Touch.press_timers el s) by (by apply press_timers_spec).
    rewrite Hp in Htm. by apply elem_of_nil in Htm.
  - right. eexists. split; [|split].
    + subst s1. unfold TouchApi.triggerTouch, Touch.setTimeout. simpl.
      apply elem_of_app. right. by left.
    + done.
    + subst s1. simpl. lia.
Qed.

Lemma trigger_touch_ends_witness :
  Touch.press_timers 1 touch_page = [] /\ TouchApi.delay None <= 600 /\
  1%nat ∉ Touch.activeElements (Touch.advance 600 (TouchApi.triggerTouch 1 None touch_page)).
Proof.
  split; [reflexivity|]. split; [vm_compute; discriminate|].
  apply (trigger_touch_ends {[ 1%nat := "" ]} {[ 1%nat := "lift" ]} [] 1%nat None 600);
    [reflexivity|vm_compute; discriminate].
Defined.

Section ThirListeners.
Import Thir.

Lemma thir_fire_due_ind (P : State -> Prop) t :
  (forall s tm, thir_inv s -> P s -> tm ∈ pending s -> Clock.due tm <= t -> P (fire tm s)) ->
  forall fuel s, thir_inv s -> P s -> P (fire_due fuel t s).
Proof.
  intros Hstep fuel. induction fuel as [|n IH]; intros s Hinv Hs; simpl; [done|].
  destruct (Clock.earliest t (pending s)) as [tm|] eqn:E; [|done].
  apply earliest_some in E as [Hin Hd].
  apply IH; [|by apply Hstep].
  revert Hinv. apply thir_inv_shrink; unfold fire; destruct (Clock.tcb tm); simpl;
    try done; apply filter_sublist.
Qed.

Lemma thir_dispatch_ind (P : State -> Prop) e s :
  (forall s, P s -> P (handler e s)) -> P s -> P (dispatch e s).
Proof.
  intros Hh. unfold dispatch. generalize (listeners s). intros ls. revert s.
  induction ls as [|l ls IH]; intros s Hs; simpl; [done|].
  apply IH. case_bool_decide; [by apply Hh|done].
Qed.

Lemma filter_bound g gs :
  List.filter (fun l => negb (Nat.eqb (gen l) g)) (flat_map thir_bound gs)
  = flat_map thir_bound (List.filter (fun x => negb (Nat.eqb x g)) gs).
Proof.
  induction gs as [|x gs IH]; [done|]. simpl.
  destruct (Nat.eqb x g); simpl; by rewrite IH.
Qed.

Lemma filter_fresh g gs :
  (forall x, x ∈ gs -> (x < g)%nat) -> List.filter (fun x => negb (Nat.eqb x g)) gs = gs.
Proof.
  induction gs as [|x gs IH]; intros H; [done|]. simpl.
  destruct (Nat.eqb_spec x g) as [->|_].
  - specialize (H g (list_elem_of_here _ _)). lia.
  - simpl. rewrite IH; [done|]. intros y Hy. apply H. by right.
Qed.

Lemma handler_fields e s :
  listeners (handler e s) = listeners s /\ (next_id s <= next_id (handler e s))%nat /\
  _onTouchStart (handler e s) = _onTouchStart s.
Proof.
  unfold handler, _handleTouchStart, _handleTouchEnd, _handleTouchCancel, _clearTouchTimer.
  repeat case_bool_decide; destruct (_touchTimer s); simpl;
    try destruct (_touchActive s); simpl; repeat split; lia.
Qed.


Lemma thir_bound_init s : thir_bound_inv s -> thir_bound_inv (_initTouchSupport s).
Proof.
  intros ((gs & Hl & Hlt) & Hnone & Hc). split; [|split].
  - exists (gs ++ [next_id s]). simpl. split.
    + rewrite Hl, flat_map_app. simpl. by rewrite ?app_nil_r.
    + intros g [Hg| ->%list_elem_of_singleton]%elem_of_app; [|lia].
      specialize (Hlt g Hg). lia.
  - simpl. intros E. by apply app_eq_nil in E as [_ E].
  - done.
Qed.

Lemma clearTouchTimer_fields_thir s :
  _touchTimer (_clearTouchTimer s) = None /\
  listeners (_clearTouchTimer s) = listeners s /\
  next_id (_clearTouchTimer s) = next_id s /\
  class_active (_clearTouchTimer s) = class_active s /\
  _touchActive (_clearTouchTimer s) = _touchActive s /\
  events (_clearTouchTimer s) = events s.
Proof. unfold _clearTouchTimer. by destruct (_touchTimer s) eqn:E. Qed.

Lemma thir_bound_cleanup s : thir_bound_inv s -> thir_bound_inv (_cleanupTouchSupport s).
Proof.
  intros ((gs & Hl & Hlt) & Hnone & Hc). unfold _cleanupTouchSupport.
  match goal with |- thir_bound_inv (_clearTouchTimer ?x) =>
    destruct (clearTouchTimer_fields_thir x) as (Ht & El & En & Ec & Ea & _) end.
  split; [|split].
  - rewrite El, En. destruct (_onTouchStart s) as [g|]; simpl.
    + exists (List.filter (fun x => negb (Nat.eqb x g)) gs). split.
      * rewrite Hl. apply filter_bound.
      * intros x Hx. apply Hlt. apply list_elem_of_In, List.filter_In in Hx as [Hx _].
        by apply list_elem_of_In.
    + by exists gs.
  - intros _. apply Ht.
  - rewrite Ec, Ea. by destruct (_onTouchStart s).
Qed.

Lemma thir_bound_handler e s :
  thir_bound_inv s /\ listeners s <> [] ->
  thir_bound_inv (handler e s) /\ listeners (handler e s) <> [].
Proof.
  intros (((gs & Hl & Hlt) & Hnone & Hc) & Hne).
  destruct (handler_fields e s) as (El & En & _).
  split; [|by rewrite El]. split; [|split].
  - exists gs. rewrite El. split; [done|]. intros g Hg. specialize (Hlt g Hg). lia.
  - by rewrite El.
  - revert Hc.
    unfold handler, _handleTouchStart, _handleTouchEnd, _handleTouchCancel, _clearTouchTimer.
    repeat case_bool_decide; destruct (_touchTimer s); simpl;
      try (destruct (_touchActive s) eqn:Ea; simpl); congruence.
Qed.

Lemma thir_bound_fire tm s : thir_bound_inv s -> thir_bound_inv (fire tm s).
Proof.
  intros (Hg & Hnone & Hc). unfold fire. destruct (Clock.tcb tm); simpl; done.
Qed.

Lemma thir_bound_step s e : thir_inv s -> thir_bound_inv s -> thir_bound_inv (step s e).
Proof.
  intros Hinv Hs. destruct e as [| |v|e|dt]; simpl.
  - unfold connectedCallback. case_bool_decide; [by apply thir_bound_init|done].
  - by apply thir_bound_cleanup.
  - unfold set_touch. destruct v; [apply thir_bound_init|apply thir_bound_cleanup]; done.
  - destruct (listeners s) eqn:E.
    + unfold dispatch. by rewrite E.
    + apply (thir_dispatch_ind (fun s' => thir_bound_inv s' /\ listeners s' <> [])).
      * apply thir_bound_handler.
      * split; [done|]. by rewrite E.
  - unfold advance.
    cut (thir_bound_inv (fire_due (length (pending s)) (now s + Z.max 0 dt) s)); [done|].
    apply thir_fire_due_ind; [|done|done].
    intros s' tm _ H _ _. by apply thir_bound_fire.
Qed.

Lemma thir_bound_run touch hover es : thir_bound_inv (run (init touch hover) es).
Proof.
  induction es as [|e es IH] using rev_ind.
  - split; [|done]. exists []. split; [done|]. by intros g H%elem_of_nil.
  - unfold run in *. rewrite foldl_app. simpl.
    apply thir_bound_step; [apply thir_run_inv|done].
Qed.

Lemma thir_unbind s a b :
  thir_bound_inv s ->
  listeners (_cleanupTouchSupport (_initTouchSupport (set_attrs a b s))) = listeners s.
Proof.
  intros ((gs & Hl & Hlt) & _).
  unfold _cleanupTouchSupport.
  match goal with |- listeners (_clearTouchTimer ?x) = _ =>
    destruct (clearTouchTimer_fields_thir x) as (_ & -> & _) end.
  unfold _initTouchSupport. simpl.
  rewrite List.filter_app. simpl. rewrite Nat.eqb_refl. simpl. rewrite app_nil_r.
  rewrite Hl, filter_bound, filter_fresh; done.
Qed.

Lemma cleanup_set_attrs a b s :
  listeners (_cleanupTouchSupport (set_attrs a b s)) = listeners (_cleanupTouchSupport s).
Proof.
  unfold _cleanupTouchSupport, _clearTouchTimer. simpl.
  destruct (_onTouchStart s); simpl; by destruct (_touchTimer s).
Qed.

End ThirListeners.

(** Binding and unbinding the touch listeners of [i-thir] is balanced:
    when [touch] is set and then removed, or set and the element then
    detached, the listeners of the element are those that it had. *)
Theorem thir_bind_unbind_balanced touch hover es v :
  let s := Thir.run (Thir.init touch hover) es in
  Thir.listeners (Thir.run s [Thir.SetTouch (Some v); Thir.SetTouch None]) = Thir.listeners s /\
  Thir.listeners (Thir.run s [Thir.SetTouch (Some v); Thir.Detach]) = Thir.listeners s.
Proof.
  intros s. pose proof (thir_bound_run touch hover es) as Hb. fold s in Hb.
  unfold Thir.run. cbn [foldl Thir.step]. unfold Thir.set_touch, Thir.disconnectedCallback.
  split; [rewrite cleanup_set_attrs|]; by apply thir_unbind.
Qed.

(** For [i-thir] the class [touch-active] follows the flag [_touchActive]
    at any time. *)
Theorem thir_class_tracks_flag touch hover es :
  Thir.class_active (Thir.run (Thir.init touch hover) es)
  = Thir._touchActive (Thir.run (Thir.init touch hover) es).
Proof. apply thir_bound_run. Qed.

Section ThirTaps.
Import Thir.

(** When a listener for [e] is registered, the dispatch ends with a run of
    the handler of [e]. *)
Lemma thir_dispatch_last (P : State -> Prop) e s :
  (forall s, P s -> P (handler e s)) -> P s ->
  (exists l, l ∈ listeners s /\ ev l = e) ->
  exists x, P x /\ dispatch e s = handler e x.
Proof.
  intros Hh. unfold dispatch. generalize (listeners s). intros ls. revert s.
  induction ls as [|l ls IH] using rev_ind; intros s Hs (l0 & Hin & He).
  { by apply elem_of_nil in Hin. }
  rewrite foldl_app. simpl. case_bool_decide as Hl.
  - exists (foldl (fun s l => if bool_decide (ev l = e) then handler e s else s) s ls).
    split; [|done]. clear IH Hin. revert s Hs.
    induction ls as [|y ls IH]; intros s Hs; simpl; [done|].
    apply IH. case_bool_decide; [by apply Hh|done].
  - apply IH; [done|]. exists l0. split; [|done].
    apply elem_of_app in Hin as [Hin| ->%list_elem_of_singleton]; [done|congruence].
Qed.

Lemma thir_dispatch_none e s :
  (forall l, l ∈ listeners s -> ev l <> e) -> dispatch e s = s.
Proof.
  unfold dispatch. generalize (listeners s). intros ls. revert s.
  induction ls as [|l ls IH]; intros s Hn; simpl; [done|].
  rewrite bool_decide_false by (apply Hn; by left).
  apply IH. intros y Hy. apply Hn. by right.
Qed.

Lemma thir_fire_pending tm s : pending (fire tm s) = Clock.remove (Clock.tid tm) (pending s).
Proof. unfold fire. by destruct (Clock.tcb tm). Qed.

Lemma thir_advance_fields dt s :
  let s' := fire_due (length (pending s)) (now s + Z.max 0 dt) s in
  pending (advance dt s) = pending s' /\ events (advance dt s) = events s' /\
  listeners (advance dt s) = listeners s' /\ _touchActive (advance dt s) = _touchActive s'.
Proof. done. Qed.

Lemma thir_fire_activations tm s :
  Clock.tcb tm <> Activate -> thir_activations (fire tm s) = thir_activations s.
Proof.
  intros Hne. unfold fire, run_callback. destruct (Clock.tcb tm); [done|].
  unfold _deactivateTouch, thir_activations. simpl.
  rewrite List.filter_app, length_app. simpl. lia.
Qed.

Lemma thir_advance_no_press dt s :
  thir_inv s ->
  (forall tm, tm ∈ pending s -> Clock.tcb tm = Activate -> now s + Z.max 0 dt < Clock.due tm) ->
  thir_activations (advance dt s) = thir_activations s /\
  listeners (advance dt s) = listeners s.
Proof.
  intros Hinv Hlate. destruct (thir_advance_fields dt s) as (_ & Ee & El & _).
  unfold thir_activations. rewrite Ee, El.
  set (t := now s + Z.max 0 dt) in *.
  cut (thir_activations (fire_due (length (pending s)) t s) = thir_activations s /\
       listeners (fire_due (length (pending s)) t s) = listeners s /\
       forall tm, tm ∈ pending (fire_due (length (pending s)) t s) -> tm ∈ pending s); [tauto|].
  apply (thir_fire_due_ind
    (fun s' => thir_activations s' = thir_activations s /\ listeners s' = listeners s /\
               forall tm, tm ∈ pending s' -> tm ∈ pending s) t); [|done|done].
  intros s' tm _ (Ha & El' & Hsub) Hin Hd. split; [|split].
  - rewrite thir_fire_activations; [done|]. intros Hcb.
    specialize (Hlate tm (Hsub tm Hin) Hcb). lia.
  - rewrite <- El'. unfold fire. by destruct (Clock.tcb tm).
  - intros tm'. rewrite thir_fire_pending. intros [H _]%elem_of_remove. by apply Hsub.
Qed.

Lemma thir_press_timers_spec s tm :
  tm ∈ press_timers s <-> tm ∈ pending s /\ Clock.tcb tm = Activate.
Proof.
  unfold press_timers. rewrite !list_elem_of_In, List.filter_In.
  by rewrite bool_decide_eq_true.
Qed.

Lemma thir_end_press s :
  thir_inv s -> press_timers (_handleTouchEnd s) = [] /\ events (_handleTouchEnd s) = events s.
Proof.
  intros Hinv. destruct (thir_clear_inv s Hinv) as ((_ & _ & Hpr & _) & Hnone & _).
  destruct (clearTouchTimer_fields_thir s) as (_ & _ & _ & _ & _ & He).
  assert (Hp : press_timers (_clearTouchTimer s) = []).
  { apply filter_none. intros tm Hin. apply bool_decide_false. intros Hcb.
    specialize (Hpr tm Hin Hcb). congruence. }
  unfold _handleTouchEnd. destruct (_touchActive (_clearTouchTimer s)); [|done].
  split; [|done]. unfold press_timers, setTimeout in *. simpl.
  rewrite List.filter_app, Hp. reflexivity.
Qed.

Lemma thir_bound_has e gs :
  gs <> [] -> e ∈ ["touchstart"; "touchend"; "touchcancel"] ->
  exists l, l ∈ flat_map thir_bound gs /\ ev l = e.
Proof.
  destruct gs as [|g gs]; [done|]. intros _ He.
  exists (mkListener e g). split; [|done]. simpl.
  rewrite !elem_of_cons in He. rewrite !elem_of_cons.
  destruct He as [->|[->|[->|He]]]; [tauto..|by apply elem_of_nil in He].
Qed.

End ThirTaps.

(** The same for the element's own listeners: a touch on an [i-thir]
    released before 300 ms dispatches no [thir:touch-active], whatever the
    element went through before. *)
Theorem thir_short_tap_never_activates touch hover es dt1 dt2 :
  dt1 < 300 ->
  let s := Thir.run (Thir.init touch hover) es in
  thir_activations
    (Thir.run s [Thir.Touch "touchstart"; Thir.Advance dt1;
                 Thir.Touch "touchend"; Thir.Advance dt2])
  = thir_activations s.
Proof.
  intros Hdt s. pose proof (thir_run_inv touch hover es) as Hinv.
  pose proof (thir_bound_run touch hover es) as ((gs & Hl & _) & Hnone & _).
  fold s in Hinv, Hl, Hnone.
  unfold Thir.run. cbn [foldl Thir.step].
  set (P := fun x => thir_inv x /\ Thir.now x = Thir.now s /\
                     Thir.events x = Thir.events s /\ Thir.listeners x = Thir.listeners s).
  destruct gs as [|g gs].
  - (* no listener: the touch events reach no handler *)
    simpl in Hl. specialize (Hnone Hl).
    rewrite (thir_dispatch_none "touchstart" s)
      by (rewrite Hl; by intros l H%elem_of_nil).
    destruct (thir_advance_no_press dt1 s Hinv) as [Ha1 El1].
    { intros tm Hin Hcb. destruct Hinv as (_ & _ & Hpr & _).
      specialize (Hpr tm Hin Hcb). congruence. }
    rewrite (thir_dispatch_none "touchend" (Thir.advance dt1 s))
      by (rewrite El1, Hl; by intros l H%elem_of_nil).
    pose proof (thir_step_inv s (Thir.Advance dt1) Hinv) as H2. cbn [Thir.step] in H2.
    assert (Ht : Thir._touchTimer (Thir.advance dt1 s) = None).
    { unfold Thir.advance. simpl.
      apply (thir_fire_due_ind (fun s' => Thir._touchTimer s' = None)); [|done|done].
      intros s' tm _ E _ _. unfold Thir.fire. by destruct (Clock.tcb tm). }
    destruct (thir_advance_no_press dt2 (Thir.advance dt1 s) H2) as [Ha2 _].
    { intros tm Hin Hcb. destruct H2 as (_ & _ & Hpr & _).
      specialize (Hpr tm Hin Hcb). congruence. }
    by rewrite Ha2, Ha1.
  - assert (Hgs : g :: gs <> []) by done.
    destruct (thir_dispatch_last P "touchstart" s) as (x & (Hx & Hxn & Hxe & Hxl) & ->).
    { intros y (Hy & Hyn & Hye & Hyl). destruct (thir_start_inv y Hy) as (Hy' & _).
      unfold P. change (Thir.handler "touchstart" y) with (Thir._handleTouchStart y).
      split; [done|]. rewrite <- Hyn, <- Hye, <- Hyl.
      unfold Thir._handleTouchStart, Thir._clearTouchTimer, Thir.setTimeout.
      by destruct (Thir._touchTimer y). }
    { done. }
    { rewrite Hl. apply thir_bound_has; [done|]. by left. }
    change (Thir.handler "touchstart" x) with (Thir._handleTouchStart x).
    destruct (thir_start_inv x Hx) as (H1 & Hp & _).
    set (s1 := Thir._handleTouchStart x) in *.
    assert (Hs1 : Thir.now s1 = Thir.now s /\ Thir.events s1 = Thir.events s /\
                  Thir.listeners s1 = Thir.listeners s).
    { rewrite <- Hxn, <- Hxe, <- Hxl. subst s1.
      unfold Thir._handleTouchStart, Thir._clearTouchTimer, Thir.setTimeout.
      by destruct (Thir._touchTimer x). }
    destruct Hs1 as (Hn1 & He1 & Hl1).
    destruct (thir_advance_no_press dt1 s1 H1) as [Ha1 El1].
    { intros tm Hin Hcb.
      assert (Htm : tm ∈ Thir.press_timers s1) by (by apply thir_press_timers_spec).
      rewrite Hp in Htm. apply list_elem_of_singleton in Htm. subst tm. cbn [Clock.due].
      rewrite Hn1, Hxn. lia. }
    set (s2 := Thir.advance dt1 s1) in *.
    pose proof (thir_step_inv s1 (Thir.Advance dt1) H1) as H2. cbn [Thir.step] in H2.
    fold s2 in H2.
    set (Q := fun x => thir_inv x /\ Thir.events x = Thir.events s2).
    destruct (thir_dispatch_last Q "touchend" s2) as (y & (Hy & Hye) & ->).
    { intros y (Hy & Hye). change (Thir.handler "touchend" y) with (Thir._handleTouchEnd y).
      split; [by apply thir_end_inv|]. destruct (thir_end_press y Hy) as [_ ->]. done. }
    { done. }
    { rewrite El1, Hl1, Hl. apply thir_bound_has; [done|]. right. by left. }
    change (Thir.handler "touchend" y) with (Thir._handleTouchEnd y).
    destruct (thir_end_press y Hy) as [Hp3 He3]. pose proof (thir_end_inv y Hy) as H3.
    destruct (thir_advance_no_press dt2 _ H3) as [Ha4 _].
    { intros tm Hin Hcb.
      assert (Htm : tm ∈ Thir.press_timers (Thir._handleTouchEnd y))
        by (by apply thir_press_timers_spec).
      rewrite Hp3 in Htm. by apply elem_of_nil in Htm. }
    rewrite Ha4. unfold thir_activations at 1. rewrite He3, Hye.
    fold (thir_activations s2). rewrite Ha1. unfold thir_activations. by rewrite He1.
Qed.

Lemma thir_short_tap_never_activates_witness :
  299 < 300 /\
  thir_activations
    (Thir.run (Thir.run thir_el [Thir.Attach])
       [Thir.Touch "touchstart"; Thir.Advance 299; Thir.Touch "touchend"; Thir.Advance 5000])
  = thir_activations (Thir.run thir_el [Thir.Attach]).
Proof.
  split; [reflexivity|].
  apply (thir_short_tap_never_activates (Some "") (Some "lift") [Thir.Attach] 299 5000).
  reflexivity.
Defined.

Section ThirLeak.
Import Thir.

Lemma thir_rebind_listeners s a b c d :
  thir_bound_inv s ->
  listeners (_cleanupTouchSupport
               (_initTouchSupport (set_attrs a b (_initTouchSupport (set_attrs c d s)))))
  = listeners s ++ thir_bound (next_id s).
Proof.
  intros ((gs & Hl & Hlt) & _).
  unfold _cleanupTouchSupport.
  match goal with |- listeners (_clearTouchTimer ?x) = _ =>
    destruct (clearTouchTimer_fields_thir x) as (_ & -> & _) end.
  unfold _initTouchSupport. simpl.
  rewrite !List.filter_app. simpl. rewrite Nat.eqb_refl. simpl. rewrite app_nil_r.
  rewrite (proj2 (Nat.eqb_neq (next_id s) (S (next_id s)))) by lia. simpl.
  rewrite Hl, filter_bound, filter_fresh; [done|].
  intros x Hx. specialize (Hlt x Hx). lia.
Qed.

End ThirLeak.

(** Setting [touch] again on an [i-thir] that has its listeners bound binds
    three more and loses the handle on the first three: after the detach
    the first three are still registered, and a touch on the detached
    element arms a press-confirmation timer. *)
Theorem thir_rebind_leaks touch hover es v w :
  let s := Thir.run (Thir.init touch hover) es in
  let s' := Thir.run s [Thir.SetTouch (Some v); Thir.SetTouch (Some w); Thir.Detach] in
  Thir.listeners s' = Thir.listeners s ++ thir_bound (Thir.next_id s) /\
  length (Thir.press_timers (Thir.run s' [Thir.Touch "touchstart"])) = 1%nat.
Proof.
  intros s s'. pose proof (thir_bound_run touch hover es) as Hb. fold s in Hb.
  assert (El : Thir.listeners s' = Thir.listeners s ++ thir_bound (Thir.next_id s)).
  { subst s'. unfold Thir.run. cbn [foldl Thir.step].
    unfold Thir.set_touch, Thir.disconnectedCallback. by apply thir_rebind_listeners. }
  split; [done|].
  assert (Hinv : thir_inv s').
  { subst s' s. unfold Thir.run. rewrite <- foldl_app. apply thir_run_inv. }
  unfold Thir.run. cbn [foldl Thir.step].
  destruct (thir_dispatch_last thir_inv "touchstart" s') as (x & Hx & ->).
  - intros y Hy. by apply thir_handler_inv.
  - done.
  - exists (Thir.mkListener "touchstart" (Thir.next_id s)). split; [|done].
    rewrite El. apply elem_of_app. right. by left.
  - change (Thir.handler "touchstart" x) with (Thir._handleTouchStart x).
    destruct (thir_start_inv x Hx) as (_ & -> & _). done.
Qed.

(** Both implementations name the same effect in [thir:touch-active] for
    the same attributes: the value of [touch] when it is there and neither
    empty nor [true]; otherwise the value of [hover], and [default] when
    that is missing or empty.  The effect is never empty. *)
Theorem touch_effect_agrees el s t :
  Touch.touch_attr s !! el = Thir.touch t -> Touch.hover_attr s !! el = Thir.hover t ->
  Touch.getTouchEffect el s = Thir._getTouchEffect t /\
  Thir._getTouchEffect t <> "" /\
  (forall v, Thir.touch t = Some v -> v <> "" -> v <> "true" ->
     Thir._getTouchEffect t = v) /\
  (Thir.touch t = None \/ Thir.touch t = Some "" \/ Thir.touch t = Some "true" ->
   Thir._getTouchEffect t = JS.or_default (Thir.hover t) "default") /\
  (forall w, Thir.hover t = Some w -> w <> "" -> JS.or_default (Thir.hover t) "default" = w) /\
  (Thir.hover t = None \/ Thir.hover t = Some "" ->
   JS.or_default (Thir.hover t) "default" = "default").
Proof.
  intros Et Eh. unfold Touch.getTouchEffect, Thir._getTouchEffect. rewrite Et, Eh.
  split; [done|]. split; [|split; [|split; [|split]]].
  - destruct (Thir.touch t) as [[|c r]|]; simpl;
      try case_bool_decide; simpl; try done;
      destruct (Thir.hover t) as [[|c' r']|]; done.
  - intros v -> Hv Ht. destruct v as [|c r]; [done|]. simpl.
    rewrite bool_decide_false by congruence. done.
  - intros [->|[->| ->]]; done.
  - intros w -> Hw. by destruct w.
  - by intros [->| ->].
Qed.

Lemma touch_effect_agrees_witness :
  Touch.touch_attr touch_page !! 1%nat = Thir.touch thir_el /\
  Touch.hover_attr touch_page !! 1%nat = Thir.hover thir_el /\
  Touch.getTouchEffect 1 touch_page = Thir._getTouchEffect thir_el.
Proof.
  split; [reflexivity|]. split; [reflexivity|].
  exact (proj1 (touch_effect_agrees 1%nat touch_page thir_el eq_refl eq_refl)).
Defined.

Section PrefetchParts.
Import Gil.

Lemma split_ws_no_space s : no_space s = true -> JS.split_ws s = [s].
Proof.
  unfold JS.split_ws, no_space. induction s as [|c r IH]; [done|]. simpl.
  intros [Hc Hr]%andb_true_iff. apply negb_true_iff in Hc. rewrite Hc.
  by rewrite (IH Hr).
Qed.

Lemma split_on_none sep t : JS.includes sep t = false -> JS.split_on sep t = [t].
Proof.
  induction t as [|c r IH]; [done|]. simpl.
  destruct (Ascii.eqb sep c) eqn:E; [done|]. intros Hr.
  rewrite Ascii.eqb_sym, E. by rewrite (IH Hr).
Qed.

Lemma split_on_app sep t r :
  JS.includes sep t = false ->
  JS.split_on sep (t +:+ String sep r) = t :: JS.split_on sep r.
Proof.
  induction t as [|c t IH]; simpl.
  - by rewrite Ascii.eqb_refl.
  - destruct (Ascii.eqb sep c) eqn:E; [done|]. intros Hr.
    rewrite Ascii.eqb_sym, E. by rewrite (IH Hr).
Qed.

Lemma includes_app sep t r : JS.includes sep (t +:+ String sep r) = true.
Proof.
  induction t as [|c t IH]; simpl; [by rewrite Ascii.eqb_refl|].
  by destruct (Ascii.eqb sep c).
Qed.

Lemma no_space_app s t : no_space (s +:+ t) = no_space s && no_space t.
Proof.
  unfold no_space. induction s as [|c s IH]; [done|]. simpl.
  by rewrite IH, andb_assoc.
Qed.

Lemma no_space_cons c r : no_space (String c r) = negb (JS.is_space c) && no_space r.
Proof. reflexivity. Qed.

Lemma or_default_app t c r d : JS.or_default (Some (t +:+ String c r)) d = t +:+ String c r.
Proof. by destruct t. Qed.

End PrefetchParts.

(** A resource value that contains a colon is cut at that colon: of
    [type:a:b] only [a] is read, since the part is split at every colon
    and only the first two pieces are used.  So [html:https://host/page]
    asks for the resource [https]. *)
Theorem parsePrefetch_second_colon t a b :
  no_space t = true -> no_space a = true -> no_space b = true ->
  JS.includes ":" t = false -> JS.includes ":" a = false ->
  Gil.parsePrefetch (Some (t +:+ ":" +:+ a +:+ ":" +:+ b))
  = (fun item => Gil.mkResource t (Some (JS.trim item))) <$> JS.split_on "," a.
Proof.
  intros Ht Ha Hb Ct Ca. unfold Gil.parsePrefetch.
  change (t +:+ ":" +:+ a +:+ ":" +:+ b) with (t +:+ String ":" (a +:+ String ":" b)).
  rewrite or_default_app, split_ws_no_space.
  - simpl. rewrite includes_app, split_on_app by done.
    rewrite split_on_app by done. by rewrite app_nil_r.
  - by rewrite no_space_app, no_space_cons, no_space_app, no_space_cons, Ht, Ha, Hb.
Qed.

Lemma parsePrefetch_second_colon_witness :
  no_space "html" = true /\ no_space "https" = true /\ no_space "//example.com/a" = true /\
  JS.includes ":" "html" = false /\ JS.includes ":" "https" = false /\
  Gil.parsePrefetch (Some "html:https://example.com/a") = [Gil.mkResource "html" (Some "https")].
Proof.
  repeat (split; [reflexivity|]).
  apply (parsePrefetch_second_colon "html" "https" "//example.com/a"); reflexivity.
Defined.

(** What the fetching code leaves alone, for projections that the
    scheduling code does change. *)
Module GilFetchFrame.
Import Gil.

Section Fetching.
Context {A : Type} (p : State -> A) `{!Fetch p}.

Lemma f_attempt r href s : p (attempt r href s).1.1 = p s.
Proof.
  unfold attempt, prefetchHTML, prefetchCSS, prefetchJS, prefetchIcons, prefetchJSON,
    prefetchImage, add_link, log_call.
  repeat case_match; simpl; by fetch.
Qed.

Lemma f_iteration r href s : p (iteration r href s).1 = p s.
Proof.
  unfold iteration. case_bool_decide; [done|].
  destruct (attempt r href _) as [[s' thrown] awaited] eqn:Ha.
  assert (Hs : p s' = p s).
  { change s' with (s', thrown, awaited).1.1. rewrite <- Ha, f_attempt. by fetch. }
  destruct thrown; simpl; [unfold warn_failed; by fetch | done].
Qed.

Lemma f_run_loop href rs s : p (run_loop href rs s) = p s.
Proof.
  revert s. induction rs as [|r rs IH]; intros s; simpl.
  - unfold dispatch_prefetched. by fetch.
  - destruct (iteration r href s) as [s' awaited] eqn:Hi.
    assert (Hs : p s' = p s) by (change s' with (s', awaited).1; by rewrite <- Hi, f_iteration).
    destruct awaited; [by fetch | by rewrite IH].
Qed.

Lemma f_doPrefetch s : p (doPrefetch s) = p s.
Proof. apply f_run_loop. Qed.

End Fetching.

#[global] Instance observer_fetch : Fetch observer.
Proof. split; [split|..]; reflexivity. Qed.
#[global] Instance observing_fetch : Fetch observing.
Proof. split; [split|..]; reflexivity. Qed.
#[global] Instance timers_fetch : Fetch timers.
Proof. split; [split|..]; reflexivity. Qed.
#[global] Instance hoverTimer_fetch : Fetch hoverTimer.
Proof. split; [split|..]; reflexivity. Qed.
#[global] Instance fired_fetch : Fetch fired.
Proof. split; [split|..]; reflexivity. Qed.
#[global] Instance listeners_fetch : Fetch listeners.
Proof. split; [split|..]; reflexivity. Qed.

End GilFetchFrame.

Section GilTriggers.
Import Gil GilFetchFrame.

Lemma on_entry_observer s b : observer (on_entry s b) = observer s.
Proof.
  unfold on_entry. destruct b; [|done].
  destruct (observer (doPrefetch s)); [unfold disconnect; simpl|];
    apply (f_doPrefetch observer).
Qed.

Lemma on_entry_observing s b o :
  observer s = Some o ->
  (o ∉ observing s -> o ∉ observing (on_entry s b)) /\
  (b = true -> o ∉ observing (on_entry s b)).
Proof.
  intros Ho. unfold on_entry. destruct b.
  - rewrite (f_doPrefetch observer s), Ho. unfold disconnect. simpl.
    rewrite elem_of_difference, elem_of_singleton. tauto.
  - split; [done|discriminate].
Qed.

Lemma on_entries_observing s entries o :
  observer s = Some o ->
  (o ∉ observing s \/ true ∈ entries) ->
  o ∉ observing (foldl on_entry s entries).
Proof.
  revert s. induction entries as [|b bs IH]; intros s Ho Hc; simpl.
  - destruct Hc as [H|H]; [done|by apply elem_of_nil in H].
  - apply IH; [by rewrite on_entry_observer|].
    destruct (on_entry_observing s b o Ho) as [H1 H2].
    destruct Hc as [H|H]; [left; by apply H1|].
    apply elem_of_cons in H as [<-|H]; [left; by apply H2|by right].
Qed.

Lemma on_entry_other s b o o' :
  observer s = Some o' -> o <> o' -> o ∈ observing s -> o ∈ observing (on_entry s b).
Proof.
  intros Ho Hne Hin. unfold on_entry. destruct b; [|done].
  rewrite (f_doPrefetch observer s), Ho. unfold disconnect. simpl.
  rewrite elem_of_difference, elem_of_singleton.
  split; [by rewrite (f_doPrefetch observing s)|done].
Qed.

Lemma on_entries_other s entries o o' :
  observer s = Some o' -> o <> o' -> o ∈ observing s ->
  o ∈ observing (foldl on_entry s entries).
Proof.
  revert s. induction entries as [|b bs IH]; intros s Ho Hne Hin; simpl; [done|].
  apply IH; [by rewrite on_entry_observer|done|by apply (on_entry_other s b o o')].
Qed.

Lemma on_entries_observer s entries : observer (foldl on_entry s entries) = observer s.
Proof.
  revert s. induction entries as [|b bs IH]; intros s; simpl; [done|].
  by rewrite IH, on_entry_observer.
Qed.

End GilTriggers.

(** The callback of the visible trigger disconnects [this.observer], not
    the observer that runs it.  When the observer in [this.observer]
    reports an intersecting entry it is disconnected, and no later report
    of it reaches the element.  An observer of an earlier set-up, which no
    field holds, stays connected whatever it reports, and its report
    disconnects the observer in [this.observer] instead.  The element that
    a page builds from [prefetch-on="visible"] has such an observer: it sets
    up once for the attribute and once when it is attached, and after an
    intersection the first observer is the one that is left; at every
    further intersection its callback runs again and the [prefetched]
    event is dispatched again, though nothing is fetched twice. *)
Theorem visible_trigger_disconnects_held_observer :
  (forall s o entries,
      Gil.observer s = Some o -> o ∈ Gil.observing s -> true ∈ entries ->
      let s' := Gil.step s (Gil.Intersect o entries) in
      (o ∉ Gil.observing s') /\
      (forall later, Gil.step s' (Gil.Intersect o later) = s')) /\
  (forall s o o' entries,
      Gil.observer s = Some o' -> o ∈ Gil.observing s -> o <> o' ->
      let s' := Gil.step s (Gil.Intersect o entries) in
      (o ∈ Gil.observing s') /\ Gil.observer s' = Some o' /\
      (true ∈ entries -> o' ∉ Gil.observing s')) /\
  (let s := Gil.run visible_markup [Gil.Attach] in
   Gil.observer s = Some 2%nat /\ Gil.observing s = {[ 1%nat; 2%nat ]} /\
   Gil.observing (Gil.run s [Gil.Intersect 1 [true]]) = {[ 1%nat ]} /\
   let again := Gil.run s [Gil.Intersect 1 [true]; Gil.Resume 0; Gil.Intersect 1 [true];
                           Gil.Intersect 1 [true]] in
   Gil.fired again = [Gil.FObserver 1; Gil.FObserver 1; Gil.FObserver 1] /\
   Gil.calls again = [Gil.mkCall "html" "/a" (Some "/a")] /\
   Gil.dispatched again = [["html:/a"]; ["html:/a"]; ["html:/a"]]).
Proof.
  split; [|split].
  - intros s o entries Ho Hin Ht s'.
    assert (H : o ∉ Gil.observing s').
    { subst s'. simpl. rewrite bool_decide_true by done.
      apply on_entries_observing; [done|by right]. }
    split; [done|]. intros later. simpl. by rewrite bool_decide_false.
  - intros s o o' entries Ho Hin Hne s'. subst s'. simpl.
    rewrite bool_decide_true by done. split; [|split].
    + by apply on_entries_other with (o' := o').
    + by rewrite on_entries_observer.
    + intros Ht. apply on_entries_observing; [done|by right].
  - vm_compute. repeat split; reflexivity.
Qed.

Lemma visible_trigger_disconnects_held_observer_witness :
  let s := Gil.run visible_markup [Gil.Attach] in
  Gil.observer s = Some 2%nat /\ 2%nat ∈ Gil.observing s /\ true ∈ [false; true] /\
  (2%nat ∉ Gil.observing (Gil.step s (Gil.Intersect 2 [false; true]))).
Proof.
  intros s.
  assert (H1 : Gil.observer s = Some 2%nat) by reflexivity.
  assert (H2 : 2%nat ∈ Gil.observing s)
    by (apply (bool_decide_unpack _); vm_compute; exact I).
  assert (H3 : true ∈ [false; true]) by (right; left).
  repeat (split; [done|]).
  exact (proj1 (proj1 visible_trigger_disconnects_held_observer s 2%nat [false; true]
                  H1 H2 H3)).
Defined.

Section GilInert.
Import Gil.

Lemma or_default_some v d : v <> "" -> JS.or_default (Some v) d = v.
Proof. by destruct v. Qed.

Lemma setupPrefetch_unknown v s :
  known_trigger v = false -> attrs s !! "prefetch-on" = Some v -> setupPrefetch s = s.
Proof.
  intros Hk Hv. unfold setupPrefetch, getAttribute. rewrite Hv.
  unfold known_trigger in Hk. apply bool_decide_eq_false in Hk.
  rewrite !elem_of_cons, elem_of_nil in Hk.
  rewrite or_default_some by tauto.
  rewrite !bool_decide_false by tauto. done.
Qed.

Lemma gil_inert_children v c s : gil_inert v s -> gil_inert v (set_children c s).
Proof. done. Qed.

Lemma gil_inert_step v s e :
  known_trigger v = false -> keeps_trigger e = true ->
  gil_inert v s -> gil_inert v (step s e).
Proof.
  intros Hk He Hs.
  pose proof Hs as (Hv & Hl & Ht & Hi & Ho & Hsu & Hh & Hob & Hc & _).
  destruct e as [| |k x|e|id| |o entries|i]; simpl.
  - unfold connectedCallback.
    assert (H1 : gil_inert v (syncAttributes (wrap_children s))).
    { unfold syncAttributes, wrap_children.
      destruct (anchor (children s)) eqn:Ea; simpl; rewrite ?Ea; simpl; done. }
    rewrite (setupPrefetch_unknown v); [done..|apply H1].
  - unfold disconnectedCallback, cleanup. by rewrite Hh, Hob, Hc.
  - simpl in He. apply negb_true_iff, bool_decide_eq_false in He.
    unfold set_attribute, attributeChangedCallback.
    rewrite (bool_decide_false (k = "prefetch-on")) by done.
    assert (H1 : gil_inert v (set_attrs
              match x with Some x0 => <[k:=x0]> (attrs s) | None => delete k (attrs s) end s)).
    { destruct Hs as (_ & Hrest). split; [|exact Hrest]. simpl.
      destruct x; [by rewrite lookup_insert_ne|by rewrite lookup_delete_ne]. }
    case_bool_decide; [|done]. destruct (_ && _); done.
  - unfold dispatch. by rewrite Hl.
  - rewrite Ht. by rewrite bool_decide_false by apply not_elem_of_nil.
  - by rewrite Hi.
  - rewrite Ho. by rewrite bool_decide_false by apply not_elem_of_empty.
  - unfold resume. by rewrite Hsu.
Qed.

End GilInert.

(** A [prefetch-on] value that the [switch] of [setupPrefetch] does not
    know switches prefetching off, when the element has it before its first
    set-up: from an element that was just created and is given that value,
    as long as the attribute keeps it, whatever else happens, no listener,
    timer, idle callback or observer is set up and no resource is ever
    fetched or recorded. *)
Theorem unknown_trigger_is_inert a c ric sel icons v es :
  known_trigger v = false ->
  forallb keeps_trigger es = true ->
  let s := Gil.run (Gil.init a c ric sel icons [])
             (Gil.SetAttribute "prefetch-on" (Some v) :: es) in
  Gil.listeners s = [] /\ Gil.timers s = [] /\ Gil.idle s = 0%nat /\
  Gil.observing s = ∅ /\ Gil.suspended s = [] /\
  Gil.hoverTimer s = None /\ Gil.observer s = None /\ Gil._cleanup s = None /\
  Gil.calls s = [] /\ Gil.prefetched s = [] /\ Gil.links s = [] /\ Gil.dispatched s = [].
Proof.
  intros Hk Hes s.
  cut (gil_inert v s). { intros (_ & H). exact H. }
  subst s. unfold Gil.run. cbn [foldl].
  set (s0 := Gil.step _ _).
  assert (H0 : gil_inert v s0).
  { subst s0. cbn [Gil.step]. unfold Gil.set_attribute.
    rewrite bool_decide_true
      by (unfold Gil.observedAttributes; rewrite !elem_of_cons; tauto).
    unfold Gil.attributeChangedCallback.
    rewrite (bool_decide_false ("prefetch-on" = "href")) by done.
    cbn [andb]. rewrite (bool_decide_true ("prefetch-on" = "prefetch-on")) by done.
    unfold Gil.cleanup. cbn.
    rewrite (setupPrefetch_unknown v); [|done|apply lookup_insert_eq].
    split; [apply lookup_insert_eq|]. by repeat split. }
  clearbody s0. induction es as [|e es IH] using rev_ind; [done|].
  rewrite forallb_app in Hes. apply andb_true_iff in Hes as [H1 H2].
  simpl in H2. apply andb_true_iff in H2 as [H2 _].
  rewrite foldl_app. simpl.
  by apply gil_inert_step; [| |apply IH].
Qed.

Lemma unknown_trigger_is_inert_witness :
  let es := [Gil.SetAttribute "href" (Some "/a"); Gil.Attach; Gil.Dispatch "mouseenter";
             Gil.Dispatch "touchstart"; Gil.SetAttribute "href" (Some "/b"); Gil.Idle] in
  known_trigger "click" = false /\
  forallb keeps_trigger es = true /\
  Gil.calls (Gil.run (Gil.init [] [Gil.Text "A"] true (fun _ => true) None [])
               (Gil.SetAttribute "prefetch-on" (Some "click") :: es)) = [].
Proof.
  intros es. repeat (split; [reflexivity|]).
  destruct (unknown_trigger_is_inert [] [Gil.Text "A"] true (fun _ => true) None "click" es
              eq_refl eq_refl) as (_ & _ & _ & _ & _ & _ & _ & _ & H & _).
  exact H.
Defined.

(** The value has to be there before the first set-up.  A link that was set
    up for hover and is then given an unknown value keeps its [touchstart]
    listener, which [_cleanup] does not remove, and a touch still
    prefetches. *)
Example unknown_trigger_after_hover :
  let s := Gil.run about_link [Gil.Attach; Gil.SetAttribute "prefetch-on" (Some "click")] in
  Gil.listeners s = [Gil.mkListener "touchstart" (Gil.OnTouch 1) false] /\
  Gil.calls (Gil.run s [Gil.Dispatch "touchstart"])
  = [Gil.mkCall "html" "/about" (Some "/about")].
Proof. vm_compute. split; reflexivity. Qed.

(** [hoverTimer] holds one timer.  Enter and leave cancel the timer that
    the enter started; but of two enters in a row (the pointer enters and
    the element takes focus) only the second timer can be cancelled: after
    the leave the first is still pending, and the prefetch runs when it
    elapses. *)
Theorem hover_timer_holds_one s e1 e2 e3 g d :
  let enter e s := Gil.run_callback e (Gil.OnEnter g d) s in
  let leave e s := Gil.run_callback e (Gil.OnLeave g) s in
  (Gil.hoverTimer (leave e2 (enter e1 s)) = None /\
   Gil.next_id s ∉ Gil.timers (leave e2 (enter e1 s))) /\
  (Gil.hoverTimer (leave e3 (enter e2 (enter e1 s))) = None /\
   Gil.next_id s ∈ Gil.timers (leave e3 (enter e2 (enter e1 s))) /\
   Gil.fired (Gil.step (leave e3 (enter e2 (enter e1 s))) (Gil.Timeout (Gil.next_id s)))
   = Gil.fired s ++ [Gil.FListener e1 (Gil.OnEnter g d); Gil.FListener e2 (Gil.OnEnter g d);
                     Gil.FListener e3 (Gil.OnLeave g); Gil.FTimer (Gil.next_id s)]).
Proof.
  intros enter leave.
  assert (H2 : Gil.next_id s ∈ Gil.timers (leave e3 (enter e2 (enter e1 s)))).
  { subst enter leave. unfold Gil.run_callback, Gil.setTimeout, Gil.fresh, Gil.clearTimeout.
    simpl. rewrite list_elem_of_In, List.filter_In, <- !list_elem_of_In. split.
    - rewrite !elem_of_app, !list_elem_of_singleton. tauto.
    - apply negb_true_iff, Nat.eqb_neq. lia. }
  split; [split|split; [|split]]; try done.
  - subst enter leave. unfold Gil.run_callback, Gil.setTimeout, Gil.fresh, Gil.clearTimeout.
    simpl. rewrite list_elem_of_In, List.filter_In. intros [_ H].
    by rewrite Nat.eqb_refl in H.
  - simpl. rewrite bool_decide_true by done.
    rewrite (GilFetchFrame.f_doPrefetch Gil.fired).
    subst enter leave. unfold Gil.run_callback, Gil.setTimeout, Gil.fresh, Gil.clearTimeout.
    simpl. by rewrite <- !app_assoc.
Qed.

Section AnchorAttributes.
Import Gil GilFrame.

Lemma anchor_of_map f n :
  match map_anchor f n with
  | Some n' => exists a, anchor_of n = Some a /\ anchor_of n' = Some (f a)
  | None => anchor_of n = None
  end.
Proof.
  induction n as [s|t a cs IH] using Node_induction; simpl; [done|].
  case_bool_decide as Ht.
  { simpl. rewrite bool_decide_true by done. by exists a. }
  match goal with |- context [_ <$> ?g cs] => set (go := g) end.
  match goal with |- context [match go cs with _ => _ end] => idtac | _ => idtac end.
  induction IH as [|c r Hc _ IHr]; simpl; [done|].
  destruct (map_anchor f c) as [c'|] eqn:Hm; simpl.
  - rewrite bool_decide_false by done.
    destruct Hc as (x & -> & Hx). exists x. by rewrite Hx.
  - rewrite Hc. destruct (go r) as [r'|] eqn:Hr; simpl in *.
    + rewrite bool_decide_false in IHr |- * by done. by rewrite Hc.
    + done.
Qed.

Lemma anchor_attrs_map f l :
  match map_first_anchor f l with
  | Some l' => exists a, anchor_attrs l = Some a /\ anchor_attrs l' = Some (f a)
  | None => anchor_attrs l = None
  end.
Proof.
  induction l as [|c r IH]; simpl; [done|].
  pose proof (anchor_of_map f c) as Hc.
  destruct (map_anchor f c) as [c'|]; simpl.
  - destruct Hc as (x & -> & Hx). exists x. by rewrite Hx.
  - rewrite Hc. destruct (map_first_anchor f r) as [r'|]; simpl; [by rewrite Hc|done].
Qed.

Lemma anchor_attrs_set k v l :
  anchor_attrs (set_anchor_attr k v l) = <[k := v]> <$> anchor_attrs l.
Proof.
  unfold set_anchor_attr. pose proof (anchor_attrs_map (insert k v) l) as H.
  destruct (map_first_anchor _ l) as [l'|]; simpl.
  - destruct H as (a & -> & ->). done.
  - by rewrite H.
Qed.

Lemma anchor_attrs_some l : anchor l = true -> is_Some (anchor_attrs l).
Proof.
  intros Ha. pose proof (anchor_attrs_map (fun x => x) l) as H.
  destruct (map_first_anchor _ l) as [l'|] eqn:E.
  - destruct H as (a & -> & _). by eexists.
  - exfalso. clear H. revert Ha E. unfold anchor.
    induction l as [|c r IH]; simpl; [done|].
    intros [Hc|Hr]%orb_true_iff.
    + assert (Hm : is_Some (map_anchor (fun x => x) c)).
      { clear IH. induction c as [s|t a cs IHc] using Node_induction; simpl in *; [done|].
        case_bool_decide; [by eexists|]. simpl in Hc.
        induction IHc as [|c' r' Hc' _ IHr']; simpl in *; [done|].
        apply orb_true_iff in Hc as [Hc|Hc].
        - destruct (Hc' Hc) as [x ->]. by eexists.
        - destruct (map_anchor _ c'); [by eexists|].
          destruct (IHr' Hc) as [x Hx]. 
          match type of Hx with _ <$> ?g = _ => destruct g; [by eexists|discriminate] end. }
      destruct Hm as [x ->]. discriminate.
    + destruct (map_anchor _ c); [discriminate|].
      destruct (map_first_anchor _ r); [discriminate|]. intros _. by apply IH.
Qed.

(** The copies of [syncAttributes], one name after the other. *)
Lemma copy_fold (host : gmap string string) names c m :
  anchor_attrs c = Some m ->
  exists m',
    anchor_attrs (foldl (fun c a => match host !! a with
                                    | Some v => set_anchor_attr a v c
                                    | None => c
                                    end) c names) = Some m' /\
    (forall a v, a ∈ names -> host !! a = Some v -> m' !! a = Some v) /\
    (forall b, b ∉ names -> m' !! b = m !! b).
Proof.
  revert c m. induction names as [|a names IH] using rev_ind; intros c m Hc.
  { exists m. split; [done|]. split; [by intros a v H%elem_of_nil|done]. }
  destruct (IH c m Hc) as (m1 & H1 & Hin & Hout). rewrite foldl_app. simpl.
  destruct (host !! a) as [v|] eqn:Ha.
  - exists (<[a := v]> m1). rewrite anchor_attrs_set, H1. split; [done|]. split.
    + intros b w Hb Hw. destruct (decide (b = a)) as [->|Hne].
      * rewrite lookup_insert_eq. congruence.
      * rewrite lookup_insert_ne by done. apply Hin; [|done].
        apply elem_of_app in Hb as [Hb|Hb%list_elem_of_singleton]; done.
    + intros b Hb. rewrite lookup_insert_ne.
      * apply Hout. intros H. apply Hb, elem_of_app. by left.
      * intros ->. apply Hb, elem_of_app. right. by left.
  - exists m1. split; [done|]. split.
    + intros b w Hb Hw. apply elem_of_app in Hb as [Hb|Hb%list_elem_of_singleton].
      * by apply Hin.
      * congruence.
    + intros b Hb. apply Hout. intros H. apply Hb, elem_of_app. by left.
Qed.

Lemma syncAttributes_children s :
  anchor (children s) = true ->
  children (syncAttributes s) =
  let c := foldl (fun c a => match attrs s !! a with
                             | Some v => set_anchor_attr a v c
                             | None => c
                             end) (children s) synced in
  match attrs s !! "link-class" with
  | Some v => set_anchor_attr "class" v c
  | None => c
  end.
Proof. intros H. unfold syncAttributes. rewrite H. reflexivity. Qed.

End AnchorAttributes.

(** After [connectedCallback] the inner anchor mirrors the host: it carries
    the host's [target], [rel], [download], [hreflang] and [type], its
    [class] is the host's [link-class], and an anchor that was created for
    the content points to the host's [href], or to [#] without one. *)
Theorem anchor_mirrors_host s :
  exists m,
    anchor_attrs (Gil.children (Gil.connectedCallback s)) = Some m /\
    (forall a v, a ∈ synced -> Gil.getAttribute s a = Some v -> m !! a = Some v) /\
    (forall v, Gil.getAttribute s "link-class" = Some v -> m !! "class" = Some v) /\
    (Gil.anchor (Gil.children s) = false ->
     m !! "href" = Some (JS.or_default (Gil.getAttribute s "href") "#")).
Proof.
  unfold Gil.connectedCallback.
  rewrite (GilFrame.p_setupPrefetch Gil.children).
  set (s1 := Gil.wrap_children s).
  assert (Ha : Gil.anchor (Gil.children s1) = true).
  { subst s1. rewrite wrap_children_cases.
    destruct (Gil.anchor (Gil.children s)) eqn:E; [exact E|].
    unfold Gil.anchor. simpl. by rewrite ?bool_decide_true. }
  assert (Hattrs : Gil.attrs s1 = Gil.attrs s).
  { subst s1. unfold Gil.wrap_children. destruct (Gil.anchor (Gil.children s)); reflexivity. }
  destruct (anchor_attrs_some _ Ha) as [m0 Hm0].
  assert (Hhref : Gil.anchor (Gil.children s) = false ->
                  m0 !! "href" = Some (JS.or_default (Gil.getAttribute s "href") "#")).
  { intros E. subst s1. rewrite wrap_children_cases, E in Hm0. simpl in Hm0.
    simplify_eq. apply lookup_singleton_eq. }
  rewrite (syncAttributes_children s1 Ha). cbv zeta.
  destruct (copy_fold (Gil.attrs s1) synced (Gil.children s1) m0 Hm0) as (m1 & H1 & Hin & Hout).
  assert (Hns : forall b, b ∉ synced <-> b <> "target" /\ b <> "rel" /\ b <> "download" /\
                                         b <> "hreflang" /\ b <> "type").
  { intros b. unfold synced. rewrite !elem_of_cons, elem_of_nil. tauto. }
  destruct (Gil.attrs s1 !! "link-class") as [v|] eqn:Hl.
  - exists (<["class" := v]> m1). rewrite anchor_attrs_set, H1.
    split; [done|]. split; [|split].
    + intros a w Hs Hw. rewrite lookup_insert_ne.
      * apply Hin; [done|]. by rewrite Hattrs.
      * intros <-. revert Hs. apply Hns. by repeat split.
    + intros w Hw. unfold Gil.getAttribute in Hw. rewrite <- Hattrs, Hl in Hw.
      simplify_eq. apply lookup_insert_eq.
    + intros E. rewrite lookup_insert_ne by done. rewrite Hout; [by apply Hhref|].
      apply Hns. by repeat split.
  - exists m1. split; [done|]. split; [|split].
    + intros a w Hs Hw. apply Hin; [done|]. by rewrite Hattrs.
    + intros w Hw. unfold Gil.getAttribute in Hw. rewrite <- Hattrs, Hl in Hw. done.
    + intros E. rewrite Hout; [by apply Hhref|]. apply Hns. by repeat split.
Qed.

Section HimSentinel.

Lemma size_le_1 {V} (m : gmap nat V) k0 :
  (forall k, is_Some (m !! k) -> k = k0) -> (size m <= 1)%nat.
Proof.
  intros H. destruct (m !! k0) as [v|] eqn:E.
  - assert (m = {[k0 := v]}) as ->; [|rewrite map_size_singleton; lia].
    apply map_eq. intros k. destruct (decide (k = k0)) as [->|Hne].
    + by rewrite lookup_singleton_eq.
    + rewrite lookup_singleton_ne by done. apply eq_None_not_Some. intros Hs.
      by apply H in Hs.
  - assert (m = ∅) as ->; [|rewrite map_size_empty; lia].
    apply map_eq. intros k. rewrite lookup_empty. apply eq_None_not_Some. intros Hs.
    pose proof (H k Hs) as ->. rewrite E in Hs. by destruct Hs.
Qed.

Lemma him_owned_sizes s :
  him_owned s -> (size (Him.sentinels s) <= 1)%nat /\ (size (Him.observing s) <= 1)%nat.
Proof.
  intros [Ho Hs]. split.
  - destruct (Him.sentinelEl s) as [e|] eqn:E.
    + apply (size_le_1 _ e). intros k Hk. specialize (Hs k Hk). congruence.
    + apply (size_le_1 _ 0%nat). intros k Hk. specialize (Hs k Hk). congruence.
  - destruct (Him.observer s) as [o|] eqn:E.
    + apply (size_le_1 _ o). intros k Hk. specialize (Ho k Hk). congruence.
    + apply (size_le_1 _ 0%nat). intros k Hk. specialize (Ho k Hk). congruence.
Qed.

Lemma him_paired_eq s s' :
  Him.observer s' = Him.observer s -> Him.sentinelEl s' = Him.sentinelEl s ->
  Him.observing s' = Him.observing s -> Him.sentinels s' = Him.sentinels s ->
  Him.parent s' = Him.parent s ->
  him_paired s -> him_paired s'.
Proof. intros E1 E2 E3 E4 E5 H. unfold him_paired. by rewrite E1, E2, E3, E4, E5. Qed.

Lemma him_cleanup_paired s : him_owned s -> him_paired (Him.cleanupSentinel s).
Proof.
  intros H. destruct (him_cleanup_owned s H) as (E1 & E2 & E3 & E4).
  split; [|split; [|by rewrite E1, E2]].
  - intros o e. by rewrite E3, lookup_empty.
  - intros e [x Hx]. by rewrite E4, lookup_empty in Hx.
Qed.

Lemma him_cleanup_env x :
  Him.host (Him.cleanupSentinel x) = Him.host x /\
  Him.has_IntersectionObserver (Him.cleanupSentinel x) = Him.has_IntersectionObserver x /\
  Him.parent (Him.cleanupSentinel x) = Him.parent x.
Proof.
  unfold Him.cleanupSentinel. destruct (Him.observer x); simpl; by destruct (Him.sentinelEl x).
Qed.

(** What a set-up leaves: nothing, or one sentinel and one observer on it;
    the sentinel is placed by [to], next to the element when the element
    has a parent. *)
Lemma him_setup_result s :
  him_owned s ->
  let s' := Him.setupSentinel s in
  Him.host s' = Him.host s /\ Him.has_IntersectionObserver s' = Him.has_IntersectionObserver s /\
  Him.parent s' = Him.parent s /\
  if Him.sentinel (Him.host s) && Him.has_IntersectionObserver s then
    exists e o,
      Him.sentinelEl s' = Some e /\ Him.observer s' = Some o /\
      Him.sentinels s' =
        (if Him.parent s
         then {[ e := if bool_decide (Him.to (Him.host s) = "bottom")
                      then Him.AfterEnd else Him.BeforeBegin ]}
         else ∅) /\
      Him.observing s' = {[ o := e ]}
  else
    Him.sentinelEl s' = None /\ Him.observer s' = None /\
    Him.sentinels s' = ∅ /\ Him.observing s' = ∅.
Proof.
  intros H s'. subst s'. unfold Him.setupSentinel.
  destruct (him_cleanup_owned s H) as (E1 & E2 & E3 & E4).
  destruct (him_cleanup_env s) as (Eh & Ei & Ep). rewrite Eh, Ei.
  destruct (Him.sentinel (Him.host s)), (Him.has_IntersectionObserver s); simpl;
    try done.
  split; [done|]. split; [done|]. split; [done|]. eexists _, _.
  unfold Him.insertAdjacentElement. simpl. rewrite Eh, E3, E4, Ep.
  repeat split; reflexivity.
Qed.

Lemma him_setup_paired s : him_owned s -> him_paired (Him.setupSentinel s).
Proof.
  intros H. destruct (him_setup_result s H) as (_ & _ & Ep & Hr).
  destruct (_ && _).
  - destruct Hr as (e & o & E1 & E2 & E3 & E4). split; [|split; [|by rewrite E1, E2]].
    + intros o' e'. rewrite E1, E4. by intros [-> ->]%lookup_singleton_Some.
    + intros e'. rewrite E3, Ep. destruct (Him.parent s); [done|].
      intros [x Hx]. by rewrite lookup_empty in Hx.
  - destruct Hr as (E1 & E2 & E3 & E4). split; [|split; [|by rewrite E1, E2]].
    + intros o e. by rewrite E4, lookup_empty.
    + intros e [x Hx]. by rewrite E3, lookup_empty in Hx.
Qed.

Lemma him_callback_paired entries s :
  him_paired s -> him_paired (Him.observer_callback entries s).
Proof.
  unfold Him.observer_callback. revert s.
  induction entries as [|b bs IH]; intros s Hs; simpl; [done|].
  apply IH. revert Hs. by apply him_paired_eq.
Qed.

Lemma him_render_paired s : him_owned s -> him_paired s -> him_paired (Him.render s).
Proof.
  intros Ho H. unfold Him.render.
  destruct (Him.render_style (Him.host s) (Him.doc s)) as [h d].
  destruct (Him.sentinel _).
  - revert H. by apply him_paired_eq.
  - apply him_cleanup_paired. revert Ho. by apply him_owned_eq.
Qed.

Lemma him_step_paired s e : him_owned s -> him_paired s -> him_paired (Him.step s e).
Proof.
  intros Ho H. destruct e as [| |k v| |o entries|]; simpl;
    [| | | | |by apply him_cleanup_paired].
  - unfold Him.connectedCallback. apply him_render_paired.
    + revert Ho. by apply him_owned_eq.
    + destruct H as (H1 & _ & H3). split; [exact H1|]. split; [done|exact H3].
  - unfold Him.disconnectedCallback. apply him_cleanup_paired.
    revert Ho. by apply him_owned_eq.
  - apply him_render_paired.
    + revert Ho. by apply him_owned_eq.
    + revert H. by apply him_paired_eq.
  - assert (H0 : him_owned (Him.with_frames 0 s)) by (revert Ho; by apply him_owned_eq).
    assert (H1 : him_paired (Him.with_frames 0 s)) by (revert H; by apply him_paired_eq).
    destruct (Him.frames s) as [|n]; [done|]. simpl.
    apply him_setup_paired.
    clear H1. induction n as [|n IH]; simpl; [done|]. by apply him_setup_owned.
  - case_bool_decide; [by apply him_callback_paired|done].
Qed.

Lemma him_run_paired h io d es : him_paired (Him.run (Him.init h io d) es).
Proof.
  induction es as [|e es IH] using rev_ind.
  - split; [|split; [|done]].
    + intros o e. simpl. by rewrite lookup_empty.
    + intros e [x Hx]. simpl in Hx. by rewrite lookup_empty in Hx.
  - unfold Him.run in *. rewrite foldl_app. simpl.
    apply him_step_paired; [apply him_run_owned|done].
Qed.

Lemma him_cleanup_io x :
  Him.has_IntersectionObserver (Him.cleanupSentinel x) = Him.has_IntersectionObserver x.
Proof. apply him_cleanup_env. Qed.

Lemma him_render_io x :
  Him.has_IntersectionObserver (Him.render x) = Him.has_IntersectionObserver x.
Proof.
  unfold Him.render.
  destruct (Him.render_style _ _), (Him.sentinel _); simpl; [done|].
  by rewrite him_cleanup_io.
Qed.

Lemma him_step_io x e :
  Him.has_IntersectionObserver (Him.step x e) = Him.has_IntersectionObserver x.
Proof.
  destruct e as [| |k v| |o entries|]; simpl;
    [| | | | |unfold Him.disconnectedCallback; by rewrite him_cleanup_io].
  - unfold Him.connectedCallback. by rewrite him_render_io.
  - unfold Him.disconnectedCallback. by rewrite him_cleanup_io.
  - by rewrite him_render_io.
  - generalize (Him.frames x). intros n. induction n as [|n IHn]; [done|].
    simpl. unfold Him.setupSentinel at 1.
    set (y := Nat.iter n Him.setupSentinel (Him.with_frames 0 x)) in *.
    pose proof (him_cleanup_io y) as E.
    destruct (_ || _); simpl; by rewrite E.
  - destruct (bool_decide _); [|done]. unfold Him.observer_callback.
    revert x. induction entries as [|b bs IHb]; intros x; simpl; [done|].
    by rewrite IHb.
Qed.

End HimSentinel.

(** An [i-him] element never has more than one sentinel next to it nor more
    than one connected observer, whatever the sequence of renders,
    animation frames, attach and detach.  A connected observer is the one
    in [this.observer] and watches the sentinel in [this.sentinelEl]; a
    sentinel next to the element is the one in [this.sentinelEl], and there
    is one only while the element has a parent, so removing the element
    leaves none behind; and the two fields are null together. *)
Theorem him_one_sentinel h io d es :
  let s := Him.run (Him.init h io d) es in
  (size (Him.sentinels s) <= 1)%nat /\ (size (Him.observing s) <= 1)%nat /\
  (forall o e, Him.observing s !! o = Some e ->
     Him.observer s = Some o /\ Him.sentinelEl s = Some e) /\
  (forall e, is_Some (Him.sentinels s !! e) ->
     Him.sentinelEl s = Some e /\ Him.parent s = true) /\
  (Him.observer s = None <-> Him.sentinelEl s = None).
Proof.
  intros s. pose proof (him_run_owned h io d es) as Ho.
  pose proof (him_run_paired h io d es) as (Hp & Hq & Hn). fold s in Ho, Hp, Hq, Hn.
  destruct (him_owned_sizes s Ho) as [S1 S2]. split; [done|]. split; [done|].
  destruct Ho as [Ho Hs].
  split; [|split; [|done]].
  - intros o e Hoe. split; [|by apply (Hp o e)]. apply Ho. by eexists.
  - intros e He. split; [by apply Hs|by apply (Hq e)].
Qed.

(** The animation frame that a render asked for brings sentinel and
    observer in line with the attributes.  With [sentinel] set and
    IntersectionObserver present there is one new sentinel and exactly one
    observer, which watches it; the sentinel is next to the element, after
    it when [to] is [bottom] and before it otherwise, if the element has a
    parent at that time, and in no tree if the element was removed from its
    parent before the frame.  Without the attribute or without
    IntersectionObserver there is neither sentinel nor observer. *)
Theorem him_frame_sets_sentinel h io d es :
  let s := Him.run (Him.init h io d) es in
  Him.frames s <> 0%nat ->
  let s' := Him.step s Him.Frame in
  if Him.sentinel (Him.host s) && io then
    exists e o,
      Him.sentinelEl s' = Some e /\ Him.observer s' = Some o /\
      Him.sentinels s' =
        (if Him.parent s
         then {[ e := if bool_decide (Him.to (Him.host s) = "bottom")
                      then Him.AfterEnd else Him.BeforeBegin ]}
         else ∅) /\
      Him.observing s' = {[ o := e ]}
  else
    Him.sentinelEl s' = None /\ Him.observer s' = None /\
    Him.sentinels s' = ∅ /\ Him.observing s' = ∅.
Proof.
  assert (Hio : Him.has_IntersectionObserver (Him.run (Him.init h io d) es) = io).
  { induction es as [|e es IH] using rev_ind; [done|].
    unfold Him.run in *. rewrite foldl_app. simpl. by rewrite him_step_io. }
  intros s Hf s'. pose proof (him_run_owned h io d es) as Ho. fold s in Ho, Hio.
  subst s'. simpl. destruct (Him.frames s) as [|n]; [done|]. simpl.
  set (y := Nat.iter n Him.setupSentinel (Him.with_frames 0 s)).
  assert (Hy : him_owned y /\ Him.host y = Him.host s /\
               Him.has_IntersectionObserver y = io /\ Him.parent y = Him.parent s).
  { subst y. clear Hf. induction n as [|n IH]; simpl.
    - split; [revert Ho; by apply him_owned_eq|done].
    - destruct IH as (I1 & I2 & I3 & I4).
      destruct (him_setup_result _ I1) as (E1 & E2 & E3 & _).
      split; [by apply him_setup_owned|]. by rewrite E1, E2, E3. }
  destruct Hy as (I1 & I2 & I3 & I4).
  destruct (him_setup_result y I1) as (_ & _ & _ & Hr). rewrite I2, I3, I4 in Hr. exact Hr.
Qed.

Lemma him_frame_sets_sentinel_witness :
  let es := [Him.SetAttribute "sentinel" (Some ""); Him.Attach] in
  let s := Him.run (Him.init (host_of []) true empty_document) es in
  Him.frames s <> 0%nat /\
  exists e o, Him.sentinelEl (Him.step s Him.Frame) = Some e /\
              Him.observer (Him.step s Him.Frame) = Some o /\
              Him.sentinels (Him.step s Him.Frame) = {[ e := Him.BeforeBegin ]} /\
              Him.observing (Him.step s Him.Frame) = {[ o := e ]}.
Proof.
  intros es s. assert (Hf : Him.frames s <> 0%nat) by (vm_compute; discriminate).
  split; [exact Hf|].
  exact (him_frame_sets_sentinel (host_of []) true empty_document es Hf).
Defined.

(** A frame that runs after the element was removed from its parent: the
    sentinel is made and watched, but it sits next to nothing.  When the
    element left the document with its parent, the sentinel is put next to
    it there. *)
Example him_frame_after_detach :
  let s := Him.run sticky_markup [Him.Attach; Him.Detach; Him.Frame] in
  let t := Him.run sticky_markup [Him.Attach; Him.DetachAbove; Him.Frame] in
  (Him.sentinelEl s = Some 3%nat /\ Him.observing s = {[ 4%nat := 3%nat ]} /\
   Him.sentinels s = ∅) /\
  (Him.sentinelEl t = Some 3%nat /\ Him.observing t = {[ 4%nat := 3%nat ]} /\
   Him.sentinels t = {[ 3%nat := Him.BeforeBegin ]}).
Proof. vm_compute. repeat split; reflexivity. Qed.

Section ReelObservers.
Import GlanTholl.

Local Ltac sets :=
  apply set_eq; intros ?;
  rewrite ?elem_of_difference, ?elem_of_union, ?elem_of_singleton, ?elem_of_empty;
  rewrite ?elem_of_union, ?elem_of_singleton, ?elem_of_empty; tauto.

Lemma glan_tholl_regular_eq c s s' :
  resizeObserver s' = resizeObserver s -> mutationObserver s' = mutationObserver s ->
  observing s' = observing s -> has_ResizeObserver s' = has_ResizeObserver s ->
  has_MutationObserver s' = has_MutationObserver s ->
  glan_tholl_regular c s -> glan_tholl_regular c s'.
Proof.
  intros E1 E2 E3 E4 E5. unfold glan_tholl_regular, glan_tholl_held.
  by rewrite E1, E2, E3, E4, E5.
Qed.

Lemma glan_tholl_render_obs s :
  resizeObserver (render s) = resizeObserver s /\
  mutationObserver (render s) = mutationObserver s /\
  observing (render s) = observing s /\
  has_ResizeObserver (render s) = has_ResizeObserver s /\
  has_MutationObserver (render s) = has_MutationObserver s.
Proof. unfold render. by destruct (render_style _ _). Qed.

Lemma glan_tholl_attach s :
  glan_tholl_regular false s -> glan_tholl_regular true (connectedCallback s).
Proof.
  intros (Hr & Hm & Ho). unfold connectedCallback.
  destruct (glan_tholl_render_obs s) as (E1 & E2 & E3 & E4 & E5).
  revert E1 E2 E3 E4 E5. generalize (render s). intros x E1 E2 E3 E4 E5.
  rewrite <- E1, <- E4 in Hr. rewrite <- E2, <- E5 in Hm. rewrite <- E3 in Ho.
  clear E1 E2 E3 E4 E5 s.
  unfold setupObservers, glan_tholl_regular, glan_tholl_held.
  destruct (has_ResizeObserver x) eqn:Ero, (has_MutationObserver x) eqn:Emo; simpl;
    rewrite ?Ero, ?Emo; simpl; rewrite ?Ero, ?Emo, ?Ho, ?Hr, ?Hm by done; simpl;
    (split; [done|]); (split; [done|]); (split; [sets|]); split; by eauto.
Qed.

Lemma glan_tholl_detach s :
  glan_tholl_regular true s -> glan_tholl_regular false (disconnectedCallback s).
Proof.
  intros (Hr & Hm & Ho & _). unfold disconnectedCallback, disconnect, glan_tholl_regular.
  unfold glan_tholl_held in Ho.
  destruct (resizeObserver s) as [r|] eqn:Er; simpl; rewrite ?Er;
    destruct (mutationObserver s) as [m|] eqn:Em; simpl; rewrite ?Er, ?Em;
    (split; [done|]); (split; [done|]); rewrite Ho; simpl; sets.
Qed.

Lemma glan_tholl_regular_run es :
  forall c c' s,
    glan_tholl_regular c s -> glan_tholl_lifecycle c es = Some c' ->
    glan_tholl_regular c' (run s es).
Proof.
  induction es as [|e es IH]; intros c c' s Hs Hl; simpl in *; [by simplify_eq|].
  destruct e as [| |k v|sw cw|o]; simpl.
  - destruct c; [done|]. apply (IH true); [by apply glan_tholl_attach|done].
  - destruct c; [|done]. apply (IH false); [by apply glan_tholl_detach|done].
  - apply (IH c); [|done]. destruct (glan_tholl_render_obs (set_attribute k v s))
      as (E1 & E2 & E3 & E4 & E5).
    revert Hs. by apply glan_tholl_regular_eq.
  - apply (IH c); [|done]. revert Hs. by apply glan_tholl_regular_eq.
  - apply (IH c); [|done]. case_bool_decide; [|done].
    revert Hs. by apply glan_tholl_regular_eq.
Qed.

Lemma glan_tholl_step_env x e :
  has_ResizeObserver (step x e) = has_ResizeObserver x /\
  has_MutationObserver (step x e) = has_MutationObserver x.
Proof.
  destruct e as [| |k v|sw' cw'|o]; cbn [step].
  - unfold connectedCallback.
    destruct (glan_tholl_render_obs x) as (_ & _ & _ & E1 & E2).
    rewrite <- E1, <- E2. generalize (render x). intros y. unfold setupObservers.
    destruct (has_ResizeObserver y) eqn:H1; simpl;
      destruct (has_MutationObserver y) eqn:H2; simpl; rewrite ?H1, ?H2; simpl;
      rewrite ?H2; done.
  - unfold disconnectedCallback, disconnect.
    destruct (resizeObserver x); simpl; destruct (mutationObserver x); done.
  - by destruct (glan_tholl_render_obs (set_attribute k v x)) as (_ & _ & _ & -> & ->).
  - done.
  - by destruct (bool_decide _).
Qed.

End ReelObservers.

(** When attach and detach of an [i-glan-tholl] alternate, the observers
    follow the life cycle: while the element is connected, the connected
    observers are exactly those in [resizeObserver] and
    [mutationObserver], one for each observer type that the environment
    has; after a detach no observer is connected, so none is left behind
    by a re-attach. *)
Theorem reel_observers_follow_lifecycle h ro mo sw cw d es c :
  glan_tholl_lifecycle false es = Some c ->
  let s := GlanTholl.run (GlanTholl.init h ro mo sw cw d) es in
  if c then
    GlanTholl.observing s = glan_tholl_held s /\
    (ro = true -> is_Some (GlanTholl.resizeObserver s)) /\
    (mo = true -> is_Some (GlanTholl.mutationObserver s))
  else GlanTholl.observing s = ∅.
Proof.
  intros Hl s.
  assert (Hro : GlanTholl.has_ResizeObserver s = ro /\ GlanTholl.has_MutationObserver s = mo).
  { subst s. clear Hl. induction es as [|e es IH] using rev_ind; [done|].
    unfold GlanTholl.run in *. rewrite foldl_app. simpl.
    destruct (glan_tholl_step_env (foldl GlanTholl.step (GlanTholl.init h ro mo sw cw d) es) e)
      as [-> ->]. exact IH. }
  assert (H : glan_tholl_regular c s).
  { subst s. apply (glan_tholl_regular_run es false); [|done]. by repeat split. }
  destruct Hro as [E1 E2].
  destruct H as (_ & _ & H). destruct c; [|done]. by rewrite E1, E2 in H.
Qed.

Lemma reel_observers_follow_lifecycle_witness :
  let es := [GlanTholl.Attach; GlanTholl.Layout 500 300; GlanTholl.Detach;
             GlanTholl.Attach; GlanTholl.Detach] in
  glan_tholl_lifecycle false es = Some false /\
  GlanTholl.observing
    (GlanTholl.run (GlanTholl.init (host_of []) true true 500 300 empty_document) es) = ∅.
Proof.
  intros es. split; [reflexivity|].
  exact (reel_observers_follow_lifecycle (host_of []) true true 500 300 empty_document
           es false eq_refl).
Defined.

Section Decimal.

Lemma horner_pos l a : horner (Z.pos a) l = Z.pos (Pos.of_uint_acc l a).
Proof.
  revert a. induction l; intros a; simpl; [done|..];
    match goal with |- horner ?x _ = Z.pos (Pos.of_uint_acc _ ?y) =>
      replace x with (Z.pos y) by lia end; apply IHl.
Qed.

Lemma horner_of_uint u : horner 0 u = Z.of_N (Pos.of_uint u).
Proof.
  induction u; simpl; [done|exact IHu|..]; apply horner_pos.
Qed.

Lemma digits_decimal acc u :
  JS.digits 10 acc (NilEmpty.string_of_uint u)
  = match u with
    | Decimal.Nil => acc
    | _ => Some (horner (default 0 acc) u)
    end.
Proof.
  revert acc. induction u; intros acc; [done|..];
    cbn [NilEmpty.string_of_uint JS.digits];
    match goal with |- context [JS.digit_val ?c] =>
      let v := eval vm_compute in (JS.digit_val c) in
      change (JS.digit_val c) with v end;
    cbn match; change (_ <? 10) with true; cbn match;
    rewrite IHu; cbn [horner default]; by destruct u.
Qed.

Lemma parseInt_digit_start c r :
  JS.is_digit c = true ->
  JS.parseInt (String c r) (Some 10)
  = match JS.digits 10 None (String c r) with
    | Some n => JS.to_double (1 * n)
    | None => JS.NaN
    end /\
  JS.parseInt (String "-" (String c r)) (Some 10)
  = match JS.digits 10 None (String c r) with
    | Some n => JS.to_double (-1 * n)
    | None => JS.NaN
    end.
Proof.
  intros Hc.
  destruct c as [[] [] [] [] [] [] [] []]; try discriminate Hc; split; reflexivity.
Qed.

Lemma decimal_first u :
  u <> Decimal.Nil ->
  exists c r, NilEmpty.string_of_uint u = String c r /\ JS.is_digit c = true.
Proof. destruct u; [done|..]; intros _; eexists _, _; split; reflexivity. Qed.

Lemma parseInt_decimal u :
  u <> Decimal.Nil ->
  JS.parseInt (NilEmpty.string_of_uint u) (Some 10) = JS.to_double (horner 0 u) /\
  JS.parseInt (String "-" (NilEmpty.string_of_uint u)) (Some 10)
  = JS.to_double (- horner 0 u).
Proof.
  intros Hu. destruct (decimal_first u Hu) as (c & r & E & Hc).
  pose proof (digits_decimal None u) as Hd. rewrite E in *.
  destruct (parseInt_digit_start c r Hc) as [-> ->]. rewrite Hd.
  destruct u; [done|..]; cbn [default]; split; f_equal; lia.
Qed.

(** An integer below [2 ^ 53] in size is a double. *)
Lemma to_double_small z : Z.abs z < 2 ^ 53 -> JS.to_double z = JS.Int z.
Proof. intros Hz. unfold JS.to_double. by rewrite (proj2 (Z.ltb_lt _ _) Hz). Qed.

Lemma num_to_string_small z :
  Z.abs z < 2 ^ 53 -> JS.num_to_string (JS.Int z) = JS.decimal z.
Proof. intros Hz. unfold JS.num_to_string. by rewrite (proj2 (Z.ltb_lt _ _) Hz). Qed.

(** Reading a decimal numeral with [parseInt(_, 10)] gives the double
    nearest to the integer that it denotes. *)
Lemma parseInt_of_decimal z : JS.parseInt (JS.decimal z) (Some 10) = JS.to_double z.
Proof.
  unfold JS.decimal. destruct z as [|p|p]; [reflexivity|..]; simpl.
  - pose proof (DecimalPos.Unsigned.to_uint_nonnil p) as Hn.
    destruct (parseInt_decimal _ Hn) as [H _].
    unfold NilZero.string_of_uint. destruct (Pos.to_uint p) eqn:E; [done|..];
      rewrite H, horner_of_uint, <- E, DecimalPos.Unsigned.of_to; reflexivity.
  - pose proof (DecimalPos.Unsigned.to_uint_nonnil p) as Hn.
    destruct (parseInt_decimal _ Hn) as [_ H].
    unfold NilZero.string_of_uint. destruct (Pos.to_uint p) eqn:E; [done|..];
      rewrite H, horner_of_uint, <- E, DecimalPos.Unsigned.of_to; reflexivity.
Qed.

(** Printing an integer below [2 ^ 53] in size and reading it back with
    [parseInt(_, 10)]. *)
Lemma parseInt_num_to_string z :
  Z.abs z < 2 ^ 53 ->
  JS.parseInt (JS.num_to_string (JS.Int z)) (Some 10) = JS.Int z.
Proof.
  intros Hz. by rewrite num_to_string_small, parseInt_of_decimal, to_double_small.
Qed.

End Decimal.

Section Setters.

Lemma decimal_nonempty z : JS.truthy_str (Some (JS.decimal z)) = true.
Proof.
  unfold JS.decimal. destruct z as [|p|p]; try reflexivity; simpl.
  pose proof (DecimalPos.Unsigned.to_uint_nonnil p) as Hn.
  unfold NilZero.string_of_uint. by destruct (Pos.to_uint p).
Qed.

Lemma hath_splitAfter_attr v h :
  attrs h !! "split-after" = Some v -> JS.truthy_str (Some v) = true ->
  Hath.splitAfter h = Some (JS.parseInt v (Some 10)).
Proof. intros E Hv. unfold Hath.splitAfter, getAttribute. by rewrite E, Hv. Qed.

Lemma hath_render_attrs h d : attrs (Hath.render h d).1 = attrs h.
Proof. apply (render_attrs hath). Qed.

Lemma gwistindor_render_attrs h d : attrs (Gwistindor.render h d).1 = attrs h.
Proof. apply (render_attrs gwistindor). Qed.

(** What the getters read after a setter wrote the text [v] of a truthy
    number. *)
Lemma hath_set_then_get val h d :
  JS.truthy_num val = true -> JS.truthy_str (Some (JS.num_to_string val)) = true ->
  Hath.splitAfter (HathSet.splitAfter val h d).1
  = Some (JS.parseInt (JS.num_to_string val) (Some 10)).
Proof.
  intros Hv Hs. unfold HathSet.splitAfter. rewrite Hv.
  apply hath_splitAfter_attr; [|done].
  rewrite hath_render_attrs. simpl. apply lookup_insert_eq.
Qed.

Lemma gwistindor_set_then_get val h d :
  Gwistindor.limit (GwistindorSet.limit val h d).1
  = JS.num_or (JS.parseInt (JS.num_to_string val) (Some 10)) 4.
Proof.
  unfold GwistindorSet.limit, Gwistindor.limit, getAttribute.
  rewrite gwistindor_render_attrs. unfold setAttribute. cbn [attrs].
  by rewrite lookup_insert_eq.
Qed.

End Setters.

(** The numeric setters and getters agree through the attribute for the
    integers that print as themselves, those below [2 ^ 53] in size.
    Setting [splitAfter] of a stack to such an integer, other than [0],
    and reading it gives that integer back, also a negative one; setting
    it to [0] or [NaN] removes the attribute and the getter returns [null].
    Setting [limit] of a switcher to such an integer and reading it gives
    that integer back; [0] and [NaN] read back as the default [4].  Beyond
    that the text of the number is read back as another number: [1e21] is
    written as [1e+21] and read as [1], and an infinity is written as
    [Infinity] and read as [NaN], which the [limit] getter turns into
    [4]. *)
Theorem numeric_setters_round_trip :
  (forall z h d,
      Z.abs z < 2 ^ 53 ->
      Hath.splitAfter (HathSet.splitAfter (JS.Int z) h d).1
      = if z =? 0 then None else Some (JS.Int z)) /\
  (forall h d, Hath.splitAfter (HathSet.splitAfter JS.NaN h d).1 = None) /\
  (forall z h d,
      Z.abs z < 2 ^ 53 ->
      Gwistindor.limit (GwistindorSet.limit (JS.Int z) h d).1
      = if z =? 0 then JS.Int 4 else JS.Int z) /\
  (forall h d, Gwistindor.limit (GwistindorSet.limit JS.NaN h d).1 = JS.Int 4) /\
  (forall h d,
      Hath.splitAfter (HathSet.splitAfter (JS.Int (10 ^ 21)) h d).1 = Some (JS.Int 1) /\
      Gwistindor.limit (GwistindorSet.limit (JS.Int (10 ^ 21)) h d).1 = JS.Int 1) /\
  (forall negative h d,
      Hath.splitAfter (HathSet.splitAfter (JS.Infinity negative) h d).1 = Some JS.NaN /\
      Gwistindor.limit (GwistindorSet.limit (JS.Infinity negative) h d).1 = JS.Int 4).
Proof.
  assert (Hrm : forall h d v,
    JS.truthy_num v = false -> Hath.splitAfter (HathSet.splitAfter v h d).1 = None).
  { intros h d v Hv. unfold HathSet.splitAfter. rewrite Hv.
    unfold hasAttribute. case_bool_decide as Ha.
    - unfold Hath.splitAfter, getAttribute.
      rewrite hath_render_attrs. simpl. by rewrite lookup_delete_eq.
    - simpl. unfold Hath.splitAfter, getAttribute.
      destruct (attrs h !! "split-after") eqn:E; [|done].
      exfalso. apply Ha. by eexists. }
  split; [|split; [|split; [|split; [|split]]]].
  - intros z h d Hb. destruct (Z.eqb_spec z 0) as [->|Hz]; [by apply Hrm|].
    rewrite hath_set_then_get.
    + by rewrite parseInt_num_to_string.
    + unfold JS.truthy_num. by rewrite (proj2 (Z.eqb_neq z 0)).
    + rewrite num_to_string_small by done. apply decimal_nonempty.
  - intros h d. by apply Hrm.
  - intros z h d Hb. rewrite gwistindor_set_then_get, parseInt_num_to_string by done.
    unfold JS.num_or, JS.truthy_num. by destruct (z =? 0).
  - intros h d. by rewrite gwistindor_set_then_get.
  - intros h d. split.
    + by rewrite hath_set_then_get.
    + by rewrite gwistindor_set_then_get.
  - intros negative h d. split.
    + rewrite hath_set_then_get; by destruct negative.
    + rewrite gwistindor_set_then_get. by destruct negative.
Qed.

Section Icon.

Lemma thann_render_attrs h d :
  attrs (Thann.render h d).1
  = if JS.truthy_str (Thann.label h)
    then <["aria-label" := JS.str_of_null (Thann.label h)]> (<["role" := "img"]> (attrs h))
    else delete "aria-label" (delete "role" (attrs h)).
Proof.
  unfold Thann.render. destruct (JS.truthy_str (Thann.label h));
    match goal with |- context [JS.truthy_str (Thann.space ?x)] =>
      destruct (JS.truthy_str (Thann.space x)) end; reflexivity.
Qed.

Lemma thann_render_no_space h d :
  attrs h !! "space" = None ->
  dataset (Thann.render h d).1 = dataset h /\ style (Thann.render h d).1 = style h /\
  (Thann.render h d).2 = d.
Proof.
  intros Hs. unfold Thann.render.
  destruct (JS.truthy_str (Thann.label h));
    match goal with |- context [JS.truthy_str (Thann.space ?x)] =>
      assert (E : Thann.space x = None) end;
    try (unfold Thann.space, getAttribute; simpl;
         rewrite ?lookup_insert_ne, ?lookup_delete_ne by done; exact Hs);
    rewrite E; done.
Qed.

End Icon.

(** The icon layout keeps [role] and [aria-label] in line with [label]:
    after a render the element has [role="img"] and the label as
    [aria-label] exactly when [label] is a non-empty string, and without
    one both attributes are gone, also a [role] that the author wrote.
    The gap is only ever written: when the [space] attribute is removed,
    [data-i] and [--thann-space] stay as the last render with a gap left
    them. *)
Theorem thann_render_facts h d :
  let h' := (Thann.render h d).1 in
  (attrs h' !! "role" = if JS.truthy_str (Thann.label h) then Some "img" else None) /\
  (attrs h' !! "aria-label" = if JS.truthy_str (Thann.label h) then Thann.label h else None) /\
  (forall d',
     let h'' := (Thann.set_attribute "space" None h' d').1 in
     dataset h'' !! "i" = dataset h' !! "i" /\
     style h'' !! "--thann-space" = style h' !! "--thann-space" /\
     (Thann.set_attribute "space" None h' d').2 = d').
Proof.
  intros h'. split; [|split].
  - subst h'. rewrite thann_render_attrs. destruct (JS.truthy_str (Thann.label h)).
    + by rewrite lookup_insert_ne, lookup_insert_eq.
    + by rewrite lookup_delete_ne, lookup_delete_eq.
  - subst h'. rewrite thann_render_attrs.
    destruct (JS.truthy_str (Thann.label h)) eqn:E.
    + rewrite lookup_insert_eq. unfold Thann.label in *. by destruct (getAttribute h "label").
    + by rewrite lookup_delete_eq.
  - intros d' h''. subst h''. unfold Thann.set_attribute.
    rewrite bool_decide_true by (by left).
    destruct (thann_render_no_space (removeAttribute "space" h') d') as (E1 & E2 & E3).
    { simpl. apply lookup_delete_eq. }
    by rewrite E1, E2, E3.
Qed.

(** ** The grid's children *)

Lemma miriant_render_fields s :
  Miriant.children (Miriant.render s) = Miriant.children s /\
  Miriant.mutationObserver (Miriant.render s) = Miriant.mutationObserver s /\
  Miriant.has_MutationObserver (Miriant.render s) = Miriant.has_MutationObserver s /\
  Miriant.parse_line (Miriant.render s) = Miriant.parse_line s /\
  Miriant.observing (Miriant.render s) = Miriant.observing s.
Proof.
  unfold Miriant.render. by destruct (Miriant.render_style _ _).
Qed.

Lemma miriant_style_iter n s :
  Miriant.parse_line (Nat.iter n Miriant.styleChildren s) = Miriant.parse_line s /\
  Miriant.has_MutationObserver (Nat.iter n Miriant.styleChildren s)
    = Miriant.has_MutationObserver s /\
  Miriant.observing (Nat.iter n Miriant.styleChildren s) = Miriant.observing s.
Proof.
  induction n as [|n IH]; [done|]. by rewrite Nat.iter_succ.
Qed.

Lemma miriant_step_env s e :
  Miriant.parse_line (Miriant.step s e) = Miriant.parse_line s /\
  Miriant.has_MutationObserver (Miriant.step s e) = Miriant.has_MutationObserver s.
Proof.
  destruct e as [| |k v|cs|o n]; cbn [Miriant.step].
  - unfold Miriant.connectedCallback, Miriant.setupChildObserver.
    destruct (miriant_render_fields s) as (_ & _ & Hm & Hp & _).
    destruct (negb _); [done|]. cbn -[Miriant.render]. by rewrite Hm, Hp.
  - unfold Miriant.disconnectedCallback. by destruct (Miriant.mutationObserver s).
  - destruct (miriant_render_fields (Miriant.set_attribute k v s)) as (_ & _ & Hm & Hp & _).
    by rewrite Hm, Hp.
  - done.
  - destruct (bool_decide _); [|done].
    by destruct (miriant_style_iter n s) as (-> & -> & _).
Qed.

Lemma miriant_run_env s es :
  Miriant.parse_line (Miriant.run s es) = Miriant.parse_line s /\
  Miriant.has_MutationObserver (Miriant.run s es) = Miriant.has_MutationObserver s.
Proof.
  unfold Miriant.run. induction es as [|e es IH] using rev_ind; [done|].
  rewrite foldl_app. cbn [foldl].
  destruct (miriant_step_env (foldl Miriant.step s es) e) as [-> ->]. done.
Qed.

Lemma style_child_placement p c :
  Miriant.placement (Miriant.style_child p c) = Miriant.placement c.
Proof.
  unfold Miriant.style_child, Miriant.placement.
  destruct c as [[a|] [b|] x y]; cbn;
    repeat (match goal with |- context [if ?b then _ else _] => destruct b end; cbn); done.
Qed.

Lemma truthy_some v : v <> "" -> JS.truthy_str (Some v) = true.
Proof. by destruct v. Qed.

Lemma style_child_placed p c : Miriant.placed p (Miriant.style_child p c).
Proof.
  unfold Miriant.style_child, Miriant.placed, Miriant.assign_line.
  destruct c as [[[|a0 a]|] [[|b0 b]|] x y]; cbn;
    (split; intros v w Hv Hne Hp; simplify_eq; by rewrite ?Hp).
Qed.

Lemma style_child_twice p c :
  Miriant.style_child p (Miriant.style_child p c) = Miriant.style_child p c.
Proof.
  unfold Miriant.style_child, Miriant.assign_line.
  destruct c as [[[|a0 a]|] [[|b0 b]|] x y]; cbn; try done;
    repeat (match goal with |- context [p ?v] => destruct (p v) eqn:? end; cbn);
    done.
Qed.

(** A child without a placement attribute keeps the line it has, whatever
    it is. *)
Lemma style_child_keeps p c :
  (JS.truthy_str (Miriant.colStart c) = false ->
   Miriant.gridColumnStart (Miriant.style_child p c) = Miriant.gridColumnStart c) /\
  (JS.truthy_str (Miriant.rowStart c) = false ->
   Miriant.gridRowStart (Miriant.style_child p c) = Miriant.gridRowStart c).
Proof.
  unfold Miriant.style_child, Miriant.assign_line.
  destruct c as [[[|a0 a]|] [[|b0 b]|] x y]; cbn; split; done.
Qed.

Lemma styleChildren_iter_children n s :
  Miriant.children (Nat.iter (S n) Miriant.styleChildren s)
  = Miriant.style_child (Miriant.parse_line s) <$> Miriant.children s.
Proof.
  induction n as [|n IH]; [done|].
  rewrite Nat.iter_succ. set (t := Nat.iter (S n) _ s) in *.
  unfold Miriant.styleChildren. cbn [Miriant.children Miriant.set_children].
  rewrite IH. subst t. destruct (miriant_style_iter (S n) s) as (-> & _).
  rewrite <- list_fmap_compose. apply list_fmap_ext. intros _ c _. cbn.
  apply style_child_twice.
Qed.

(** After a child-list notification from an observer that is still
    connected, every child has the lines its placement attributes ask for,
    where the style parser accepts them; the placement attributes are as
    they were, a child without one keeps the line it had, and a second
    pass over the children changes nothing. *)
Theorem miriant_placement_applied (s : Miriant.State) (es : list Miriant.Event)
    (o : nat) (n : nat) :
  o ∈ Miriant.observing (Miriant.run s es) ->
  let before := Miriant.run s es in
  let after := Miriant.run s (es ++ [Miriant.Notify o (S n)]) in
  Forall (Miriant.placed (Miriant.parse_line s)) (Miriant.children after) /\
  Miriant.placement <$> Miriant.children after
    = Miriant.placement <$> Miriant.children before /\
  Forall2 (fun c c' =>
    (JS.truthy_str (Miriant.colStart c) = false ->
     Miriant.gridColumnStart c' = Miriant.gridColumnStart c) /\
    (JS.truthy_str (Miriant.rowStart c) = false ->
     Miriant.gridRowStart c' = Miriant.gridRowStart c))
    (Miriant.children before) (Miriant.children after) /\
  Miriant.children (Miriant.styleChildren after) = Miriant.children after.
Proof.
  intros Ho before after. subst after. unfold Miriant.run in *.
  rewrite foldl_app. cbn [foldl Miriant.step]. fold before.
  rewrite bool_decide_true by done.
  rewrite styleChildren_iter_children.
  destruct (miriant_run_env s es) as [Hp _]. unfold Miriant.run in Hp. fold before in Hp.
  rewrite Hp.
  split; [|split; [|split]].
  - apply Forall_fmap, Forall_true. intros c. apply style_child_placed.
  - rewrite <- list_fmap_compose. apply list_fmap_ext. intros _ c _. cbn.
    apply style_child_placement.
  - apply Forall2_fmap_r, Forall2_same_length_lookup_2; [done|].
    intros i c c' H1 H2. simplify_eq. apply style_child_keeps.
  - change (Miriant.styleChildren (Nat.iter (S n) Miriant.styleChildren before))
      with (Nat.iter (S (S n)) Miriant.styleChildren before).
    by rewrite styleChildren_iter_children, Hp.
Qed.

Lemma miriant_placement_applied_witness :
  let s := Miriant.init (host_of [])
             [Miriant.mkChild (Some "2") None "" ""] true Some empty_document in
  let es := [Miriant.Attach;
             Miriant.SetChildren [Miriant.mkChild (Some "3") None "auto" "7"]] in
  (1%nat ∈ Miriant.observing (Miriant.run s es)) /\
  Forall (Miriant.placed Some)
         (Miriant.children (Miriant.run s (es ++ [Miriant.Notify 1%nat 1%nat]))).
Proof.
  intros s es.
  assert (1%nat ∈ Miriant.observing (Miriant.run s es)) as Ho
    by (apply (bool_decide_unpack _); vm_compute; exact I).
  split; [exact Ho|].
  exact (proj1 (miriant_placement_applied s es 1%nat 0%nat Ho)).
Defined.

(** Without [MutationObserver] the element never touches its children:
    whatever happens, they are as the environment left them. *)
Theorem miriant_children_need_observer (h : Host) (cs : list Miriant.Child)
    (p : string -> option string) (d : Document) (es : list Miriant.Event) :
  Miriant.children (Miriant.run (Miriant.init h cs false p d) es)
  = Miriant.env_children cs es /\
  Miriant.mutationObserver (Miriant.run (Miriant.init h cs false p d) es) = None /\
  Miriant.observing (Miriant.run (Miriant.init h cs false p d) es) = ∅.
Proof.
  unfold Miriant.run, Miriant.env_children.
  induction es as [|e es IH] using rev_ind; [done|].
  rewrite !foldl_app. cbn [foldl].
  destruct IH as (IH1 & IH2 & IH3). rewrite <- IH1.
  pose proof (miriant_run_env (Miriant.init h cs false p d) es) as [_ Hm].
  unfold Miriant.run in Hm. cbn [Miriant.init Miriant.has_MutationObserver] in Hm.
  set (s := foldl Miriant.step _ es) in *.
  destruct e as [| |k v|cs'|o n]; cbn [Miriant.step].
  - unfold Miriant.connectedCallback, Miriant.setupChildObserver.
    destruct (miriant_render_fields s) as (H1 & H2 & H3 & _ & H5).
    rewrite H3, Hm. cbn [negb]. by rewrite H1, H2, H5.
  - unfold Miriant.disconnectedCallback. by rewrite IH2.
  - destruct (miriant_render_fields (Miriant.set_attribute k v s)) as (H1 & H2 & _ & _ & H5).
    by rewrite H1, H2, H5.
  - done.
  - rewrite bool_decide_false; [done|]. rewrite IH3. apply not_elem_of_empty.
Qed.

(** ** View transitions *)

Lemma getPropertyValue_set k v h k' :
  Transitions.getPropertyValue (setProperty k v h) k'
  = if bool_decide (k' = k) then v else Transitions.getPropertyValue h k'.
Proof.
  unfold Transitions.getPropertyValue, setProperty. cbn.
  destruct (decide (k' = k)) as [->|Hne].
  - rewrite (bool_decide_true (k = k)) by done.
    destruct (decide (v = "")) as [->|Hv].
    + rewrite bool_decide_true by done. by rewrite lookup_delete_eq.
    + rewrite bool_decide_false by done. by rewrite lookup_insert_eq.
  - rewrite (bool_decide_false (k' = k)) by done.
    destruct (bool_decide (v = "")).
    + by rewrite lookup_delete_ne.
    + by rewrite lookup_insert_ne.
Qed.

Lemma or_default_empty v : JS.or_default (Some v) "" = v.
Proof. by destruct v. Qed.

Lemma transitions_step_supports s e :
  Transitions.supportsViewTransitions (Transitions.step s e)
  = Transitions.supportsViewTransitions s.
Proof.
  destruct e as [cb o|i|i|i]; cbn [Transitions.step]; try done.
  - unfold Transitions.transition. by destruct (negb _).
  - by destruct (Transitions.find_transition i s).
  - by destruct (Transitions.find_transition i s).
Qed.

Lemma transitions_run_supports s es :
  Transitions.supportsViewTransitions (Transitions.run s es)
  = Transitions.supportsViewTransitions s.
Proof.
  unfold Transitions.run. induction es as [|e es IH] using rev_ind; [done|].
  rewrite foldl_app. cbn [foldl]. by rewrite transitions_step_supports.
Qed.

Lemma transitions_filter_bound (f : Transitions.ViewTransition -> bool) n l :
  Forall (fun vt => (Transitions.vt_id vt < n)%nat) l ->
  Forall (fun vt => (Transitions.vt_id vt < n)%nat) (List.filter f l).
Proof.
  induction 1 as [|vt l Hvt Hl IH]; cbn; [done|].
  destruct (f vt); [by apply List.Forall_cons|done].
Qed.

(** Every unsettled view transition has a number below the next one. *)
Lemma transitions_run_bound r b es :
  Forall (fun vt => (Transitions.vt_id vt
                     < Transitions.next_transition (Transitions.run (Transitions.init r b) es))%nat)
         (Transitions.transitions (Transitions.run (Transitions.init r b) es)).
Proof.
  unfold Transitions.run. induction es as [|e es IH] using rev_ind; [by apply List.Forall_nil|].
  rewrite foldl_app. cbn [foldl]. set (s := foldl Transitions.step _ es) in *.
  destruct e as [cb o|i|i|i]; cbn [Transitions.step].
  - unfold Transitions.transition. destruct (negb _); [done|].
    cbn [Transitions.transitions Transitions.next_transition].
    apply Forall_app. split.
    + eapply Forall_impl; [exact IH|]. cbn. lia.
    + apply Forall_singleton. cbn. lia.
  - by destruct (Transitions.find_transition i s).
  - destruct (Transitions.find_transition i s); [|done].
    by apply transitions_filter_bound.
  - by apply transitions_filter_bound.
Qed.

Lemma transitions_updates s es :
  Forall (fun e => Transitions.is_update e = true) es ->
  Transitions.root (Transitions.run s es) = Transitions.root s /\
  Transitions.transitions (Transitions.run s es) = Transitions.transitions s /\
  Transitions.next_transition (Transitions.run s es) = Transitions.next_transition s.
Proof.
  unfold Transitions.run. induction es as [|e es IH] using rev_ind; [done|].
  rewrite Forall_app, Forall_singleton. intros [He1 He2].
  rewrite foldl_app. cbn [foldl]. destruct (IH He1) as (<- & <- & <-).
  destruct e as [cb o|i|i|i]; try discriminate He2. cbn [Transitions.step].
  by destruct (Transitions.find_transition i _).
Qed.

Lemma find_fresh i l vt :
  Forall (fun vt => (Transitions.vt_id vt < i)%nat) l ->
  Transitions.vt_id vt = i ->
  List.find (fun vt => Nat.eqb (Transitions.vt_id vt) i) (l ++ [vt]) = Some vt.
Proof.
  intros Hl Hi. induction Hl as [|x l Hx Hl IH]; cbn.
  - by rewrite Hi, Nat.eqb_refl.
  - destruct (Nat.eqb_spec (Transitions.vt_id x) i) as [He|_]; [lia|]. exact IH.
Qed.

Lemma filter_fresh_id i l vt :
  Forall (fun vt => (Transitions.vt_id vt < i)%nat) l ->
  Transitions.vt_id vt = i ->
  List.filter (fun vt => negb (Nat.eqb (Transitions.vt_id vt) i)) (l ++ [vt]) = l.
Proof.
  intros Hl Hi. induction Hl as [|x l Hx Hl IH]; cbn.
  - by rewrite Hi, Nat.eqb_refl.
  - destruct (Nat.eqb_spec (Transitions.vt_id x) i) as [He|_]; [lia|]. cbn. by rewrite IH.
Qed.

(** The root's properties after a transition started in [s] was restored. *)
Lemma restore_after_start cb o s k :
  Transitions.supportsViewTransitions s = true ->
  let s1 := Transitions.transition cb o s in
  exists vt,
    Transitions.transitions s1 = Transitions.transitions s ++ [vt] /\
    Transitions.vt_id vt = Transitions.next_transition s /\
    Transitions.next_transition s1 = S (Transitions.next_transition s) /\
    Transitions.getPropertyValue (Transitions.restore vt (Transitions.root s1)) k
    = Transitions.getPropertyValue (Transitions.root s) k.
Proof.
  intros Hs s1. subst s1. unfold Transitions.transition. rewrite Hs. cbn [negb].
  eexists. split; [reflexivity|]. split; [reflexivity|]. split; [reflexivity|].
  unfold Transitions.restore.
  cbn [Transitions.options Transitions.originalDuration Transitions.originalEasing
       Transitions.root].
  rewrite !or_default_empty.
  destruct (Transitions.duration_given o), (Transitions.easing_given o);
    rewrite ?getPropertyValue_set;
    repeat case_bool_decide; subst; try done.
Qed.

(** A transition that runs alone gives the root back as it found it:
    when the view transition finishes, every style property of the root
    reads as it did before the call, whatever the options were. *)
Theorem transition_restores (r : Host) (es0 es : list Transitions.Event)
    (cb : nat) (o : Transitions.Options) (k : string) :
  Forall (fun e => Transitions.is_update e = true) es ->
  let s := Transitions.run (Transitions.init r true) es0 in
  let i := Transitions.next_transition s in
  let s' := Transitions.run s (Transitions.Call cb o :: es ++ [Transitions.Finished i]) in
  Transitions.getPropertyValue (Transitions.root s') k
    = Transitions.getPropertyValue (Transitions.root s) k /\
  Transitions.transitions s' = Transitions.transitions s.
Proof.
  intros Hes s i s'. subst s'.
  pose proof (transitions_run_bound r true es0) as Hb. fold s in Hb. fold i in Hb.
  assert (Transitions.supportsViewTransitions s = true) as Hs
    by (unfold s; by rewrite transitions_run_supports).
  destruct (restore_after_start cb o s k Hs) as (vt & Ht & Hi & Hn & Hr).
  unfold Transitions.run. cbn [foldl]. rewrite foldl_app. cbn [foldl].
  change (Transitions.step s (Transitions.Call cb o)) with (Transitions.transition cb o s).
  set (s1 := Transitions.transition cb o s) in *.
  destruct (transitions_updates s1 es Hes) as (Hr1 & Ht1 & Hn1).
  unfold Transitions.run in Hr1, Ht1, Hn1.
  set (s2 := foldl Transitions.step s1 es) in *.
  cbn [Transitions.step]. unfold Transitions.find_transition.
  rewrite Ht1, Ht, (find_fresh i _ vt Hb Hi).
  unfold Transitions.settle. cbn [Transitions.root Transitions.transitions].
  rewrite Hr1, Ht1, Ht, (filter_fresh_id i _ vt Hb Hi). by split.
Qed.

Lemma transition_restores_witness :
  let o := Transitions.mkOptions (Some (Transitions.Num (JS.Int 500))) (Some "ease-out") None in
  let r := setProperty "--transition-duration" "200ms" (host_of []) in
  Forall (fun e => Transitions.is_update e = true) [Transitions.Update 0%nat] /\
  Transitions.getPropertyValue
    (Transitions.root
       (Transitions.run (Transitions.init r true)
          [Transitions.Call 7%nat o; Transitions.Update 0%nat; Transitions.Finished 0%nat]))
    "--transition-duration" = "200ms".
Proof.
  intros o r.
  assert (Forall (fun e => Transitions.is_update e = true) [Transitions.Update 0%nat]) as H
    by (apply Forall_singleton; reflexivity).
  split; [exact H|].
  exact (proj1 (transition_restores r [] [Transitions.Update 0%nat] 7%nat o
                  "--transition-duration" H)).
Defined.

Lemma find_first i l vt rest :
  Forall (fun vt => (Transitions.vt_id vt < i)%nat) l ->
  Transitions.vt_id vt = i ->
  List.find (fun vt => Nat.eqb (Transitions.vt_id vt) i) (l ++ vt :: rest) = Some vt.
Proof.
  intros Hl Hi. induction Hl as [|x l Hx Hl IH]; cbn.
  - by rewrite Hi, Nat.eqb_refl.
  - destruct (Nat.eqb_spec (Transitions.vt_id x) i) as [He|_]; [lia|]. exact IH.
Qed.

Lemma filter_first i l vt rest :
  Forall (fun vt => (Transitions.vt_id vt < i)%nat) l ->
  Transitions.vt_id vt = i ->
  List.filter (fun vt => negb (Nat.eqb (Transitions.vt_id vt) i)) (l ++ vt :: rest)
  = l ++ List.filter (fun vt => negb (Nat.eqb (Transitions.vt_id vt) i)) rest.
Proof.
  intros Hl Hi. induction Hl as [|x l Hx Hl IH]; cbn.
  - by rewrite Hi, Nat.eqb_refl.
  - destruct (Nat.eqb_spec (Transitions.vt_id x) i) as [He|_]; [lia|]. cbn. by rewrite IH.
Qed.

(** What a call with a truthy duration leaves: the override on the root,
    and a view transition that remembers the value it replaced. *)
Lemma transition_start cb o s :
  Transitions.supportsViewTransitions s = true ->
  Transitions.duration_given o = true ->
  let s1 := Transitions.transition cb o s in
  let v := Transitions.duration_text o +:+ "ms" in
  Transitions.supportsViewTransitions s1 = true /\
  Transitions.getPropertyValue (Transitions.root s1) "--transition-duration" = v /\
  Transitions.next_transition s1 = S (Transitions.next_transition s) /\
  exists vt,
    Transitions.transitions s1 = Transitions.transitions s ++ [vt] /\
    Transitions.vt_id vt = Transitions.next_transition s /\
    Transitions.duration_given (Transitions.options vt) = true /\
    Transitions.originalDuration vt
    = Transitions.getPropertyValue (Transitions.root s) "--transition-duration".
Proof.
  intros Hs Hd s1 v. subst s1 v. unfold Transitions.transition. rewrite Hs, Hd. cbn [negb].
  cbn [Transitions.supportsViewTransitions Transitions.root Transitions.next_transition
       Transitions.transitions].
  split; [done|]. split; [|split; [done|]].
  - destruct (Transitions.easing_given o); rewrite ?getPropertyValue_set;
      repeat case_bool_decide; done.
  - eexists. split; [reflexivity|]. by cbn.
Qed.

Lemma restore_duration vt r :
  Transitions.duration_given (Transitions.options vt) = true ->
  Transitions.getPropertyValue (Transitions.restore vt r) "--transition-duration"
  = Transitions.originalDuration vt.
Proof.
  intros Hd. unfold Transitions.restore. rewrite Hd, !or_default_empty.
  destruct (Transitions.easing_given _); rewrite ?getPropertyValue_set;
    repeat case_bool_decide; done.
Qed.

Lemma finished_step s i l vt rest :
  Transitions.transitions s = l ++ vt :: rest ->
  Forall (fun vt => (Transitions.vt_id vt < i)%nat) l ->
  Transitions.vt_id vt = i ->
  Transitions.step s (Transitions.Finished i)
  = Transitions.mkState (Transitions.restore vt (Transitions.root s))
      (l ++ List.filter (fun vt => negb (Nat.eqb (Transitions.vt_id vt) i)) rest)
      (Transitions.called s) (Transitions.supportsViewTransitions s)
      (Transitions.next_transition s).
Proof.
  intros Ht Hl Hi. cbn [Transitions.step].
  unfold Transitions.find_transition, Transitions.settle.
  by rewrite Ht, (find_first i l vt rest Hl Hi), (filter_first i l vt rest Hl Hi).
Qed.

(** Two transitions that overlap do not give the root back: when both
    override the duration and the first finishes before the second, the
    root ends with the first one's duration, not with the value it had
    before the two calls. *)
Theorem transitions_overlap_leaks (r : Host) (es0 : list Transitions.Event)
    (c1 c2 : nat) (o1 o2 : Transitions.Options) :
  Transitions.duration_given o1 = true ->
  Transitions.duration_given o2 = true ->
  let s := Transitions.run (Transitions.init r true) es0 in
  let i := Transitions.next_transition s in
  let s' := Transitions.run s [Transitions.Call c1 o1; Transitions.Call c2 o2;
                               Transitions.Finished i; Transitions.Finished (S i)] in
  Transitions.getPropertyValue (Transitions.root s') "--transition-duration"
    = Transitions.duration_text o1 +:+ "ms" /\
  Transitions.transitions s' = Transitions.transitions s.
Proof.
  intros H1 H2 s i s'. subst s'.
  pose proof (transitions_run_bound r true es0) as Hb. fold s in Hb. fold i in Hb.
  assert (Transitions.supportsViewTransitions s = true) as Hs
    by (unfold s; by rewrite transitions_run_supports).
  unfold Transitions.run. cbn [foldl].
  change (Transitions.step s (Transitions.Call c1 o1)) with (Transitions.transition c1 o1 s).
  destruct (transition_start c1 o1 s Hs H1) as (Hs1 & Hv1 & Hn1 & vt1 & Ht1 & Hi1 & Hd1 & Ho1).
  set (s1 := Transitions.transition c1 o1 s) in *.
  change (Transitions.step s1 (Transitions.Call c2 o2)) with (Transitions.transition c2 o2 s1).
  destruct (transition_start c2 o2 s1 Hs1 H2) as (Hs2 & Hv2 & Hn2 & vt2 & Ht2 & Hi2 & Hd2 & Ho2).
  set (s2 := Transitions.transition c2 o2 s1) in *.
  fold i in Hi1. rewrite Hn1 in Hi2. fold i in Hi2.
  rewrite Ht1, <- app_assoc in Ht2. cbn [app] in Ht2.
  rewrite (finished_step s2 i _ vt1 [vt2] Ht2 Hb Hi1).
  cbn [List.filter]. rewrite Hi2.
  replace (S i =? i)%nat with false by (symmetry; apply Nat.eqb_neq; lia).
  cbn [negb].
  assert (Forall (fun vt => (Transitions.vt_id vt < S i)%nat) (Transitions.transitions s)) as Hb'
    by (eapply Forall_impl; [exact Hb|]; cbn; lia).
  erewrite (finished_step _ (S i) (Transitions.transitions s) vt2 []);
    [|reflexivity|exact Hb'|exact Hi2].
  cbn [Transitions.transitions Transitions.root List.filter]. rewrite app_nil_r.
  split; [|done].
  by rewrite (restore_duration vt2 _ Hd2), Ho2, Hv1.
Qed.

Lemma transitions_overlap_leaks_witness :
  let o1 := Transitions.mkOptions (Some (Transitions.Num (JS.Int 500))) None None in
  let o2 := Transitions.mkOptions (Some (Transitions.Num (JS.Int 300))) None None in
  Transitions.getPropertyValue
    (Transitions.root
       (Transitions.run (Transitions.init (host_of []) true)
          [Transitions.Call 1%nat o1; Transitions.Call 2%nat o2;
           Transitions.Finished 0%nat; Transitions.Finished 1%nat]))
    "--transition-duration" = "500ms".
Proof.
  intros o1 o2.
  exact (proj1 (transitions_overlap_leaks (host_of []) [] 1%nat 2%nat o1 o2 eq_refl eq_refl)).
Defined.

(** A view transition whose [finished] promise rejects leaves its
    override on the root: the duration stays the one of the call, and no
    view transition is left that would restore it. *)
Theorem transition_rejected_keeps_override (r : Host) (es0 es : list Transitions.Event)
    (cb : nat) (o : Transitions.Options) :
  Transitions.duration_given o = true ->
  Forall (fun e => Transitions.is_update e = true) es ->
  let s := Transitions.run (Transitions.init r true) es0 in
  let i := Transitions.next_transition s in
  let s' := Transitions.run s (Transitions.Call cb o :: es ++ [Transitions.Rejected i]) in
  Transitions.getPropertyValue (Transitions.root s') "--transition-duration"
    = Transitions.duration_text o +:+ "ms" /\
  Transitions.transitions s' = Transitions.transitions s.
Proof.
  intros Hd Hes s i s'. subst s'.
  pose proof (transitions_run_bound r true es0) as Hb. fold s in Hb. fold i in Hb.
  assert (Transitions.supportsViewTransitions s = true) as Hs
    by (unfold s; by rewrite transitions_run_supports).
  unfold Transitions.run. cbn [foldl]. rewrite foldl_app. cbn [foldl].
  change (Transitions.step s (Transitions.Call cb o)) with (Transitions.transition cb o s).
  destruct (transition_start cb o s Hs Hd) as (Hs1 & Hv1 & Hn1 & vt1 & Ht1 & Hi1 & Hd1 & Ho1).
  set (s1 := Transitions.transition cb o s) in *.
  destruct (transitions_updates s1 es Hes) as (Hr2 & Ht2 & Hn2).
  unfold Transitions.run in Hr2, Ht2, Hn2.
  set (s2 := foldl Transitions.step s1 es) in *.
  cbn [Transitions.step]. unfold Transitions.settle.
  cbn [Transitions.root Transitions.transitions].
  rewrite Hr2, Ht2, Ht1, (filter_first i _ vt1 [] Hb Hi1). cbn [List.filter].
  by rewrite app_nil_r.
Qed.

Lemma transition_rejected_keeps_override_witness :
  let o := Transitions.mkOptions (Some (Transitions.Other true "0.5")) None None in
  Transitions.getPropertyValue
    (Transitions.root
       (Transitions.run (Transitions.init (host_of []) true)
          [Transitions.Call 1%nat o; Transitions.Update 0%nat; Transitions.Rejected 0%nat]))
    "--transition-duration" = "0.5ms".
Proof.
  intros o.
  assert (Forall (fun e => Transitions.is_update e = true) [Transitions.Update 0%nat]) as H
    by (apply Forall_singleton; reflexivity).
  exact (proj1 (transition_rejected_keeps_override (host_of []) [] [Transitions.Update 0%nat]
                  1%nat o eq_refl H)).
Defined.

(** Without view transitions a call only runs its update callback, at
    once: the root is never written, no view transition is started, and the
    callbacks have run in the order of the calls. *)
Theorem transition_without_support (r : Host) (es : list Transitions.Event) :
  let s' := Transitions.run (Transitions.init r false) es in
  Transitions.root s' = r /\
  Transitions.transitions s' = [] /\
  Transitions.called s' = Transitions.callbacks es.
Proof.
  cbn zeta. unfold Transitions.run, Transitions.callbacks.
  induction es as [|e es IH] using rev_ind; [done|].
  rewrite foldl_app, omap_app. cbn [foldl].
  pose proof (transitions_run_supports (Transitions.init r false) es) as Hs.
  unfold Transitions.run in Hs. cbn [Transitions.init Transitions.supportsViewTransitions] in Hs.
  set (s := foldl Transitions.step _ es) in *.
  destruct IH as (IH1 & IH2 & IH3).
  destruct e as [cb o|i|i|i]; cbn [Transitions.step omap]; rewrite ?app_nil_r.
  - unfold Transitions.transition. rewrite Hs. cbn. by rewrite IH3.
  - unfold Transitions.find_transition. by rewrite IH2.
  - unfold Transitions.find_transition. by rewrite IH2.
  - unfold Transitions.settle. cbn. by rewrite IH2.
Qed.
